(** * Aggregation rows and cut generation of SCIP (src/scip/cuts.c)

    A shallow embedding of the aggregation row, of the c-MIR and strong CG
    pipelines and of the flow cover search of [cuts.c].  [SCIP_Real] is
    embedded as [Q]: every arithmetic operation of the source is carried out
    exactly, and the compensated double-double sums of the flow cover code
    are plain rational sums.  The arrays [inds]/[vals] of a sparse vector are
    embedded by their live prefix [0, nnz), so [nnz] is the length of the
    lists; a dense position buffer ([varpos], a clean buffer array) is a
    total function from problem indices to positions. *)

From Stdlib Require Import QArith Qabs Qround ZArith List Bool Lia Lqa.
From Stdlib Require Import Permutation Sorted PeanoNat.
Import ListNotations.

Set Implicit Arguments.
Open Scope Q_scope.

(* ================================================================== *)
(** ** Numerics *)
(* ================================================================== *)

Definition Qlt_bool (x y : Q) : bool := negb (Qle_bool y x).

(** [MAX] and [MIN] of def.h. *)
Definition MAX (x y : Q) : Q := if Qle_bool y x then x else y.
Definition MIN (x y : Q) : Q := if Qle_bool x y then x else y.
Definition REALABS (x : Q) : Q := Qabs x.

(** Modelled from the spec: the numeric tolerance oracle (the [EPS*] macros of
    def.h and the [SCIPis*], [SCIPfloor], [SCIPceil] wrappers of scip.c are
    not part of the sources at hand).  The settings carry the three
    tolerances and the infinity sentinel; the comparison predicates follow
    set.c (absolute tolerance for the epsilon and sum-epsilon families,
    relative difference for the feasibility family). *)
Record SCIP_SET : Type := mkSet {
  num_epsilon    : Q;
  num_sumepsilon : Q;
  num_feastol    : Q;
  num_infinity   : Q
}.

Definition EPSFLOOR (x eps : Q) : Q := inject_Z (Qfloor (x + eps)).
Definition EPSCEIL  (x eps : Q) : Q := inject_Z (Qceiling (x - eps)).
Definition EPSFRAC  (x eps : Q) : Q := x - EPSFLOOR x eps.
Definition EPSZ     (x eps : Q) : bool := Qle_bool (REALABS x) eps.
Definition EPSISINT (x eps : Q) : bool := Qle_bool (EPSFRAC x eps) eps.

(** relative difference: (val1-val2)/max(|val1|,|val2|,1.0), set.c *)
Definition SCIPrelDiff (val1 val2 : Q) : Q :=
  let absval1 := REALABS val1 in
  let absval2 := REALABS val2 in
  let quot := MAX absval1 absval2 in
  let quot := MAX quot 1 in
  (val1 - val2) / quot.

Section Tolerances.
Variable set : SCIP_SET.

Definition SCIPepsilon    : Q := num_epsilon set.
Definition SCIPsumepsilon : Q := num_sumepsilon set.
Definition SCIPfeastol    : Q := num_feastol set.
Definition SCIPinfinity   : Q := num_infinity set.

Definition SCIPisInfinity (val : Q) : bool := Qle_bool SCIPinfinity val.

Definition SCIPisEQ (a b : Q) : bool := Qle_bool (REALABS (a - b)) SCIPepsilon.
Definition SCIPisLT (a b : Q) : bool := Qlt_bool (a - b) (- SCIPepsilon).
Definition SCIPisLE (a b : Q) : bool := Qle_bool (a - b) SCIPepsilon.
Definition SCIPisGT (a b : Q) : bool := Qlt_bool SCIPepsilon (a - b).
Definition SCIPisGE (a b : Q) : bool := Qle_bool (- SCIPepsilon) (a - b).
Definition SCIPisZero (a : Q) : bool := EPSZ a SCIPepsilon.
Definition SCIPisPositive (a : Q) : bool := Qlt_bool SCIPepsilon a.
Definition SCIPisNegative (a : Q) : bool := Qlt_bool a (- SCIPepsilon).

Definition SCIPisSumLE (a b : Q) : bool := Qle_bool (a - b) SCIPsumepsilon.
Definition SCIPisSumZero (a : Q) : bool := EPSZ a SCIPsumepsilon.

Definition SCIPfloor (a : Q) : Q := EPSFLOOR a SCIPepsilon.
Definition SCIPceil  (a : Q) : Q := EPSCEIL a SCIPepsilon.
Definition SCIPfrac  (a : Q) : Q := EPSFRAC a SCIPepsilon.

Definition SCIPfeasFloor (a : Q) : Q := EPSFLOOR a SCIPfeastol.
Definition SCIPfeasCeil  (a : Q) : Q := EPSCEIL a SCIPfeastol.
Definition SCIPisFeasIntegral (a : Q) : bool := EPSISINT a SCIPfeastol.
Definition SCIPisFeasZero (a : Q) : bool := EPSZ a SCIPfeastol.
Definition SCIPisFeasLE (a b : Q) : bool := Qle_bool (SCIPrelDiff a b) SCIPfeastol.
Definition SCIPisFeasLT (a b : Q) : bool := Qlt_bool (SCIPrelDiff a b) (- SCIPfeastol).
Definition SCIPisFeasGE (a b : Q) : bool := Qle_bool (- SCIPfeastol) (SCIPrelDiff a b).
Definition SCIPisFeasGT (a b : Q) : bool := Qlt_bool SCIPfeastol (SCIPrelDiff a b).
End Tolerances.

(* ================================================================== *)
(** ** Arrays *)
(* ================================================================== *)

(** [a[i] = x]; a store outside the live range is left out (undefined
    behaviour in the source). *)
Fixpoint arr_set (A : Type) (l : list A) (i : nat) (x : A) : list A :=
  match l, i with
  | [], _ => []
  | _ :: t, O => x :: t
  | h :: t, S i' => h :: arr_set t i' x
  end.

Definition arr_get (l : list Q) (i : nat) : Q := nth i l 0.

(** [--nnz; if (i < nnz) a[i] = a[nnz];] on one array. *)
Definition arr_remove (A : Type) (l : list A) (i : nat) : list A :=
  match rev l with
  | [] => []
  | lst :: _ => arr_set (removelast l) i lst
  end.

(** A clean buffer array of positions: all entries are zero initially. *)
Definition POSBUF : Type := nat -> nat.
Definition cleanbuf : POSBUF := fun _ => O.
Definition upd (f : POSBUF) (k v : nat) : POSBUF :=
  fun j => if Nat.eqb j k then v else f j.

(* ================================================================== *)
(** ** Relaxation rows and aggregation rows *)
(* ================================================================== *)

Inductive SCIP_BASESTAT : Type :=
  | SCIP_BASESTAT_LOWER | SCIP_BASESTAT_BASIC | SCIP_BASESTAT_UPPER | SCIP_BASESTAT_ZERO.

(** The part of [struct SCIP_Row] that cuts.c reads; [row_cols] holds
    [cols[i]->var_probindex]. *)
Record SCIP_ROW : Type := mkRow {
  row_cols       : list nat;
  row_vals       : list Q;
  row_lhs        : Q;
  row_rhs        : Q;
  row_constant   : Q;
  row_integral   : bool;
  row_local      : bool;
  row_modifiable : bool;
  row_rank       : Z;
  row_lppos      : Z;
  row_basisstatus : SCIP_BASESTAT
}.

Definition row_len (row : SCIP_ROW) : nat := length (row_cols row).

Record SCIP_AGGRROW : Type := mkAggrRow {
  vals       : list Q;
  inds       : list nat;
  rhs        : Q;
  rowsinds   : list Z;
  slacksign  : list Z;
  rowweights : list Q;
  rank       : Z;
  local      : bool
}.

Definition nnz (aggrrow : SCIP_AGGRROW) : nat := length (inds aggrrow).
Definition nrows (aggrrow : SCIP_AGGRROW) : nat := length (rowsinds aggrrow).

(** [SCIPaggrRowCreate] *)
Definition SCIPaggrRowCreate : SCIP_AGGRROW :=
  mkAggrRow [] [] 0 [] [] [] 0%Z false.

(** [SCIPaggrRowClear] *)
Definition SCIPaggrRowClear (aggrrow : SCIP_AGGRROW) : SCIP_AGGRROW :=
  mkAggrRow [] [] 0 [] [] [] 0%Z false.

(** *** [varVecAddScaledRowCoefs] *)

(** remember positions of non-zeros in the given row *)
Fixpoint rememberPositions (cols : list nat) (i : nat) (varpos : POSBUF) : POSBUF :=
  match cols with
  | [] => varpos
  | c :: cols' => rememberPositions cols' (S i) (upd varpos c (S i))
  end.

(** add all values that the vector has in common with the given row *)
Fixpoint addCommon (inds : list nat) (vals : list Q) (rowvals : list Q) (scale : Q)
           (varpos : POSBUF) : list Q * POSBUF :=
  match inds, vals with
  | j :: inds', v :: vals' =>
        if Nat.eqb (varpos j) 0 then
          let '(vs, vp) := addCommon inds' vals' rowvals scale varpos in (v :: vs, vp)
        else
          let v' := v + scale * arr_get rowvals (varpos j - 1) in
          let '(vs, vp) := addCommon inds' vals' rowvals scale (upd varpos j 0) in
          (v' :: vs, vp)
  | _, _ => ([], varpos)
  end.

(** add the remaining non-zeros of the row at the end of the vector *)
Fixpoint addRemaining (cols : list nat) (rowvals : list Q) (scale : Q)
           (inds : list nat) (vals : list Q) (varpos : POSBUF)
  : list nat * list Q * POSBUF :=
  match cols, rowvals with
  | probindex :: cols', v :: rowvals' =>
        if Nat.eqb (varpos probindex) 0 then
          addRemaining cols' rowvals' scale inds vals varpos
        else
          addRemaining cols' rowvals' scale
                       (inds ++ [probindex]) (vals ++ [v * scale]) (upd varpos probindex 0)
  | _, _ => (inds, vals, varpos)
  end.

Definition varVecAddScaledRowCoefs (inds : list nat) (vals : list Q)
             (row : SCIP_ROW) (scale : Q) : list nat * list Q :=
  match inds with
  | [] =>
        (* the vector is empty: scale the row and copy it *)
        (row_cols row,
         if Qeq_bool scale 1 then row_vals row
         else map (fun v => v * scale) (row_vals row))
  | _ :: _ =>
        let varpos := rememberPositions (row_cols row) 0 cleanbuf in
        let '(vals1, varpos1) := addCommon inds vals (row_vals row) scale varpos in
        let '(inds2, vals2, _) :=
          addRemaining (row_cols row) (row_vals row) scale inds vals1 varpos1 in
        (inds2, vals2)
  end.

(** *** [SCIPaggrRowAddRow] *)

Section AggrRow.
Variable set : SCIP_SET.

Definition SCIPaggrRowAddRow (aggrrow : SCIP_AGGRROW) (row : SCIP_ROW)
           (scale : Q) (sidetype : Z) : SCIP_AGGRROW :=
  let local' := local aggrrow || row_local row in
  let rank' := Z.max (row_rank row) (rank aggrrow) in
  let uselhs :=
    if (sidetype =? -1)%Z then true
    else if (sidetype =? 1)%Z then false
    else SCIPisInfinity set (row_rhs row)
         || (negb (SCIPisInfinity set (- row_lhs row)) && Qlt_bool scale 0) in
  let sideval :=
    if uselhs then
      let sideval := row_lhs row - row_constant row in
      if row_integral row then SCIPfeasCeil set sideval else sideval
    else
      let sideval := row_rhs row - row_constant row in
      if row_integral row then SCIPfeasFloor set sideval else sideval in
  let '(inds', vals') :=
    varVecAddScaledRowCoefs (inds aggrrow) (vals aggrrow) row scale in
  mkAggrRow vals' inds'
            (rhs aggrrow + scale * sideval)
            (rowsinds aggrrow ++ [row_lppos row])
            (slacksign aggrrow ++ [if uselhs then (-1)%Z else 1%Z])
            (rowweights aggrrow ++ [scale])
            rank' local'.

(** *** [addOneRow] and [SCIPaggrRowSumRows] *)

(** add coefficients, keeping the position buffer of the aggregation row *)
Fixpoint addCoefs (cols : list nat) (rowvals : list Q) (weight : Q)
         (vals : list Q) (inds : list nat) (varpos : POSBUF)
  : list Q * list nat * POSBUF :=
  match cols, rowvals with
  | c :: cols', v :: rowvals' =>
      match varpos c with
      | O =>
          addCoefs cols' rowvals' weight
                   (vals ++ [weight * v]) (inds ++ [c])
                   (upd varpos c (S (length inds)))
      | S k =>
          addCoefs cols' rowvals' weight
                   (arr_set vals k (arr_get vals k + weight * v)) inds varpos
      end
  | _, _ => (vals, inds, varpos)
  end.

Record SUMSTATE : Type := mkSumState {
      ss_aggrrow      : SCIP_AGGRROW;
      ss_minabsweight : Q;
      ss_maxabsweight : Q;
      ss_varpos       : POSBUF;
      ss_rowtoolong   : bool
}.

Definition addOneRow (st : SUMSTATE) (row : SCIP_ROW) (weight : Q)
           (maxweightrange minallowedweight : Q) (sidetypebasis allowlocal : bool)
           (negslack : Z) (maxaggrlen : nat) : SUMSTATE :=
  let aggrrow := ss_aggrrow st in
  let minabsweight := ss_minabsweight st in
  let maxabsweight := ss_maxabsweight st in
  let varpos := ss_varpos st in
  let skip := mkSumState aggrrow minabsweight maxabsweight varpos false in
  let absweight := REALABS weight in
  if row_modifiable row
     || (row_local row && negb allowlocal)
     || Qlt_bool (maxweightrange * minabsweight) absweight
     || Qlt_bool (maxweightrange * absweight) maxabsweight
     || Qlt_bool absweight minallowedweight
  then skip
  else
    let minabsweight' := MIN minabsweight absweight in
    let maxabsweight' := MAX maxabsweight absweight in
    let skip' := mkSumState aggrrow minabsweight' maxabsweight' varpos false in
    let neglhs := Qlt_bool weight 0 && negb (SCIPisInfinity set (- row_lhs row)) in
    let uselhs :=
      if sidetypebasis && negb (SCIPisEQ set (row_lhs row) (row_rhs row)) then
        match row_basisstatus row with
        | SCIP_BASESTAT_LOWER => true
        | SCIP_BASESTAT_UPPER => false
        | _ => neglhs
        end
      else neglhs in
    let noslack := (negslack =? 0)%Z || ((negslack =? 1)%Z && negb (row_integral row)) in
    if (if uselhs then Qlt_bool 0 weight && noslack else Qlt_bool weight 0 && noslack)
    then skip'
    else
      let sideval :=
        if uselhs then
          let sideval := row_lhs row - row_constant row in
          if row_integral row then SCIPfeasCeil set sideval else sideval
        else
          let sideval := row_rhs row - row_constant row in
          if row_integral row then SCIPfeasFloor set sideval else sideval in
      let '(vals', inds', varpos') :=
        addCoefs (row_cols row) (row_vals row) weight (vals aggrrow) (inds aggrrow) varpos in
      let aggrrow' :=
        mkAggrRow vals' inds'
                  (rhs aggrrow + sideval * weight)
                  (rowsinds aggrrow ++ [row_lppos row])
                  (slacksign aggrrow ++ [if uselhs then (-1)%Z else 1%Z])
                  (rowweights aggrrow ++ [weight])
                  (Z.max (rank aggrrow) (row_rank row))
                  (local aggrrow || row_local row) in
      mkSumState aggrrow' minabsweight' maxabsweight' varpos'
                 (Nat.ltb maxaggrlen (length inds')).

(** the two summation loops of [SCIPaggrRowSumRows]; the loop is left as
      soon as a row made the aggregation too long *)
Fixpoint sumLoop (rows : list SCIP_ROW) (weights : list Q) (ks : list nat)
         (st : SUMSTATE)
         (maxweightrange minallowedweight : Q) (sidetypebasis allowlocal : bool)
         (negslack : Z) (maxaggrlen : nat) : SUMSTATE :=
  match ks with
  | [] => st
  | k :: ks' =>
      match nth_error rows k with
      | None => st
      | Some row =>
          let st' := addOneRow st row (arr_get weights k) maxweightrange minallowedweight
                               sidetypebasis allowlocal negslack maxaggrlen in
          if ss_rowtoolong st' then st'
          else sumLoop rows weights ks' st' maxweightrange minallowedweight
                       sidetypebasis allowlocal negslack maxaggrlen
      end
  end.

(** remove the zero entries of the live prefix: [fuel] counts the
      iterations that are left, which is [nnz - k] *)
Fixpoint removeZeroEntries (iszero : Q -> bool) (fuel k : nat)
         (vals : list Q) (inds : list nat) : list Q * list nat :=
  match fuel with
  | O => (vals, inds)
  | S fuel' =>
      if iszero (arr_get vals k)
      then removeZeroEntries iszero fuel' k (arr_remove vals k) (arr_remove inds k)
      else removeZeroEntries iszero fuel' (S k) vals inds
  end.

Definition SCIPaggrRowSumRows (aggrrow : SCIP_AGGRROW) (rows : list SCIP_ROW)
           (weights : list Q) (rowinds : option (list nat))
           (maxweightrange minallowedweight : Q) (sidetypebasis allowlocal : bool)
           (negslack : Z) (maxaggrlen : nat) : SCIP_AGGRROW * bool :=
  let st0 := mkSumState (SCIPaggrRowClear aggrrow)
                        (SCIPinfinity set) (- SCIPinfinity set) cleanbuf false in
  let ks := match rowinds with
            | Some rowinds => rowinds
            | None => seq 0 (length rows)
            end in
  let st := sumLoop rows weights ks st0 maxweightrange minallowedweight
                    sidetypebasis allowlocal negslack maxaggrlen in
  let a := ss_aggrrow st in
  let valid := if ss_rowtoolong st then false else Nat.ltb 0 (nnz a) in
  if valid then
    let '(vals', inds') :=
      removeZeroEntries (SCIPisZero set) (nnz a) 0 (vals a) (inds a) in
    (mkAggrRow vals' inds' (rhs a) (rowsinds a) (slacksign a) (rowweights a)
               (rank a) (local a), true)
  else (a, false).

(** [SCIPaggrRowRemoveZeros] *)
Definition SCIPaggrRowRemoveZeros (aggrrow : SCIP_AGGRROW) (epsilon : Q) : SCIP_AGGRROW :=
  let '(vals', inds') :=
    removeZeroEntries (fun v => EPSZ v epsilon) (nnz aggrrow) 0
                      (vals aggrrow) (inds aggrrow) in
  mkAggrRow vals' inds' (rhs aggrrow) (rowsinds aggrrow) (slacksign aggrrow)
            (rowweights aggrrow) (rank aggrrow) (local aggrrow).
End AggrRow.

(** [SCIPaggrRowCopy].  [SCIPduplicateBlockMemoryArray(scip, ptr, source, num)]
    copies [num * sizeof( **ptr )] bytes from [source].  The source duplicates
    [rowsinds] (an [int] array) from [source->vals] (a [SCIP_Real] array), so
    the copy holds the first [nrows] 32-bit words of the memory image of the
    coefficient array. *)
Section AggrRowCopy.
(** Modelled from the spec: the memory image of a [SCIP_Real], as the two
      32-bit words it occupies in address order (the type declaration is not
      part of the sources at hand). *)
Variable real_words : Q -> Z * Z.

Definition words_of_reals (source : list Q) : list Z :=
  flat_map (fun v => [fst (real_words v); snd (real_words v)]) source.

Definition SCIPaggrRowCopy (source : SCIP_AGGRROW) : SCIP_AGGRROW :=
  mkAggrRow (firstn (nnz source) (vals source))
            (firstn (nnz source) (inds source))
            (rhs source)
            (firstn (nrows source) (words_of_reals (vals source)))
            (firstn (nrows source) (slacksign source))
            (firstn (nrows source) (rowweights source))
            (rank source)
            (local source).
End AggrRowCopy.


(* ================================================================== *)
(** ** Dense view of a sparse vector *)
(* ================================================================== *)

(** the coefficient of variable [j] in a sparse vector: the sum of the
    entries stored under index [j] *)
Fixpoint coefOf (inds : list nat) (vals : list Q) (j : nat) : Q :=
  match inds, vals with
  | i :: inds', v :: vals' => (if Nat.eqb i j then v else 0) + coefOf inds' vals' j
  | _, _ => 0
  end.

Definition memb (j : nat) (l : list nat) : bool := existsb (Nat.eqb j) l.

(** every position buffer entry is clean or points at the column it names *)
Definition varpos_row_ok (cols : list nat) (varpos : POSBUF) : Prop :=
  forall c, varpos c = O \/ exists p, varpos c = S p /\ nth_error cols p = Some c.

(** the position buffer of [SCIPaggrRowSumRows] names, for every variable,
    the position of its entry in the aggregation row *)
Definition aggr_varpos_ok (inds : list nat) (varpos : POSBUF) : Prop :=
  (forall c, varpos c = O -> ~ In c inds) /\
  (forall c k, varpos c = S k -> nth_error inds k = Some c).

Definition sum_inv (st : SUMSTATE) : Prop :=
  NoDup (inds (ss_aggrrow st)) /\
  length (vals (ss_aggrrow st)) = length (inds (ss_aggrrow st)) /\
  aggr_varpos_ok (inds (ss_aggrrow st)) (ss_varpos st).

(** the side values a row contributes to the right hand side *)
Definition row_sideval_lhs (set : SCIP_SET) (row : SCIP_ROW) : Q :=
  let sideval := row_lhs row - row_constant row in
  if row_integral row then SCIPfeasCeil set sideval else sideval.

Definition row_sideval_rhs (set : SCIP_SET) (row : SCIP_ROW) : Q :=
  let sideval := row_rhs row - row_constant row in
  if row_integral row then SCIPfeasFloor set sideval else sideval.

(** the default tolerances of SCIP *)
Definition SCIP_DEFAULT_SET : SCIP_SET :=
  mkSet (1 # 1000000000) (1 # 1000000) (1 # 1000000) (100000000000000000000 # 1).

(** *** A small relaxation for the examples *)

(** the row [x0 <= 1] with left hand side [0] *)
Definition example_ranged_row : SCIP_ROW :=
  mkRow [0%nat] [1] 0 1 0 false false false 0%Z 0%Z SCIP_BASESTAT_BASIC.

(** the row [x0 + x1 <= 3] without left hand side *)
Definition example_two_col_row : SCIP_ROW :=
  mkRow [0%nat; 1%nat] [1; 1] (- (100000000000000000000 # 1)) 3 0
        false false false 0%Z 0%Z SCIP_BASESTAT_BASIC.

(* ================================================================== *)
(** ** Variables and the solver environment *)
(* ================================================================== *)

Inductive SCIP_VARTYPE : Type :=
| SCIP_VARTYPE_BINARY | SCIP_VARTYPE_INTEGER | SCIP_VARTYPE_IMPLINT | SCIP_VARTYPE_CONTINUOUS.

Inductive SCIP_BOUNDTYPE : Type :=
| SCIP_BOUNDTYPE_LOWER | SCIP_BOUNDTYPE_UPPER.

Inductive SCIP_RETCODE : Type :=
| SCIP_OKAY | SCIP_INVALIDCALL.

(** The part of a problem variable that cuts.c reads.  The variable bound
    relations [x >= b z + d] and [x <= b z + d] name [z] by its problem
    index. *)
Record SCIP_VAR : Type := mkVar {
  var_type      : SCIP_VARTYPE;
  var_lbglobal  : Q;
  var_ubglobal  : Q;
  var_lblocal   : Q;
  var_ublocal   : Q;
  var_vlbvars   : list nat;
  var_vlbcoefs  : list Q;
  var_vlbconsts : list Q;
  var_vubvars   : list nat;
  var_vubcoefs  : list Q;
  var_vubconsts : list Q
}.

(** The solver state the cut generation reads: settings, the active problem
    variables in the order of their problem indices (continuous variables
    last), the rows of the LP, and the norm that measures cut efficacy
    ([SCIPgetVectorEfficacyNorm], chosen by a setting). *)
Record SCIP : Type := mkSCIP {
  scip_set          : SCIP_SET;
  scip_vars         : list SCIP_VAR;
  scip_ncontvars    : nat;
  scip_lprows       : list SCIP_ROW;
  scip_efficacynorm : list Q -> Q
}.

(** a candidate solution, by problem index *)
Definition SCIP_SOL : Type := nat -> Q.

Definition default_var : SCIP_VAR :=
  mkVar SCIP_VARTYPE_CONTINUOUS 0 0 0 0 [] [] [] [] [] [].

Definition default_row : SCIP_ROW :=
  mkRow [] [] 0 0 0 false false false 0%Z 0%Z SCIP_BASESTAT_BASIC.

Definition SCIPgetNVars (scip : SCIP) : nat := length (scip_vars scip).
Definition getVar (scip : SCIP) (v : nat) : SCIP_VAR := nth v (scip_vars scip) default_var.
Definition getRow (scip : SCIP) (r : Z) : SCIP_ROW :=
  nth (Z.to_nat r) (scip_lprows scip) default_row.
Definition firstcontvar (scip : SCIP) : nat := SCIPgetNVars scip - scip_ncontvars scip.

Definition ind_get (l : list nat) (i : nat) : nat := nth i l O.
Definition int_get (l : list Z) (i : nat) : Z := nth i l 0%Z.

Definition is_continuous (var : SCIP_VAR) : bool :=
  match var_type var with SCIP_VARTYPE_CONTINUOUS => true | _ => false end.

(** Modelled from the spec: [SCIPsortDownIntReal] (misc.c is not part of the
    sources at hand) sorts the index array in non-increasing order and
    permutes the value array in the same way. *)
Fixpoint insertDownIntReal (k : nat) (v : Q) (inds : list nat) (vals : list Q)
  : list nat * list Q :=
  match inds, vals with
  | k' :: inds', v' :: vals' =>
      if Nat.leb k k' then
        let '(si, sv) := insertDownIntReal k v inds' vals' in (k' :: si, v' :: sv)
      else (k :: inds, v :: vals)
  | _, _ => ([k], [v])
  end.

Fixpoint SCIPsortDownIntReal (inds : list nat) (vals : list Q) : list nat * list Q :=
  match inds, vals with
  | k :: inds', v :: vals' =>
      let '(si, sv) := SCIPsortDownIntReal inds' vals' in insertDownIntReal k v si sv
  | _, _ => ([], [])
  end.

(** Modelled from the spec: [SCIPgetVarClosestVlb] and [SCIPgetVarClosestVub]
    (scip.c is not part of the sources at hand) scan the variable bound
    relations of a variable for the one with the largest (lower bounds) or
    smallest (upper bounds) value in the solution; index -1 if there is
    none. *)
Fixpoint closestVlbLoop (sol : SCIP_SOL) (zs : list nat) (bs ds : list Q)
         (i : nat) (best : Q) (bestidx : Z) : Q * Z :=
  match zs, bs, ds with
  | z :: zs', b :: bs', d :: ds' =>
      let vlbsol := b * sol z + d in
      if (bestidx <? 0)%Z || Qlt_bool best vlbsol
      then closestVlbLoop sol zs' bs' ds' (S i) vlbsol (Z.of_nat i)
      else closestVlbLoop sol zs' bs' ds' (S i) best bestidx
  | _, _, _ => (best, bestidx)
  end.

Definition SCIPgetVarClosestVlb (var : SCIP_VAR) (sol : SCIP_SOL) : Q * Z :=
  closestVlbLoop sol (var_vlbvars var) (var_vlbcoefs var) (var_vlbconsts var) 0 0 (-1)%Z.

Fixpoint closestVubLoop (sol : SCIP_SOL) (zs : list nat) (bs ds : list Q)
         (i : nat) (best : Q) (bestidx : Z) : Q * Z :=
  match zs, bs, ds with
  | z :: zs', b :: bs', d :: ds' =>
      let vubsol := b * sol z + d in
      if (bestidx <? 0)%Z || Qlt_bool vubsol best
      then closestVubLoop sol zs' bs' ds' (S i) vubsol (Z.of_nat i)
      else closestVubLoop sol zs' bs' ds' (S i) best bestidx
  | _, _, _ => (best, bestidx)
  end.

Definition SCIPgetVarClosestVub (var : SCIP_VAR) (sol : SCIP_SOL) : Q * Z :=
  closestVubLoop sol (var_vubvars var) (var_vubcoefs var) (var_vubconsts var) 0 0 (-1)%Z.

(* ================================================================== *)
(** ** Cleaning a cut and measuring it *)
(* ================================================================== *)

(** [cleanupCut]: [fuel] counts the iterations that are left ([nnz - i]) *)
Fixpoint cleanupCutLoop (scip : SCIP) (cutislocal : bool) (fuel i : nat)
         (cutinds : list nat) (cutcoefs : list Q) (cutrhs : Q)
  : list nat * list Q * Q :=
  match fuel with
  | O => (cutinds, cutcoefs, cutrhs)
  | S fuel' =>
      let set := scip_set scip in
      let ci := arr_get cutcoefs i in
      if SCIPisSumZero set ci then
        let cutrhs' :=
          if negb (SCIPisInfinity set cutrhs) && negb (SCIPisZero set ci) then
            let var := getVar scip (ind_get cutinds i) in
            if Qlt_bool ci 0 then
              let ub := if cutislocal then var_ublocal var else var_ubglobal var in
              if SCIPisInfinity set ub then SCIPinfinity set else cutrhs - ci * ub
            else
              let lb := if cutislocal then var_lblocal var else var_lbglobal var in
              if SCIPisInfinity set (- lb) then SCIPinfinity set else cutrhs - ci * lb
          else cutrhs in
        cleanupCutLoop scip cutislocal fuel' i
                       (arr_remove cutinds i) (arr_remove cutcoefs i) cutrhs'
      else cleanupCutLoop scip cutislocal fuel' (S i) cutinds cutcoefs cutrhs
  end.

Definition cleanupCut (scip : SCIP) (cutislocal : bool)
           (cutinds : list nat) (cutcoefs : list Q) (cutrhs : Q)
  : list nat * list Q * Q :=
  cleanupCutLoop scip cutislocal (length cutinds) 0 cutinds cutcoefs cutrhs.

Fixpoint cutActivity (sol : SCIP_SOL) (cutinds : list nat) (cutcoefs : list Q) : Q :=
  match cutinds, cutcoefs with
  | v :: cutinds', c :: cutcoefs' => c * sol v + cutActivity sol cutinds' cutcoefs'
  | _, _ => 0
  end.

(** [calcEfficacy] *)
Definition calcEfficacy (scip : SCIP) (sol : SCIP_SOL)
           (cutcoefs : list Q) (cutrhs : Q) (cutinds : list nat) : Q :=
  let norm := MAX (1 # 1000000) (scip_efficacynorm scip cutcoefs) in
  let activity := cutActivity sol cutinds cutcoefs in
  (activity - cutrhs) / norm.

(* ================================================================== *)
(** ** c-MIR: bound selection *)
(* ================================================================== *)

Definition MAXCMIRSCALE : Q := 1000000 # 1.

(** [findBestLb] *)
Definition findBestLb (scip : SCIP) (v : nat) (sol : SCIP_SOL)
           (usevbds allowlocal : bool) : Q * Z :=
  let set := scip_set scip in
  let var := getVar scip v in
  let bestlb := var_lbglobal var in
  let bestlbtype := (-1)%Z in
  let '(bestlb, bestlbtype) :=
    if allowlocal then
      let loclb := var_lblocal var in
      if SCIPisGT set loclb bestlb then (loclb, (-2)%Z) else (bestlb, bestlbtype)
    else (bestlb, bestlbtype) in
  if usevbds && is_continuous var then
    let '(bestvlb, bestvlbidx) := SCIPgetVarClosestVlb var sol in
    if (0 <=? bestvlbidx)%Z
       && (Qlt_bool bestlb bestvlb
           || ((bestlbtype <? 0)%Z && SCIPisGE set bestvlb bestlb))
    then
      if Nat.ltb (ind_get (var_vlbvars var) (Z.to_nat bestvlbidx)) v
      then (bestvlb, bestvlbidx)
      else (bestlb, bestlbtype)
    else (bestlb, bestlbtype)
  else (bestlb, bestlbtype).

(** [findBestUb] *)
Definition findBestUb (scip : SCIP) (v : nat) (sol : SCIP_SOL)
           (usevbds allowlocal : bool) : Q * Z :=
  let set := scip_set scip in
  let var := getVar scip v in
  let bestub := var_ubglobal var in
  let bestubtype := (-1)%Z in
  let '(bestub, bestubtype) :=
    if allowlocal then
      let locub := var_ublocal var in
      if SCIPisLT set locub bestub then (locub, (-2)%Z) else (bestub, bestubtype)
    else (bestub, bestubtype) in
  if usevbds && is_continuous var then
    let '(bestvub, bestvubidx) := SCIPgetVarClosestVub var sol in
    if (0 <=? bestvubidx)%Z
       && (Qlt_bool bestvub bestub
           || ((bestubtype <? 0)%Z && SCIPisLE set bestvub bestub))
    then
      if Nat.ltb (ind_get (var_vubvars var) (Z.to_nat bestvubidx)) v
      then (bestvub, bestvubidx)
      else (bestub, bestubtype)
    else (bestub, bestubtype)
  else (bestub, bestubtype).

Record BESTBOUNDS : Type := mkBestBounds {
  bestlb        : Q;
  bestub        : Q;
  bestlbtype    : Z;
  bestubtype    : Z;
  selectedbound : SCIP_BOUNDTYPE;
  freevariable  : bool
}.

(** [determineBestBounds].  [boundsfortrans = None] is the NULL pointer. *)
Definition determineBestBounds (scip : SCIP) (v : nat) (sol : SCIP_SOL)
           (boundswitch : Q) (usevbds allowlocal fixintegralrhs ignoresol : bool)
           (boundsfortrans : option (list Z)) (boundtypesfortrans : list SCIP_BOUNDTYPE)
  : BESTBOUNDS :=
  let set := scip_set scip in
  let var := getVar scip v in
  let userbound :=
    match boundsfortrans with
    | Some bft => if (-3 <? nth v bft (-3))%Z then Some (nth v bft (-3)%Z) else None
    | None => None
    end in
  match userbound with
  | Some bt =>
      (* user has explicitly specified a bound to be used *)
      match nth v boundtypesfortrans SCIP_BOUNDTYPE_LOWER with
      | SCIP_BOUNDTYPE_LOWER =>
          let bestlb :=
            if (bt =? -1)%Z then var_lbglobal var
            else if (bt =? -2)%Z then var_lblocal var
            else
              let k := Z.to_nat bt in
              arr_get (var_vlbcoefs var) k * sol (ind_get (var_vlbvars var) k)
              + arr_get (var_vlbconsts var) k in
          let '(bestub, bestubtype) :=
            findBestUb scip v sol (usevbds && fixintegralrhs) (allowlocal && fixintegralrhs) in
          mkBestBounds bestlb bestub bt bestubtype SCIP_BOUNDTYPE_LOWER false
      | SCIP_BOUNDTYPE_UPPER =>
          let bestub :=
            if (bt =? -1)%Z then var_ubglobal var
            else if (bt =? -2)%Z then var_ublocal var
            else
              let k := Z.to_nat bt in
              arr_get (var_vubcoefs var) k * sol (ind_get (var_vubvars var) k)
              + arr_get (var_vubconsts var) k in
          let '(bestlb, bestlbtype) :=
            findBestLb scip v sol (usevbds && fixintegralrhs) (allowlocal && fixintegralrhs) in
          mkBestBounds bestlb bestub bestlbtype bt SCIP_BOUNDTYPE_UPPER false
      end
  | None =>
      (* bound selection should be done automatically *)
      let '(bestlb, bestlbtype) := findBestLb scip v sol usevbds allowlocal in
      let '(bestub, bestubtype) := findBestUb scip v sol usevbds allowlocal in
      if SCIPisInfinity set (- bestlb) && SCIPisInfinity set bestub then
        (* we found a free variable in the row with non-zero coefficient *)
        mkBestBounds bestlb bestub bestlbtype bestubtype SCIP_BOUNDTYPE_LOWER true
      else
        let selectedbound :=
          if negb ignoresol then
            let varsol := sol v in
            let switchval := (1 - boundswitch) * bestlb + boundswitch * bestub in
            if SCIPisInfinity set bestub then SCIP_BOUNDTYPE_LOWER
            else if SCIPisInfinity set (- bestlb) then SCIP_BOUNDTYPE_UPPER
            else if SCIPisLT set varsol switchval then SCIP_BOUNDTYPE_LOWER
            else if SCIPisGT set varsol switchval then SCIP_BOUNDTYPE_UPPER
            else if (bestlbtype =? -1)%Z then SCIP_BOUNDTYPE_LOWER
            else if (bestubtype =? -1)%Z then SCIP_BOUNDTYPE_UPPER
            else if (0 <=? bestlbtype)%Z then SCIP_BOUNDTYPE_LOWER
            else if (0 <=? bestubtype)%Z then SCIP_BOUNDTYPE_UPPER
            else SCIP_BOUNDTYPE_LOWER
          else
            let glbub := var_ubglobal var in
            let glblb := var_lbglobal var in
            let distlb := REALABS (glblb - bestlb) in
            let distub := REALABS (glbub - bestub) in
            if SCIPisInfinity set (- bestlb) then SCIP_BOUNDTYPE_UPPER
            else if negb (SCIPisNegative set bestlb) then
              if SCIPisInfinity set bestub then SCIP_BOUNDTYPE_LOWER
              else if SCIPisZero set glblb then SCIP_BOUNDTYPE_LOWER
              else if SCIPisLE set distlb distub then SCIP_BOUNDTYPE_LOWER
              else SCIP_BOUNDTYPE_UPPER
            else SCIP_BOUNDTYPE_LOWER in
        mkBestBounds bestlb bestub bestlbtype bestubtype selectedbound false
  end.

(* ================================================================== *)
(** ** c-MIR: transformation into standard form *)
(* ================================================================== *)

(** The cut under construction: the sparse row, and for every position the
    sign of the transformed variable and the bound used for it. *)
Record CUTSTATE : Type := mkCut {
  cutcoefs     : list Q;
  cutinds      : list nat;
  cutrhs       : Q;
  varsign      : list Z;
  boundtype    : list Z;
  localbdsused : bool
}.

(** determine the best bounds for the continuous variables *)
Fixpoint bestBoundsCont (scip : SCIP) (sol : SCIP_SOL) (boundswitch : Q)
         (usevbds allowlocal fixintegralrhs ignoresol : bool)
         (boundsfortrans : option (list Z)) (boundtypesfortrans : list SCIP_BOUNDTYPE)
         (inds : list nat) : list BESTBOUNDS * bool :=
  match inds with
  | v :: inds' =>
      if Nat.leb (firstcontvar scip) v then
        let bb := determineBestBounds scip v sol boundswitch usevbds allowlocal
                    fixintegralrhs ignoresol boundsfortrans boundtypesfortrans in
        if freevariable bb then ([], true)
        else
          let '(bbs, free) :=
            bestBoundsCont scip sol boundswitch usevbds allowlocal fixintegralrhs
                           ignoresol boundsfortrans boundtypesfortrans inds' in
          (bb :: bbs, free)
      else ([], false)
  | [] => ([], false)
  end.

(** remember positions of integral variables: [inds] is the part of the
    index array from position [i] on; the loop of the source runs backwards,
    so the smallest position of an index is the one that stays *)
Fixpoint rememberIntPositions (inds : list nat) (i : nat) (varpos : POSBUF) : POSBUF :=
  match inds with
  | [] => varpos
  | c :: inds' => upd (rememberIntPositions inds' (S i) varpos) c (S i)
  end.

(** add [delta] to the coefficient of the integral variable [zidx], at the
    end of the row if the variable does not exist in it *)
Definition addToIntCoef (cutcoefs : list Q) (cutinds : list nat) (varpos : POSBUF)
           (zidx : nat) (delta : Q) : list Q * list nat * POSBUF :=
  match varpos zidx with
  | O => (cutcoefs ++ [delta], cutinds ++ [zidx], upd varpos zidx (S (length cutinds)))
  | S k => (arr_set cutcoefs k (arr_get cutcoefs k + delta), cutinds, varpos)
  end.

(** perform bound substitution for continuous variables *)
Fixpoint transformContBounds (scip : SCIP) (bbs : list BESTBOUNDS) (i : nat)
         (st : CUTSTATE) (varpos : POSBUF) : CUTSTATE * POSBUF :=
  match bbs with
  | [] => (st, varpos)
  | bb :: bbs' =>
      let var := getVar scip (ind_get (cutinds st) i) in
      let ci := arr_get (cutcoefs st) i in
      let '(st', varpos') :=
        match selectedbound bb with
        | SCIP_BOUNDTYPE_LOWER =>
            if (bestlbtype bb <? 0)%Z then
              (mkCut (cutcoefs st) (cutinds st) (cutrhs st - ci * bestlb bb)
                     (varsign st ++ [1%Z]) (boundtype st ++ [bestlbtype bb])
                     (localbdsused st || (bestlbtype bb =? -2)%Z), varpos)
            else
              let t := Z.to_nat (bestlbtype bb) in
              let zidx := ind_get (var_vlbvars var) t in
              let '(coefs', inds', varpos') :=
                addToIntCoef (cutcoefs st) (cutinds st) varpos zidx
                             (ci * arr_get (var_vlbcoefs var) t) in
              (mkCut coefs' inds' (cutrhs st - ci * arr_get (var_vlbconsts var) t)
                     (varsign st ++ [1%Z]) (boundtype st ++ [bestlbtype bb])
                     (localbdsused st), varpos')
        | SCIP_BOUNDTYPE_UPPER =>
            if (bestubtype bb <? 0)%Z then
              (mkCut (cutcoefs st) (cutinds st) (cutrhs st - ci * bestub bb)
                     (varsign st ++ [(-1)%Z]) (boundtype st ++ [bestubtype bb])
                     (localbdsused st || (bestubtype bb =? -2)%Z), varpos)
            else
              let t := Z.to_nat (bestubtype bb) in
              let zidx := ind_get (var_vubvars var) t in
              let '(coefs', inds', varpos') :=
                addToIntCoef (cutcoefs st) (cutinds st) varpos zidx
                             (ci * arr_get (var_vubcoefs var) t) in
              (mkCut coefs' inds' (cutrhs st - ci * arr_get (var_vubconsts var) t)
                     (varsign st ++ [(-1)%Z]) (boundtype st ++ [bestubtype bb])
                     (localbdsused st), varpos')
        end in
      transformContBounds scip bbs' (S i) st' varpos'
  end.

(** remove integral variables that now have a zero coefficient and determine
    the bounds of the integral variables that are left; [fuel] is [nnz - i].
    The writes that put the position buffer back to zero are left out. *)
Fixpoint bestBoundsInt (scip : SCIP) (sol : SCIP_SOL) (boundswitch : Q)
         (allowlocal fixintegralrhs ignoresol : bool)
         (boundsfortrans : option (list Z)) (boundtypesfortrans : list SCIP_BOUNDTYPE)
         (fuel i : nat) (coefs : list Q) (inds : list nat) (bbs : list BESTBOUNDS)
  : list Q * list nat * list BESTBOUNDS * bool :=
  match fuel with
  | O => (coefs, inds, bbs, false)
  | S fuel' =>
      if SCIPisZero (scip_set scip) (arr_get coefs i) then
        bestBoundsInt scip sol boundswitch allowlocal fixintegralrhs ignoresol
                      boundsfortrans boundtypesfortrans fuel' i
                      (arr_remove coefs i) (arr_remove inds i) bbs
      else
        let bb := determineBestBounds scip (ind_get inds i) sol boundswitch false allowlocal
                    fixintegralrhs ignoresol boundsfortrans boundtypesfortrans in
        if freevariable bb then (coefs, inds, bbs ++ [bb], true)
        else
          bestBoundsInt scip sol boundswitch allowlocal fixintegralrhs ignoresol
                        boundsfortrans boundtypesfortrans fuel' (S i)
                        coefs inds (bbs ++ [bb])
  end.

(** perform the bound substitution on the integral variables, which only
    use standard bounds; [bbs] are the bounds of the positions from [i] on *)
Fixpoint transformIntBounds (bbs : list BESTBOUNDS) (i : nat) (st : CUTSTATE) : CUTSTATE :=
  match bbs with
  | [] => st
  | bb :: bbs' =>
      let ci := arr_get (cutcoefs st) i in
      let st' :=
        match selectedbound bb with
        | SCIP_BOUNDTYPE_LOWER =>
            mkCut (cutcoefs st) (cutinds st) (cutrhs st - ci * bestlb bb)
                  (varsign st ++ [1%Z]) (boundtype st ++ [bestlbtype bb])
                  (localbdsused st || (bestlbtype bb =? -2)%Z)
        | SCIP_BOUNDTYPE_UPPER =>
            mkCut (cutcoefs st) (cutinds st) (cutrhs st - ci * bestub bb)
                  (varsign st ++ [(-1)%Z]) (boundtype st ++ [bestubtype bb])
                  (localbdsused st || (bestubtype bb =? -2)%Z)
        end in
      transformIntBounds bbs' (S i) st'
  end.

Definition default_bestbounds : BESTBOUNDS :=
  mkBestBounds 0 0 (-1)%Z (-1)%Z SCIP_BOUNDTYPE_LOWER false.

(** choose the complementation of one variable differently such that f0 is
    in the correct range: the search for the best candidate; [None] for
    [besti = -1], and the invalid call when the solution is to be ignored *)
Fixpoint fixIntegralRhsSearch (scip : SCIP) (sol : SCIP_SOL) (ignoresol : bool)
         (minfrac maxfrac f0 : Q) (st : CUTSTATE) (bbs : list BESTBOUNDS)
         (todo : list nat)
         (besti : option nat) (bestviolgain bestnewf0 : Q)
  : SCIP_RETCODE * option nat :=
  match todo with
  | [] => (SCIP_OKAY, besti)
  | i :: todo' =>
      let set := scip_set scip in
      let v := ind_get (cutinds st) i in
      let bb := nth i bbs default_bestbounds in
      let vs := int_get (varsign st) i in
      let ci := arr_get (cutcoefs st) i in
      if (int_get (boundtype st) i <? 0)%Z
         && (((vs =? 1)%Z && negb (SCIPisInfinity set (bestub bb)) && (bestubtype bb <? 0)%Z)
             || ((vs =? -1)%Z && negb (SCIPisInfinity set (- bestlb bb))
                 && (bestlbtype bb <? 0)%Z))
      then
        let newrhs := cutrhs st + inject_Z vs * ci * (bestlb bb - bestub bb) in
        let newf0 := EPSFRAC newrhs (SCIPsumepsilon set) in
        if Qlt_bool newf0 minfrac || Qlt_bool maxfrac newf0 then
          fixIntegralRhsSearch scip sol ignoresol minfrac maxfrac f0 st bbs todo'
                               besti bestviolgain bestnewf0
        else
          let '(fj, newfj) :=
            if Nat.leb (firstcontvar scip) v then (REALABS ci, REALABS ci)
            else (SCIPfrac set (inject_Z vs * ci), SCIPfrac set (- inject_Z vs * ci)) in
          if negb ignoresol then
            let solval := sol v in
            let viol := f0 - fj * (if (vs =? 1)%Z then solval - bestlb bb
                                   else bestub bb - solval) in
            let newviol := newf0 - newfj * (if (vs =? -1)%Z then solval - bestlb bb
                                            else bestub bb - solval) in
            let violgain := newviol - viol in
            if SCIPisGT set violgain bestviolgain
               || (SCIPisGE set violgain bestviolgain && Qlt_bool newf0 bestnewf0)
            then fixIntegralRhsSearch scip sol ignoresol minfrac maxfrac f0 st bbs todo'
                                      (Some i) violgain newf0
            else fixIntegralRhsSearch scip sol ignoresol minfrac maxfrac f0 st bbs todo'
                                      besti bestviolgain bestnewf0
          else (SCIP_INVALIDCALL, besti)
      else
        fixIntegralRhsSearch scip sol ignoresol minfrac maxfrac f0 st bbs todo'
                             besti bestviolgain bestnewf0
  end.

Definition fixIntegralRhs (scip : SCIP) (sol : SCIP_SOL) (ignoresol : bool)
           (minfrac maxfrac : Q) (st : CUTSTATE) (bbs : list BESTBOUNDS)
  : SCIP_RETCODE * CUTSTATE :=
  let set := scip_set scip in
  let f0 := EPSFRAC (cutrhs st) (SCIPsumepsilon set) in
  if Qlt_bool f0 minfrac || Qlt_bool maxfrac f0 then
    match fixIntegralRhsSearch scip sol ignoresol minfrac maxfrac f0 st bbs
                               (seq 0 (length (cutinds st))) None
                               (- (1 # 1) * (10 ^ 100)) 1 with
    | (SCIP_OKAY, Some besti) =>
        let bb := nth besti bbs default_bestbounds in
        let vs := int_get (varsign st) besti in
        let rhs' := cutrhs st + inject_Z vs * arr_get (cutcoefs st) besti
                                * (bestlb bb - bestub bb) in
        let '(bt, vs') :=
          if (vs =? 1)%Z then (bestubtype bb, (-1)%Z) else (bestlbtype bb, 1%Z) in
        (SCIP_OKAY,
         mkCut (cutcoefs st) (cutinds st) rhs'
               (arr_set (varsign st) besti vs') (arr_set (boundtype st) besti bt)
               (localbdsused st || (bt =? -2)%Z))
    | (retcode, _) => (retcode, st)
    end
  else (SCIP_OKAY, st).

Record TRANSFORMED : Type := mkTransformed {
  tr_retcode      : SCIP_RETCODE;
  tr_cut          : CUTSTATE;
  tr_freevariable : bool
}.

(** [cutsTransformMIR] *)
Definition cutsTransformMIR (scip : SCIP) (sol : SCIP_SOL) (boundswitch : Q)
           (usevbds allowlocal fixintegralrhs ignoresol : bool)
           (boundsfortrans : option (list Z)) (boundtypesfortrans : list SCIP_BOUNDTYPE)
           (minfrac maxfrac : Q)
           (cutcoefs0 : list Q) (cutrhs0 : Q) (cutinds0 : list nat) : TRANSFORMED :=
  let '(inds, coefs) := SCIPsortDownIntReal cutinds0 cutcoefs0 in
  let st0 := mkCut coefs inds cutrhs0 [] [] false in
  let '(bbscont, free) :=
    bestBoundsCont scip sol boundswitch usevbds allowlocal fixintegralrhs ignoresol
                   boundsfortrans boundtypesfortrans inds in
  if free then mkTransformed SCIP_OKAY st0 true
  else
    let aggrrowintstart := length bbscont in
    let varpos := rememberIntPositions (skipn aggrrowintstart inds) aggrrowintstart cleanbuf in
    let '(st1, _) := transformContBounds scip bbscont 0 st0 varpos in
    let '(coefs2, inds2, bbsint, free) :=
      bestBoundsInt scip sol boundswitch allowlocal fixintegralrhs ignoresol
                    boundsfortrans boundtypesfortrans
                    (length (cutinds st1) - aggrrowintstart) aggrrowintstart
                    (cutcoefs st1) (cutinds st1) [] in
    let st2 := mkCut coefs2 inds2 (cutrhs st1) (varsign st1) (boundtype st1)
                     (localbdsused st1) in
    if free then mkTransformed SCIP_OKAY st2 true
    else
      let st3 := transformIntBounds bbsint aggrrowintstart st2 in
      if fixintegralrhs then
        let '(retcode, st4) :=
          fixIntegralRhs scip sol ignoresol minfrac maxfrac st3 (bbscont ++ bbsint) in
        mkTransformed retcode st4 false
      else mkTransformed SCIP_OKAY st3 false.

(* ================================================================== *)
(** ** c-MIR: rounding *)
(* ================================================================== *)

(** the coefficient of an integral variable in the retransformed cut *)
Definition mirIntCoef (set : SCIP_SET) (f0 : Q) (vs : Z) (ci : Q) : Q :=
  let onedivoneminusf0 := 1 / (1 - f0) in
  let aj := inject_Z vs * ci in
  let downaj := SCIPfloor set aj in
  let fj := aj - downaj in
  if SCIPisSumLE set fj f0 then inject_Z vs * downaj
  else inject_Z vs * (downaj + (fj - f0) * onedivoneminusf0).

(** the coefficient of a continuous variable in the retransformed cut *)
Definition mirContCoef (f0 : Q) (vs : Z) (ci : Q) : Q :=
  let onedivoneminusf0 := 1 / (1 - f0) in
  let aj := inject_Z vs * ci in
  if Qle_bool 0 aj then 0 else inject_Z vs * aj * onedivoneminusf0.

(** the standard bound that was used for a variable *)
Definition usedStandardBound (var : SCIP_VAR) (vs bt : Z) : Q :=
  if (vs =? 1)%Z then
    if (bt =? -1)%Z then var_lbglobal var else var_lblocal var
  else
    if (bt =? -1)%Z then var_ubglobal var else var_ublocal var.

(** the loop over the integral variables, backwards from position [n - 1];
    the result carries the number of positions in front of the integral
    variables (the final value of [i], plus one) *)
Fixpoint roundMIRInt (scip : SCIP) (f0 : Q) (n : nat) (st : CUTSTATE) (varpos : POSBUF)
  : CUTSTATE * POSBUF * nat :=
  match n with
  | O => (st, varpos, O)
  | S i =>
      let v := ind_get (cutinds st) i in
      if Nat.leb (firstcontvar scip) v then (st, varpos, S i)
      else
        let var := getVar scip v in
        let vs := int_get (varsign st) i in
        let cutaj := mirIntCoef (scip_set scip) f0 vs (arr_get (cutcoefs st) i) in
        if SCIPisZero (scip_set scip) cutaj then
          let inds' := arr_remove (cutinds st) i in
          let coefs' := arr_remove (cutcoefs st) i in
          let varpos' :=
            if Nat.ltb i (length inds') then upd varpos (ind_get inds' i) (S i) else varpos in
          roundMIRInt scip f0 i
                      (mkCut coefs' inds' (cutrhs st) (varsign st) (boundtype st)
                             (localbdsused st)) varpos'
        else
          let bound := usedStandardBound var vs (int_get (boundtype st) i) in
          roundMIRInt scip f0 i
                      (mkCut (arr_set (cutcoefs st) i cutaj) (cutinds st)
                             (cutrhs st + cutaj * bound) (varsign st) (boundtype st)
                             (localbdsused st))
                      (upd varpos v (S i))
  end.

(** the loop over the continuous variables: [m] is [i + 1], [fuel] is
    [m - ndelcontvars] *)
Fixpoint roundMIRCont (scip : SCIP) (f0 : Q) (fuel m ndelcontvars : nat)
         (st : CUTSTATE) (varpos : POSBUF) : CUTSTATE * POSBUF * nat :=
  match fuel with
  | O => (st, varpos, ndelcontvars)
  | S fuel' =>
      let i := (m - 1)%nat in
      let v := ind_get (cutinds st) i in
      let var := getVar scip v in
      let vs := int_get (varsign st) i in
      let bt := int_get (boundtype st) i in
      let cutaj := mirContCoef f0 vs (arr_get (cutcoefs st) i) in
      if SCIPisZero (scip_set scip) cutaj then
        let st' :=
          if Nat.ltb ndelcontvars i then
            mkCut (arr_set (cutcoefs st) i (arr_get (cutcoefs st) ndelcontvars))
                  (arr_set (cutinds st) i (ind_get (cutinds st) ndelcontvars))
                  (cutrhs st)
                  (arr_set (varsign st) i (int_get (varsign st) ndelcontvars))
                  (arr_set (boundtype st) i (int_get (boundtype st) ndelcontvars))
                  (localbdsused st)
          else st in
        roundMIRCont scip f0 fuel' m (S ndelcontvars) st' varpos
      else
        let coefs1 := arr_set (cutcoefs st) i cutaj in
        if (bt <? 0)%Z then
          roundMIRCont scip f0 fuel' (m - 1) ndelcontvars
                       (mkCut coefs1 (cutinds st)
                              (cutrhs st + cutaj * usedStandardBound var vs bt)
                              (varsign st) (boundtype st) (localbdsused st))
                       varpos
        else
          let vbidx := Z.to_nat bt in
          let '(vbz, vbb, vbd) :=
            if (vs =? 1)%Z
            then (var_vlbvars var, var_vlbcoefs var, var_vlbconsts var)
            else (var_vubvars var, var_vubcoefs var, var_vubconsts var) in
          let zidx := ind_get vbz vbidx in
          let '(coefs', inds', varpos') :=
            addToIntCoef coefs1 (cutinds st) varpos zidx (- (cutaj * arr_get vbb vbidx)) in
          roundMIRCont scip f0 fuel' (m - 1) ndelcontvars
                       (mkCut coefs' inds' (cutrhs st + cutaj * arr_get vbd vbidx)
                              (varsign st) (boundtype st) (localbdsused st))
                       varpos'
  end.

(** fill the empty positions due to deleted continuous variables *)
Definition fillDeleted (A : Type) (l : list A) (ndelcontvars : nat) : list A :=
  match ndelcontvars with
  | O => l
  | _ =>
      let nnz' := (length l - ndelcontvars)%nat in
      if Nat.ltb nnz' ndelcontvars then firstn nnz' (skipn ndelcontvars l)
      else firstn ndelcontvars (skipn nnz' l)
           ++ firstn (nnz' - ndelcontvars) (skipn ndelcontvars l)
  end.

(** [cutsRoundMIR] *)
Definition cutsRoundMIR (scip : SCIP) (st : CUTSTATE) (f0 : Q) : CUTSTATE :=
  let '(st1, varpos1, m) := roundMIRInt scip f0 (length (cutinds st)) st cleanbuf in
  let '(st2, _, ndelcontvars) := roundMIRCont scip f0 m m 0 st1 varpos1 in
  mkCut (fillDeleted (cutcoefs st2) ndelcontvars)
        (fillDeleted (cutinds st2) ndelcontvars)
        (cutrhs st2) (varsign st2) (boundtype st2) (localbdsused st2).

(* ================================================================== *)
(** ** c-MIR: substitution of the slack variables *)
(* ================================================================== *)

(** the slack's coefficient in the cut; [None] when the slack is ignored *)
Definition mirSlackCoef (set : SCIP_SET) (row : SCIP_ROW) (slsign : Z) (ar f0 : Q)
  : option Q :=
  let onedivoneminusf0 := 1 / (1 - f0) in
  if row_integral row
     && (((slsign =? 1)%Z && SCIPisFeasIntegral set (row_rhs row - row_constant row))
         || ((slsign =? -1)%Z && SCIPisFeasIntegral set (row_lhs row - row_constant row)))
  then
    let downar := SCIPfloor set ar in
    let fr := ar - downar in
    Some (if SCIPisLE set fr f0 then downar else downar + (fr - f0) * onedivoneminusf0)
  else
    if Qle_bool 0 ar then None else Some (ar * onedivoneminusf0).

(** add the slack's definition multiplied with its coefficient to the cut
    and move the slack's constant to the right hand side *)
Definition substituteSlack (set : SCIP_SET) (row : SCIP_ROW) (slsign : Z) (cutar : Q)
           (cutcoefs : list Q) (cutinds : list nat) (cutrhs : Q)
  : list Q * list nat * Q :=
  let mul := - inject_Z slsign * cutar in
  let '(inds', coefs') := varVecAddScaledRowCoefs cutinds cutcoefs row mul in
  if (slsign =? 1)%Z then
    let rhs := row_rhs row - row_constant row in
    let rhs := if row_integral row then SCIPfeasFloor set rhs else rhs in
    (coefs', inds', cutrhs - cutar * rhs)
  else
    let lhs := row_lhs row - row_constant row in
    let lhs := if row_integral row then SCIPfeasCeil set lhs else lhs in
    (coefs', inds', cutrhs + cutar * lhs).

Fixpoint substituteMIRLoop (scip : SCIP) (weights : list Q) (slacksign : list Z)
         (rowinds : list Z) (scale f0 : Q)
         (cutcoefs : list Q) (cutinds : list nat) (cutrhs : Q)
  : list Q * list nat * Q :=
  match rowinds, slacksign, weights with
  | r :: rowinds', slsign :: slacksign', w :: weights' =>
      let set := scip_set scip in
      let row := getRow scip r in
      let ar := inject_Z slsign * scale * w in
      let '(cutcoefs', cutinds', cutrhs') :=
        match mirSlackCoef set row slsign ar f0 with
        | None => (cutcoefs, cutinds, cutrhs)
        | Some cutar =>
            if SCIPisZero set cutar then (cutcoefs, cutinds, cutrhs)
            else substituteSlack set row slsign cutar cutcoefs cutinds cutrhs
        end in
      substituteMIRLoop scip weights' slacksign' rowinds' scale f0
                        cutcoefs' cutinds' cutrhs'
  | _, _, _ => (cutcoefs, cutinds, cutrhs)
  end.

(** [cutsSubstituteMIR] *)
Definition cutsSubstituteMIR (scip : SCIP) (weights : list Q) (slacksign : list Z)
           (rowinds : list Z) (scale : Q)
           (cutcoefs : list Q) (cutrhs : Q) (cutinds : list nat) (f0 : Q)
  : list Q * list nat * Q :=
  let '(coefs', inds', rhs') :=
    substituteMIRLoop scip weights slacksign rowinds scale f0 cutcoefs cutinds cutrhs in
  (coefs', inds', if SCIPisZero (scip_set scip) rhs' then 0 else rhs').

(* ================================================================== *)
(** ** [SCIPcalcMIR] *)
(* ================================================================== *)

Record CUT : Type := mkCutResult {
  cut_retcode  : SCIP_RETCODE;
  cut_coefs    : list Q;
  cut_inds     : list nat;
  cut_rhs      : Q;
  cut_efficacy : Q;
  cut_rank     : Z;
  cut_islocal  : bool;
  cut_success  : bool
}.

Definition SCIPcalcMIR (scip : SCIP) (sol : SCIP_SOL) (boundswitch : Q)
           (usevbds allowlocal fixintegralrhs : bool)
           (boundsfortrans : option (list Z)) (boundtypesfortrans : list SCIP_BOUNDTYPE)
           (minfrac maxfrac scale : Q) (aggrrow : SCIP_AGGRROW) : CUT :=
  let set := scip_set scip in
  (* initialize cut with aggregation *)
  let cutinds0 := inds aggrrow in
  let '(cutrhs0, cutcoefs0) :=
    if negb (Qeq_bool scale 1)
    then (scale * rhs aggrrow, map (fun v => v * scale) (vals aggrrow))
    else (rhs aggrrow, vals aggrrow) in
  let '(cutinds1, cutcoefs1, cutrhs1) :=
    cleanupCut scip (local aggrrow) cutinds0 cutcoefs0 cutrhs0 in
  let tr := cutsTransformMIR scip sol boundswitch usevbds allowlocal fixintegralrhs false
              boundsfortrans boundtypesfortrans minfrac maxfrac
              cutcoefs1 cutrhs1 cutinds1 in
  let st := tr_cut tr in
  let cutislocal := local aggrrow || localbdsused st in
  let failed retcode :=
    mkCutResult retcode (cutcoefs st) (cutinds st) (cutrhs st) 0 0%Z cutislocal false in
  match tr_retcode tr with
  | SCIP_INVALIDCALL => failed SCIP_INVALIDCALL
  | SCIP_OKAY =>
      if tr_freevariable tr then failed SCIP_OKAY
      else
        let downrhs := EPSFLOOR (cutrhs st) (SCIPsumepsilon set) in
        let f0 := cutrhs st - downrhs in
        if Qlt_bool f0 minfrac || Qlt_bool maxfrac f0 then failed SCIP_OKAY
        else if Qlt_bool MAXCMIRSCALE (REALABS scale / (1 - f0)) then failed SCIP_OKAY
        else
          let st1 := cutsRoundMIR scip
                       (mkCut (cutcoefs st) (cutinds st) downrhs (varsign st)
                              (boundtype st) (localbdsused st)) f0 in
          let '(coefs2, inds2, rhs2) :=
            cutsSubstituteMIR scip (rowweights aggrrow) (slacksign aggrrow)
                              (rowsinds aggrrow) scale
                              (cutcoefs st1) (cutrhs st1) (cutinds st1) f0 in
          let '(inds3, coefs3, rhs3) := cleanupCut scip cutislocal inds2 coefs2 rhs2 in
          mkCutResult SCIP_OKAY coefs3 inds3 rhs3
                      (calcEfficacy scip sol coefs3 rhs3 inds3)
                      (rank aggrrow + 1)%Z cutislocal true
  end.

(* ================================================================== *)
(** ** Strong CG: transformation into standard form *)
(* ================================================================== *)

(** determine best bounds for the continuous variables such that they will
    have a positive coefficient in the transformation; the bounds, and the
    signs and bound types of the positions that were looked at *)
Fixpoint bestBoundsContStrongCG (scip : SCIP) (sol : SCIP_SOL) (usevbds allowlocal : bool)
         (inds : list nat) (coefs : list Q) : list Q * list Z * list Z * bool :=
  match inds, coefs with
  | v :: inds', ci :: coefs' =>
      if Nat.leb (firstcontvar scip) v then
        let set := scip_set scip in
        let rest bestbd vs bt :=
          let '(bds, vss, bts, free) :=
            bestBoundsContStrongCG scip sol usevbds allowlocal inds' coefs' in
          (bestbd :: bds, vs :: vss, bt :: bts, free) in
        if Qlt_bool 0 ci then
          let '(bestbd, bt) := findBestLb scip v sol usevbds allowlocal in
          if SCIPisInfinity set (- bestbd) then ([], [], [], true)
          else rest bestbd 1%Z bt
        else if Qlt_bool ci 0 then
          let '(bestbd, bt) := findBestUb scip v sol usevbds allowlocal in
          if SCIPisInfinity set bestbd then ([], [], [], true)
          else rest bestbd (-1)%Z bt
        else
          (* a coefficient that is exactly zero: nothing is stored for it *)
          rest 0 0%Z 0%Z
      else ([], [], [], false)
  | _, _ => ([], [], [], false)
  end.

(** perform bound substitution for continuous variables *)
Fixpoint transformContBoundsStrongCG (scip : SCIP) (bestbds : list Q) (i : nat)
         (st : CUTSTATE) (varpos : POSBUF) : CUTSTATE * POSBUF :=
  match bestbds with
  | [] => (st, varpos)
  | bestbd :: bestbds' =>
      let var := getVar scip (ind_get (cutinds st) i) in
      let ci := arr_get (cutcoefs st) i in
      let bt := int_get (boundtype st) i in
      let '(st', varpos') :=
        if (bt <? 0)%Z then
          (mkCut (cutcoefs st) (cutinds st) (cutrhs st - ci * bestbd)
                 (varsign st) (boundtype st)
                 (localbdsused st || (bt =? -2)%Z), varpos)
        else
          let t := Z.to_nat bt in
          let '(vbdvars, vbdcoefs, vbdconsts) :=
            if (int_get (varsign st) i =? 1)%Z
            then (var_vlbvars var, var_vlbcoefs var, var_vlbconsts var)
            else (var_vubvars var, var_vubcoefs var, var_vubconsts var) in
          let zidx := ind_get vbdvars t in
          let '(coefs', inds', varpos') :=
            addToIntCoef (cutcoefs st) (cutinds st) varpos zidx (ci * arr_get vbdcoefs t) in
          (mkCut coefs' inds' (cutrhs st - ci * arr_get vbdconsts t)
                 (varsign st) (boundtype st) (localbdsused st), varpos') in
      transformContBoundsStrongCG scip bestbds' (S i) st' varpos'
  end.

(** remove integral variables that now have a zero coefficient and perform
    the bound substitution for the integer variables that are left using
    simple bounds; [fuel] is [nnz - i] *)
Fixpoint transformIntStrongCG (scip : SCIP) (sol : SCIP_SOL) (boundswitch : Q)
         (allowlocal : bool) (fuel i : nat) (st : CUTSTATE) : CUTSTATE * bool :=
  match fuel with
  | O => (st, false)
  | S fuel' =>
      let ci := arr_get (cutcoefs st) i in
      if SCIPisZero (scip_set scip) ci then
        transformIntStrongCG scip sol boundswitch allowlocal fuel' i
          (mkCut (arr_remove (cutcoefs st) i) (arr_remove (cutinds st) i) (cutrhs st)
                 (varsign st) (boundtype st) (localbdsused st))
      else
        let bb := determineBestBounds scip (ind_get (cutinds st) i) sol boundswitch
                    false allowlocal false false None [] in
        if freevariable bb then (st, true)
        else
          let '(bt, vs, bd) :=
            match selectedbound bb with
            | SCIP_BOUNDTYPE_LOWER => (bestlbtype bb, 1%Z, bestlb bb)
            | SCIP_BOUNDTYPE_UPPER => (bestubtype bb, (-1)%Z, bestub bb)
            end in
          transformIntStrongCG scip sol boundswitch allowlocal fuel' (S i)
            (mkCut (cutcoefs st) (cutinds st) (cutrhs st - ci * bd)
                   (varsign st ++ [vs]) (boundtype st ++ [bt])
                   (localbdsused st || (bt =? -2)%Z))
  end.

(** [cutsTransformStrongCG] *)
Definition cutsTransformStrongCG (scip : SCIP) (sol : SCIP_SOL) (boundswitch : Q)
           (usevbds allowlocal : bool)
           (cutcoefs0 : list Q) (cutrhs0 : Q) (cutinds0 : list nat) : TRANSFORMED :=
  let '(inds, coefs) := SCIPsortDownIntReal cutinds0 cutcoefs0 in
  let '(bestbds, vss, bts, free) :=
    bestBoundsContStrongCG scip sol usevbds allowlocal inds coefs in
  let st0 := mkCut coefs inds cutrhs0 vss bts false in
  if free then mkTransformed SCIP_OKAY st0 true
  else
    let aggrrowintstart := length bestbds in
    let varpos := rememberIntPositions (skipn aggrrowintstart inds) aggrrowintstart cleanbuf in
    let '(st1, _) := transformContBoundsStrongCG scip bestbds 0 st0 varpos in
    let '(st2, free) :=
      transformIntStrongCG scip sol boundswitch allowlocal
                           (length (cutinds st1) - aggrrowintstart) aggrrowintstart st1 in
    mkTransformed SCIP_OKAY st2 free.

(* ================================================================== *)
(** ** Strong CG: rounding and substitution *)
(* ================================================================== *)

(** the coefficient of an integral variable in the retransformed cut *)
Definition strongcgIntCoef (set : SCIP_SET) (f0 k : Q) (vs : Z) (ci : Q) : Q :=
  let onedivoneminusf0 := 1 / (1 - f0) in
  let aj := inject_Z vs * ci in
  let downaj := SCIPfloor set aj in
  let fj := aj - downaj in
  if SCIPisSumLE set fj f0 then inject_Z vs * downaj
  else
    let pj := SCIPceil set (k * (fj - f0) * onedivoneminusf0) in
    inject_Z vs * (downaj + pj / (k + 1)).

(** the loop over the integral variables, backwards from position [n - 1] *)
Fixpoint roundStrongCGInt (scip : SCIP) (f0 k : Q) (n : nat) (st : CUTSTATE)
  : CUTSTATE * nat :=
  match n with
  | O => (st, O)
  | S i =>
      let v := ind_get (cutinds st) i in
      if Nat.leb (firstcontvar scip) v then (st, S i)
      else
        let var := getVar scip v in
        let vs := int_get (varsign st) i in
        let cutaj := strongcgIntCoef (scip_set scip) f0 k vs (arr_get (cutcoefs st) i) in
        if SCIPisZero (scip_set scip) cutaj then
          roundStrongCGInt scip f0 k i
            (mkCut (arr_remove (cutcoefs st) i) (arr_remove (cutinds st) i) (cutrhs st)
                   (varsign st) (boundtype st) (localbdsused st))
        else
          let bound := usedStandardBound var vs (int_get (boundtype st) i) in
          roundStrongCGInt scip f0 k i
            (mkCut (arr_set (cutcoefs st) i cutaj) (cutinds st)
                   (cutrhs st + cutaj * bound) (varsign st) (boundtype st)
                   (localbdsused st))
  end.

(** [cutsRoundStrongCG]: the continuous variables in front of the integral
    ones are dropped *)
Definition cutsRoundStrongCG (scip : SCIP) (st : CUTSTATE) (f0 k : Q) : CUTSTATE :=
  let '(st1, aggrrowintstart) := roundStrongCGInt scip f0 k (length (cutinds st)) st in
  mkCut (fillDeleted (cutcoefs st1) aggrrowintstart)
        (fillDeleted (cutinds st1) aggrrowintstart)
        (cutrhs st1) (varsign st1) (boundtype st1) (localbdsused st1).

(** the slack's coefficient in the cut; [None] when the slack is ignored *)
Definition strongcgSlackCoef (set : SCIP_SET) (row : SCIP_ROW) (ar f0 k : Q) : option Q :=
  let onedivoneminusf0 := 1 / (1 - f0) in
  if row_integral row then
    let downar := SCIPfloor set ar in
    let fr := ar - downar in
    if SCIPisLE set fr f0 then Some downar
    else
      let pr := SCIPceil set (k * (fr - f0) * onedivoneminusf0) in
      Some (downar + pr / (k + 1))
  else None.

Fixpoint substituteStrongCGLoop (scip : SCIP) (weights : list Q) (slacksign : list Z)
         (rowinds : list Z) (scale f0 k : Q)
         (cutcoefs : list Q) (cutinds : list nat) (cutrhs : Q)
  : list Q * list nat * Q :=
  match rowinds, slacksign, weights with
  | r :: rowinds', slsign :: slacksign', w :: weights' =>
      let set := scip_set scip in
      let row := getRow scip r in
      let ar := inject_Z slsign * scale * w in
      let '(cutcoefs', cutinds', cutrhs') :=
        match strongcgSlackCoef set row ar f0 k with
        | None => (cutcoefs, cutinds, cutrhs)
        | Some cutar =>
            if SCIPisZero set cutar then (cutcoefs, cutinds, cutrhs)
            else substituteSlack set row slsign cutar cutcoefs cutinds cutrhs
        end in
      substituteStrongCGLoop scip weights' slacksign' rowinds' scale f0 k
                             cutcoefs' cutinds' cutrhs'
  | _, _, _ => (cutcoefs, cutinds, cutrhs)
  end.

(** [cutsSubstituteStrongCG] *)
Definition cutsSubstituteStrongCG (scip : SCIP) (weights : list Q) (slacksign : list Z)
           (rowinds : list Z) (scale : Q)
           (cutcoefs : list Q) (cutrhs : Q) (cutinds : list nat) (f0 k : Q)
  : list Q * list nat * Q :=
  let '(coefs', inds', rhs') :=
    substituteStrongCGLoop scip weights slacksign rowinds scale f0 k
                           cutcoefs cutinds cutrhs in
  (coefs', inds', if SCIPisZero (scip_set scip) rhs' then 0 else rhs').

(** the integer [k] of the strong CG rounding *)
Definition strongcgK (set : SCIP_SET) (f0 : Q) : Q := SCIPceil set (1 / f0) - 1.

(** [SCIPcalcStrongCG] *)
Definition SCIPcalcStrongCG (scip : SCIP) (sol : SCIP_SOL) (boundswitch : Q)
           (usevbds allowlocal : bool) (minfrac maxfrac scale : Q)
           (aggrrow : SCIP_AGGRROW) : CUT :=
  let set := scip_set scip in
  let cutinds0 := inds aggrrow in
  let '(cutrhs0, cutcoefs0) :=
    if negb (Qeq_bool scale 1)
    then (scale * rhs aggrrow, map (fun v => v * scale) (vals aggrrow))
    else (rhs aggrrow, vals aggrrow) in
  let '(cutinds1, cutcoefs1, cutrhs1) :=
    cleanupCut scip (local aggrrow) cutinds0 cutcoefs0 cutrhs0 in
  let tr := cutsTransformStrongCG scip sol boundswitch usevbds allowlocal
              cutcoefs1 cutrhs1 cutinds1 in
  let st := tr_cut tr in
  let cutislocal := local aggrrow || localbdsused st in
  let failed :=
    mkCutResult SCIP_OKAY (cutcoefs st) (cutinds st) (cutrhs st) 0 0%Z cutislocal false in
  if tr_freevariable tr then failed
  else
    let downrhs := SCIPfloor set (cutrhs st) in
    let f0 := cutrhs st - downrhs in
    if Qlt_bool f0 minfrac || Qlt_bool maxfrac f0 then failed
    else
      let k := strongcgK set f0 in
      let st1 := cutsRoundStrongCG scip
                   (mkCut (cutcoefs st) (cutinds st) downrhs (varsign st)
                          (boundtype st) (localbdsused st)) f0 k in
      let '(coefs2, inds2, rhs2) :=
        cutsSubstituteStrongCG scip (rowweights aggrrow) (slacksign aggrrow)
                               (rowsinds aggrrow) scale
                               (cutcoefs st1) (cutrhs st1) (cutinds st1) f0 k in
      let '(inds3, coefs3, rhs3) := cleanupCut scip cutislocal inds2 coefs2 rhs2 in
      mkCutResult SCIP_OKAY coefs3 inds3 rhs3
                  (calcEfficacy scip sol coefs3 rhs3 inds3)
                  (rank aggrrow + 1)%Z cutislocal true.

(* ================================================================== *)
(** ** Flow cover: the search for a flow cover *)
(* ================================================================== *)

Definition MAXDNOM : Z := 1000%Z.
Definition MINDELTA : Q := 1 # 1000.
Definition MAXDELTA : Q := 1 # 1000000000.
Definition MAXSCALE : Q := 1000 # 1.
Definition MAXDYNPROGSPACE : Z := 1000000%Z.
Definition INT_MAX : Q := 2147483647 # 1.

(** The 0-1 single node flow relaxation.  [ntransvars] is the length of the
    arrays. *)
Record SNF_RELAXATION : Type := mkSNF {
  transvarcoefs       : list Z;
  transbinvarsolvals  : list Q;
  transcontvarsolvals : list Q;
  transvarvubcoefs    : list Q;
  transrhs            : Q;
  origbinvars         : list Z;
  origcontvars        : list Z;
  aggrcoefsbin        : list Q;
  aggrcoefscont       : list Q;
  aggrconstants       : list Q
}.

Definition ntransvars (snf : SNF_RELAXATION) : nat := length (transvarcoefs snf).

(** the range of [SCIP_Longint], a 64 bit integer *)
Definition SCIP_LONGINT_MIN : Z := (- 2 ^ 63)%Z.
Definition SCIP_LONGINT_MAX : Z := (2 ^ 63 - 1)%Z.

(** the arithmetic of [SCIP_Longint]: a result out of range, for which C
    leaves the operation undefined, wraps around, as on two's complement
    machines *)
Definition longint_wrap (z : Z) : Z := ((z + 2 ^ 63) mod 2 ^ 64 - 2 ^ 63)%Z.

(** the conversion of an integral real number to [SCIP_Longint]: a value
    out of range, for which C leaves the conversion undefined, gives the
    smallest number, as the conversion instruction of x86-64 does *)
Definition longint_of_real (z : Z) : Z :=
  if ((SCIP_LONGINT_MIN <=? z) && (z <=? SCIP_LONGINT_MAX))%Z then z else SCIP_LONGINT_MIN.

(** the conversion of a real number to [SCIP_Longint], which truncates *)
Definition Qtrunc (x : Q) : Z :=
  longint_of_real (if Qle_bool 0 x then Qfloor x else Qceiling x).

(** [isIntegralScalar] *)
Definition isIntegralScalar (val scalar mindelta maxdelta : Q) : bool :=
  let sval := val * scalar in
  let downval := inject_Z (Qfloor sval) in
  let upval := inject_Z (Qceiling sval) in
  Qle_bool (SCIPrelDiff sval downval) maxdelta || Qle_bool mindelta (SCIPrelDiff sval upval).

(** [getIntegralVal] *)
Definition getIntegralVal (val scalar mindelta maxdelta : Q) : Z :=
  let sval := val * scalar in
  let upval := inject_Z (Qceiling sval) in
  if Qle_bool mindelta (SCIPrelDiff sval upval)
  then longint_of_real (Qceiling sval)
  else longint_of_real (Qfloor sval).

(** an item of the knapsack problem: profit per weight, profit, item number
    and weight, which the selection permutes together *)
Record KPITEM : Type := mkItem {
  kp_ratio  : Q;
  kp_profit : Q;
  kp_item   : nat;
  kp_weight : Q
}.

(** the cover under construction *)
Record FLOWCOVER : Type := mkFlowCover {
  flowcoverstatus   : list Z;
  nflowcovervars    : nat;
  nnonflowcovervars : nat;
  flowcoverweight   : Q
}.

(** the outcome of the knapsack solvers: items in and not in the knapsack *)
Record KPSOLUTION : Type := mkKpSolution {
  solitems    : list nat;
  nonsolitems : list nat
}.

Section FlowCover.
(** Modelled from the spec: the collaborators of the flow cover search that
    are not part of the sources at hand.  [SCIPselectWeightedDownRealRealInt]
    rearranges the items around the weighted median; [SCIPsolveKnapsackExactly]
    solves the integer knapsack by dynamic programming and reports whether it
    did; [SCIPcalcIntegralScalar] looks for a scalar that makes the weights
    integral. *)
Variable SCIPselectWeightedDownRealRealInt : list KPITEM -> Q -> list KPITEM.
Variable SCIPsolveKnapsackExactly :
  list Z -> list Q -> Z -> list nat -> bool * KPSOLUTION.
Variable SCIPcalcIntegralScalar : list Q -> Q -> Q -> Z -> Q -> Q * bool.

Variable set : SCIP_SET.

(** select items as long as they fit into the knapsack *)
Fixpoint selectWhileFit (capacity : Q) (items : list KPITEM) (solitemsweight : Q)
         (sol : list nat) : list KPITEM * Q * list nat :=
  match items with
  | it :: items' =>
      if SCIPisFeasLT set (solitemsweight + kp_weight it) capacity
      then selectWhileFit capacity items' (solitemsweight + kp_weight it)
                          (sol ++ [kp_item it])
      else (items, solitemsweight, sol)
  | [] => ([], solitemsweight, sol)
  end.

(** continue to put items into the knapsack if they entirely fit *)
Fixpoint selectIfFit (capacity : Q) (items : list KPITEM) (solitemsweight : Q)
         (sol nonsol : list nat) : KPSOLUTION :=
  match items with
  | it :: items' =>
      if SCIPisFeasLT set (solitemsweight + kp_weight it) capacity
      then selectIfFit capacity items' (solitemsweight + kp_weight it)
                       (sol ++ [kp_item it]) nonsol
      else selectIfFit capacity items' solitemsweight sol (nonsol ++ [kp_item it])
  | [] => mkKpSolution sol nonsol
  end.

(** [SCIPsolveKnapsackApproximatelyLT]; the selection rearranges the arrays
    of the caller, so the rearranged items are part of the result *)
Definition SCIPsolveKnapsackApproximatelyLT (entries : list KPITEM) (capacity : Q)
  : KPSOLUTION * list KPITEM :=
  let entries :=
    map (fun it => mkItem (kp_profit it / kp_weight it) (kp_profit it)
                          (kp_item it) (kp_weight it)) entries in
  let mediancapacity := capacity * (1 - SCIPfeastol set) in
  let sorted := SCIPselectWeightedDownRealRealInt entries mediancapacity in
  let '(rest, solitemsweight, sol) := selectWhileFit capacity sorted 0 [] in
  (selectIfFit capacity rest solitemsweight sol [], sorted).

(** the arrays [transweightsreal], [transprofitsreal] and [items] *)
Definition knapsackEntries (weights profits : list Q) (items : list nat) : list KPITEM :=
  map (fun pwi => let '(p, w, i) := pwi in mkItem 0 p i w)
      (combine (combine profits weights) items).

(** get flowcover status for each item of the knapsack solution *)
Fixpoint buildFromSolItems (coefs : list Z) (vubcoefs : list Q) (sol : list nat)
         (fc : FLOWCOVER) : FLOWCOVER :=
  match sol with
  | [] => fc
  | j :: sol' =>
      let fc' :=
        if (int_get coefs j =? 1)%Z then
          mkFlowCover (arr_set (flowcoverstatus fc) j (-1)%Z) (nflowcovervars fc)
                      (S (nnonflowcovervars fc)) (flowcoverweight fc)
        else
          mkFlowCover (arr_set (flowcoverstatus fc) j 1%Z) (S (nflowcovervars fc))
                      (nnonflowcovervars fc) (flowcoverweight fc - arr_get vubcoefs j) in
      buildFromSolItems coefs vubcoefs sol' fc'
  end.

Fixpoint buildFromNonSolItems (coefs : list Z) (vubcoefs : list Q) (nonsol : list nat)
         (fc : FLOWCOVER) : FLOWCOVER :=
  match nonsol with
  | [] => fc
  | j :: nonsol' =>
      let fc' :=
        if (int_get coefs j =? 1)%Z then
          mkFlowCover (arr_set (flowcoverstatus fc) j 1%Z) (S (nflowcovervars fc))
                      (nnonflowcovervars fc) (flowcoverweight fc + arr_get vubcoefs j)
        else
          mkFlowCover (arr_set (flowcoverstatus fc) j (-1)%Z) (nflowcovervars fc)
                      (S (nnonflowcovervars fc)) (flowcoverweight fc) in
      buildFromNonSolItems coefs vubcoefs nonsol' fc'
  end.

(** [buildFlowCover]: the cover and lambda, the sum of the capacities in C1
    minus those in C2 minus the right hand side *)
Definition buildFlowCover (coefs : list Z) (vubcoefs : list Q) (rhs : Q)
           (kp : KPSOLUTION) (fc : FLOWCOVER) : FLOWCOVER * Q :=
  let fc1 := buildFromSolItems coefs vubcoefs (solitems kp) fc in
  let fc2 := buildFromNonSolItems coefs vubcoefs (nonsolitems kp) fc1 in
  (fc2, flowcoverweight fc2 - rhs).

(** what the fixing loop of [getFlowCover] collects *)
Record FIXING : Type := mkFixing {
  fx_cover            : FLOWCOVER;
  fx_items            : list nat;
  fx_nn1items         : nat;
  fx_n1itemsweight    : Q;
  fx_n2itemsminweight : option Q
}.

(** fix some variables in advance; the yet unset minimum [SCIP_REAL_MAX] of
    the weights in N2 is [None] *)
Fixpoint fixInAdvance (snf : SNF_RELAXATION) (js : list nat) (fx : FIXING) : FIXING :=
  match js with
  | [] => fx
  | j :: js' =>
      let fc := fx_cover fx in
      let coef := int_get (transvarcoefs snf) j in
      let u := arr_get (transvarvubcoefs snf) j in
      let x := arr_get (transbinvarsolvals snf) j in
      let notincover :=
        mkFixing (mkFlowCover (arr_set (flowcoverstatus fc) j (-1)%Z) (nflowcovervars fc)
                              (S (nnonflowcovervars fc)) (flowcoverweight fc))
                 (fx_items fx) (fx_nn1items fx) (fx_n1itemsweight fx)
                 (fx_n2itemsminweight fx) in
      let incover w :=
        mkFixing (mkFlowCover (arr_set (flowcoverstatus fc) j 1%Z) (S (nflowcovervars fc))
                              (nnonflowcovervars fc) (flowcoverweight fc + w))
                 (fx_items fx) (fx_nn1items fx) (fx_n1itemsweight fx)
                 (fx_n2itemsminweight fx) in
      let fx' :=
        if SCIPisFeasZero set u then notincover
        else if negb (SCIPisFeasIntegral set x) then
          if (coef =? 1)%Z then
            mkFixing fc (fx_items fx ++ [j]) (S (fx_nn1items fx))
                     (fx_n1itemsweight fx + u) (fx_n2itemsminweight fx)
          else
            mkFixing fc (fx_items fx ++ [j]) (fx_nn1items fx) (fx_n1itemsweight fx)
                     (Some (match fx_n2itemsminweight fx with
                            | None => u
                            | Some w => MIN w u
                            end))
        else if (coef =? 1)%Z && Qlt_bool x (1 # 2) then notincover
        else if (coef =? 1)%Z && Qlt_bool (1 # 2) x then incover u
        else if (coef =? -1)%Z && Qlt_bool (1 # 2) x then incover (- u)
        else notincover in
      fixInAdvance snf js' fx'
  end.

Record FLOWCOVERRESULT : Type := mkFlowCoverResult {
  fcr_cover  : FLOWCOVER;
  fcr_lambda : Q;
  fcr_found  : bool
}.

(** the state of [getFlowCover] after the fixing loop *)
Definition fixedInAdvance (snf : SNF_RELAXATION) : FIXING :=
  let fc0 := mkFlowCover (repeat 0%Z (ntransvars snf)) 0 0 0 in
  fixInAdvance snf (seq 0 (ntransvars snf)) (mkFixing fc0 [] 0 0 None).

(** weight and profit of the variables in KP^SNF_rat *)
Definition transweightsreal (snf : SNF_RELAXATION) (items : list nat) : list Q :=
  map (fun j => arr_get (transvarvubcoefs snf) j) items.

Definition transprofitsreal (snf : SNF_RELAXATION) (items : list nat) : list Q :=
  map (fun j => if (int_get (transvarcoefs snf) j =? 1)%Z
                then 1 - arr_get (transbinvarsolvals snf) j
                else arr_get (transbinvarsolvals snf) j) items.

(** capacity of the knapsack constraint in KP^SNF_rat *)
Definition transcapacityreal (snf : SNF_RELAXATION) (fx : FIXING) : Q :=
  - transrhs snf + flowcoverweight (fx_cover fx) + fx_n1itemsweight fx.

(** the choice between the two knapsack solvers: the solution, the item
    arrays as the solver left them, the cover data saved after the fixing
    (the variables [...afterfix], which stay zero if no scaling factor was
    found), and whether the solution is the one of the dynamic program
    ([kpexact]) *)
Definition solveKnapsackSNF (snf : SNF_RELAXATION) (fx : FIXING)
  : KPSOLUTION * list KPITEM * FLOWCOVER * bool :=
  let fc := fx_cover fx in
  let items := fx_items fx in
  let nitems := length items in
  let weights := transweightsreal snf items in
  let profits := transprofitsreal snf items in
  let capacity := transcapacityreal snf fx in
  let transweightsrealintegral :=
    forallb (fun w => isIntegralScalar w 1 (- MINDELTA) MAXDELTA) weights in
  let entries := knapsackEntries weights profits items in
  let '(scalar, scalesuccess) :=
    if transweightsrealintegral then (1, true)
    else SCIPcalcIntegralScalar weights (- MINDELTA) MAXDELTA MAXDNOM MAXSCALE in
  let fcinit := mkFlowCover (flowcoverstatus fc) 0 0 0 in
  let approx := SCIPsolveKnapsackApproximatelyLT entries capacity in
  if scalesuccess then
    let transweightsint :=
      map (fun w => getIntegralVal w scalar (- MINDELTA) MAXDELTA) weights in
    let transcapacityint :=
      if isIntegralScalar capacity scalar (- MINDELTA) MAXDELTA
      then longint_wrap (getIntegralVal capacity scalar (- MINDELTA) MAXDELTA - 1)
      else Qtrunc (capacity * scalar) in
    let tmp1 := inject_Z (Z.of_nat nitems + 1) in
    let tmp2 := inject_Z (longint_wrap (transcapacityint + 1)) in
    if (longint_wrap (transcapacityint * Z.of_nat nitems) <=? MAXDYNPROGSPACE)%Z
       && Qle_bool (tmp1 * tmp2) (INT_MAX / (8 # 1))
    then
      let '(success, kpsol) :=
        SCIPsolveKnapsackExactly transweightsint profits transcapacityint items in
      if success then (kpsol, entries, fc, true) else (fst approx, snd approx, fc, false)
    else (fst approx, snd approx, fc, false)
  else (fst approx, snd approx, fcinit, false).

(** [getFlowCover] *)
Definition getFlowCover (snf : SNF_RELAXATION) : FLOWCOVERRESULT :=
  let fx := fixedInAdvance snf in
  let fc := fx_cover fx in
  let nitems := length (fx_items fx) in
  let capacity := transcapacityreal snf fx in
  (* there exists no flow cover if the capacity of the knapsack constraint in
     KP^SNF_rat after fixing is less than or equal to zero *)
  if SCIPisFeasLE set (capacity / (10 # 1)) 0 then
    mkFlowCoverResult fc 0 false
  else if Nat.eqb nitems 0 then
    (* KP^SNF_rat has been solved by fixing some variables in advance *)
    mkFlowCoverResult
      (mkFlowCover (flowcoverstatus fc) (nflowcovervars fc) (nnonflowcovervars fc)
                   (flowcoverweight fc - transrhs snf))
      (flowcoverweight fc - transrhs snf) true
  else
    let '(kp, entries', afterfix, _) := solveKnapsackSNF snf fx in
    let '(fc1, lambda1) :=
      buildFlowCover (transvarcoefs snf) (transvarvubcoefs snf) (transrhs snf) kp fc in
    if SCIPisFeasLE set lambda1 0 then
      (* the found structure is not a flow cover, because of scaling:
         solve KP^SNF_rat approximately *)
      let kp2 := fst (SCIPsolveKnapsackApproximatelyLT entries' capacity) in
      let '(fc2, lambda2) :=
        buildFlowCover (transvarcoefs snf) (transvarvubcoefs snf) (transrhs snf) kp2
                       (mkFlowCover (flowcoverstatus fc1) (nflowcovervars afterfix)
                                    (nnonflowcovervars afterfix) (flowcoverweight afterfix)) in
      mkFlowCoverResult fc2 lambda2 true
    else mkFlowCoverResult fc1 lambda1 true.
End FlowCover.

(* ================================================================== *)
(** ** The c-MIR heuristic *)
(* ================================================================== *)

Definition SCIP_INVALID : Q := 10 ^ 99.

(** Modelled from the spec: [SCIPsortDownRealInt] (misc.c is not part of the
    sources at hand) sorts the real array in non-increasing order and
    permutes the integer array in the same way. *)
Fixpoint insertDownRealInt (k : Q) (v : nat) (keys : list Q) (vs : list nat)
  : list Q * list nat :=
  match keys, vs with
  | k' :: keys', v' :: vs' =>
      if Qle_bool k k' then
        let '(sk, sv) := insertDownRealInt k v keys' vs' in (k' :: sk, v' :: sv)
      else (k :: keys, v :: vs)
  | _, _ => ([k], [v])
  end.

Fixpoint SCIPsortDownRealInt (keys : list Q) (vs : list nat) : list Q * list nat :=
  match keys, vs with
  | k :: keys', v :: vs' =>
      let '(sk, sv) := SCIPsortDownRealInt keys' vs' in insertDownRealInt k v sk sv
  | _, _ => ([], [])
  end.

(** the best cut found so far *)
Record BESTCUT : Type := mkBestCut {
  bestcutcoefs    : list Q;
  bestcutrhs      : Q;
  bestcutinds     : list nat;
  bestcutefficacy : Q;
  bestcutdelta    : Q;
  bestsuccess     : bool
}.

(** [tryDelta]: test one value of delta for the given mixed knapsack set *)
Definition tryDelta (scip : SCIP) (sol : SCIP_SOL) (aggrrow : SCIP_AGGRROW)
           (minfrac maxfrac : Q) (mksetislocal : bool) (mkset : CUTSTATE)
           (best : BESTCUT) (minefficacy : Q) (delta : Q) : BESTCUT :=
  let set := scip_set scip in
  let scale := 1 / delta in
  let tmpcutrhs := cutrhs mkset * scale in
  let downrhs := EPSFLOOR tmpcutrhs (SCIPsumepsilon set) in
  let f0 := tmpcutrhs - downrhs in
  if Qlt_bool f0 minfrac || Qlt_bool maxfrac f0 then best
  else if Qlt_bool MAXCMIRSCALE (REALABS scale / (1 - f0)) then best
  else
    let tmp := mkCut (map (fun c => c * scale) (cutcoefs mkset)) (cutinds mkset) downrhs
                     (varsign mkset) (boundtype mkset) (localbdsused mkset) in
    let st1 := cutsRoundMIR scip tmp f0 in
    let '(coefs2, inds2, rhs2) :=
      cutsSubstituteMIR scip (rowweights aggrrow) (slacksign aggrrow) (rowsinds aggrrow)
                        scale (cutcoefs st1) (cutrhs st1) (cutinds st1) f0 in
    let '(inds3, coefs3, rhs3) := cleanupCut scip mksetislocal inds2 coefs2 rhs2 in
    let cutefficacy := calcEfficacy scip sol coefs3 rhs3 inds3 in
    if Qlt_bool (bestcutefficacy best) cutefficacy then
      if Qlt_bool minefficacy cutefficacy
      then mkBestCut coefs3 rhs3 inds3 cutefficacy delta true
      else mkBestCut (bestcutcoefs best) (bestcutrhs best) (bestcutinds best)
                     cutefficacy delta (bestsuccess best)
    else best.

(** what the scan over the integral variables of the mixed knapsack set
    collects: bound distances and positions of the variables that are
    strictly between their bounds, and the candidates for delta *)
Record DELTASCAN : Type := mkDeltaScan {
  ds_maxabsmksetcoef : Q;
  ds_bounddist       : list Q;
  ds_bounddistpos    : list nat;
  ds_deltacands      : list Q
}.

(** is the value a new candidate for delta *)
Definition newDelta (set : SCIP_SET) (deltacands : list Q) (cand : Q) : bool :=
  negb (existsb (fun d => SCIPisEQ set d cand) deltacands).

(** found positions of integral variables that are strictly between their
    bounds, backwards from position [n - 1] *)
Fixpoint scanIntVars (scip : SCIP) (sol : SCIP_SOL) (mkset : CUTSTATE) (n : nat)
         (ds : DELTASCAN) : DELTASCAN :=
  match n with
  | O => ds
  | S i =>
      let v := ind_get (cutinds mkset) i in
      if Nat.leb (firstcontvar scip) v then ds
      else
        let set := scip_set scip in
        let var := getVar scip v in
        let primsol := sol v in
        let lb := var_lblocal var in
        let ub := var_ublocal var in
        let absmksetcoef := REALABS (arr_get (cutcoefs mkset) i) in
        let maxabs := MAX absmksetcoef (ds_maxabsmksetcoef ds) in
        if SCIPisEQ set primsol lb || SCIPisEQ set primsol ub then
          scanIntVars scip sol mkset i
                      (mkDeltaScan maxabs (ds_bounddist ds) (ds_bounddistpos ds)
                                   (ds_deltacands ds))
        else
          scanIntVars scip sol mkset i
                      (mkDeltaScan maxabs
                                   (ds_bounddist ds ++ [MIN (ub - primsol) (primsol - lb)])
                                   (ds_bounddistpos ds ++ [i])
                                   (if newDelta set (ds_deltacands ds) absmksetcoef
                                    then ds_deltacands ds ++ [absmksetcoef]
                                    else ds_deltacands ds))
  end.

(** the state of the search: the mixed knapsack set with its current
    complementation, and the best cut *)
Record CMIRSTATE : Type := mkCmirState {
  cm_mkset : CUTSTATE;
  cm_best  : BESTCUT
}.

(** the loop [for( i = 2; i <= 8 ; i *= 2 )] over the divisors, which calls
    [tryDelta] with [bestdelta / i]; [bestcutdelta] of the state is the
    variable [bestdelta] of the source, which [tryDelta] writes *)
Fixpoint tryScaledDeltas (scip : SCIP) (sol : SCIP_SOL) (aggrrow : SCIP_AGGRROW)
         (minfrac maxfrac : Q) (mksetislocal : bool) (mkset : CUTSTATE)
         (minefficacy : Q) (divisors : list Q) (best : BESTCUT) : BESTCUT :=
  match divisors with
  | [] => best
  | i :: divisors' =>
      tryScaledDeltas scip sol aggrrow minfrac maxfrac mksetislocal mkset minefficacy
                      divisors'
                      (tryDelta scip sol aggrrow minfrac maxfrac mksetislocal mkset
                                best minefficacy (bestcutdelta best / i))
  end.

(** try to improve efficacy by switching complementation of integral
    variables that are not at their bounds *)
Fixpoint switchComplementation (scip : SCIP) (sol : SCIP_SOL) (aggrrow : SCIP_AGGRROW)
         (allowlocal : bool) (minfrac maxfrac : Q) (mksetislocal : bool)
         (minefficacy : Q) (positions : list nat) (st : CMIRSTATE) : CMIRSTATE :=
  match positions with
  | [] => st
  | k :: positions' =>
      let mkset := cm_mkset st in
      let v := ind_get (cutinds mkset) k in
      let '(bestlb, bestlbtype) := findBestLb scip v sol false allowlocal in
      let '(bestub, bestubtype) := findBestUb scip v sol false allowlocal in
      let oldvarsign := int_get (varsign mkset) k in
      let mksetrhs' :=
        cutrhs mkset + inject_Z oldvarsign * arr_get (cutcoefs mkset) k * (bestlb - bestub) in
      let '(bt, vs) :=
        if (oldvarsign =? 1)%Z then (bestubtype, (-1)%Z) else (bestlbtype, 1%Z) in
      let mkset' :=
        mkCut (cutcoefs mkset) (cutinds mkset) mksetrhs'
              (arr_set (varsign mkset) k vs) (arr_set (boundtype mkset) k bt)
              (localbdsused mkset || (bt =? -2)%Z) in
      let oldbestefficacy := bestcutefficacy (cm_best st) in
      let best' := tryDelta scip sol aggrrow minfrac maxfrac mksetislocal mkset'
                            (cm_best st) minefficacy (bestcutdelta (cm_best st)) in
      (* undo the change in complementation if efficacy was not increased *)
      let st' :=
        if Qeq_bool oldbestefficacy (bestcutefficacy best')
        then mkCmirState mkset best'
        else mkCmirState mkset' best' in
      switchComplementation scip sol aggrrow allowlocal minfrac maxfrac mksetislocal
                            minefficacy positions' st'
  end.

(** the candidates for delta: the absolute values of the coefficients of
    the integral variables that are strictly between their bounds, and the
    maximal absolute coefficient plus one; the result carries what the scan
    collected *)
Definition deltaCandidates (scip : SCIP) (sol : SCIP_SOL) (mkset : CUTSTATE)
  : DELTASCAN * list Q :=
  let set := scip_set scip in
  let ds := scanIntVars scip sol mkset (length (cutinds mkset))
                        (mkDeltaScan (- (1)) [] [] []) in
  let deltacands :=
    if negb (Qeq_bool (ds_maxabsmksetcoef ds) (- (1))) then
      let deltacand := ds_maxabsmksetcoef ds + 1 in
      if newDelta set (ds_deltacands ds) deltacand
      then ds_deltacands ds ++ [deltacand]
      else ds_deltacands ds
    else ds_deltacands ds in
  (* at least try without scaling if current delta set is empty *)
  (ds, match deltacands with [] => [1] | _ => deltacands end).

(** try all candidates for delta *)
Definition tryDeltaCandidates (scip : SCIP) (sol : SCIP_SOL) (aggrrow : SCIP_AGGRROW)
           (minfrac maxfrac : Q) (mksetislocal : bool) (mkset : CUTSTATE)
           (minefficacy : Q) (deltacands : list Q) : BESTCUT :=
  fold_left (fun best delta =>
               tryDelta scip sol aggrrow minfrac maxfrac mksetislocal mkset
                        best minefficacy delta)
            deltacands
            (mkBestCut [] 0 [] (- SCIPinfinity (scip_set scip)) SCIP_INVALID false).

(** [SCIPcutGenerationHeuristicCMIR]; [cutefficacy] is the efficacy on input:
    only cuts that are strictly better are returned *)
Definition SCIPcutGenerationHeuristicCMIR (scip : SCIP) (sol : SCIP_SOL) (boundswitch : Q)
           (usevbds allowlocal : bool)
           (boundsfortrans : option (list Z)) (boundtypesfortrans : list SCIP_BOUNDTYPE)
           (minfrac maxfrac : Q) (aggrrow : SCIP_AGGRROW) (cutefficacy : Q) : CUT :=
  let cutislocal := local aggrrow in
  let '(mksetinds, mksetcoefs, mksetrhs) :=
    cleanupCut scip cutislocal (inds aggrrow) (vals aggrrow) (rhs aggrrow) in
  let tr := cutsTransformMIR scip sol boundswitch usevbds allowlocal false false
              boundsfortrans boundtypesfortrans minfrac maxfrac
              mksetcoefs mksetrhs mksetinds in
  let mkset := tr_cut tr in
  let nocut retcode := mkCutResult retcode [] [] 0 cutefficacy 0%Z cutislocal false in
  match tr_retcode tr with
  | SCIP_INVALIDCALL => nocut SCIP_INVALIDCALL
  | SCIP_OKAY =>
      if tr_freevariable tr then nocut SCIP_OKAY
      else
        let '(ds, deltacands) := deltaCandidates scip sol mkset in
        let best1 :=
          tryDeltaCandidates scip sol aggrrow minfrac maxfrac cutislocal mkset cutefficacy
                             deltacands in
        (* no delta was found that yielded any cut *)
        if Qeq_bool (bestcutdelta best1) SCIP_INVALID then nocut SCIP_OKAY
        else
          (* try bestdelta divided by 2, 4 and 8 *)
          let best2 :=
            tryScaledDeltas scip sol aggrrow minfrac maxfrac cutislocal mkset cutefficacy
                            [2; 4; 8] best1 in
          let '(_, bounddistpos) :=
            SCIPsortDownRealInt (ds_bounddist ds) (ds_bounddistpos ds) in
          let st3 :=
            switchComplementation scip sol aggrrow allowlocal minfrac maxfrac cutislocal
                                  cutefficacy bounddistpos (mkCmirState mkset best2) in
          let best3 := cm_best st3 in
          if bestsuccess best3 then
            mkCutResult SCIP_OKAY (bestcutcoefs best3) (bestcutinds best3) (bestcutrhs best3)
                        (bestcutefficacy best3) (rank aggrrow + 1)%Z
                        (cutislocal || localbdsused (cm_mkset st3)) true
          else
            mkCutResult SCIP_OKAY (bestcutcoefs best3) (bestcutinds best3) (bestcutrhs best3)
                        cutefficacy 0%Z cutislocal false
  end.

(* ================================================================== *)
(** ** Feasible points and valid cuts *)
(* ================================================================== *)

(** the activity of a row in a point *)
Definition SCIProwGetActivity (row : SCIP_ROW) (x : SCIP_SOL) : Q :=
  cutActivity x (row_cols row) (row_vals row) + row_constant row.

Definition row_feasible (row : SCIP_ROW) (x : SCIP_SOL) : Prop :=
  row_lhs row <= SCIProwGetActivity row x /\ SCIProwGetActivity row x <= row_rhs row.

(** the point lies in the local or in the global bound box *)
Definition bounds_feasible (scip : SCIP) (islocal : bool) (x : SCIP_SOL) : Prop :=
  forall v, (v < SCIPgetNVars scip)%nat ->
    let var := getVar scip v in
    (if islocal then var_lblocal var else var_lbglobal var) <= x v /\
    x v <= (if islocal then var_ublocal var else var_ubglobal var).

(** the variables that are not continuous take integral values *)
Definition integral_point (scip : SCIP) (x : SCIP_SOL) : Prop :=
  forall v, (v < firstcontvar scip)%nat -> exists n : Z, x v == inject_Z n.

(** no feasible integer point is cut off: every integral point in the bound
    box that satisfies the rows of the aggregation satisfies the cut *)
Definition cut_valid (scip : SCIP) (aggrrow : SCIP_AGGRROW) (cut : CUT) : Prop :=
  forall x : SCIP_SOL,
    integral_point scip x ->
    bounds_feasible scip (cut_islocal cut) x ->
    (forall r, In r (rowsinds aggrrow) -> row_feasible (getRow scip r) x) ->
    cutActivity x (cut_inds cut) (cut_coefs cut) <= cut_rhs cut.

(** *** The rounding functions in the words of the specification *)

(** mixed integer rounding of the coefficient [a'] of an integral variable
    in the transformed row with fractionality [f0] of the right hand side;
    [down] rounds down *)
Definition MIR_int_rounding (down : Q -> Q) (le : Q -> Q -> bool) (f0 a' : Q) : Q :=
  let f := a' - down a' in
  if le f f0 then down a' else down a' + (f - f0) / (1 - f0).

(** rounding of the coefficient [a'] of a continuous variable *)
Definition MIR_cont_rounding (f0 a' : Q) : Q :=
  if Qle_bool 0 a' then 0 else a' / (1 - f0).

(** strong CG rounding with the integer parameter [k]; [up] rounds up *)
Definition strongCG_p (down up : Q -> Q) (f0 k a' : Q) : Q :=
  let f := a' - down a' in
  up (k * (f - f0) / (1 - f0)).

Definition strongCG_int_rounding (down up : Q -> Q) (le : Q -> Q -> bool) (f0 k a' : Q) : Q :=
  let f := a' - down a' in
  if le f f0 then down a' else down a' + strongCG_p down up f0 k a' / (k + 1).

(** *** The relaxation of the examples *)

Definition example_infinity : Q := 100000000000000000000 # 1.

(** an integer variable with bounds [0, 10] *)
Definition example_intvar : SCIP_VAR :=
  mkVar SCIP_VARTYPE_INTEGER 0 (10 # 1) 0 (10 # 1) [] [] [] [] [] [].


(** the maximum norm, one of the norms [SCIPgetVectorEfficacyNorm] offers *)
Definition maximumNorm (coefs : list Q) : Q :=
  fold_right (fun v m => MAX (REALABS v) m) 0 coefs.

(** the row [x0 - x1 <= 1/2] *)
Definition example_diff_row : SCIP_ROW :=
  mkRow [0%nat; 1%nat] [1; - (1)] (- example_infinity) (1 # 2) 0
        false false false 0%Z 0%Z SCIP_BASESTAT_BASIC.

Definition example_diff_scip : SCIP :=
  mkSCIP SCIP_DEFAULT_SET [example_intvar; example_intvar] 0 [example_diff_row] maximumNorm.

(** the row enters the aggregation with weight -1 *)
Definition example_diff_aggrrow : SCIP_AGGRROW :=
  SCIPaggrRowAddRow SCIP_DEFAULT_SET SCIPaggrRowCreate example_diff_row (- (1)) 0.

Definition example_origin : SCIP_SOL := fun _ => 0.




(** *** Sums over item lists *)

(** the sum of [u j] over the items [j] of the list that satisfy [P] *)
Fixpoint sumWhere (P : nat -> bool) (u : nat -> Q) (l : list nat) : Q :=
  match l with
  | [] => 0
  | j :: l' => (if P j then u j else 0) + sumWhere P u l'
  end.

(** membership in N1, the variables with coefficient +1, and the capacity
    u_j of a variable *)
Definition inN1 (snf : SNF_RELAXATION) (j : nat) : bool :=
  (int_get (transvarcoefs snf) j =? 1)%Z.

Definition vubcoef (snf : SNF_RELAXATION) (j : nat) : Q :=
  arr_get (transvarvubcoefs snf) j.

(** *** A single node flow relaxation for the examples *)

(** two variables in N1 with capacities 3 and 4, both binary variables at
    1/2, and right hand side 5 *)
Definition example_snf : SNF_RELAXATION :=
  mkSNF [1%Z; 1%Z] [1 # 2; 1 # 2] [1; 1] [3; 4] 5 [0%Z; 1%Z] [0%Z; 1%Z] [1; 1] [1; 1] [0; 0].

(** collaborators for the examples: a selection that leaves the items in
    their order, a dynamic program that answers with all items in the
    knapsack, and a scalar search that answers 1 *)
Definition example_select (entries : list KPITEM) (capacity : Q) : list KPITEM := entries.

Definition example_knapsack_all (weights : list Z) (profits : list Q) (capacity : Z)
           (items : list nat) : bool * KPSOLUTION :=
  (true, mkKpSolution items []).

Definition example_scalar (vals : list Q) (mindelta maxdelta : Q) (maxdnom : Z)
           (maxscale : Q) : Q * bool :=
  (1, true).

(** *** The scalings of the best delta in the words of the specification *)

(** try the delta of the best cut of the candidates, [basedelta], divided
    by each of the divisors *)
Fixpoint tryDeltasOfBase (scip : SCIP) (sol : SCIP_SOL) (aggrrow : SCIP_AGGRROW)
         (minfrac maxfrac : Q) (mksetislocal : bool) (mkset : CUTSTATE)
         (minefficacy : Q) (basedelta : Q) (divisors : list Q) (best : BESTCUT) : BESTCUT :=
  match divisors with
  | [] => best
  | i :: divisors' =>
      tryDeltasOfBase scip sol aggrrow minfrac maxfrac mksetislocal mkset minefficacy
                      basedelta divisors'
                      (tryDelta scip sol aggrrow minfrac maxfrac mksetislocal mkset
                                best minefficacy (basedelta / i))
  end.

(** a continuous variable with bounds [0, 10] *)
Definition example_contvar : SCIP_VAR :=
  mkVar SCIP_VARTYPE_CONTINUOUS 0 (10 # 1) 0 (10 # 1) [] [] [] [] [] [].

(** the row [4 x0 + 5 x1 - x2 <= 5/2] *)
Definition example_cmir_row : SCIP_ROW :=
  mkRow [0%nat; 1%nat; 2%nat] [4; 5; - (1)] (- example_infinity) (5 # 2) 0
        false false false 0%Z 0%Z SCIP_BASESTAT_BASIC.

Definition example_cmir_scip : SCIP :=
  mkSCIP SCIP_DEFAULT_SET [example_intvar; example_intvar; example_contvar] 1
         [example_cmir_row] maximumNorm.

Definition example_cmir_aggrrow : SCIP_AGGRROW :=
  SCIPaggrRowAddRow SCIP_DEFAULT_SET SCIPaggrRowCreate example_cmir_row 1 0.

(** the point (5/2, 1/2, 10), which satisfies the row with equality *)
Definition example_cmir_sol : SCIP_SOL :=
  fun v => match v with
           | O => 5 # 2
           | S O => 1 # 2
           | _ => 10 # 1
           end.

(** the mixed knapsack set of the example *)
Definition example_cmir_mkset : CUTSTATE :=
  tr_cut (cutsTransformMIR example_cmir_scip example_cmir_sol (1 # 2) false true false false
                           None [] (5 # 100) (95 # 100)
                           (vals example_cmir_aggrrow) (rhs example_cmir_aggrrow)
                           (inds example_cmir_aggrrow)).

(** the best cut of the example after the candidates for delta *)
Definition example_cmir_best : BESTCUT :=
  tryDeltaCandidates example_cmir_scip example_cmir_sol example_cmir_aggrrow
                     (5 # 100) (95 # 100) false example_cmir_mkset 0
                     (snd (deltaCandidates example_cmir_scip example_cmir_sol
                                           example_cmir_mkset)).

(** *** The rounded row *)

(** an entry of the transformed row: problem index, coefficient, sign of the
    transformed variable, and the bound that was used *)
Definition ROWENTRY : Type := (nat * Q * Z * Z)%type.

Definition entriesOf (st : CUTSTATE) : list ROWENTRY :=
  combine (combine (combine (cutinds st) (cutcoefs st)) (varsign st)) (boundtype st).

(** the arrays hold the entries [ents] at the positions from [lo] on *)
Definition region_is (st : CUTSTATE) (lo : nat) (ents : list ROWENTRY) : Prop :=
  forall q v c vs bt,
    nth_error ents q = Some (v, c, vs, bt) ->
    nth_error (cutinds st) (lo + q) = Some v /\
    nth_error (cutcoefs st) (lo + q) = Some c /\
    nth_error (varsign st) (lo + q) = Some vs /\
    nth_error (boundtype st) (lo + q) = Some bt.

Definition entry_continuous (scip : SCIP) (e : ROWENTRY) : bool :=
  let '(v, _, _, _) := e in Nat.leb (firstcontvar scip) v.

(** the coefficient of the variable of the entry in the retransformed cut;
    the entry is removed when the coefficient is zero *)
Definition entryCutCoef (scip : SCIP) (f0 : Q) (e : ROWENTRY) : Q :=
  let '(v, c, vs, _) := e in
  let cutaj :=
    if Nat.leb (firstcontvar scip) v then mirContCoef f0 vs c
    else mirIntCoef (scip_set scip) f0 vs c in
  if SCIPisZero (scip_set scip) cutaj then 0 else cutaj.

(** a continuous entry with a bound type that is not negative uses a
    variable bound *)
Definition usesVarBound (scip : SCIP) (e : ROWENTRY) : bool :=
  let '(v, _, _, bt) := e in Nat.leb (firstcontvar scip) v && (0 <=? bt)%Z.

(** the variable bound of the entry: the problem index of the bounding
    variable, and the coefficient and the constant of the bound *)
Definition entryVarBound (scip : SCIP) (e : ROWENTRY) : nat * Q * Q :=
  let '(v, _, vs, bt) := e in
  let var := getVar scip v in
  let vbidx := Z.to_nat bt in
  if (vs =? 1)%Z
  then (ind_get (var_vlbvars var) vbidx, arr_get (var_vlbcoefs var) vbidx,
        arr_get (var_vlbconsts var) vbidx)
  else (ind_get (var_vubvars var) vbidx, arr_get (var_vubcoefs var) vbidx,
        arr_get (var_vubconsts var) vbidx).

(** what the entry adds to the coefficient of variable [j] of the cut: its
    coefficient under its own index, and for a variable bound the
    coefficient of the bounding variable *)
Definition entryContribution (scip : SCIP) (f0 : Q) (e : ROWENTRY) (j : nat) : Q :=
  let '(v, _, _, _) := e in
  let a := entryCutCoef scip f0 e in
  let '(zidx, vbb, _) := entryVarBound scip e in
  (if Nat.eqb v j then a else 0)
  + (if usesVarBound scip e && Nat.eqb zidx j then - (a * vbb) else 0).

(** what the entry adds to the right hand side *)
Definition entryRhs (scip : SCIP) (f0 : Q) (e : ROWENTRY) : Q :=
  let '(v, _, vs, bt) := e in
  let a := entryCutCoef scip f0 e in
  let '(_, _, vbd) := entryVarBound scip e in
  a * (if usesVarBound scip e then vbd else usedStandardBound (getVar scip v) vs bt).

Fixpoint roundedRowCoef (scip : SCIP) (f0 : Q) (ents : list ROWENTRY) (j : nat) : Q :=
  match ents with
  | [] => 0
  | e :: ents' => entryContribution scip f0 e j + roundedRowCoef scip f0 ents' j
  end.

Fixpoint roundedRowRhs (scip : SCIP) (f0 : Q) (ents : list ROWENTRY) : Q :=
  match ents with
  | [] => 0
  | e :: ents' => entryRhs scip f0 e + roundedRowRhs scip f0 ents'
  end.

(** every entry of the position buffer that is set names a position of its
    variable behind the continuous variables *)
Definition varpos_ok (varpos : POSBUF) (inds : list nat) (lo : nat) : Prop :=
  forall z k, varpos z = S k -> (lo <= k)%nat /\ nth_error inds k = Some z.

(** what the loop over the integral entries [ints], which are at the
    positions from [lo] on, leaves: the positions in front are untouched,
    the positions from [lo] on hold the entries that were there already and
    the rounded entries *)
Definition roundMIRInt_post (scip : SCIP) (f0 : Q) (st : CUTSTATE) (ints : list ROWENTRY)
           (lo : nat) (r : CUTSTATE * POSBUF * nat) : Prop :=
  let st' := fst (fst r) in
  snd r = lo /\
  length (cutcoefs st') = length (cutinds st') /\
  (lo <= length (cutinds st'))%nat /\
  (forall q, (q < lo)%nat ->
             nth_error (cutinds st') q = nth_error (cutinds st) q /\
             nth_error (cutcoefs st') q = nth_error (cutcoefs st) q) /\
  varsign st' = varsign st /\ boundtype st' = boundtype st /\
  localbdsused st' = localbdsused st /\
  varpos_ok (snd (fst r)) (cutinds st') lo /\
  (forall j,
      coefOf (skipn lo (cutinds st')) (skipn lo (cutcoefs st')) j
      == coefOf (skipn (lo + length ints) (cutinds st))
                (skipn (lo + length ints) (cutcoefs st)) j
         + roundedRowCoef scip f0 ints j) /\
  cutrhs st' == cutrhs st + roundedRowRhs scip f0 ints.

(** what the loop over the continuous entries [conts] leaves: behind the
    [snd r] deleted positions at the front, the entries that were behind
    position [m] already, and the rounded entries *)
Definition roundMIRCont_post (scip : SCIP) (f0 : Q) (st : CUTSTATE) (conts : list ROWENTRY)
           (m : nat) (r : CUTSTATE * POSBUF * nat) : Prop :=
  let st' := fst (fst r) in
  length (cutcoefs st') = length (cutinds st') /\
  (snd r <= length (cutinds st'))%nat /\
  (forall j,
      coefOf (skipn (snd r) (cutinds st')) (skipn (snd r) (cutcoefs st')) j
      == coefOf (skipn m (cutinds st)) (skipn m (cutcoefs st)) j
         + roundedRowCoef scip f0 conts j) /\
  cutrhs st' == cutrhs st + roundedRowRhs scip f0 conts.

(** a transformed row over the variables of the c-MIR example: the
    continuous variable x2 with coefficient -1, and the integer variables x1
    and x0 with coefficients 9/4 and 7/4, all at their lower bounds *)
Definition example_round_state : CUTSTATE :=
  mkCut [- (1); 9 # 4; 7 # 4] [2%nat; 1%nat; 0%nat] 3
        [1%Z; 1%Z; 1%Z] [(-1)%Z; (-1)%Z; (-1)%Z] false.
(* ================================================================== *)
(** ** Queries on an aggregation row *)
(* ================================================================== *)

(** [SCIPaggrRowHasRowBeenAdded]: the rows of the aggregation are known by
    their position in the LP only. *)
Fixpoint hasRowLoop (rowsinds : list Z) (rowind : Z) : bool :=
  match rowsinds with
  | [] => false
  | r :: rowsinds' => if (r =? rowind)%Z then true else hasRowLoop rowsinds' rowind
  end.

Definition SCIPaggrRowHasRowBeenAdded (aggrrow : SCIP_AGGRROW) (row : SCIP_ROW) : bool :=
  hasRowLoop (rowsinds aggrrow) (row_lppos row).

(** [SCIPaggrRowGetAbsWeightRange]; the loop over the weights after the
    first one *)
Fixpoint absWeightRangeLoop (rowweights : list Q) (minabsrowweight maxabsrowweight : Q)
  : Q * Q :=
  match rowweights with
  | [] => (minabsrowweight, maxabsrowweight)
  | w :: rowweights' =>
      let absweight := REALABS w in
      if Qlt_bool absweight minabsrowweight
      then absWeightRangeLoop rowweights' absweight maxabsrowweight
      else if Qlt_bool maxabsrowweight absweight
           then absWeightRangeLoop rowweights' minabsrowweight absweight
           else absWeightRangeLoop rowweights' minabsrowweight maxabsrowweight
  end.

(** [None]: the aggregation row is empty, which the source excludes by an
    assertion *)
Definition SCIPaggrRowGetAbsWeightRange (aggrrow : SCIP_AGGRROW) : option (Q * Q) :=
  match rowweights aggrrow with
  | [] => None
  | w :: rowweights' => Some (absWeightRangeLoop rowweights' (REALABS w) (REALABS w))
  end.

(** *** The weighted sum an aggregation row stands for *)

(** the side of a row that the slack sign names *)
Definition row_sideval (set : SCIP_SET) (row : SCIP_ROW) (sign : Z) : Q :=
  if (sign =? -1)%Z then row_sideval_lhs set row else row_sideval_rhs set row.

(** the coefficient of variable [j] in the weighted sum of the recorded rows *)
Fixpoint weightedCoef (rows : list SCIP_ROW) (rowsinds : list Z) (rowweights : list Q)
         (j : nat) : Q :=
  match rowsinds, rowweights with
  | r :: rowsinds', w :: rowweights' =>
      let row := nth (Z.to_nat r) rows default_row in
      w * coefOf (row_cols row) (row_vals row) j
      + weightedCoef rows rowsinds' rowweights' j
  | _, _ => 0
  end.

(** the right hand side of the weighted sum of the recorded rows *)
Fixpoint weightedSide (set : SCIP_SET) (rows : list SCIP_ROW) (rowsinds : list Z)
         (slacksign : list Z) (rowweights : list Q) : Q :=
  match rowsinds, slacksign, rowweights with
  | r :: rowsinds', s :: slacksign', w :: rowweights' =>
      let row := nth (Z.to_nat r) rows default_row in
      row_sideval set row s * w
      + weightedSide set rows rowsinds' slacksign' rowweights'
  | _, _, _ => 0
  end.

(** the entries of a sparse vector that are kept by a removal of zeros *)
Definition keptEntries (iszero : Q -> bool) (inds : list nat) (vals : list Q)
  : list (nat * Q) :=
  filter (fun e => negb (iszero (snd e))) (combine inds vals).

(** *** The rows an aggregation row records *)

(** LP position, slack sign and weight of the recorded rows *)
Definition rowRecords (aggrrow : SCIP_AGGRROW) : list (Z * (Z * Q)) :=
  combine (rowsinds aggrrow) (combine (slacksign aggrrow) (rowweights aggrrow)).

(** the three arrays of the recorded rows have the same length *)
Definition rows_inv (aggrrow : SCIP_AGGRROW) : Prop :=
  length (slacksign aggrrow) = length (rowsinds aggrrow) /\
  length (rowweights aggrrow) = length (rowsinds aggrrow).

(** what [addOneRow] has checked for a row that it used with slack sign [s]
    and weight [w] *)
Definition row_used_ok (set : SCIP_SET) (minallowedweight : Q)
           (sidetypebasis allowlocal : bool) (negslack : Z)
           (row : SCIP_ROW) (s : Z) (w : Q) : Prop :=
  row_modifiable row = false /\
  (row_local row = true -> allowlocal = true) /\
  minallowedweight <= REALABS w /\
  (s = 1%Z \/ s = (-1)%Z) /\
  ((negslack =? 0)%Z || ((negslack =? 1)%Z && negb (row_integral row)) = true ->
   (s = (-1)%Z -> w <= 0) /\ (s = 1%Z -> 0 <= w)) /\
  (sidetypebasis = false ->
   (s = (-1)%Z <-> w < 0 /\ SCIPisInfinity set (- row_lhs row) = false)).

Definition record_eligible (set : SCIP_SET) (rows : list SCIP_ROW) (weights : list Q)
           (ks : list nat) (minallowedweight : Q)
           (sidetypebasis allowlocal : bool) (negslack : Z)
           (rec : Z * (Z * Q)) : Prop :=
  exists (k : nat) (row : SCIP_ROW),
    In k ks /\ nth_error rows k = Some row /\
    fst rec = row_lppos row /\ snd (snd rec) = arr_get weights k /\
    row_used_ok set minallowedweight sidetypebasis allowlocal negslack
                row (fst (snd rec)) (snd (snd rec)).

(** the rows that a summation looks at: the given ones, or all rows of the LP *)
Definition summedRows (rows : list SCIP_ROW) (rowinds : option (list nat)) : list nat :=
  match rowinds with
  | Some rowinds => rowinds
  | None => seq 0 (length rows)
  end.

(** *** The best cut of the c-MIR heuristic *)

(** a best cut that counts as a success is better than the efficacy to
    beat, and its efficacy is the one of the stored cut *)
Definition bestcut_inv (scip : SCIP) (sol : SCIP_SOL) (minefficacy : Q)
           (best : BESTCUT) : Prop :=
  bestsuccess best = true ->
  minefficacy < bestcutefficacy best /\
  bestcutefficacy best =
    calcEfficacy scip sol (bestcutcoefs best) (bestcutrhs best) (bestcutinds best).

(** *** Clean cuts *)

(** the coefficient array matches the index array, and no coefficient is
    zero within the sum epsilon *)
Definition cut_clean (scip : SCIP) (coefs : list Q) (inds : list nat) : Prop :=
  length coefs = length inds /\
  Forall (fun c => SCIPisSumZero (scip_set scip) c = false) coefs.

(** every row of the LP has as many values as columns *)
Definition rows_wellformed (scip : SCIP) : Prop :=
  forall row, In row (scip_lprows scip) -> length (row_vals row) = length (row_cols row).

(** *** The structure of a flow cover *)

(** the signed capacity of a variable: u_j in N1 and -u_j in N2 *)
Definition flowcap (snf : SNF_RELAXATION) (j : nat) : Q :=
  if inN1 snf j then vubcoef snf j else - vubcoef snf j.

(** status +1: the variable is in the flow cover; status -1: it is not *)
Definition inCover (status : list Z) (j : nat) : bool := (int_get status j =? 1)%Z.
Definition notInCover (status : list Z) (j : nat) : bool := (int_get status j =? -1)%Z.

(** the variables that the fixing leaves to the knapsack problem: the
    capacity is not zero and the binary variable is fractional *)
Definition isItem (set : SCIP_SET) (snf : SNF_RELAXATION) (j : nat) : bool :=
  negb (SCIPisFeasZero set (arr_get (transvarvubcoefs snf) j))
  && negb (SCIPisFeasIntegral set (arr_get (transbinvarsolvals snf) j)).

(** the state of the fixing loop after the variables [done] *)
Definition fixing_inv (set : SCIP_SET) (snf : SNF_RELAXATION) (done : list nat)
           (fx : FIXING) : Prop :=
  let status := flowcoverstatus (fx_cover fx) in
  fx_items fx = filter (isItem set snf) done /\
  (forall j, In j done -> isItem set snf j = false ->
             int_get status j = 1%Z \/ int_get status j = (-1)%Z) /\
  (forall j, ~ In j done \/ isItem set snf j = true -> int_get status j = 0%Z) /\
  nflowcovervars (fx_cover fx) = length (filter (inCover status) done) /\
  nnonflowcovervars (fx_cover fx) = length (filter (notInCover status) done) /\
  flowcoverweight (fx_cover fx) == sumWhere (inCover status) (flowcap snf) done.

(** a flow cover over the variables [0, n): every variable is in the cover
    or not, the counters count them, and [weight] is the sum of the signed
    capacities of the variables in the cover *)
Definition cover_complete (snf : SNF_RELAXATION) (fc : FLOWCOVER) (weight : Q) : Prop :=
  let status := flowcoverstatus fc in
  let n := ntransvars snf in
  length status = n /\
  (forall j, (j < n)%nat -> int_get status j = 1%Z \/ int_get status j = (-1)%Z) /\
  nflowcovervars fc = length (filter (inCover status) (seq 0 n)) /\
  nnonflowcovervars fc = length (filter (notInCover status) (seq 0 n)) /\
  weight == sumWhere (inCover status) (flowcap snf) (seq 0 n).

(** the cover [fc'] extends the cover [fc] by a decision on the variables
    [l]: their status is set to +1 or -1, the status of the other variables
    is kept, and the counters and the weight grow by what was put into the
    cover *)
Definition cover_extends (snf : SNF_RELAXATION) (l : list nat) (fc fc' : FLOWCOVER) : Prop :=
  let status := flowcoverstatus fc in
  let status' := flowcoverstatus fc' in
  length status' = length status /\
  (forall j, ~ In j l -> int_get status' j = int_get status j) /\
  (forall j, In j l -> int_get status' j = 1%Z \/ int_get status' j = (-1)%Z) /\
  nflowcovervars fc' = (nflowcovervars fc + length (filter (inCover status') l))%nat /\
  nnonflowcovervars fc' =
    (nnonflowcovervars fc + length (filter (notInCover status') l))%nat /\
  flowcoverweight fc' == flowcoverweight fc + sumWhere (inCover status') (flowcap snf) l.
(* ================================================================== *)
(** ** Flow cover: the lifting function *)
(* ================================================================== *)

(** [struct LiftingData]; [M] has [r + 1] entries and [m] has [r] *)
Record LIFTINGDATA : Type := mkLiftingData {
  ld_M      : list Q;
  ld_m      : list Q;
  ld_r      : nat;
  ld_t      : nat;
  ld_d1     : Q;
  ld_d2     : Q;
  ld_lambda : Q;
  ld_mp     : Q;
  ld_ml     : Q
}.

(** the conversion of an [int] to [SCIP_Real] *)
Definition natQ (i : nat) : Q := inject_Z (Z.of_nat i).

(** [while( i < r && SCIPisGT(scip, v, M[i+1]) ) ++i]; [fuel] counts the
    iterations that are left, at most [r] *)
Fixpoint liftingIndex (set : SCIP_SET) (M : list Q) (r : nat) (v : Q) (fuel i : nat) : nat :=
  match fuel with
  | O => i
  | S fuel' =>
      if Nat.ltb i r && SCIPisGT set v (arr_get M (S i))
      then liftingIndex set M r v fuel' (S i)
      else i
  end.

(** [evaluateLiftingFunction] *)
Definition evaluateLiftingFunction (set : SCIP_SET) (liftingdata : LIFTINGDATA) (x : Q) : Q :=
  let lambda := ld_lambda liftingdata in
  let M := ld_M liftingdata in
  let r := ld_r liftingdata in
  let xpluslambda := x + lambda in
  let i := liftingIndex set M r xpluslambda r 0 in
  if Nat.ltb i (ld_t liftingdata) then
    if SCIPisLE set (arr_get M i) x then natQ i * lambda
    else natQ i * lambda + x + - arr_get M i
  else if Nat.ltb i r then
    let tmp := arr_get (ld_m liftingdata) i + - ld_mp liftingdata in
    let tmp := tmp + - ld_ml liftingdata in
    let tmp := tmp + lambda in
    (* p = MAX(0.0, p) *)
    let tmp := if Qlt_bool tmp 0 then 0 else tmp in
    let tmp := tmp + arr_get M i in
    let tmp := tmp + ld_ml liftingdata in
    if SCIPisLT set tmp xpluslambda then natQ i * lambda
    else natQ i * lambda + x + - arr_get M i
  else natQ r * lambda + x + - arr_get M r.

(** [getAlphaAndBeta] *)
Definition getAlphaAndBeta (set : SCIP_SET) (liftingdata : LIFTINGDATA) (vubcoef : Q)
  : Z * Q :=
  let lambda := ld_lambda liftingdata in
  let M := ld_M liftingdata in
  let r := ld_r liftingdata in
  let vubcoefpluslambda := vubcoef + lambda in
  let i := liftingIndex set M r vubcoefpluslambda r 0 in
  if SCIPisLT set vubcoef (arr_get M i)
  then (1%Z, - natQ i * lambda + arr_get M i)
  else (0%Z, 0).

(** what the loop of [computeLiftingData] over the variables collects *)
Record LIFTSCAN : Type := mkLiftScan {
  ls_m          : list Q;
  ls_sumN2mC2LE : Q;
  ls_sumC1LE    : Q;
  ls_sumN2mC2GT : Q;
  ls_sumC2      : Q;
  ls_mp         : Q
}.

(** the set of a variable: 0 for N2 \ C2, 1 for C2, 2 for N1 \ C1 and 3 for
    C1; the division is the one of C, which truncates *)
Definition liftingCase (snf : SNF_RELAXATION) (transvarflowcoverstatus : list Z) (i : nat)
  : Z :=
  ((int_get (transvarcoefs snf) i + 1)
   + Z.quot (int_get transvarflowcoverstatus i + 1) 2)%Z.

Fixpoint liftingScan (set : SCIP_SET) (snf : SNF_RELAXATION)
         (transvarflowcoverstatus : list Z) (lambda : Q) (js : list nat) (ls : LIFTSCAN)
  : LIFTSCAN :=
  match js with
  | [] => ls
  | i :: js' =>
      let u := arr_get (transvarvubcoefs snf) i in
      let s := liftingCase snf transvarflowcoverstatus i in
      let ls' :=
        if (s =? 0)%Z then
          (* var is in N2 \ C2 *)
          if SCIPisGT set u lambda then
            mkLiftScan (ls_m ls ++ [u]) (ls_sumN2mC2LE ls) (ls_sumC1LE ls)
                       (ls_sumN2mC2GT ls + u) (ls_sumC2 ls) (ls_mp ls)
          else
            mkLiftScan (ls_m ls) (ls_sumN2mC2LE ls + u) (ls_sumC1LE ls)
                       (ls_sumN2mC2GT ls) (ls_sumC2 ls) (ls_mp ls)
        else if (s =? 1)%Z then
          (* var is in C2 *)
          mkLiftScan (ls_m ls) (ls_sumN2mC2LE ls) (ls_sumC1LE ls)
                     (ls_sumN2mC2GT ls) (ls_sumC2 ls + u) (ls_mp ls)
        else if (s =? 3)%Z then
          (* var is in C1 *)
          if SCIPisGT set u lambda then
            mkLiftScan (ls_m ls ++ [u]) (ls_sumN2mC2LE ls) (ls_sumC1LE ls)
                       (ls_sumN2mC2GT ls) (ls_sumC2 ls) (MIN (ls_mp ls) u)
          else
            mkLiftScan (ls_m ls) (ls_sumN2mC2LE ls) (ls_sumC1LE ls + u)
                       (ls_sumN2mC2GT ls) (ls_sumC2 ls) (ls_mp ls)
        else ls in
      liftingScan set snf transvarflowcoverstatus lambda js' ls'
  end.

(** Modelled from the spec: [SCIPsortDownReal] (misc.c is not part of the
    sources at hand) sorts the array in non-increasing order. *)
Fixpoint insertDownReal (k : Q) (keys : list Q) : list Q :=
  match keys with
  | k' :: keys' => if Qle_bool k k' then k' :: insertDownReal k keys' else k :: keys
  | [] => [k]
  end.

Fixpoint SCIPsortDownReal (keys : list Q) : list Q :=
  match keys with
  | k :: keys' => insertDownReal k (SCIPsortDownReal keys')
  | [] => []
  end.

(** Modelled from the spec: [SCIPsortedvecFindDownReal] (misc.c is not part
    of the sources at hand) finds the position of a value in an array that
    is sorted in non-increasing order, or the position where it would have
    to be inserted. *)
Fixpoint SCIPsortedvecFindDownReal (m : list Q) (val : Q) (pos : nat) : nat :=
  match m with
  | x :: m' => if Qle_bool x val then pos else SCIPsortedvecFindDownReal m' val (S pos)
  | [] => pos
  end.

(** [M[i] = sum of m[0..i-1]], with [tmp] the sum so far *)
Fixpoint prefixSums (tmp : Q) (m : list Q) : list Q :=
  match m with
  | [] => [tmp]
  | x :: m' => tmp :: prefixSums (tmp + x) m'
  end.

(** [while( t < r && m[t] == mp ) ++t]; [fuel] counts the iterations that
    are left, at most [r] *)
Fixpoint lastEqual (m : list Q) (mp : Q) (r fuel t : nat) : nat :=
  match fuel with
  | O => t
  | S fuel' =>
      if Nat.ltb t r && Qeq_bool (arr_get m t) mp
      then lastEqual m mp r fuel' (S t)
      else t
  end.

(** [computeLiftingData]; [None]: the lifting data is not valid *)
Definition computeLiftingData (set : SCIP_SET) (snf : SNF_RELAXATION)
           (transvarflowcoverstatus : list Z) (lambda : Q) : option LIFTINGDATA :=
  let ls := liftingScan set snf transvarflowcoverstatus lambda (seq 0 (ntransvars snf))
                        (mkLiftScan [] 0 0 0 0 (SCIPinfinity set)) in
  if SCIPisInfinity set (ls_mp ls) then None
  else
    let r := length (ls_m ls) in
    let ml := MIN lambda (ls_sumC1LE ls + ls_sumN2mC2LE ls) in
    let d1 := ls_sumC2 ls + transrhs snf in
    let d2 := d1 + ls_sumN2mC2GT ls + ls_sumN2mC2LE ls in
    let m := SCIPsortDownReal (ls_m ls) in
    let M := prefixSums 0 m in
    let t := S (SCIPsortedvecFindDownReal m (ls_mp ls) 0) in
    let t := lastEqual m (ls_mp ls) r r t in
    Some (mkLiftingData M m r t d1 d2 lambda (ls_mp ls) ml).

(** the lifting data fits together: [M] holds the partial sums of [m], all
    entries of [m] are greater than lambda, and [t] lies in [1, r] *)
Definition liftingdata_ok (set : SCIP_SET) (liftingdata : LIFTINGDATA) : Prop :=
  let M := ld_M liftingdata in
  let m := ld_m liftingdata in
  let r := ld_r liftingdata in
  length m = r /\ length M = S r /\
  arr_get M 0 = 0 /\
  (forall i, (i < r)%nat -> arr_get M (S i) = arr_get M i + arr_get m i) /\
  Forall (fun u => SCIPisGT set u (ld_lambda liftingdata) = true) m /\
  (1 <= ld_t liftingdata)%nat /\ (ld_t liftingdata <= r)%nat /\
  In (ld_mp liftingdata) m /\
  ld_ml liftingdata <= ld_lambda liftingdata.
(* ================================================================== *)
(** ** The approximate knapsack solver *)
(* ================================================================== *)

(** the weight of the items of a solution, summed in the order in which
    the solver adds them to [solitemsweight] *)
Definition itemsWeight (w : nat -> Q) (sol : list nat) : Q :=
  fold_left (fun s j => s + w j) sol 0.
(* ================================================================== *)
(** ** A free integer variable behind a variable bound *)
(* ================================================================== *)







(* ================================================================== *)
(** ** The rows that a summation has added *)
(* ================================================================== *)

(** a row that was added, with the slack sign and the weight it was added
    with *)
Definition USEDROW : Type := (SCIP_ROW * (Z * Q))%type.

(** the coefficient of variable [j] in the weighted sum of the added rows *)
Fixpoint usedCoef (used : list USEDROW) (j : nat) : Q :=
  match used with
  | [] => 0
  | (row, (_, w)) :: used' =>
      w * coefOf (row_cols row) (row_vals row) j + usedCoef used' j
  end.

(** the right hand side of the weighted sum of the added rows *)
Fixpoint usedSide (set : SCIP_SET) (used : list USEDROW) : Q :=
  match used with
  | [] => 0
  | (row, (s, w)) :: used' => row_sideval set row s * w + usedSide set used'
  end.

(** the aggregation row is the weighted sum of the rows [used], which are
    the ones it records, and which are rows [ks] of the LP with their
    weights *)
Definition sums_used (set : SCIP_SET) (rows : list SCIP_ROW) (weights : list Q)
           (ks : list nat) (aggrrow : SCIP_AGGRROW) (used : list USEDROW) : Prop :=
  rowsinds aggrrow = map (fun u : USEDROW => row_lppos (fst u)) used /\
  slacksign aggrrow = map (fun u : USEDROW => fst (snd u)) used /\
  rowweights aggrrow = map (fun u : USEDROW => snd (snd u)) used /\
  Forall (fun u : USEDROW =>
            exists k, In k ks /\ nth_error rows k = Some (fst u) /\
                      snd (snd u) = arr_get weights k) used /\
  rhs aggrrow == usedSide set used /\
  (forall j, coefOf (inds aggrrow) (vals aggrrow) j == usedCoef used j).

(* ================================================================== *)
(** ** The row that the strong CG rounding leaves *)
(* ================================================================== *)

(** the coefficient of the variable of the entry in the retransformed cut:
    a continuous variable is dropped, and so is an integral variable whose
    coefficient is zero *)
Definition strongcgEntryCoef (scip : SCIP) (f0 k : Q) (e : ROWENTRY) : Q :=
  let '(v, c, vs, _) := e in
  if Nat.leb (firstcontvar scip) v then 0
  else
    let cutaj := strongcgIntCoef (scip_set scip) f0 k vs c in
    if SCIPisZero (scip_set scip) cutaj then 0 else cutaj.

(** what the entries add to the coefficient of variable [j] of the cut *)
Fixpoint strongcgRowCoef (scip : SCIP) (f0 k : Q) (ents : list ROWENTRY) (j : nat) : Q :=
  match ents with
  | [] => 0
  | e :: ents' =>
      (let '(v, _, _, _) := e in if Nat.eqb v j then strongcgEntryCoef scip f0 k e else 0)
      + strongcgRowCoef scip f0 k ents' j
  end.

(** what the entries add to the right hand side: the coefficient times the
    bound that was used in the transformation *)
Fixpoint strongcgRowRhs (scip : SCIP) (f0 k : Q) (ents : list ROWENTRY) : Q :=
  match ents with
  | [] => 0
  | e :: ents' =>
      (let '(v, _, vs, bt) := e in
       strongcgEntryCoef scip f0 k e * usedStandardBound (getVar scip v) vs bt)
      + strongcgRowRhs scip f0 k ents'
  end.
(* ================================================================== *)
(** ** Facts on the numerics *)
(* ================================================================== *)

Unset Implicit Arguments.

Lemma Qlt_bool_iff (x y : Q) : Qlt_bool x y = true <-> x < y.
Proof.
  unfold Qlt_bool. rewrite negb_true_iff.
  split; intros H.
  - apply Qnot_le_lt. intros Hle. apply Qle_bool_iff in Hle. congruence.
  - destruct (Qle_bool y x) eqn:E; [|reflexivity].
    apply Qle_bool_iff in E. exfalso. apply (Qlt_not_le _ _ H E).
Qed.

Lemma Qlt_bool_false_iff (x y : Q) : Qlt_bool x y = false <-> y <= x.
Proof.
  unfold Qlt_bool. rewrite negb_false_iff. apply Qle_bool_iff.
Qed.

Lemma Qle_bool_false_iff (x y : Q) : Qle_bool x y = false <-> y < x.
Proof.
  split; intros H.
  - apply Qnot_le_lt. intros Hle. apply Qle_bool_iff in Hle. congruence.
  - destruct (Qle_bool x y) eqn:E; [|reflexivity].
    apply Qle_bool_iff in E. exfalso. apply (Qlt_not_le _ _ H E).
Qed.

Lemma EPSFLOOR_le (x eps : Q) : EPSFLOOR x eps <= x + eps.
Proof. unfold EPSFLOOR. apply Qfloor_le. Qed.

Lemma EPSFLOOR_gt (x eps : Q) : x + eps < EPSFLOOR x eps + 1.
Proof.
  unfold EPSFLOOR.
  pose proof (Qlt_floor (x + eps)) as H.
  rewrite inject_Z_plus in H. exact H.
Qed.

Lemma EPSCEIL_ge (x eps : Q) : x - eps <= EPSCEIL x eps.
Proof. unfold EPSCEIL. apply Qle_ceiling. Qed.

Lemma EPSCEIL_lt (x eps : Q) : EPSCEIL x eps - 1 < x - eps.
Proof.
  unfold EPSCEIL.
  pose proof (Qceiling_lt (x - eps)) as H.
  assert (E : inject_Z (Qceiling (x - eps)) - 1 ==
              inject_Z (Qceiling (x - eps) - 1)).
  { unfold Z.sub. rewrite inject_Z_plus. reflexivity. }
  rewrite E. exact H.
Qed.

(** the ceiling of a real is the least integer above it *)
Lemma Qceiling_le_Z (x : Q) (n : Z) : x <= inject_Z n -> (Qceiling x <= n)%Z.
Proof.
  intros H.
  destruct (Z_le_gt_dec (Qceiling x) n) as [L|G]; [exact L|exfalso].
  pose proof (Qceiling_lt x) as C.
  assert (Hn : (n <= Qceiling x - 1)%Z) by lia.
  rewrite Zle_Qle in Hn.
  apply (Qlt_irrefl x).
  eapply Qle_lt_trans; [exact H|].
  eapply Qle_lt_trans; [exact Hn|exact C].
Qed.

Lemma Qfloor_ge_Z (x : Q) (n : Z) : inject_Z n <= x -> (n <= Qfloor x)%Z.
Proof.
  intros H.
  destruct (Z_le_gt_dec n (Qfloor x)) as [L|G]; [exact L|exfalso].
  pose proof (Qlt_floor x) as C.
  assert (Hn : (Qfloor x + 1 <= n)%Z) by lia.
  rewrite Zle_Qle in Hn.
  apply (Qlt_irrefl x).
  eapply Qlt_le_trans; [exact C|].
  eapply Qle_trans; [exact Hn|exact H].
Qed.

(* ================================================================== *)
(** ** Facts on sparse vectors *)
(* ================================================================== *)

Ltac bool_simp :=
  cbn [orb negb andb Nat.eqb];
  rewrite ?andb_false_r, ?andb_true_r, ?orb_false_r, ?orb_true_r;
  cbn [orb negb andb Nat.eqb].

Lemma memb_In (j : nat) (l : list nat) : memb j l = true <-> In j l.
Proof.
  unfold memb. rewrite existsb_exists. split.
  - intros [x [Hin Heq]]. apply Nat.eqb_eq in Heq. subst. exact Hin.
  - intros H. exists j. split; [exact H|apply Nat.eqb_refl].
Qed.

Lemma memb_false (j : nat) (l : list nat) : memb j l = false <-> ~ In j l.
Proof.
  rewrite <- memb_In. destruct (memb j l); split; congruence.
Qed.

Lemma memb_cons (j i : nat) (l : list nat) :
  memb j (i :: l) = (Nat.eqb j i || memb j l)%bool.
Proof. reflexivity. Qed.

Lemma coefOf_notin (inds : list nat) : forall (vals : list Q) (j : nat),
  ~ In j inds -> coefOf inds vals j == 0.
Proof.
  induction inds as [|i inds IH]; intros vals j Hn; simpl.
  - reflexivity.
  - destruct vals as [|v vals]; [reflexivity|].
    destruct (Nat.eqb_spec i j) as [->|Hne].
    + exfalso. apply Hn. left. reflexivity.
    + rewrite IH; [ring|]. intros Hin. apply Hn. right. exact Hin.
Qed.

Lemma coefOf_app1 (inds : list nat) : forall (vals : list Q) (c : nat) (x : Q) (j : nat),
  length vals = length inds ->
  coefOf (inds ++ [c]) (vals ++ [x]) j == coefOf inds vals j + (if Nat.eqb c j then x else 0).
Proof.
  induction inds as [|i inds IH]; intros vals c x j Hlen; destruct vals as [|v vals];
    simpl in Hlen; try discriminate; simpl.
  - ring.
  - rewrite IH by (injection Hlen; auto). ring.
Qed.

Lemma coefOf_nth (cols : list nat) : forall (rvals : list Q) (p c : nat),
  NoDup cols -> length rvals = length cols ->
  nth_error cols p = Some c -> arr_get rvals p == coefOf cols rvals c.
Proof.
  induction cols as [|c0 cols IH]; intros rvals p c Hnd Hlen Hnth.
  - destruct p; discriminate.
  - destruct rvals as [|v rvals]; [discriminate|]. simpl in Hlen.
    inversion Hnd as [|? ? Hnotin Hnd']; subst.
    destruct p as [|p]; simpl in Hnth.
    + injection Hnth as ->. simpl. rewrite Nat.eqb_refl.
      rewrite coefOf_notin by exact Hnotin. unfold arr_get. simpl. ring.
    + simpl. destruct (Nat.eqb_spec c0 c) as [->|Hne].
      * exfalso. apply Hnotin. eapply nth_error_In. exact Hnth.
      * unfold arr_get in *. simpl.
        rewrite (IH rvals p c Hnd') by (auto; lia). ring.
Qed.

Lemma coefOf_map_scale (cols : list nat) : forall (rvals : list Q) (scale : Q) (j : nat),
  coefOf cols (map (fun v => v * scale) rvals) j == scale * coefOf cols rvals j.
Proof.
  induction cols as [|c cols IH]; intros rvals scale j; simpl.
  - ring.
  - destruct rvals as [|v rvals]; simpl; [ring|].
    rewrite IH. destruct (Nat.eqb c j); ring.
Qed.

Lemma coefOf_all_zero (inds : list nat) : forall (vals : list Q),
  NoDup inds -> length vals = length inds ->
  (forall j, coefOf inds vals j == 0) -> Forall (fun v => v == 0) vals.
Proof.
  induction inds as [|i inds IH]; intros vals Hnd Hlen Hz; destruct vals as [|v vals];
    simpl in Hlen; try discriminate.
  - constructor.
  - inversion Hnd as [|? ? Hnotin Hnd']; subst.
    constructor.
    + specialize (Hz i). simpl in Hz. rewrite Nat.eqb_refl in Hz.
      rewrite coefOf_notin in Hz by exact Hnotin. lra.
    + apply IH; [exact Hnd'|lia|].
      intros j. specialize (Hz j). simpl in Hz.
      destruct (Nat.eqb_spec i j) as [->|Hne].
      * apply coefOf_notin. exact Hnotin.
      * lra.
Qed.

Lemma upd_same (f : POSBUF) (k v : nat) : upd f k v k = v.
Proof. unfold upd. rewrite Nat.eqb_refl. reflexivity. Qed.

Lemma upd_other (f : POSBUF) (k v j : nat) : j <> k -> upd f k v j = f j.
Proof. unfold upd. intros H. apply Nat.eqb_neq in H. rewrite H. reflexivity. Qed.

(** *** The three loops of [varVecAddScaledRowCoefs] *)

Lemma rememberPositions_spec (cols : list nat) : forall (i : nat) (vp : POSBUF) (c : nat),
  NoDup cols ->
  (~ In c cols -> rememberPositions cols i vp c = vp c) /\
  (forall p, nth_error cols p = Some c -> rememberPositions cols i vp c = S (i + p)).
Proof.
  induction cols as [|c0 cols IH]; intros i vp c Hnd.
  - split; [reflexivity|]. intros p Hp. destruct p; discriminate.
  - inversion Hnd as [|? ? Hnotin Hnd']; subst. simpl.
    destruct (IH (S i) (upd vp c0 (S i)) c Hnd') as [IH1 IH2].
    split.
    + intros Hn. rewrite IH1 by (intros H; apply Hn; right; exact H).
      apply upd_other. intros ->. apply Hn. left. reflexivity.
    + intros [|p] Hp; simpl in Hp.
      * injection Hp as ->. rewrite IH1 by exact Hnotin.
        rewrite upd_same. f_equal. lia.
      * rewrite (IH2 p Hp). f_equal. lia.
Qed.

Lemma rememberPositions_ok (cols : list nat) :
  NoDup cols -> varpos_row_ok cols (rememberPositions cols 0 cleanbuf).
Proof.
  intros Hnd c.
  destruct (rememberPositions_spec cols 0%nat cleanbuf c Hnd) as [H1 H2].
  destruct (in_dec Nat.eq_dec c cols) as [Hin|Hn].
  - right. apply In_nth_error in Hin. destruct Hin as [p Hp].
    exists p. split; [|exact Hp]. rewrite (H2 p Hp). reflexivity.
  - left. rewrite H1 by exact Hn. reflexivity.
Qed.

Lemma addCommon_spec (rvals : list Q) (scale : Q) (inds : list nat) :
  forall (vals : list Q) (vp : POSBUF) (vs : list Q) (vp' : POSBUF),
  length vals = length inds ->
  addCommon inds vals rvals scale vp = (vs, vp') ->
  length vs = length inds /\
  (forall c, In c inds -> vp' c = O) /\
  (forall c, ~ In c inds -> vp' c = vp c) /\
  (forall j, coefOf inds vs j ==
             coefOf inds vals j +
             (if (memb j inds && negb (Nat.eqb (vp j) 0))%bool
              then scale * arr_get rvals (vp j - 1) else 0)).
Proof.
  induction inds as [|i inds IH]; intros vals vp vs vp' Hlen Hrun;
    destruct vals as [|v vals]; simpl in Hlen; try discriminate; simpl in Hrun.
  - injection Hrun as <- <-.
    split; [reflexivity|]. split; [intros c []|]. split; [reflexivity|].
    intros j. simpl. ring.
  - assert (Hlen' : length vals = length inds) by lia.
    destruct (Nat.eqb (vp i) 0) eqn:Ez.
    + destruct (addCommon inds vals rvals scale vp) as [vs0 vp0] eqn:E.
      injection Hrun as <- <-.
      destruct (IH vals vp vs0 vp0 Hlen' E) as (L & Hin & Hout & Hc).
      apply Nat.eqb_eq in Ez.
      split; [|split; [|split]].
      * simpl. lia.
      * intros c [->|Hc']; [|apply Hin; exact Hc'].
        destruct (in_dec Nat.eq_dec c inds) as [Hi|Hn]; [apply Hin; exact Hi|].
        rewrite Hout by exact Hn. exact Ez.
      * intros c Hn. apply Hout. intros H. apply Hn. right. exact H.
      * intros j. rewrite memb_cons. cbn [coefOf]. rewrite Hc.
        destruct (Nat.eqb_spec j i) as [->|Hne].
        -- rewrite Ez. rewrite Nat.eqb_refl. bool_simp. ring.
        -- assert (Hij : Nat.eqb i j = false) by (apply Nat.eqb_neq; congruence).
           rewrite Hij. cbn [orb]. ring.
    + destruct (addCommon inds vals rvals scale (upd vp i 0)) as [vs0 vp0] eqn:E.
      injection Hrun as <- <-.
      destruct (IH vals (upd vp i 0%nat) vs0 vp0 Hlen' E) as (L & Hin & Hout & Hc).
      split; [|split; [|split]].
      * simpl. lia.
      * intros c [->|Hc']; [|apply Hin; exact Hc'].
        destruct (in_dec Nat.eq_dec c inds) as [Hi|Hn]; [apply Hin; exact Hi|].
        rewrite Hout by exact Hn. apply upd_same.
      * intros c Hn. rewrite Hout by (intros H; apply Hn; right; exact H).
        apply upd_other. intros ->. apply Hn. left. reflexivity.
      * intros j. rewrite memb_cons. cbn [coefOf]. rewrite Hc.
        destruct (Nat.eqb_spec j i) as [->|Hne].
        -- rewrite upd_same. rewrite !Nat.eqb_refl. bool_simp.
           rewrite Ez. bool_simp. ring.
        -- rewrite upd_other by exact Hne.
           assert (Hij : Nat.eqb i j = false) by (apply Nat.eqb_neq; congruence).
           rewrite Hij. cbn [orb]. ring.
Qed.

Lemma addRemaining_spec (scale : Q) (cols : list nat) :
  forall (rvals : list Q) (inds : list nat) (vals : list Q) (vp : POSBUF)
         (inds' : list nat) (vals' : list Q) (vp' : POSBUF),
  NoDup cols -> length rvals = length cols -> length vals = length inds ->
  addRemaining cols rvals scale inds vals vp = (inds', vals', vp') ->
  length vals' = length inds' /\
  inds' = inds ++ filter (fun c => negb (Nat.eqb (vp c) 0)) cols /\
  (forall j, coefOf inds' vals' j ==
             coefOf inds vals j +
             (if (memb j cols && negb (Nat.eqb (vp j) 0))%bool
              then scale * coefOf cols rvals j else 0)).
Proof.
  induction cols as [|c cols IH]; intros rvals inds vals vp inds' vals' vp' Hnd Hlr Hlv Hrun;
    destruct rvals as [|v rvals]; simpl in Hlr; try discriminate; simpl in Hrun.
  - injection Hrun as <- <- <-.
    split; [exact Hlv|]. split; [simpl; rewrite app_nil_r; reflexivity|].
    intros j. simpl. ring.
  - inversion Hnd as [|? ? Hnotin Hnd']; subst.
    assert (Hlr' : length rvals = length cols) by lia.
    destruct (Nat.eqb (vp c) 0) eqn:Ez.
    + destruct (IH rvals inds vals vp inds' vals' vp' Hnd' Hlr' Hlv Hrun) as (L & Hi & Hc).
      split; [exact L|]. split; [simpl; rewrite Ez; exact Hi|].
      intros j. rewrite Hc. rewrite memb_cons. cbn [coefOf].
      destruct (Nat.eqb_spec j c) as [->|Hne].
      * rewrite Ez. rewrite Nat.eqb_refl. bool_simp.
        apply memb_false in Hnotin. rewrite ?Hnotin. bool_simp. ring.
      * assert (Hcj : Nat.eqb c j = false) by (apply Nat.eqb_neq; congruence).
        rewrite Hcj. cbn [orb].
        destruct (memb j cols && negb (Nat.eqb (vp j) 0))%bool; ring.
    + assert (Hlv' : length (vals ++ [v * scale]) = length (inds ++ [c])).
      { rewrite !length_app. simpl. lia. }
      destruct (IH rvals (inds ++ [c]) (vals ++ [v * scale]) (upd vp c 0%nat)
                   inds' vals' vp' Hnd' Hlr' Hlv' Hrun) as (L & Hi & Hc).
      split; [exact L|]. split.
      * simpl. rewrite Ez. simpl. rewrite Hi. rewrite <- app_assoc. simpl.
        f_equal. f_equal. apply filter_ext_in. intros a Ha.
        rewrite upd_other; [reflexivity|]. intros ->. apply Hnotin. exact Ha.
      * intros j. rewrite Hc. rewrite coefOf_app1 by exact Hlv.
        rewrite memb_cons. cbn [coefOf].
        destruct (Nat.eqb_spec j c) as [->|Hne].
        -- rewrite !Nat.eqb_refl. rewrite upd_same. bool_simp.
           rewrite Ez. bool_simp.
           rewrite (coefOf_notin cols rvals c Hnotin). ring.
        -- assert (Hcj : Nat.eqb c j = false) by (apply Nat.eqb_neq; congruence).
           rewrite Hcj. rewrite upd_other by exact Hne. cbn [orb].
           destruct (memb j cols && negb (Nat.eqb (vp j) 0))%bool; ring.
Qed.

Lemma varVecAddScaledRowCoefs_spec (inds : list nat) (vals : list Q) (row : SCIP_ROW)
      (scale : Q) (inds' : list nat) (vals' : list Q) :
  NoDup (row_cols row) ->
  length (row_vals row) = length (row_cols row) ->
  length vals = length inds ->
  varVecAddScaledRowCoefs inds vals row scale = (inds', vals') ->
  length vals' = length inds' /\
  (NoDup inds -> NoDup inds') /\
  (exists new, inds' = inds ++ new /\
               forall c, In c new -> In c (row_cols row) /\ ~ In c inds) /\
  (forall j, coefOf inds' vals' j ==
             coefOf inds vals j + scale * coefOf (row_cols row) (row_vals row) j).
Proof.
  intros Hnd Hlr Hlv Hrun.
  unfold varVecAddScaledRowCoefs in Hrun.
  destruct inds as [|i0 inds0] eqn:Einds.
  - (* the vector is empty *)
    injection Hrun as <- <-.
    split.
    { destruct (Qeq_bool scale 1); [|rewrite length_map]; exact Hlr. }
    split; [intros _; exact Hnd|].
    split.
    { exists (row_cols row). split; [reflexivity|]. intros c Hc. split; [exact Hc|intros []]. }
    intros j. destruct vals; simpl in Hlv; try discriminate.
    destruct (Qeq_bool scale 1) eqn:E1.
    + apply Qeq_bool_eq in E1. simpl. rewrite E1. ring.
    + rewrite coefOf_map_scale. simpl. ring.
  - rewrite <- Einds in *. clear Einds i0 inds0.
    set (vp0 := rememberPositions (row_cols row) 0 cleanbuf) in *.
    destruct (addCommon inds vals (row_vals row) scale vp0) as [vals1 vp1] eqn:E1.
    destruct (addRemaining (row_cols row) (row_vals row) scale inds vals1 vp1)
      as [[inds2 vals2] vp2] eqn:E2.
    injection Hrun as <- <-.
    destruct (addCommon_spec _ _ _ _ _ _ _ Hlv E1) as (L1 & Hin1 & Hout1 & Hc1).
    destruct (addRemaining_spec _ _ _ _ _ _ _ _ _ Hnd Hlr L1 E2) as (L2 & Hi2 & Hc2).
    assert (Hvp0 : forall c, (~ In c (row_cols row) -> vp0 c = O) /\
                             (forall p, nth_error (row_cols row) p = Some c -> vp0 c = S p)).
    { intros c. unfold vp0.
      destruct (rememberPositions_spec (row_cols row) 0%nat cleanbuf c Hnd) as [A B].
      split; [intros H; rewrite (A H); reflexivity|].
      intros p Hp. rewrite (B p Hp). reflexivity. }
    assert (Hnew : forall c, In c (filter (fun c => negb (Nat.eqb (vp1 c) 0)) (row_cols row)) ->
                             In c (row_cols row) /\ ~ In c inds).
    { intros c Hc. apply filter_In in Hc. destruct Hc as [Hc Hnz].
      split; [exact Hc|]. intros Hi. rewrite (Hin1 c Hi) in Hnz. discriminate. }
    split; [exact L2|]. split; [|split].
    + intros Hndi. rewrite Hi2. apply NoDup_app.
      * exact Hndi.
      * apply NoDup_filter. exact Hnd.
      * intros a Ha Hb. apply Hnew in Hb. tauto.
    + eexists. split; [exact Hi2|exact Hnew].
    + intros j. rewrite Hc2, Hc1.
      destruct (Hvp0 j) as [Hj0 Hjp].
      destruct (in_dec Nat.eq_dec j (row_cols row)) as [Hjc|Hjc].
      * destruct (In_nth_error _ _ Hjc) as [p Hp].
        pose proof (Hjp p Hp) as Hv.
        pose proof (coefOf_nth (row_cols row) (row_vals row) p j Hnd Hlr Hp) as Hval.
        apply memb_In in Hjc. rewrite Hjc.
        destruct (in_dec Nat.eq_dec j inds) as [Hji|Hji].
        -- rewrite (Hin1 j Hji). apply memb_In in Hji. rewrite Hji.
           rewrite Hv. bool_simp.
           replace (S p - 1)%nat with p by lia. rewrite Hval. ring.
        -- rewrite (Hout1 j Hji). apply memb_false in Hji. rewrite Hji.
           rewrite Hv. bool_simp. ring.
      * pose proof (coefOf_notin _ (row_vals row) j Hjc) as Hz.
        rewrite (Hj0 Hjc).
        apply memb_false in Hjc. rewrite Hjc. bool_simp. rewrite Hz. ring.
Qed.

Lemma length_arr_set (A : Type) (l : list A) : forall (k : nat) (x : A),
  length (arr_set l k x) = length l.
Proof.
  induction l as [|h t IH]; intros k x; simpl; [reflexivity|].
  destruct k; simpl; [reflexivity|]. rewrite IH. reflexivity.
Qed.

Lemma coefOf_arr_set (inds : list nat) : forall (vals : list Q) (k c : nat) (x : Q) (j : nat),
  nth_error inds k = Some c -> length vals = length inds ->
  coefOf inds (arr_set vals k (arr_get vals k + x)) j ==
  coefOf inds vals j + (if Nat.eqb c j then x else 0).
Proof.
  induction inds as [|i inds IH]; intros vals k c x j Hnth Hlen.
  - destruct k; discriminate.
  - destruct vals as [|v vals]; [discriminate|]. simpl in Hlen.
    destruct k as [|k]; simpl in Hnth.
    + injection Hnth as ->. unfold arr_get. simpl.
      destruct (Nat.eqb c j); ring.
    + unfold arr_get in *. simpl.
      rewrite (IH vals k c x j Hnth) by lia.
      destruct (Nat.eqb c j); ring.
Qed.

Lemma addCoefs_spec (weight : Q) (cols : list nat) :
  forall (rvals vals : list Q) (inds : list nat) (vp : POSBUF)
         (vals' : list Q) (inds' : list nat) (vp' : POSBUF),
  NoDup inds -> length vals = length inds -> aggr_varpos_ok inds vp ->
  addCoefs cols rvals weight vals inds vp = (vals', inds', vp') ->
  NoDup inds' /\ length vals' = length inds' /\ aggr_varpos_ok inds' vp' /\
  (exists new, inds' = inds ++ new) /\
  (forall j, coefOf inds' vals' j == coefOf inds vals j + weight * coefOf cols rvals j).
Proof.
  induction cols as [|c cols IH]; intros rvals vals inds vp vals' inds' vp' Hnd Hlen Hok Hrun.
  - simpl in Hrun. injection Hrun as <- <- <-.
    split; [exact Hnd|]. split; [exact Hlen|]. split; [exact Hok|].
    split; [exists []; rewrite app_nil_r; reflexivity|].
    intros j. simpl. ring.
  - destruct rvals as [|v rvals].
    + simpl in Hrun. injection Hrun as <- <- <-.
      split; [exact Hnd|]. split; [exact Hlen|]. split; [exact Hok|].
      split; [exists []; rewrite app_nil_r; reflexivity|].
      intros j. simpl. ring.
    + simpl in Hrun. destruct Hok as [Hz Hp].
      destruct (vp c) as [|k] eqn:Evp.
      * assert (Hnotin : ~ In c inds) by (apply Hz; exact Evp).
        assert (Hnd2 : NoDup (inds ++ [c])).
        { apply NoDup_app; [exact Hnd|repeat constructor; intros []|].
          intros a Ha [<-|[]]. exact (Hnotin Ha). }
        assert (Hlen2 : length (vals ++ [weight * v]) = length (inds ++ [c])).
        { rewrite !length_app. simpl. lia. }
        assert (Hok2 : aggr_varpos_ok (inds ++ [c]) (upd vp c (S (length inds)))).
        { split.
          - intros c' Hc'.
            destruct (Nat.eq_dec c' c) as [->|Hne];
              [rewrite upd_same in Hc'; discriminate|].
            rewrite upd_other in Hc' by exact Hne.
            intros Hin. apply in_app_or in Hin. destruct Hin as [Hin|[Heq|[]]].
            + exact (Hz c' Hc' Hin).
            + congruence.
          - intros c' k Hc'.
            destruct (Nat.eq_dec c' c) as [->|Hne].
            + rewrite upd_same in Hc'. injection Hc' as <-.
              rewrite nth_error_app2 by lia.
              rewrite Nat.sub_diag. reflexivity.
            + rewrite upd_other in Hc' by exact Hne.
              pose proof (Hp c' k Hc') as Hk.
              rewrite nth_error_app1; [exact Hk|].
              apply nth_error_Some. congruence. }
        destruct (IH rvals _ _ _ vals' inds' vp' Hnd2 Hlen2 Hok2 Hrun)
          as (N & L & O & [new Hnew] & Hc).
        split; [exact N|]. split; [exact L|]. split; [exact O|].
        split; [exists (c :: new); rewrite Hnew, <- app_assoc; reflexivity|].
        intros j. rewrite Hc. rewrite coefOf_app1 by exact Hlen.
        cbn [coefOf]. destruct (Nat.eqb c j); ring.
      * pose proof (Hp c k Evp) as Hk.
        assert (Hlen2 : length (arr_set vals k (arr_get vals k + weight * v)) = length inds).
        { rewrite length_arr_set. exact Hlen. }
        destruct (IH rvals _ _ _ vals' inds' vp' Hnd Hlen2 (conj Hz Hp) Hrun)
          as (N & L & O & [new Hnew] & Hc).
        split; [exact N|]. split; [exact L|]. split; [exact O|].
        split; [exists new; exact Hnew|].
        intros j. rewrite Hc. rewrite (coefOf_arr_set inds vals k c _ j Hk Hlen).
        cbn [coefOf]. destruct (Nat.eqb c j); ring.
Qed.

Lemma addOneRow_spec (set : SCIP_SET) (st : SUMSTATE) (row : SCIP_ROW) (weight : Q)
      (maxweightrange minallowedweight : Q) (sidetypebasis allowlocal : bool)
      (negslack : Z) (maxaggrlen : nat) :
  sum_inv st ->
  let st' := addOneRow set st row weight maxweightrange minallowedweight
                       sidetypebasis allowlocal negslack maxaggrlen in
  sum_inv st' /\
  (exists new, inds (ss_aggrrow st') = inds (ss_aggrrow st) ++ new) /\
  (ss_aggrrow st' = ss_aggrrow st \/
   forall j, coefOf (inds (ss_aggrrow st')) (vals (ss_aggrrow st')) j ==
             coefOf (inds (ss_aggrrow st)) (vals (ss_aggrrow st)) j +
             weight * coefOf (row_cols row) (row_vals row) j) /\
  (ss_rowtoolong st' = true -> (maxaggrlen < nnz (ss_aggrrow st'))%nat).
Proof.
  intros Hinv. unfold addOneRow.
  assert (Hskip : forall mi ma,
    let s := mkSumState (ss_aggrrow st) mi ma (ss_varpos st) false in
    sum_inv s /\
    (exists new, inds (ss_aggrrow s) = inds (ss_aggrrow st) ++ new) /\
    (ss_aggrrow s = ss_aggrrow st \/
     forall j, coefOf (inds (ss_aggrrow s)) (vals (ss_aggrrow s)) j ==
               coefOf (inds (ss_aggrrow st)) (vals (ss_aggrrow st)) j +
               weight * coefOf (row_cols row) (row_vals row) j) /\
    (ss_rowtoolong s = true -> (maxaggrlen < nnz (ss_aggrrow s))%nat)).
  { intros mi ma. simpl. split; [exact Hinv|].
    split; [exists []; rewrite app_nil_r; reflexivity|].
    split; [left; reflexivity|discriminate]. }
  match goal with |- context [if ?b then _ else _] => destruct b end; [apply Hskip|].
  match goal with |- context [if ?b then mkSumState _ _ _ _ _ else _] => destruct b end;
    [apply Hskip|].
  destruct Hinv as (Hnd & Hlen & Hok).
  destruct (addCoefs (row_cols row) (row_vals row) weight (vals (ss_aggrrow st))
                     (inds (ss_aggrrow st)) (ss_varpos st)) as [[vals' inds'] vp'] eqn:E.
  destruct (addCoefs_spec _ _ _ _ _ _ _ _ _ Hnd Hlen Hok E) as (N & L & O & Hnew & Hc).
  simpl. split; [split; [exact N|split; [exact L|exact O]]|].
  split; [exact Hnew|]. split; [right; exact Hc|].
  intros H. apply Nat.ltb_lt in H. exact H.
Qed.

Lemma sumLoop_spec (set : SCIP_SET) (rows : list SCIP_ROW) (weights : list Q)
      (maxweightrange minallowedweight : Q) (sidetypebasis allowlocal : bool)
      (negslack : Z) (maxaggrlen : nat) (ks : list nat) :
  forall st : SUMSTATE,
  sum_inv st ->
  (ss_rowtoolong st = true -> (maxaggrlen < nnz (ss_aggrrow st))%nat) ->
  let st' := sumLoop set rows weights ks st maxweightrange minallowedweight
                     sidetypebasis allowlocal negslack maxaggrlen in
  sum_inv st' /\
  (ss_rowtoolong st' = true -> (maxaggrlen < nnz (ss_aggrrow st'))%nat).
Proof.
  induction ks as [|k ks IH]; intros st Hinv Hlong; simpl.
  - split; assumption.
  - destruct (nth_error rows k) as [row|]; [|split; assumption].
    pose proof (addOneRow_spec set st row (arr_get weights k) maxweightrange
                  minallowedweight sidetypebasis allowlocal negslack maxaggrlen Hinv)
      as (I & _ & _ & T).
    destruct (ss_rowtoolong (addOneRow set st row (arr_get weights k) maxweightrange
                minallowedweight sidetypebasis allowlocal negslack maxaggrlen)) eqn:E.
    + split; [exact I|intros _; exact (T eq_refl)].
    + apply IH; [exact I|]. intros H. rewrite E in H. discriminate.
Qed.

Lemma In_arr_set (A : Type) (l : list A) : forall (k : nat) (x y : A),
  In y (arr_set l k x) -> y = x \/ In y l.
Proof.
  induction l as [|h t IH]; intros k x y H; simpl in H; [contradiction|].
  destruct k; simpl in H.
  - destruct H as [<-|H]; [left; reflexivity|right; right; exact H].
  - destruct H as [<-|H]; [right; left; reflexivity|].
    destruct (IH k x y H) as [->|Hin]; [left; reflexivity|right; right; exact Hin].
Qed.

Lemma NoDup_arr_set (A : Type) (l : list A) : forall (k : nat) (x : A),
  NoDup l -> ~ In x l -> NoDup (arr_set l k x).
Proof.
  induction l as [|h t IH]; intros k x Hnd Hx; simpl; [constructor|].
  inversion Hnd as [|? ? Hh Ht]; subst.
  destruct k.
  - constructor; [|exact Ht]. intros Hin. apply Hx. right. exact Hin.
  - constructor.
    + intros Hin. apply In_arr_set in Hin. destruct Hin as [->|Hin].
      * apply Hx. left. reflexivity.
      * exact (Hh Hin).
    + apply IH; [exact Ht|]. intros Hin. apply Hx. right. exact Hin.
Qed.

Lemma arr_remove_snoc (A : Type) (l : list A) (x : A) (k : nat) :
  arr_remove (l ++ [x]) k = arr_set l k x.
Proof.
  unfold arr_remove. rewrite rev_app_distr. simpl.
  rewrite removelast_last. reflexivity.
Qed.

Lemma NoDup_arr_remove (A : Type) (l : list A) (k : nat) :
  NoDup l -> NoDup (arr_remove l k).
Proof.
  destruct l as [|x l] using rev_ind; intros Hnd.
  - constructor.
  - rewrite arr_remove_snoc.
    apply NoDup_remove in Hnd. rewrite app_nil_r in Hnd. destruct Hnd as [Hnd Hx].
    apply NoDup_arr_set; assumption.
Qed.

Lemma removeZeroEntries_NoDup (iszero : Q -> bool) (fuel : nat) :
  forall (k : nat) (vals : list Q) (inds : list nat),
  NoDup inds -> NoDup (snd (removeZeroEntries iszero fuel k vals inds)).
Proof.
  induction fuel as [|fuel IH]; intros k vals inds Hnd; simpl; [exact Hnd|].
  destruct (iszero (arr_get vals k)).
  - apply IH. apply NoDup_arr_remove. exact Hnd.
  - apply IH. exact Hnd.
Qed.

Lemma sum_inv_init (set : SCIP_SET) (aggrrow : SCIP_AGGRROW) :
  sum_inv (mkSumState (SCIPaggrRowClear aggrrow) (SCIPinfinity set)
                      (- SCIPinfinity set) cleanbuf false).
Proof.
  split; [constructor|]. split; [reflexivity|].
  split; [intros c _ []|]. intros c k H. discriminate.
Qed.

Lemma SCIPaggrRowSumRows_NoDup (set : SCIP_SET) (aggrrow : SCIP_AGGRROW)
      (rows : list SCIP_ROW) (weights : list Q) (rowinds : option (list nat))
      (maxweightrange minallowedweight : Q) (sidetypebasis allowlocal : bool)
      (negslack : Z) (maxaggrlen : nat) :
  NoDup (inds (fst (SCIPaggrRowSumRows set aggrrow rows weights rowinds maxweightrange
                      minallowedweight sidetypebasis allowlocal negslack maxaggrlen))).
Proof.
  unfold SCIPaggrRowSumRows.
  match goal with |- context [sumLoop ?s ?r ?w ?ks ?st ?a ?b ?c ?d ?e ?f] =>
    pose proof (sumLoop_spec s r w a b c d e f ks st (sum_inv_init set aggrrow)
                  ltac:(discriminate)) as [I _];
    set (st' := sumLoop s r w ks st a b c d e f) in *
  end.
  destruct I as (Hnd & _ & _).
  destruct (if ss_rowtoolong st' then false else (0 <? nnz (ss_aggrrow st'))%nat).
  - pose proof (removeZeroEntries_NoDup (SCIPisZero set) (nnz (ss_aggrrow st')) 0%nat
                  (vals (ss_aggrrow st')) (inds (ss_aggrrow st')) Hnd) as H.
    destruct (removeZeroEntries (SCIPisZero set) (nnz (ss_aggrrow st')) 0
                (vals (ss_aggrrow st')) (inds (ss_aggrrow st'))) as [v i].
    exact H.
  - exact Hnd.
Qed.

(* ================================================================== *)
(** ** The aggregation row: claims *)
(* ================================================================== *)

(** C9.  Adding coefficients keeps the variable indices of the sparse
    coefficient vector pairwise distinct.  [SCIPaggrRowAddRow] keeps the
    entries that are there at their positions, appends only variables that
    are not yet present, and the coefficient of every variable grows by
    [scale] times its row coefficient; [addOneRow] does the same under the
    position buffer of [SCIPaggrRowSumRows], whose result has pairwise
    distinct indices as well.  Rows of the relaxation name every column at
    most once (the source asserts it at the append). *)
Theorem aggrRow_no_duplicate_indices :
  (forall (set : SCIP_SET) (aggrrow : SCIP_AGGRROW) (row : SCIP_ROW) (scale : Q) (sidetype : Z),
      NoDup (row_cols row) ->
      length (row_vals row) = length (row_cols row) ->
      length (vals aggrrow) = length (inds aggrrow) ->
      NoDup (inds aggrrow) ->
      let a := SCIPaggrRowAddRow set aggrrow row scale sidetype in
      NoDup (inds a) /\
      (exists new, inds a = inds aggrrow ++ new /\
                   forall c, In c new -> In c (row_cols row) /\ ~ In c (inds aggrrow)) /\
      (forall j, coefOf (inds a) (vals a) j ==
                 coefOf (inds aggrrow) (vals aggrrow) j +
                 scale * coefOf (row_cols row) (row_vals row) j)) /\
  (forall (set : SCIP_SET) (st : SUMSTATE) (row : SCIP_ROW) (weight : Q)
          (maxweightrange minallowedweight : Q) (sidetypebasis allowlocal : bool)
          (negslack : Z) (maxaggrlen : nat),
      sum_inv st ->
      let st' := addOneRow set st row weight maxweightrange minallowedweight
                           sidetypebasis allowlocal negslack maxaggrlen in
      sum_inv st' /\
      (exists new, inds (ss_aggrrow st') = inds (ss_aggrrow st) ++ new) /\
      (ss_aggrrow st' = ss_aggrrow st \/
       forall j, coefOf (inds (ss_aggrrow st')) (vals (ss_aggrrow st')) j ==
                 coefOf (inds (ss_aggrrow st)) (vals (ss_aggrrow st)) j +
                 weight * coefOf (row_cols row) (row_vals row) j)) /\
  (forall (set : SCIP_SET) (aggrrow : SCIP_AGGRROW) (rows : list SCIP_ROW)
          (weights : list Q) (rowinds : option (list nat))
          (maxweightrange minallowedweight : Q) (sidetypebasis allowlocal : bool)
          (negslack : Z) (maxaggrlen : nat),
      NoDup (inds (fst (SCIPaggrRowSumRows set aggrrow rows weights rowinds maxweightrange
                          minallowedweight sidetypebasis allowlocal negslack maxaggrlen)))).
Proof.
  split; [|split].
  - intros set aggrrow row scale sidetype Hnd Hlr Hlv Hndi a.
    subst a. unfold SCIPaggrRowAddRow.
    destruct (varVecAddScaledRowCoefs (inds aggrrow) (vals aggrrow) row scale)
      as [inds' vals'] eqn:E.
    destruct (varVecAddScaledRowCoefs_spec _ _ _ _ _ _ Hnd Hlr Hlv E) as (_ & N & Hnew & Hc).
    simpl. split; [exact (N Hndi)|]. split; [exact Hnew|exact Hc].
  - intros set st row weight mwr maw stb al ns mal Hinv st'.
    destruct (addOneRow_spec set st row weight mwr maw stb al ns mal Hinv) as (I & Hnew & Hc & _).
    split; [exact I|]. split; [exact Hnew|exact Hc].
  - intros. apply SCIPaggrRowSumRows_NoDup.
Qed.

Lemma aggrRow_no_duplicate_indices_witness :
  NoDup (row_cols example_two_col_row) /\
  NoDup (inds (SCIPaggrRowAddRow SCIP_DEFAULT_SET
                 (SCIPaggrRowAddRow SCIP_DEFAULT_SET SCIPaggrRowCreate example_ranged_row 1 0)
                 example_two_col_row 2 0)).
Proof.
  assert (H2 : NoDup (row_cols example_two_col_row)).
  { simpl. constructor; [simpl; intros [H|[]]; discriminate|].
    constructor; [intros []|constructor]. }
  split; [exact H2|].
  apply (proj1 aggrRow_no_duplicate_indices SCIP_DEFAULT_SET
           (SCIPaggrRowAddRow SCIP_DEFAULT_SET SCIPaggrRowCreate example_ranged_row 1 0)
           example_two_col_row 2 0%Z H2).
  - reflexivity.
  - reflexivity.
  - simpl. constructor; [intros []|constructor].
Defined.

(** C5 (as amended).  Adding [s] times a row with pairwise distinct columns
    to an empty aggregation row and then [-s] times the same row, both with
    automatic side selection, leaves exactly the columns of the row, every
    one with coefficient zero.  The right hand side is zero when the row
    has an infinite side; when both sides are finite the two calls select
    opposite sides and the right hand side is [|s|] times the difference of
    the two side values. *)
Theorem aggrRow_add_then_subtract (set : SCIP_SET) (row : SCIP_ROW) (s : Q) :
  NoDup (row_cols row) ->
  length (row_vals row) = length (row_cols row) ->
  let a := SCIPaggrRowAddRow set
             (SCIPaggrRowAddRow set SCIPaggrRowCreate row s 0) row (- s) 0 in
  inds a = row_cols row /\
  Forall (fun v => v == 0) (vals a) /\
  rhs a == (if (SCIPisInfinity set (row_rhs row) || SCIPisInfinity set (- row_lhs row))%bool
            then 0
            else Qabs s * (row_sideval_rhs set row - row_sideval_lhs set row)).
Proof.
  intros Hnd Hlr a.
  set (a1 := SCIPaggrRowAddRow set SCIPaggrRowCreate row s 0) in *.
  destruct (proj1 aggrRow_no_duplicate_indices set SCIPaggrRowCreate row s 0%Z Hnd Hlr
              eq_refl (NoDup_nil nat)) as (N1 & (new1 & Hi1 & _) & Hc1).
  fold a1 in N1, Hi1, Hc1.
  assert (Hl1 : length (vals a1) = length (inds a1)).
  { unfold a1, SCIPaggrRowAddRow.
    destruct (varVecAddScaledRowCoefs (inds SCIPaggrRowCreate) (vals SCIPaggrRowCreate) row s)
      as [i v] eqn:E.
    destruct (varVecAddScaledRowCoefs_spec (inds SCIPaggrRowCreate) (vals SCIPaggrRowCreate)
                row s i v Hnd Hlr eq_refl E) as (L & _).
    exact L. }
  assert (Hinds1 : inds a1 = row_cols row).
  { unfold a1, SCIPaggrRowAddRow. simpl. reflexivity. }
  destruct (proj1 aggrRow_no_duplicate_indices set a1 row (- s) 0%Z Hnd Hlr Hl1 N1)
    as (N2 & (new2 & Hi2 & Hnew2) & Hc2).
  fold a in N2, Hi2, Hc2.
  assert (Hl2 : length (vals a) = length (inds a)).
  { unfold a, SCIPaggrRowAddRow.
    destruct (varVecAddScaledRowCoefs (inds a1) (vals a1) row (- s)) as [i v] eqn:E.
    destruct (varVecAddScaledRowCoefs_spec _ _ _ _ _ _ Hnd Hlr Hl1 E) as (L & _).
    exact L. }
  assert (Hnil : new2 = []).
  { destruct new2 as [|c new2]; [reflexivity|exfalso].
    destruct (Hnew2 c (or_introl eq_refl)) as [Hin Hout].
    apply Hout. rewrite Hinds1. exact Hin. }
  split; [rewrite Hi2, Hnil, app_nil_r; exact Hinds1|].
  split.
  - apply (coefOf_all_zero (inds a)); [exact N2|exact Hl2|].
    intros j. rewrite Hc2, Hc1. simpl. ring.
  - unfold a, a1, SCIPaggrRowAddRow.
    destruct (varVecAddScaledRowCoefs (inds SCIPaggrRowCreate) (vals SCIPaggrRowCreate) row s)
      as [i1 v1].
    cbn [inds vals rhs].
    destruct (varVecAddScaledRowCoefs i1 v1 row (- s)) as [i2 v2].
    cbn [rhs SCIPaggrRowCreate Z.eqb].
    fold (row_sideval_lhs set row). fold (row_sideval_rhs set row).
    destruct (SCIPisInfinity set (row_rhs row)) eqn:Er; cbn [orb].
    + ring.
    + destruct (SCIPisInfinity set (- row_lhs row)) eqn:El; cbn [negb andb].
      * ring.
      * destruct (Qlt_bool s 0) eqn:E1; destruct (Qlt_bool (- s) 0) eqn:E2.
        -- apply Qlt_bool_iff in E1. apply Qlt_bool_iff in E2. lra.
        -- apply Qlt_bool_iff in E1.
           rewrite (Qabs_neg s) by lra. ring.
        -- apply Qlt_bool_iff in E2.
           rewrite (Qabs_pos s) by lra. ring.
        -- apply Qlt_bool_false_iff in E1. apply Qlt_bool_false_iff in E2.
           assert (Hs : s == 0) by lra.
           rewrite (Qabs_pos s) by lra. rewrite Hs. ring.
Qed.

Lemma aggrRow_add_then_subtract_witness :
  NoDup (row_cols example_ranged_row) /\
  rhs (SCIPaggrRowAddRow SCIP_DEFAULT_SET
         (SCIPaggrRowAddRow SCIP_DEFAULT_SET SCIPaggrRowCreate example_ranged_row 3 0)
         example_ranged_row (- (3)) 0) == 3.
Proof.
  assert (H : NoDup (row_cols example_ranged_row)).
  { simpl. constructor; [intros []|constructor]. }
  split; [exact H|].
  destruct (aggrRow_add_then_subtract SCIP_DEFAULT_SET example_ranged_row 3 H eq_refl)
    as (_ & _ & R).
  rewrite R. reflexivity.
Defined.

(** C5 as stated fails on a row with two finite sides: the two calls take
    opposite sides, so the right hand side is not zero. *)
Lemma aggrRow_add_then_subtract_rhs_nonzero :
  ~ (forall (set : SCIP_SET) (row : SCIP_ROW) (s : Q),
        NoDup (row_cols row) ->
        length (row_vals row) = length (row_cols row) ->
        let a := SCIPaggrRowAddRow set
                   (SCIPaggrRowAddRow set SCIPaggrRowCreate row s 0) row (- s) 0 in
        Forall (fun v => v == 0) (vals a) /\ rhs a == 0).
Proof.
  intros H.
  assert (Hnd : NoDup (row_cols example_ranged_row)).
  { simpl. constructor; [intros []|constructor]. }
  destruct (H SCIP_DEFAULT_SET example_ranged_row 1 Hnd eq_refl) as [_ R].
  vm_compute in R. discriminate R.
Qed.

(** C6 as stated fails: a row that makes the aggregation too long is left
    in the aggregation row. *)
Lemma SCIPaggrRowSumRows_keeps_partial_sum :
  ~ (forall (set : SCIP_SET) (aggrrow : SCIP_AGGRROW) (rows : list SCIP_ROW)
            (weights : list Q) (rowinds : option (list nat))
            (maxweightrange minallowedweight : Q) (sidetypebasis allowlocal : bool)
            (negslack : Z) (maxaggrlen : nat),
        let r := SCIPaggrRowSumRows set aggrrow rows weights rowinds maxweightrange
                   minallowedweight sidetypebasis allowlocal negslack maxaggrlen in
        snd r = false -> fst r = SCIPaggrRowClear aggrrow).
Proof.
  intros H.
  specialize (H SCIP_DEFAULT_SET SCIPaggrRowCreate [example_two_col_row] [1] None
                (10000 # 1) (1 # 1000000) false false 0%Z 1%nat eq_refl).
  vm_compute in H. discriminate H.
Qed.

(** C10.  Whatever the memory image of a real number is, there is an
    aggregation row whose copy does not carry the row indices of its source:
    the copy takes them from the coefficient array. *)
Theorem SCIPaggrRowCopy_rowsinds_not_copied (real_words : Q -> Z * Z) :
  exists source : SCIP_AGGRROW,
    length (vals source) = length (inds source) /\
    rowsinds (SCIPaggrRowCopy real_words source) <> rowsinds source.
Proof.
  set (s3 := mkAggrRow [1] [0%nat] 1 [3%Z] [1%Z] [1] 0%Z false).
  set (s5 := mkAggrRow [1] [0%nat] 1 [5%Z] [1%Z] [1] 0%Z false).
  destruct (list_eq_dec Z.eq_dec (rowsinds (SCIPaggrRowCopy real_words s3)) [3%Z]) as [E|N].
  - exists s5. split; [reflexivity|].
    change (rowsinds (SCIPaggrRowCopy real_words s5))
      with (rowsinds (SCIPaggrRowCopy real_words s3)).
    rewrite E. simpl. discriminate.
  - exists s3. split; [reflexivity|]. exact N.
Qed.

(** The other fields of a well-formed aggregation row are copied. *)
Lemma SCIPaggrRowCopy_other_fields (real_words : Q -> Z * Z) (source : SCIP_AGGRROW) :
  length (vals source) = length (inds source) ->
  length (slacksign source) = length (rowsinds source) ->
  length (rowweights source) = length (rowsinds source) ->
  let c := SCIPaggrRowCopy real_words source in
  vals c = vals source /\ inds c = inds source /\ rhs c = rhs source /\
  slacksign c = slacksign source /\ rowweights c = rowweights source /\
  rank c = rank source /\ local c = local source.
Proof.
  intros Hv Hs Hw c. subst c. unfold SCIPaggrRowCopy, nnz, nrows. simpl.
  rewrite <- Hv at 1. rewrite <- Hs at 1. rewrite <- Hw.
  rewrite !firstn_all. repeat split; reflexivity.
Qed.

(* ================================================================== *)
(** ** The rounding rules *)
(* ================================================================== *)

Lemma SCIPfloor_frac_bounds (set : SCIP_SET) (a : Q) :
  - num_epsilon set <= a - SCIPfloor set a /\ a - SCIPfloor set a < 1 - num_epsilon set.
Proof.
  unfold SCIPfloor, SCIPepsilon.
  pose proof (EPSFLOOR_le a (num_epsilon set)).
  pose proof (EPSFLOOR_gt a (num_epsilon set)).
  split; lra.
Qed.

Lemma Qdiv_gt_one_plus (f0 eps : Q) :
  0 <= eps -> 0 < f0 -> f0 < 1 - eps -> 1 + eps < 1 / f0.
Proof.
  intros He Hf Hlt.
  apply Qlt_shift_div_l; [exact Hf|].
  assert (H : (1 + eps) * f0 < (1 + eps) * (1 - eps)).
  { apply Qmult_lt_l; lra. }
  assert (H2 : (1 + eps) * (1 - eps) <= 1).
  { assert (E : (1 + eps) * (1 - eps) == 1 - eps * eps) by ring.
    rewrite E. assert (0 <= eps * eps) by (apply Qmult_le_0_compat; exact He). lra. }
  lra.
Qed.

Lemma strongcgK_ge_one (set : SCIP_SET) (cutrhs : Q) :
  0 <= num_epsilon set ->
  0 < cutrhs - SCIPfloor set cutrhs ->
  1 <= strongcgK set (cutrhs - SCIPfloor set cutrhs) /\
  exists kz : Z, strongcgK set (cutrhs - SCIPfloor set cutrhs) == inject_Z kz.
Proof.
  intros He Hf.
  set (f0 := cutrhs - SCIPfloor set cutrhs) in *.
  destruct (SCIPfloor_frac_bounds set cutrhs) as [_ Hup]. fold f0 in Hup.
  pose proof (Qdiv_gt_one_plus f0 (num_epsilon set) He Hf Hup) as Hdiv.
  unfold strongcgK, SCIPceil, SCIPepsilon, EPSCEIL.
  set (x := 1 / f0 - num_epsilon set) in *.
  assert (Hx : 1 < x) by (unfold x; lra).
  assert (Hc : (2 <= Qceiling x)%Z).
  { pose proof (Qle_ceiling x) as Hle.
    assert (Hlt : inject_Z 1 < inject_Z (Qceiling x)).
    { eapply Qlt_le_trans; [|exact Hle]. exact Hx. }
    rewrite <- Zlt_Qlt in Hlt. lia. }
  split.
  - rewrite Zle_Qle in Hc.
    assert (E : inject_Z 2 == 2) by reflexivity. lra.
  - exists (Qceiling x - 1)%Z.
    unfold Z.sub. rewrite inject_Z_plus. reflexivity.
Qed.

Lemma strongcg_p_bounds (set : SCIP_SET) (f0 k fj : Q) (kz : Z) :
  0 <= num_epsilon set -> num_epsilon set < 1 ->
  0 < f0 -> f0 < fj -> fj < 1 ->
  k == inject_Z kz -> 0 <= k ->
  let pj := SCIPceil set (k * (fj - f0) * (1 / (1 - f0))) in
  0 <= pj /\ pj <= k.
Proof.
  intros He He1 Hf0 Hlt Hfj Hk Hk0 pj.
  assert (Hd : 0 < 1 - f0) by lra.
  set (t := (fj - f0) * (1 / (1 - f0))).
  assert (Ht0 : 0 <= t).
  { unfold t. apply Qmult_le_0_compat; [lra|].
    apply Qle_shift_div_l; [exact Hd|lra]. }
  assert (Ht1 : t <= 1).
  { unfold t. assert (E : (fj - f0) * (1 / (1 - f0)) == (fj - f0) / (1 - f0)) by (field; lra).
    rewrite E. apply Qle_shift_div_r; [exact Hd|lra]. }
  assert (Hx : k * (fj - f0) * (1 / (1 - f0)) == k * t) by (unfold t; ring).
  assert (Hx0 : 0 <= k * t) by (apply Qmult_le_0_compat; assumption).
  assert (Hx1 : k * t <= k).
  { assert (E : k - k * t == k * (1 - t)) by ring.
    assert (0 <= k * (1 - t)) by (apply Qmult_le_0_compat; [assumption|lra]).
    lra. }
  unfold pj, SCIPceil, SCIPepsilon, EPSCEIL.
  set (x := k * (fj - f0) * (1 / (1 - f0)) - num_epsilon set).
  split.
  - pose proof (Qle_ceiling x) as Hle.
    assert (Hgt : inject_Z (-1) < inject_Z (Qceiling x)).
    { eapply Qlt_le_trans; [|exact Hle]. unfold x. rewrite Hx.
      assert (E : inject_Z (-1) == -(1)) by reflexivity. lra. }
    rewrite <- Zlt_Qlt in Hgt.
    assert (H0 : (0 <= Qceiling x)%Z) by lia.
    rewrite Zle_Qle in H0. exact H0.
  - rewrite Hk. rewrite <- Zle_Qle. apply Qceiling_le_Z.
    unfold x. rewrite Hx, <- Hk. lra.
Qed.

(** the coefficients that [cutsRoundMIR] computes are, in the space of the
    complemented variable, the ones of the mixed integer rounding function *)
Lemma mirIntCoef_rounding (set : SCIP_SET) (f0 : Q) (vs : Z) (ci : Q) :
  mirIntCoef set f0 vs ci
  == inject_Z vs * MIR_int_rounding (SCIPfloor set) (SCIPisSumLE set) f0 (inject_Z vs * ci).
Proof.
  unfold mirIntCoef, MIR_int_rounding.
  destruct (SCIPisSumLE set _ f0); [reflexivity|].
  unfold Qdiv. ring.
Qed.

Lemma mirContCoef_rounding (f0 : Q) (vs : Z) (ci : Q) :
  mirContCoef f0 vs ci == inject_Z vs * MIR_cont_rounding f0 (inject_Z vs * ci).
Proof.
  unfold mirContCoef, MIR_cont_rounding.
  destruct (Qle_bool 0 (inject_Z vs * ci)); [ring|].
  unfold Qdiv. ring.
Qed.

(* ================================================================== *)
(** ** Validity of the cuts *)
(* ================================================================== *)

Lemma example_origin_feasible :
  integral_point example_diff_scip example_origin /\
  (forall islocal, bounds_feasible example_diff_scip islocal example_origin) /\
  (forall r, In r (rowsinds example_diff_aggrrow) ->
             row_feasible (getRow example_diff_scip r) example_origin).
Proof.
  split; [|split].
  - intros v _. exists 0%Z. reflexivity.
  - intros islocal v Hv. cbv zeta.
    assert (Hv2 : (v < 2)%nat) by exact Hv.
    destruct v as [|[|v]]; [| |lia]; destruct islocal; split; vm_compute; discriminate.
  - intros r Hr.
    assert (E : r = 0%Z).
    { vm_compute in Hr. destruct Hr as [Hr|[]]. symmetry. exact Hr. }
    subst r. split; vm_compute; discriminate.
Qed.

(** C1 fails for [SCIPcalcStrongCG].  For the two integer variables x0 and
    x1 in [0, 10] and the row x0 - x1 <= 1/2 taken with weight -1, the
    function reports success with the cut x1 - x0 <= -1 (written on the
    variables in the order x1, x0); the origin is integral, within the
    bounds and satisfies the row, and violates the cut.  The slack variable
    of the row is continuous and has a negative coefficient in the
    aggregation. *)
Theorem SCIPcalcStrongCG_cuts_off_feasible_point :
  let cut := SCIPcalcStrongCG example_diff_scip example_origin (1 # 2) true true
                              (5 # 100) (95 # 100) 1 example_diff_aggrrow in
  cut_retcode cut = SCIP_OKAY /\
  cut_success cut = true /\
  cut_inds cut = [1%nat; 0%nat] /\
  map Qred (cut_coefs cut) = [1; - (1)] /\
  Qred (cut_rhs cut) = - (1) /\
  row_integral example_diff_row = false /\
  map Qred (rowweights example_diff_aggrrow) = [- (1)] /\
  slacksign example_diff_aggrrow = [1%Z] /\
  ~ cut_valid example_diff_scip example_diff_aggrrow cut.
Proof.
  cbv zeta.
  repeat (split; [vm_compute; reflexivity|]).
  intros Hvalid.
  destruct example_origin_feasible as (Hint & Hbd & Hrows).
  specialize (Hvalid example_origin Hint (Hbd _) Hrows).
  vm_compute in Hvalid. apply Hvalid. reflexivity.
Qed.

(* ================================================================== *)
(** ** Free variables *)
(* ================================================================== *)

(** *** Entries of the sparse row under removal and sorting *)

Lemma nth_error_arr_set (A : Type) (l : list A) : forall (k p : nat) (x : A),
  p <> k -> nth_error (arr_set l k x) p = nth_error l p.
Proof.
  induction l as [|h t IH]; intros k p x Hp; [reflexivity|].
  destruct k as [|k]; destruct p as [|p]; simpl; try reflexivity; try congruence.
  apply IH. congruence.
Qed.

Lemma nth_error_arr_set_same (A : Type) (l : list A) : forall (k : nat) (x : A),
  (k < length l)%nat -> nth_error (arr_set l k x) k = Some x.
Proof.
  induction l as [|h t IH]; intros k x Hk; simpl in Hk; [lia|].
  destruct k as [|k]; simpl; [reflexivity|]. apply IH. lia.
Qed.

Lemma length_arr_remove (A : Type) (l : list A) (k : nat) :
  length (arr_remove l k) = (length l - 1)%nat.
Proof.
  destruct l as [|x l] using rev_ind; [reflexivity|].
  rewrite arr_remove_snoc, length_arr_set, length_app. simpl. lia.
Qed.

(** the entry at position [p] survives the removal of position [k]: it
    stays, or it was the last one and is now at position [k] *)
Lemma nth_error_arr_remove (A : Type) (l : list A) (k p : nat) (a : A) :
  nth_error l p = Some a -> p <> k -> (k < length l)%nat ->
  nth_error (arr_remove l k) (if Nat.eqb p (length l - 1) then k else p) = Some a.
Proof.
  destruct l as [|x l] using rev_ind; intros Hp Hpk Hk; [destruct p; discriminate|].
  rewrite arr_remove_snoc. rewrite length_app in *. simpl in *.
  replace (length l + 1 - 1)%nat with (length l) by lia.
  destruct (Nat.eqb_spec p (length l)) as [E|E].
  - subst p. rewrite nth_error_app2 in Hp by lia.
    rewrite Nat.sub_diag in Hp. simpl in Hp. injection Hp as <-.
    apply nth_error_arr_set_same. lia.
  - assert (Hlt : (p < length l)%nat).
    { assert (H : (p < length (l ++ [x]))%nat).
      { apply nth_error_Some. rewrite Hp. discriminate. }
      rewrite length_app in H. simpl in H. lia. }
    rewrite nth_error_arr_set by exact Hpk.
    rewrite nth_error_app1 in Hp by exact Hlt. exact Hp.
Qed.

Lemma nth_error_nth_Q (l : list Q) (p : nat) (c : Q) :
  nth_error l p = Some c -> arr_get l p = c.
Proof. intros H. unfold arr_get. apply nth_error_nth. exact H. Qed.

Lemma nth_error_ind_get (l : list nat) (p v : nat) :
  nth_error l p = Some v -> ind_get l p = v.
Proof. intros H. unfold ind_get. apply nth_error_nth. exact H. Qed.




(** the sort yields a permutation in non-increasing order of the indices *)
Lemma insertDownIntReal_spec (k : nat) (x : Q) (inds : list nat) :
  forall (vals : list Q),
    length vals = length inds ->
    StronglySorted (fun a b => (b <= a)%nat) inds ->
    let r := insertDownIntReal k x inds vals in
    length (snd r) = length (fst r) /\
    StronglySorted (fun a b => (b <= a)%nat) (fst r) /\
    (forall j, In j (fst r) -> j = k \/ In j inds) /\
    (forall e, In e (combine (fst r) (snd r)) <-> e = (k, x) \/ In e (combine inds vals)).
Proof.
  induction inds as [|k' inds IH]; intros vals Hlen Hs; simpl.
  - destruct vals; [|discriminate]. simpl.
    split; [reflexivity|]. split; [repeat constructor|].
    split; [intros j [H|[]]; left; symmetry; exact H|].
    intros e. split; [intros [H|[]]; left; symmetry; exact H|intros [H|[]]; left; symmetry; exact H].
  - destruct vals as [|x' vals]; [discriminate|]. simpl in Hlen.
    injection Hlen as Hlen.
    destruct (Nat.leb_spec k k') as [Hle|Hgt].
    + inversion Hs as [|a l Hs' Hall]; subst.
      specialize (IH vals Hlen Hs').
      destruct (insertDownIntReal k x inds vals) as [si sv]. simpl in *.
      destruct IH as (L & S' & I & C).
      split; [simpl; congruence|].
      split.
      * constructor; [exact S'|].
        apply Forall_forall. intros j Hj. destruct (I j Hj) as [->|Hj']; [exact Hle|].
        rewrite Forall_forall in Hall. apply Hall. exact Hj'.
      * split.
        -- intros j [<-|Hj]; [right; left; reflexivity|].
           destruct (I j Hj) as [->|Hj']; [left; reflexivity|right; right; exact Hj'].
        -- intros e. simpl. rewrite C. tauto.
    + simpl. split; [congruence|].
      split.
      * constructor; [exact Hs|].
        inversion Hs as [|a l Hs' Hall]; subst.
        constructor; [lia|].
        rewrite Forall_forall in *. intros j Hj. specialize (Hall j Hj). lia.
      * split; [intros j [<-|Hj]; [left; reflexivity|right; exact Hj]|].
        intros e. split; [intros [H|H]; [left; symmetry; exact H|right; exact H]|].
        intros [H|H]; [left; symmetry; exact H|right; exact H].
Qed.

Lemma SCIPsortDownIntReal_spec (inds : list nat) : forall (vals : list Q),
  length vals = length inds ->
  let r := SCIPsortDownIntReal inds vals in
  length (snd r) = length (fst r) /\
  StronglySorted (fun a b => (b <= a)%nat) (fst r) /\
  (forall e, In e (combine (fst r) (snd r)) <-> In e (combine inds vals)).
Proof.
  induction inds as [|k inds IH]; intros vals Hlen; simpl.
  - split; [reflexivity|]. split; [constructor|]. intros e. simpl. tauto.
  - destruct vals as [|x vals]; [discriminate|]. injection Hlen as Hlen.
    specialize (IH vals Hlen).
    destruct (SCIPsortDownIntReal inds vals) as [si sv]. simpl in IH.
    destruct IH as (L & S' & C).
    destruct (insertDownIntReal_spec k x si sv L S') as (L2 & S2 & _ & C2).
    split; [exact L2|]. split; [exact S2|].
    intros e. rewrite C2. simpl. rewrite C. split; intros [H|H]; auto.
Qed.

(** *** The bounds of a free variable *)







(** *** The transformation of the MIR pipeline *)

Section TransformMIRFree.
Variables (scip : SCIP) (sol : SCIP_SOL) (boundswitch : Q).
Variables (usevbds allowlocal fixintegralrhs ignoresol : bool).
Variables (boundsfortrans : option (list Z)) (boundtypesfortrans : list SCIP_BOUNDTYPE).
Variable v : nat.




End TransformMIRFree.




(** *** The transformation of the strong CG pipeline *)




(** after [cleanupCut] no coefficient is negligible *)
Lemma cleanupCutLoop_nonzero (scip : SCIP) (cutislocal : bool) (fuel : nat) :
  forall (i : nat) (cutinds : list nat) (cutcoefs : list Q) (cutrhs : Q),
    length cutcoefs = length cutinds ->
    (fuel + i = length cutinds)%nat ->
    (forall q x, (q < i)%nat -> nth_error cutcoefs q = Some x ->
                 SCIPisSumZero (scip_set scip) x = false) ->
    let r := cleanupCutLoop scip cutislocal fuel i cutinds cutcoefs cutrhs in
    forall q x, nth_error (snd (fst r)) q = Some x ->
                SCIPisSumZero (scip_set scip) x = false.
Proof.
  induction fuel as [|fuel IH]; intros i cutinds cutcoefs cutrhs Hlen Hfuel Hinv; simpl.
  - intros q x Hq. apply (Hinv q x); [|exact Hq].
    assert (H : (q < length cutcoefs)%nat) by (apply nth_error_Some; rewrite Hq; discriminate).
    simpl in Hfuel. lia.
  - destruct (SCIPisSumZero (scip_set scip) (arr_get cutcoefs i)) eqn:Ez.
    + apply IH.
      * rewrite !length_arr_remove. lia.
      * rewrite length_arr_remove. lia.
      * intros q x Hq Hx. apply (Hinv q x Hq).
        destruct (nth_error cutcoefs q) as [y|] eqn:Ey.
        -- pose proof (nth_error_arr_remove _ cutcoefs i q y Ey ltac:(lia) ltac:(lia)) as H.
           destruct (Nat.eqb_spec q (length cutcoefs - 1)) as [E|E]; [lia|].
           congruence.
        -- apply nth_error_None in Ey. lia.
    + apply IH; [exact Hlen|lia|].
      intros q x Hq Hx.
      destruct (Nat.eq_dec q i) as [->|Hqi].
      * rewrite (nth_error_nth_Q _ _ _ Hx) in Ez. exact Ez.
      * apply (Hinv q x); [lia|exact Hx].
Qed.


Section TransformStrongCGFree.
Variables (scip : SCIP) (sol : SCIP_SOL) (boundswitch : Q) (allowlocal : bool).
Variable v : nat.





End TransformStrongCGFree.



Section FreeVariable.
Variables (scip : SCIP) (sol : SCIP_SOL) (boundswitch : Q).
Variables (usevbds allowlocal : bool).
Variables (v : nat).
Hypothesis Hsumeps : 0 <= num_sumepsilon (scip_set scip).
Hypothesis Heps : num_epsilon (scip_set scip) <= num_sumepsilon (scip_set scip).
Hypothesis Hlb : SCIPisInfinity (scip_set scip) (- var_lbglobal (getVar scip v)) = true.
Hypothesis Hub : SCIPisInfinity (scip_set scip) (var_ubglobal (getVar scip v)) = true.
Hypothesis Hloc :
  allowlocal = true ->
  SCIPisInfinity (scip_set scip) (- var_lblocal (getVar scip v)) = true /\
  SCIPisInfinity (scip_set scip) (var_ublocal (getVar scip v)) = true.
Hypothesis Hvb :
  usevbds = false \/
  (var_vlbvars (getVar scip v) = [] /\ var_vubvars (getVar scip v) = []).



End FreeVariable.





(* ================================================================== *)
(** ** The flow cover search *)
(* ================================================================== *)

(** *** The relative difference *)

Lemma MAX_ge_l (x y : Q) : x <= MAX x y.
Proof.
  unfold MAX. destruct (Qle_bool y x) eqn:E; [apply Qle_refl|].
  apply Qle_bool_false_iff in E. apply Qlt_le_weak. exact E.
Qed.

Lemma MAX_ge_r (x y : Q) : y <= MAX x y.
Proof.
  unfold MAX. destruct (Qle_bool y x) eqn:E; [|apply Qle_refl].
  apply Qle_bool_iff. exact E.
Qed.

Lemma MAX_cases (x y : Q) : MAX x y = x \/ MAX x y = y.
Proof. unfold MAX. destruct (Qle_bool y x); [left|right]; reflexivity. Qed.

Lemma relDiff_quot (a b : Q) :
  let q := MAX (MAX (REALABS a) (REALABS b)) 1 in
  SCIPrelDiff a b = (a - b) / q /\ 1 <= q /\ Qabs a <= q /\ Qabs b <= q /\
  (q = 1 \/ q = Qabs a \/ q = Qabs b).
Proof.
  intros q. unfold REALABS in q.
  split; [reflexivity|]. split; [apply MAX_ge_r|].
  pose proof (MAX_ge_l (MAX (Qabs a) (Qabs b)) 1) as H1.
  pose proof (MAX_ge_l (Qabs a) (Qabs b)) as H2.
  pose proof (MAX_ge_r (Qabs a) (Qabs b)) as H3.
  fold q in H1.
  split; [lra|]. split; [lra|].
  unfold q. destruct (MAX_cases (MAX (Qabs a) (Qabs b)) 1) as [E|E]; rewrite E.
  - right. destruct (MAX_cases (Qabs a) (Qabs b)) as [E'|E']; rewrite E'; [left|right]; reflexivity.
  - left. reflexivity.
Qed.

Lemma Qlt_div_iff (x q t : Q) : 0 < q -> (t < x / q <-> t * q < x).
Proof.
  intros Hq. split; intros H.
  - apply (Qmult_lt_r _ _ q Hq) in H.
    assert (E : x / q * q == x) by (field; lra). rewrite E in H. exact H.
  - apply (Qmult_lt_r _ _ q Hq).
    assert (E : x / q * q == x) by (field; lra). rewrite E. exact H.
Qed.

Lemma Qdiv_lt_iff (x q t : Q) : 0 < q -> (x / q < t <-> x < t * q).
Proof.
  intros Hq. split; intros H.
  - apply (Qmult_lt_r _ _ q Hq) in H.
    assert (E : x / q * q == x) by (field; lra). rewrite E in H. exact H.
  - apply (Qmult_lt_r _ _ q Hq).
    assert (E : x / q * q == x) by (field; lra). rewrite E. exact H.
Qed.

Lemma SCIPisFeasGT_pos (set : SCIP_SET) (lam : Q) :
  0 <= num_feastol set -> SCIPisFeasGT set lam 0 = true -> 0 < lam.
Proof.
  intros Hf H. unfold SCIPisFeasGT, SCIPfeastol in H. apply Qlt_bool_iff in H.
  destruct (relDiff_quot lam 0) as (E & Hq1 & _ & _ & _).
  rewrite E in H. set (q := MAX _ 1) in *.
  apply Qlt_div_iff in H; [|lra].
  assert (0 <= num_feastol set * q) by (apply Qmult_le_0_compat; lra).
  lra.
Qed.

Lemma SCIPisFeasGT_intro (set : SCIP_SET) (lam : Q) :
  0 <= num_feastol set -> num_feastol set < 1 -> num_feastol set < lam ->
  SCIPisFeasGT set lam 0 = true.
Proof.
  intros Hf Hf1 Hlam. unfold SCIPisFeasGT, SCIPfeastol. apply Qlt_bool_iff.
  destruct (relDiff_quot lam 0) as (E & Hq1 & _ & _ & Hc).
  rewrite E. set (q := MAX _ 1) in *.
  apply Qlt_div_iff; [lra|].
  assert (Hl : 0 < lam) by lra.
  destruct Hc as [-> | [-> | ->]].
  - lra.
  - rewrite Qabs_pos by lra.
    assert (num_feastol set * lam < 1 * lam) by (apply Qmult_lt_r; assumption).
    lra.
  - change (Qabs 0) with 0 in Hq1. lra.
Qed.

(** a weight that is feasibly less than the capacity leaves a remainder
    that is greater than the feasibility tolerance *)
Lemma SCIPisFeasLT_gap (set : SCIP_SET) (s cap : Q) :
  0 <= num_feastol set -> SCIPisFeasLT set s cap = true -> num_feastol set < cap - s.
Proof.
  intros Hf H. unfold SCIPisFeasLT, SCIPfeastol in H. apply Qlt_bool_iff in H.
  destruct (relDiff_quot s cap) as (E & Hq1 & _ & _ & _).
  rewrite E in H. set (q := MAX _ 1) in *.
  apply Qdiv_lt_iff in H; [|lra].
  assert (num_feastol set * 1 <= num_feastol set * q).
  { rewrite (Qmult_comm _ 1), (Qmult_comm _ q). apply Qmult_le_compat_r; assumption. }
  lra.
Qed.

(** what the test of the capacity gives *)
Lemma capacity_test (set : SCIP_SET) (cap : Q) :
  0 <= num_feastol set -> SCIPisFeasLE set (cap / (10 # 1)) 0 = false ->
  num_feastol set < 1 /\ num_feastol set < cap.
Proof.
  intros Hf H. unfold SCIPisFeasLE, SCIPfeastol in H. apply Qle_bool_false_iff in H.
  destruct (relDiff_quot (cap / (10 # 1)) 0) as (E & Hq1 & Ha & _ & _).
  rewrite E in H. set (q := MAX _ 1) in *.
  apply Qlt_div_iff in H; [|lra].
  assert (H1 : num_feastol set * 1 <= num_feastol set * q).
  { rewrite (Qmult_comm _ 1), (Qmult_comm _ q). apply Qmult_le_compat_r; assumption. }
  assert (Hc : cap / (10 # 1) == cap * (1 # 10)) by (field; discriminate).
  assert (Hpos : 0 < cap) by lra.
  split; [|lra].
  rewrite Qabs_pos in Ha by lra.
  destruct (Qlt_le_dec (num_feastol set) 1) as [Hlt|Hge]; [exact Hlt|].
  assert (1 * q <= num_feastol set * q) by (apply Qmult_le_compat_r; lra).
  lra.
Qed.

(** *** Sums over item lists *)

Lemma sumWhere_app (P : nat -> bool) (u : nat -> Q) (l1 l2 : list nat) :
  sumWhere P u (l1 ++ l2) == sumWhere P u l1 + sumWhere P u l2.
Proof.
  induction l1 as [|j l1 IH]; simpl; [ring|]. rewrite IH. ring.
Qed.

Lemma sumWhere_perm (P : nat -> bool) (u : nat -> Q) (l1 l2 : list nat) :
  Permutation l1 l2 -> sumWhere P u l1 == sumWhere P u l2.
Proof.
  induction 1; simpl.
  - reflexivity.
  - rewrite IHPermutation. reflexivity.
  - ring.
  - rewrite IHPermutation1. exact IHPermutation2.
Qed.

Lemma sumWhere_split (P : nat -> bool) (u : nat -> Q) (l : list nat) :
  sumWhere (fun _ => true) u l
  == sumWhere P u l + sumWhere (fun j => negb (P j)) u l.
Proof.
  induction l as [|j l IH]; simpl; [ring|].
  rewrite IH. destruct (P j); simpl; ring.
Qed.

Section FlowCoverProofs.
Variable SCIPselectWeightedDownRealRealInt : list KPITEM -> Q -> list KPITEM.
Variable SCIPsolveKnapsackExactly : list Z -> list Q -> Z -> list nat -> bool * KPSOLUTION.
Variable SCIPcalcIntegralScalar : list Q -> Q -> Q -> Z -> Q -> Q * bool.
Variable set : SCIP_SET.
Variable snf : SNF_RELAXATION.

Hypothesis Hfeastol : 0 <= num_feastol set.
Hypothesis Hselect :
  forall entries cap, Permutation (SCIPselectWeightedDownRealRealInt entries cap) entries.

(** the weight of the cover that [buildFlowCover] builds *)
Lemma buildFromSolItems_weight (sol : list nat) : forall (fc : FLOWCOVER),
  flowcoverweight (buildFromSolItems (transvarcoefs snf) (transvarvubcoefs snf) sol fc)
  == flowcoverweight fc - sumWhere (fun j => negb (inN1 snf j)) (vubcoef snf) sol.
Proof.
  induction sol as [|j sol IH]; intros fc; simpl; [ring|].
  rewrite IH. unfold inN1, vubcoef.
  destruct (int_get (transvarcoefs snf) j =? 1)%Z; simpl; ring.
Qed.

Lemma buildFromNonSolItems_weight (nonsol : list nat) : forall (fc : FLOWCOVER),
  flowcoverweight (buildFromNonSolItems (transvarcoefs snf) (transvarvubcoefs snf) nonsol fc)
  == flowcoverweight fc + sumWhere (inN1 snf) (vubcoef snf) nonsol.
Proof.
  induction nonsol as [|j nonsol IH]; intros fc; simpl; [ring|].
  rewrite IH. unfold inN1, vubcoef.
  destruct (int_get (transvarcoefs snf) j =? 1)%Z; simpl; ring.
Qed.

(** lambda is the capacity that the items in the knapsack leave *)
Lemma buildFlowCover_lambda (kp : KPSOLUTION) (fc : FLOWCOVER) (items : list nat) :
  Permutation (solitems kp ++ nonsolitems kp) items ->
  snd (buildFlowCover (transvarcoefs snf) (transvarvubcoefs snf) (transrhs snf) kp fc)
  == (- transrhs snf + flowcoverweight fc + sumWhere (inN1 snf) (vubcoef snf) items)
     - sumWhere (fun _ => true) (vubcoef snf) (solitems kp).
Proof.
  intros Hperm. unfold buildFlowCover. simpl.
  rewrite buildFromNonSolItems_weight, buildFromSolItems_weight.
  rewrite <- (sumWhere_perm (inN1 snf) (vubcoef snf) _ _ Hperm).
  rewrite sumWhere_app.
  rewrite (sumWhere_split (inN1 snf) (vubcoef snf) (solitems kp)).
  ring.
Qed.

(** the fixing loop sums the capacities of the items in N1 *)
Lemma fixInAdvance_n1itemsweight (js : list nat) : forall (fx : FIXING),
  fx_n1itemsweight fx == sumWhere (inN1 snf) (vubcoef snf) (fx_items fx) ->
  fx_n1itemsweight (fixInAdvance set snf js fx)
  == sumWhere (inN1 snf) (vubcoef snf) (fx_items (fixInAdvance set snf js fx)).
Proof.
  induction js as [|j js IH]; intros fx Hinv; simpl; [exact Hinv|].
  apply IH.
  destruct (SCIPisFeasZero set (arr_get (transvarvubcoefs snf) j)); [exact Hinv|].
  destruct (negb (SCIPisFeasIntegral set (arr_get (transbinvarsolvals snf) j))).
  - destruct (int_get (transvarcoefs snf) j =? 1)%Z eqn:E; simpl.
    + rewrite sumWhere_app. simpl. unfold inN1 at 2. rewrite E. rewrite Hinv.
      unfold vubcoef. ring.
    + rewrite sumWhere_app. simpl. unfold inN1 at 2. rewrite E. rewrite Hinv. ring.
  - destruct ((int_get (transvarcoefs snf) j =? 1)%Z
              && Qlt_bool (arr_get (transbinvarsolvals snf) j) (1 # 2)); [exact Hinv|].
    destruct ((int_get (transvarcoefs snf) j =? 1)%Z
              && Qlt_bool (1 # 2) (arr_get (transbinvarsolvals snf) j)); [exact Hinv|].
    destruct ((int_get (transvarcoefs snf) j =? -1)%Z
              && Qlt_bool (1 # 2) (arr_get (transbinvarsolvals snf) j)); exact Hinv.
Qed.

Lemma transcapacityreal_sum :
  transcapacityreal snf (fixedInAdvance set snf)
  == - transrhs snf + flowcoverweight (fx_cover (fixedInAdvance set snf))
     + sumWhere (inN1 snf) (vubcoef snf) (fx_items (fixedInAdvance set snf)).
Proof.
  unfold transcapacityreal, fixedInAdvance.
  rewrite fixInAdvance_n1itemsweight; [reflexivity|]. simpl. reflexivity.
Qed.

(** *** The approximate solver *)

Lemma selectWhileFit_spec (capacity : Q) (items : list KPITEM) :
  forall (s : Q) (sol : list nat),
    Forall (fun it => kp_weight it = vubcoef snf (kp_item it)) items ->
    sumWhere (fun _ => true) (vubcoef snf) sol == s ->
    s = 0 \/ SCIPisFeasLT set s capacity = true ->
    let r := selectWhileFit set capacity items s sol in
    Forall (fun it => kp_weight it = vubcoef snf (kp_item it)) (fst (fst r)) /\
    sumWhere (fun _ => true) (vubcoef snf) (snd r) == snd (fst r) /\
    (snd (fst r) = 0 \/ SCIPisFeasLT set (snd (fst r)) capacity = true) /\
    Permutation (snd r ++ map kp_item (fst (fst r))) (sol ++ map kp_item items).
Proof.
  induction items as [|it items IH]; intros s sol HW Hsum Hs; simpl.
  - repeat split; try assumption. apply Permutation_refl.
  - inversion HW as [|a l Hit HW']; subst.
    destruct (SCIPisFeasLT set (s + kp_weight it) capacity) eqn:E.
    + destruct (IH (s + kp_weight it) (sol ++ [kp_item it]) HW') as (R1 & R2 & R3 & R4).
      * rewrite sumWhere_app. simpl. rewrite Hsum, Hit. ring.
      * right. exact E.
      * repeat split; try assumption.
        rewrite R4. rewrite <- app_assoc. simpl. apply Permutation_refl.
    + simpl. repeat split; try assumption. apply Permutation_refl.
Qed.

Lemma selectIfFit_spec (capacity : Q) (items : list KPITEM) :
  forall (s : Q) (sol nonsol : list nat),
    Forall (fun it => kp_weight it = vubcoef snf (kp_item it)) items ->
    sumWhere (fun _ => true) (vubcoef snf) sol == s ->
    s = 0 \/ SCIPisFeasLT set s capacity = true ->
    let kp := selectIfFit set capacity items s sol nonsol in
    exists s',
      sumWhere (fun _ => true) (vubcoef snf) (solitems kp) == s' /\
      (s' = 0 \/ SCIPisFeasLT set s' capacity = true) /\
      Permutation (solitems kp ++ nonsolitems kp) (sol ++ nonsol ++ map kp_item items).
Proof.
  induction items as [|it items IH]; intros s sol nonsol HW Hsum Hs; simpl.
  - exists s. repeat split; try assumption. rewrite app_nil_r. apply Permutation_refl.
  - inversion HW as [|a l Hit HW']; subst.
    destruct (SCIPisFeasLT set (s + kp_weight it) capacity) eqn:E.
    + destruct (IH (s + kp_weight it) (sol ++ [kp_item it]) nonsol HW') as (s' & R1 & R2 & R3).
      * rewrite sumWhere_app. simpl. rewrite Hsum, Hit. ring.
      * right. exact E.
      * exists s'. repeat split; try assumption.
        rewrite R3. rewrite <- app_assoc. simpl.
        apply Permutation_app_head. apply Permutation_middle.
    + destruct (IH s sol (nonsol ++ [kp_item it]) HW' Hsum Hs) as (s' & R1 & R2 & R3).
      exists s'. repeat split; try assumption.
      rewrite R3. rewrite <- app_assoc. simpl. apply Permutation_refl.
Qed.

Lemma SCIPsolveKnapsackApproximatelyLT_spec (entries : list KPITEM) (capacity : Q) :
  Forall (fun it => kp_weight it = vubcoef snf (kp_item it)) entries ->
  let r := SCIPsolveKnapsackApproximatelyLT SCIPselectWeightedDownRealRealInt set
             entries capacity in
  (exists s',
      sumWhere (fun _ => true) (vubcoef snf) (solitems (fst r)) == s' /\
      (s' = 0 \/ SCIPisFeasLT set s' capacity = true) /\
      Permutation (solitems (fst r) ++ nonsolitems (fst r)) (map kp_item entries)) /\
  Forall (fun it => kp_weight it = vubcoef snf (kp_item it)) (snd r) /\
  Permutation (map kp_item (snd r)) (map kp_item entries).
Proof.
  intros HW. unfold SCIPsolveKnapsackApproximatelyLT.
  set (entries1 := map _ entries).
  set (sorted := SCIPselectWeightedDownRealRealInt entries1 _).
  assert (HW1 : Forall (fun it => kp_weight it = vubcoef snf (kp_item it)) entries1).
  { unfold entries1. apply Forall_map. simpl. exact HW. }
  assert (Hitems1 : map kp_item entries1 = map kp_item entries).
  { unfold entries1. rewrite map_map. reflexivity. }
  assert (Hperm : Permutation sorted entries1) by apply Hselect.
  assert (HWs : Forall (fun it => kp_weight it = vubcoef snf (kp_item it)) sorted).
  { apply (Permutation_Forall (Permutation_sym Hperm)). exact HW1. }
  assert (Hpitems : Permutation (map kp_item sorted) (map kp_item entries)).
  { rewrite <- Hitems1. apply Permutation_map. exact Hperm. }
  destruct (selectWhileFit_spec capacity sorted 0 [] HWs ltac:(reflexivity)
              (or_introl eq_refl)) as (R1 & R2 & R3 & R4).
  destruct (selectWhileFit set capacity sorted 0 []) as [[rest s1] sol1].
  simpl in R1, R2, R3, R4. simpl.
  split; [|split; assumption].
  destruct (selectIfFit_spec capacity rest s1 sol1 [] R1 R2 R3) as (s' & S1 & S2 & S3).
  exists s'. repeat split; try assumption.
  rewrite S3. simpl. rewrite R4. simpl. exact Hpitems.
Qed.

(** the cover of an approximate solution has a positive lambda *)
Lemma approximate_lambda_positive (entries : list KPITEM) (fcstart : FLOWCOVER) :
  let fx := fixedInAdvance set snf in
  SCIPisFeasLE set (transcapacityreal snf fx / (10 # 1)) 0 = false ->
  Forall (fun it => kp_weight it = vubcoef snf (kp_item it)) entries ->
  Permutation (map kp_item entries) (fx_items fx) ->
  flowcoverweight fcstart = flowcoverweight (fx_cover fx) ->
  SCIPisFeasGT set
    (snd (buildFlowCover (transvarcoefs snf) (transvarvubcoefs snf) (transrhs snf)
            (fst (SCIPsolveKnapsackApproximatelyLT SCIPselectWeightedDownRealRealInt set
                    entries (transcapacityreal snf fx)))
            fcstart)) 0 = true.
Proof.
  intros fx Hcap HW Hitems Hstart.
  destruct (capacity_test set _ Hfeastol Hcap) as [Hf1 Hfc].
  destruct (SCIPsolveKnapsackApproximatelyLT_spec entries (transcapacityreal snf fx) HW)
    as [(s' & S1 & S2 & S3) _].
  set (kp := fst (SCIPsolveKnapsackApproximatelyLT _ set entries _)) in *.
  pose proof (buildFlowCover_lambda kp fcstart (fx_items fx)
                (Permutation_trans S3 Hitems)) as Hlam.
  rewrite Hstart in Hlam.
  pose proof transcapacityreal_sum as Hc. fold fx in Hc.
  apply SCIPisFeasGT_intro; [exact Hfeastol|exact Hf1|].
  destruct S2 as [-> | S2]; [lra|].
  pose proof (SCIPisFeasLT_gap set _ _ Hfeastol S2). lra.
Qed.

(** the arrays of the knapsack problem carry the capacities of their items *)
Lemma knapsackEntries_spec (g : nat -> Q) (items : list nat) :
  Forall (fun it => kp_weight it = vubcoef snf (kp_item it))
         (knapsackEntries (map (vubcoef snf) items) (map g items) items) /\
  map kp_item (knapsackEntries (map (vubcoef snf) items) (map g items) items) = items.
Proof.
  unfold knapsackEntries.
  induction items as [|j items IH]; simpl; [split; [constructor|reflexivity]|].
  destruct IH as [IH1 IH2]. split; [constructor; [reflexivity|exact IH1]|].
  rewrite IH2. reflexivity.
Qed.

(** the two outcomes of the choice between the solvers *)
Lemma solveKnapsackSNF_cases :
  let fx := fixedInAdvance set snf in
  let entries := knapsackEntries (transweightsreal snf (fx_items fx))
                                 (transprofitsreal snf (fx_items fx)) (fx_items fx) in
  let approx := SCIPsolveKnapsackApproximatelyLT SCIPselectWeightedDownRealRealInt set
                  entries (transcapacityreal snf fx) in
  let r := solveKnapsackSNF SCIPselectWeightedDownRealRealInt SCIPsolveKnapsackExactly
                            SCIPcalcIntegralScalar set snf fx in
  (snd r = true /\ snd (fst (fst r)) = entries /\ snd (fst r) = fx_cover fx) \/
  (snd r = false /\ fst (fst (fst r)) = fst approx /\ snd (fst (fst r)) = snd approx).
Proof.
  intros fx entries approx r. unfold r, solveKnapsackSNF.
  fold fx. fold entries. fold approx.
  destruct (if forallb _ _ then _ else _) as [scalar scalesuccess].
  destruct scalesuccess; [|right; repeat split; reflexivity].
  destruct (_ && _); [|right; repeat split; reflexivity].
  destruct (SCIPsolveKnapsackExactly _ _ _ _) as [success kpsol].
  destruct success; [left|right]; repeat split; reflexivity.
Qed.

Lemma getFlowCover_found_positive :
  let r := getFlowCover SCIPselectWeightedDownRealRealInt SCIPsolveKnapsackExactly
                        SCIPcalcIntegralScalar set snf in
  fcr_found r = true -> SCIPisFeasGT set (fcr_lambda r) 0 = true.
Proof.
  intros r. unfold r, getFlowCover.
  set (fx := fixedInAdvance set snf).
  destruct (SCIPisFeasLE set (transcapacityreal snf fx / (10 # 1)) 0) eqn:Ecap;
    [intros H; discriminate|].
  destruct (capacity_test set _ Hfeastol Ecap) as [Hf1 Hfc].
  pose proof transcapacityreal_sum as Hc. fold fx in Hc.
  destruct (Nat.eqb_spec (length (fx_items fx)) 0) as [E0|E0].
  - intros _. simpl.
    apply SCIPisFeasGT_intro; [exact Hfeastol|exact Hf1|].
    destruct (fx_items fx); [|discriminate]. simpl in Hc. lra.
  - intros _.
    pose proof solveKnapsackSNF_cases as Hcases. cbv zeta in Hcases. fold fx in Hcases.
    destruct (knapsackEntries_spec
                (fun j => if (int_get (transvarcoefs snf) j =? 1)%Z
                          then 1 - arr_get (transbinvarsolvals snf) j
                          else arr_get (transbinvarsolvals snf) j) (fx_items fx))
      as [HW Hitems].
    change (map (vubcoef snf) (fx_items fx)) with (transweightsreal snf (fx_items fx))
      in HW, Hitems.
    change (map _ (fx_items fx)) with (transprofitsreal snf (fx_items fx)) in HW, Hitems.
    set (entries := knapsackEntries _ _ _) in *.
    destruct (SCIPsolveKnapsackApproximatelyLT_spec entries (transcapacityreal snf fx) HW)
      as (_ & HW2 & Hitems2).
    destruct (solveKnapsackSNF _ _ _ set snf fx) as [[[kp entries'] afterfix] kpexact].
    simpl in Hcases.
    destruct (buildFlowCover _ _ _ kp (fx_cover fx)) as [fc1 lambda1] eqn:Eb1.
    destruct (SCIPisFeasLE set lambda1 0) eqn:El1.
    + destruct Hcases as [(_ & -> & ->) | (_ & -> & ->)].
      * pose proof (approximate_lambda_positive entries
                      (mkFlowCover (flowcoverstatus fc1) (nflowcovervars (fx_cover fx))
                                   (nnonflowcovervars (fx_cover fx))
                                   (flowcoverweight (fx_cover fx)))
                      Ecap HW ltac:(rewrite Hitems; apply Permutation_refl) eq_refl) as H.
        fold fx in H.
        destruct (buildFlowCover _ _ _ _ _) as [fc2 lambda2]. exact H.
      * (* the first solution was an approximate one: its lambda is positive *)
        pose proof (approximate_lambda_positive entries (fx_cover fx)
                      Ecap HW ltac:(rewrite Hitems; apply Permutation_refl) eq_refl) as H.
        fold fx in H. rewrite Eb1 in H. simpl in H.
        unfold SCIPisFeasGT in H. unfold SCIPisFeasLE in El1.
        unfold Qlt_bool in H. rewrite El1 in H. discriminate.
    + simpl. unfold SCIPisFeasGT, Qlt_bool. unfold SCIPisFeasLE in El1. rewrite El1.
      reflexivity.
Qed.

End FlowCoverProofs.

(** C4: [getFlowCover] reports a cover only with a positive lambda, and it
    solves the knapsack problem again with the approximate solver when the
    solution of the dynamic program gives a lambda that is not positive.
    Nothing is assumed about the dynamic program and the search for the
    scalar; the selection around the weighted median permutes the items,
    and the feasibility tolerance is not negative.  Arithmetic is exact. *)
Theorem getFlowCover_lambda_positive
        (SCIPselectWeightedDownRealRealInt : list KPITEM -> Q -> list KPITEM)
        (SCIPsolveKnapsackExactly : list Z -> list Q -> Z -> list nat -> bool * KPSOLUTION)
        (SCIPcalcIntegralScalar : list Q -> Q -> Q -> Z -> Q -> Q * bool)
        (set : SCIP_SET) (snf : SNF_RELAXATION) :
  0 <= num_feastol set ->
  (forall entries cap, Permutation (SCIPselectWeightedDownRealRealInt entries cap) entries) ->
  let r := getFlowCover SCIPselectWeightedDownRealRealInt SCIPsolveKnapsackExactly
                        SCIPcalcIntegralScalar set snf in
  let fx := fixedInAdvance set snf in
  let entries := knapsackEntries (transweightsreal snf (fx_items fx))
                                 (transprofitsreal snf (fx_items fx)) (fx_items fx) in
  (fcr_found r = true -> 0 < fcr_lambda r /\ SCIPisFeasGT set (fcr_lambda r) 0 = true) /\
  (forall kp entries' afterfix,
      SCIPisFeasLE set (transcapacityreal snf fx / (10 # 1)) 0 = false ->
      fx_items fx <> [] ->
      solveKnapsackSNF SCIPselectWeightedDownRealRealInt SCIPsolveKnapsackExactly
                       SCIPcalcIntegralScalar set snf fx = (kp, entries', afterfix, true) ->
      let built := buildFlowCover (transvarcoefs snf) (transvarvubcoefs snf) (transrhs snf)
                                  kp (fx_cover fx) in
      SCIPisFeasLE set (snd built) 0 = true ->
      let kp2 := fst (SCIPsolveKnapsackApproximatelyLT SCIPselectWeightedDownRealRealInt set
                        entries (transcapacityreal snf fx)) in
      let rebuilt := buildFlowCover (transvarcoefs snf) (transvarvubcoefs snf) (transrhs snf)
                       kp2
                       (mkFlowCover (flowcoverstatus (fst built))
                                    (nflowcovervars (fx_cover fx))
                                    (nnonflowcovervars (fx_cover fx))
                                    (flowcoverweight (fx_cover fx))) in
      r = mkFlowCoverResult (fst rebuilt) (snd rebuilt) true).
Proof.
  intros Hf Hsel r fx entries. split.
  - intros Hfound.
    pose proof (getFlowCover_found_positive SCIPselectWeightedDownRealRealInt
                  SCIPsolveKnapsackExactly SCIPcalcIntegralScalar set snf Hf Hsel Hfound) as H.
    split; [|exact H]. apply (SCIPisFeasGT_pos set _ Hf H).
  - intros kp entries' afterfix Hcap Hitems Hsolve built Hle kp2 rebuilt.
    pose proof (solveKnapsackSNF_cases SCIPselectWeightedDownRealRealInt
                  SCIPsolveKnapsackExactly SCIPcalcIntegralScalar set snf) as Hcases.
    cbv zeta in Hcases. fold fx in Hcases. rewrite Hsolve in Hcases. simpl in Hcases.
    destruct Hcases as [(_ & He & Ha) | (Hk & _)]; [|discriminate].
    unfold r, getFlowCover. fold fx. rewrite Hcap.
    destruct (Nat.eqb_spec (length (fx_items fx)) 0) as [E0|E0].
    { destruct (fx_items fx); [contradiction|discriminate]. }
    rewrite Hsolve. fold built.
    destruct built as [fc1 lambda1] eqn:Eb. simpl in Hle. rewrite Hle.
    subst entries' afterfix. fold entries. fold kp2.
    unfold rebuilt. simpl.
    destruct (buildFlowCover _ _ _ kp2 _) as [fc2 lambda2]. reflexivity.
Qed.

Lemma getFlowCover_lambda_positive_witness :
  let r := getFlowCover example_select example_knapsack_all example_scalar
                        SCIP_DEFAULT_SET example_snf in
  fcr_found r = true /\ 0 < fcr_lambda r /\ fcr_lambda r == 2.
Proof.
  assert (Hf : 0 <= num_feastol SCIP_DEFAULT_SET) by (simpl; lra).
  assert (Hsel : forall entries cap, Permutation (example_select entries cap) entries)
    by (intros entries cap; apply Permutation_refl).
  assert (Hfound : fcr_found (getFlowCover example_select example_knapsack_all example_scalar
                                           SCIP_DEFAULT_SET example_snf) = true)
    by reflexivity.
  cbv zeta. split; [exact Hfound|]. split; [|reflexivity].
  exact (proj1 (proj1 (getFlowCover_lambda_positive example_select example_knapsack_all
                         example_scalar SCIP_DEFAULT_SET example_snf Hf Hsel) Hfound)).
Defined.

(* ================================================================== *)
(** ** The c-MIR heuristic *)
(* ================================================================== *)

(** [tryDelta] keeps the best cut or replaces it by a cut of strictly
    greater efficacy *)
Lemma tryDelta_improves (scip : SCIP) (sol : SCIP_SOL) (aggrrow : SCIP_AGGRROW)
      (minfrac maxfrac : Q) (mksetislocal : bool) (mkset : CUTSTATE)
      (best : BESTCUT) (minefficacy delta : Q) :
  let best' := tryDelta scip sol aggrrow minfrac maxfrac mksetislocal mkset best
                        minefficacy delta in
  best' = best \/
  (bestcutefficacy best < bestcutefficacy best' /\ bestcutdelta best' = delta).
Proof.
  unfold tryDelta.
  destruct (_ || _); [left; reflexivity|].
  destruct (Qlt_bool MAXCMIRSCALE _); [left; reflexivity|].
  destruct (cutsSubstituteMIR _ _ _ _ _ _ _ _ _) as [[coefs2 inds2] rhs2].
  destruct (cleanupCut _ _ _ _ _) as [[inds3 coefs3] rhs3].
  destruct (Qlt_bool (bestcutefficacy best) _) eqn:E; [|left; reflexivity].
  apply Qlt_bool_iff in E.
  destruct (Qlt_bool minefficacy _); right; simpl; split; (exact E || reflexivity).
Qed.

(** a switch of the complementation is kept only with a cut of strictly
    greater efficacy *)
Lemma switchComplementation_step (scip : SCIP) (sol : SCIP_SOL) (aggrrow : SCIP_AGGRROW)
      (allowlocal : bool) (minfrac maxfrac : Q) (mksetislocal : bool) (minefficacy : Q)
      (k : nat) (st : CMIRSTATE) :
  let st' := switchComplementation scip sol aggrrow allowlocal minfrac maxfrac mksetislocal
                                   minefficacy [k] st in
  cm_mkset st' = cm_mkset st \/
  bestcutefficacy (cm_best st) < bestcutefficacy (cm_best st').
Proof.
  simpl.
  destruct (findBestLb scip _ sol false allowlocal) as [lb lbt].
  destruct (findBestUb scip _ sol false allowlocal) as [ub ubt].
  destruct (if (int_get (varsign (cm_mkset st)) k =? 1)%Z then _ else _) as [bt vs].
  match goal with
  | |- context [tryDelta scip sol aggrrow minfrac maxfrac mksetislocal ?m ?b ?e ?d] =>
      destruct (tryDelta_improves scip sol aggrrow minfrac maxfrac mksetislocal m b e d)
        as [E|[E _]]
  end.
  - left. cbv zeta in E. rewrite E.
    rewrite (proj2 (Qeq_bool_iff _ _) (Qeq_refl _)). reflexivity.
  - cbv zeta in E.
    destruct (Qeq_bool _ _) eqn:Eq; [left; reflexivity|right; exact E].
Qed.

(** C7 fails in the second phase.  For the row 4 x0 + 5 x1 - x2 <= 5/2 with
    integer x0, x1 and continuous x2, all in [0, 10], and the point
    (5/2, 1/2, 10), the best of the candidates 4, 5 and 6 for delta is 4.
    The heuristic then calls [tryDelta] with 4/2, which becomes the best
    delta, and after that with 2/4 and 2/8 instead of 4/4 and 4/8: delta 1,
    a fourth of the best delta of the candidates, is never tried, and it
    gives a cut of greater efficacy (1/10) than the cut that is returned
    (1/14). *)
Theorem cmir_scaled_deltas_follow_updated_delta :
  let cut := SCIPcutGenerationHeuristicCMIR example_cmir_scip example_cmir_sol (1 # 2)
               false true None [] (5 # 100) (95 # 100) example_cmir_aggrrow 0 in
  let scaled := tryScaledDeltas example_cmir_scip example_cmir_sol example_cmir_aggrrow
                  (5 # 100) (95 # 100) false example_cmir_mkset 0 [2; 4; 8]
                  example_cmir_best in
  let ofbase := tryDeltasOfBase example_cmir_scip example_cmir_sol example_cmir_aggrrow
                  (5 # 100) (95 # 100) false example_cmir_mkset 0
                  (bestcutdelta example_cmir_best) [2; 4; 8] example_cmir_best in
  map Qred (snd (deltaCandidates example_cmir_scip example_cmir_sol example_cmir_mkset))
  = [4; 5; 6] /\
  Qred (bestcutdelta example_cmir_best) = 4 /\
  Qred (bestcutefficacy example_cmir_best) = 1 # 16 /\
  Qred (bestcutdelta scaled) = 2 /\
  Qred (bestcutefficacy scaled) = 1 # 14 /\
  Qred (bestcutdelta ofbase) = 1 /\
  Qred (bestcutefficacy ofbase) = 1 # 10 /\
  map Qred (bestcutcoefs ofbase) = [4; 5] /\ Qred (bestcutrhs ofbase) = 12 /\
  cut_success cut = true /\
  map Qred (cut_coefs cut) = [2; 7 # 3] /\ cut_inds cut = [0%nat; 1%nat] /\
  Qred (cut_rhs cut) = 6 /\
  Qred (cut_efficacy cut) = 1 # 14.
Proof.
  cbv zeta. repeat (split; [vm_compute; reflexivity|]). vm_compute. reflexivity.
Qed.

(* ================================================================== *)
(** ** The rounding loops of the MIR pipeline *)
(* ================================================================== *)

(** *** Arrays *)

Lemma nth_error_combine (A B : Type) (l1 : list A) : forall (l2 : list B) (q : nat) (a : A) (b : B),
  nth_error (combine l1 l2) q = Some (a, b) ->
  nth_error l1 q = Some a /\ nth_error l2 q = Some b.
Proof.
  induction l1 as [|h1 t1 IH]; intros l2 q a b H; [destruct q; discriminate|].
  destruct l2 as [|h2 t2]; [destruct q; discriminate|].
  destruct q as [|q]; simpl in *.
  - injection H as -> ->. split; reflexivity.
  - apply IH. exact H.
Qed.

Lemma skipn_nth_cons (A : Type) (l : list A) : forall (i : nat) (a : A),
  nth_error l i = Some a -> skipn i l = a :: skipn (S i) l.
Proof.
  induction l as [|h t IH]; intros i a H; [destruct i; discriminate|].
  destruct i as [|i]; simpl in *.
  - injection H as ->. reflexivity.
  - apply IH. exact H.
Qed.

Lemma skipn_arr_set_lt (A : Type) (l : list A) : forall (i a : nat) (x : A),
  (i < a)%nat -> skipn a (arr_set l i x) = skipn a l.
Proof.
  induction l as [|h t IH]; intros i a x Hia; [reflexivity|].
  destruct a as [|a]; [lia|].
  destruct i as [|i]; simpl; [reflexivity|].
  apply IH. lia.
Qed.

Lemma skipn_arr_set_ge (A : Type) (l : list A) : forall (i a : nat) (x : A),
  (a <= i)%nat -> skipn a (arr_set l i x) = arr_set (skipn a l) (i - a) x.
Proof.
  induction l as [|h t IH]; intros i a x Hia.
  - simpl. rewrite !skipn_nil. reflexivity.
  - destruct a as [|a]; [simpl; rewrite Nat.sub_0_r; reflexivity|].
    destruct i as [|i]; [lia|]. simpl. apply IH. lia.
Qed.

Lemma firstn_arr_set (A : Type) (l : list A) : forall (i a : nat) (x : A),
  (a <= i)%nat -> firstn a (arr_set l i x) = firstn a l.
Proof.
  induction l as [|h t IH]; intros i a x Hia; [reflexivity|].
  destruct a as [|a]; [reflexivity|].
  destruct i as [|i]; [lia|]. simpl. rewrite IH by lia. reflexivity.
Qed.

Lemma arr_set_beyond (A : Type) (l : list A) : forall (i : nat) (x : A),
  (length l <= i)%nat -> arr_set l i x = l.
Proof.
  induction l as [|h t IH]; intros i x Hi; [reflexivity|].
  destruct i as [|i]; simpl in *; [lia|]. rewrite IH by lia. reflexivity.
Qed.

Lemma coefOf_app (inds1 : list nat) : forall (vals1 : list Q) (inds2 : list nat)
                                            (vals2 : list Q) (j : nat),
  length vals1 = length inds1 ->
  coefOf (inds1 ++ inds2) (vals1 ++ vals2) j == coefOf inds1 vals1 j + coefOf inds2 vals2 j.
Proof.
  induction inds1 as [|i inds1 IH]; intros vals1 inds2 vals2 j Hlen;
    destruct vals1 as [|v vals1]; simpl in Hlen; try discriminate; simpl.
  - ring.
  - rewrite IH by (injection Hlen; auto). ring.
Qed.

(** the entries behind position [i], after the removal of position [i] *)
Lemma coefOf_skipn_arr_remove (inds : list nat) (vals : list Q) (i j : nat) :
  length vals = length inds -> (i < length inds)%nat ->
  coefOf (skipn i (arr_remove inds i)) (skipn i (arr_remove vals i)) j
  == coefOf (skipn (S i) inds) (skipn (S i) vals) j.
Proof.
  intros Hlen Hi.
  destruct inds as [|xi inds] using rev_ind; [simpl in Hi; lia|].
  destruct vals as [|xv vals] using rev_ind;
    [rewrite length_app in Hlen; simpl in Hlen; lia|].
  clear IHinds IHvals.
  rewrite !length_app in *. cbn [length] in *.
  assert (Hl : length vals = length inds) by lia.
  rewrite !arr_remove_snoc.
  destruct (Nat.eq_dec i (length inds)) as [->|Hne].
  - rewrite !arr_set_beyond by lia.
    rewrite !skipn_all2 by (rewrite ?length_app; simpl; lia).
    reflexivity.
  - assert (Hi' : (i < length inds)%nat) by lia.
    rewrite !skipn_arr_set_ge by lia. rewrite Nat.sub_diag.
    rewrite !skipn_app.
    replace (S i - length inds)%nat with 0%nat by lia.
    replace (S i - length vals)%nat with 0%nat by lia.
    rewrite !skipn_O.
    destruct (nth_error inds i) as [a|] eqn:Ea; [|apply nth_error_None in Ea; lia].
    destruct (nth_error vals i) as [b|] eqn:Eb; [|apply nth_error_None in Eb; lia].
    rewrite (skipn_nth_cons _ inds i a Ea), (skipn_nth_cons _ vals i b Eb).
    cbn [arr_set coefOf]. rewrite coefOf_app1.
    + ring.
    + rewrite !length_skipn. lia.
Qed.

Lemma nth_error_arr_remove_lt (A : Type) (l : list A) (i p : nat) :
  (p < i)%nat -> (i < length l)%nat ->
  nth_error (arr_remove l i) p = nth_error l p.
Proof.
  intros Hpi Hi.
  destruct (nth_error l p) as [a|] eqn:E; [|apply nth_error_None in E; lia].
  pose proof (nth_error_arr_remove A l i p a E ltac:(lia) Hi) as H.
  destruct (Nat.eqb_spec p (length l - 1)); [lia|exact H].
Qed.

(** *** The rounded row *)

Lemma roundedRowCoef_app (scip : SCIP) (f0 : Q) (l1 l2 : list ROWENTRY) (j : nat) :
  roundedRowCoef scip f0 (l1 ++ l2) j
  == roundedRowCoef scip f0 l1 j + roundedRowCoef scip f0 l2 j.
Proof. induction l1 as [|e l1 IH]; simpl; [ring|]. rewrite IH. ring. Qed.

Lemma roundedRowRhs_app (scip : SCIP) (f0 : Q) (l1 l2 : list ROWENTRY) :
  roundedRowRhs scip f0 (l1 ++ l2) == roundedRowRhs scip f0 l1 + roundedRowRhs scip f0 l2.
Proof. induction l1 as [|e l1 IH]; simpl; [ring|]. rewrite IH. ring. Qed.

Lemma region_is_app_l (st : CUTSTATE) (lo : nat) (l1 l2 : list ROWENTRY) :
  region_is st lo (l1 ++ l2) -> region_is st lo l1.
Proof.
  intros H q v c vs bt Hq. apply H.
  rewrite nth_error_app1; [exact Hq|]. apply nth_error_Some. rewrite Hq. discriminate.
Qed.

Lemma region_is_app_r (st : CUTSTATE) (lo : nat) (l1 l2 : list ROWENTRY) :
  region_is st lo (l1 ++ l2) -> region_is st (lo + length l1) l2.
Proof.
  intros H q v c vs bt Hq.
  replace (lo + length l1 + q)%nat with (lo + (length l1 + q))%nat by lia.
  apply H. rewrite nth_error_app2 by lia.
  replace (length l1 + q - length l1)%nat with q by lia. exact Hq.
Qed.

Lemma region_is_last (st : CUTSTATE) (lo : nat) (l : list ROWENTRY)
      (v : nat) (c : Q) (vs bt : Z) :
  region_is st lo (l ++ [(v, c, vs, bt)]) ->
  nth_error (cutinds st) (lo + length l) = Some v /\
  nth_error (cutcoefs st) (lo + length l) = Some c /\
  nth_error (varsign st) (lo + length l) = Some vs /\
  nth_error (boundtype st) (lo + length l) = Some bt.
Proof.
  intros H. apply H. rewrite nth_error_app2 by lia. rewrite Nat.sub_diag. reflexivity.
Qed.

(** a region stays when the arrays agree on it *)
Lemma region_is_ext (st st' : CUTSTATE) (lo : nat) (l : list ROWENTRY) :
  (forall p, (lo <= p < lo + length l)%nat ->
             nth_error (cutinds st') p = nth_error (cutinds st) p /\
             nth_error (cutcoefs st') p = nth_error (cutcoefs st) p /\
             nth_error (varsign st') p = nth_error (varsign st) p /\
             nth_error (boundtype st') p = nth_error (boundtype st) p) ->
  region_is st lo l -> region_is st' lo l.
Proof.
  intros Hext H q v c vs bt Hq.
  assert (Hlt : (q < length l)%nat) by (apply nth_error_Some; rewrite Hq; discriminate).
  destruct (Hext (lo + q)%nat ltac:(lia)) as (E1 & E2 & E3 & E4).
  rewrite E1, E2, E3, E4. apply H. exact Hq.
Qed.

Lemma int_get_nth_error (l : list Z) (p : nat) (x : Z) :
  nth_error l p = Some x -> int_get l p = x.
Proof. intros H. unfold int_get. apply nth_error_nth. exact H. Qed.

(** *** The loop over the integral variables *)

Lemma entryContribution_int (scip : SCIP) (f0 : Q) (v : nat) (c : Q) (vs bt : Z) (j : nat) :
  Nat.leb (firstcontvar scip) v = false ->
  entryContribution scip f0 (v, c, vs, bt) j
  == (if Nat.eqb v j
      then (if SCIPisZero (scip_set scip) (mirIntCoef (scip_set scip) f0 vs c)
            then 0 else mirIntCoef (scip_set scip) f0 vs c)
      else 0).
Proof.
  intros Hv. unfold entryContribution, entryCutCoef, usesVarBound, entryVarBound.
  rewrite Hv. destruct (vs =? 1)%Z; simpl; ring.
Qed.

Lemma entryRhs_int (scip : SCIP) (f0 : Q) (v : nat) (c : Q) (vs bt : Z) :
  Nat.leb (firstcontvar scip) v = false ->
  entryRhs scip f0 (v, c, vs, bt)
  == (if SCIPisZero (scip_set scip) (mirIntCoef (scip_set scip) f0 vs c)
      then 0 else mirIntCoef (scip_set scip) f0 vs c)
     * usedStandardBound (getVar scip v) vs bt.
Proof.
  intros Hv. unfold entryRhs, entryCutCoef, usesVarBound, entryVarBound.
  rewrite Hv. destruct (vs =? 1)%Z; simpl; ring.
Qed.

Lemma roundMIRInt_spec (scip : SCIP) (f0 : Q) (lo : nat) (ints : list ROWENTRY) :
  forall (st : CUTSTATE) (varpos : POSBUF),
    length (cutcoefs st) = length (cutinds st) ->
    region_is st lo ints ->
    Forall (fun e => entry_continuous scip e = false) ints ->
    (lo = 0%nat \/
     exists v, nth_error (cutinds st) (lo - 1) = Some v /\ (firstcontvar scip <= v)%nat) ->
    varpos_ok varpos (cutinds st) (lo + length ints) ->
    roundMIRInt_post scip f0 st ints lo (roundMIRInt scip f0 (lo + length ints) st varpos).
Proof.
  induction ints as [|e ints IH] using rev_ind; intros st varpos Hlen Hreg Hint Hstop Hvp.
  - (* no integral entry is left *)
    simpl length in *. rewrite Nat.add_0_r in *.
    assert (Hr : roundMIRInt scip f0 lo st varpos = (st, varpos, lo)).
    { destruct Hstop as [->|[v [Hv Hc]]]; [reflexivity|].
      destruct lo as [|lo']; [reflexivity|].
      simpl in Hv. rewrite Nat.sub_0_r in Hv. simpl.
      rewrite (nth_error_ind_get _ _ _ Hv). apply Nat.leb_le in Hc. rewrite Hc.
      reflexivity. }
    assert (Hlo : (lo <= length (cutinds st))%nat).
    { destruct Hstop as [->|[v [Hv _]]]; [lia|].
      assert (lo - 1 < length (cutinds st))%nat
        by (apply nth_error_Some; rewrite Hv; discriminate).
      lia. }
    rewrite Hr. unfold roundMIRInt_post. simpl. rewrite Nat.add_0_r.
    split; [reflexivity|]. split; [exact Hlen|]. split; [exact Hlo|].
    split; [intros; split; reflexivity|].
    split; [reflexivity|]. split; [reflexivity|]. split; [reflexivity|].
    split; [exact Hvp|]. split; [intros j; ring|ring].
  - destruct e as [[[v c] vs] bt].
    destruct (region_is_last st lo ints v c vs bt Hreg) as (Hv & Hc & Hvs & Hbt).
    apply Forall_app in Hint. destruct Hint as [Hint' He].
    inversion He as [|a l Hcont _]; subst. simpl in Hcont.
    assert (Hi : (lo + length ints < length (cutinds st))%nat)
      by (apply nth_error_Some; rewrite Hv; discriminate).
    rewrite length_app in Hvp |- *. cbn [length] in Hvp |- *.
    replace (lo + (length ints + 1))%nat with (S (lo + length ints)) in Hvp |- * by lia.
    set (i := (lo + length ints)%nat) in *.
    cbn [roundMIRInt].
    rewrite (nth_error_ind_get _ _ _ Hv), Hcont.
    rewrite (int_get_nth_error _ _ _ Hvs), (nth_error_nth_Q _ _ _ Hc),
      (int_get_nth_error _ _ _ Hbt).
    pose proof (entryContribution_int scip f0 v c vs bt) as HC.
    pose proof (entryRhs_int scip f0 v c vs bt Hcont) as HR.
    destruct (SCIPisZero (scip_set scip) (mirIntCoef (scip_set scip) f0 vs c)) eqn:Ez.
    + (* the coefficient is zero: the entry is removed *)
      match goal with
      | |- roundMIRInt_post _ _ _ _ _ (roundMIRInt _ _ _ ?s ?vp) =>
          set (st1 := s); set (vp1 := vp)
      end.
      assert (Hpre : forall p, (p < i)%nat ->
                 nth_error (cutinds st1) p = nth_error (cutinds st) p /\
                 nth_error (cutcoefs st1) p = nth_error (cutcoefs st) p).
      { intros p Hp. simpl. split; apply nth_error_arr_remove_lt; lia. }
      assert (Hvp1 : varpos_ok vp1 (cutinds st1) i).
      { unfold vp1. simpl cutinds.
        destruct (Nat.ltb_spec i (length (arr_remove (cutinds st) i))) as [Hlt|Hge].
        - intros z k Hz. unfold upd in Hz.
          destruct (Nat.eqb_spec z (ind_get (arr_remove (cutinds st) i) i)) as [Ez'|Ez'].
          + injection Hz as <-. split; [lia|]. subst z.
            unfold ind_get.
            destruct (nth_error (arr_remove (cutinds st) i) i) as [w|] eqn:Ew;
              [|apply nth_error_None in Ew; lia].
            rewrite (nth_error_nth _ _ _ Ew). reflexivity.
          + destruct (Hvp z k Hz) as [Hk Hzk].
            pose proof (nth_error_arr_remove _ (cutinds st) i k z Hzk ltac:(lia) Hi) as H.
            destruct (Nat.eqb_spec k (length (cutinds st) - 1)) as [Ek|Ek].
            * exfalso. apply Ez'. symmetry. apply nth_error_ind_get. exact H.
            * split; [lia|exact H].
        - rewrite length_arr_remove in Hge.
          intros z k Hz. destruct (Hvp z k Hz) as [Hk Hzk].
          assert (k < length (cutinds st))%nat
            by (apply nth_error_Some; rewrite Hzk; discriminate).
          lia. }
      specialize (IH st1 vp1).
      destruct IH as (R1 & R2 & R3 & R4 & R5 & R6 & R7 & R8 & R9 & R10).
      * simpl. rewrite !length_arr_remove. lia.
      * apply (region_is_ext st st1); [|apply (region_is_app_l _ _ _ _ Hreg)].
        intros p Hp. destruct (Hpre p ltac:(lia)) as [E1 E2].
        repeat split; try assumption; reflexivity.
      * exact Hint'.
      * destruct Hstop as [->|[w [Hw Hwc]]]; [left; reflexivity|right].
        exists w. split; [|exact Hwc].
        destruct lo as [|lo'].
        -- change (0 - 1)%nat with 0%nat in Hw |- *.
           destruct (Nat.eq_dec i 0) as [E0|E0].
           ++ exfalso. rewrite E0 in Hv. rewrite Hv in Hw. injection Hw as ->.
              apply Nat.leb_gt in Hcont. lia.
           ++ rewrite (proj1 (Hpre 0%nat ltac:(lia))). exact Hw.
        -- rewrite (proj1 (Hpre (S lo' - 1)%nat ltac:(unfold i; lia))). exact Hw.
      * exact Hvp1.
      * unfold roundMIRInt_post.
        split; [exact R1|]. split; [exact R2|]. split; [exact R3|].
        split.
        { intros q Hq. destruct (R4 q Hq) as [E1 E2].
          destruct (Hpre q ltac:(unfold i; lia)) as [E3 E4].
          split; congruence. }
        split; [exact R5|]. split; [exact R6|]. split; [exact R7|]. split; [exact R8|].
        split.
        { intros j. rewrite R9. unfold st1. cbn [cutinds cutcoefs].
          rewrite length_app. cbn [length].
          replace (lo + (length ints + 1))%nat with (S i) by (unfold i; lia).
          change (lo + length ints)%nat with i.
          rewrite coefOf_skipn_arr_remove by assumption.
          rewrite roundedRowCoef_app. simpl. rewrite (HC j Hcont).
          destruct (Nat.eqb v j); ring. }
        rewrite R10. unfold st1. cbn [cutrhs]. rewrite roundedRowRhs_app. simpl.
        rewrite HR. ring.
    + (* the coefficient is stored *)
      match goal with
      | |- roundMIRInt_post _ _ _ _ _ (roundMIRInt _ _ _ ?s ?vp) =>
          set (st1 := s); set (vp1 := vp)
      end.
      assert (Hpre : forall p, (p < i)%nat ->
                 nth_error (cutinds st1) p = nth_error (cutinds st) p /\
                 nth_error (cutcoefs st1) p = nth_error (cutcoefs st) p).
      { intros p Hp. simpl. split; [reflexivity|]. apply nth_error_arr_set. lia. }
      specialize (IH st1 vp1).
      destruct IH as (R1 & R2 & R3 & R4 & R5 & R6 & R7 & R8 & R9 & R10).
      * simpl. rewrite length_arr_set. exact Hlen.
      * apply (region_is_ext st st1); [|apply (region_is_app_l _ _ _ _ Hreg)].
        intros p Hp. destruct (Hpre p ltac:(lia)) as [E1 E2].
        repeat split; try assumption; reflexivity.
      * exact Hint'.
      * destruct Hstop as [->|[w [Hw Hwc]]]; [left; reflexivity|right].
        exists w. split; [exact Hw|exact Hwc].
      * intros z k Hz. unfold vp1, upd in Hz. simpl cutinds.
        destruct (Nat.eqb_spec z v) as [->|Hzv].
        -- injection Hz as <-. split; [lia|exact Hv].
        -- destruct (Hvp z k Hz) as [Hk Hzk]. split; [lia|exact Hzk].
      * unfold roundMIRInt_post.
        split; [exact R1|]. split; [exact R2|]. split; [exact R3|].
        split.
        { intros q Hq. destruct (R4 q Hq) as [E1 E2].
          destruct (Hpre q ltac:(unfold i; lia)) as [E3 E4].
          split; congruence. }
        split; [exact R5|]. split; [exact R6|]. split; [exact R7|]. split; [exact R8|].
        split.
        { intros j. rewrite R9. unfold st1. cbn [cutinds cutcoefs].
          rewrite length_app. cbn [length].
          replace (lo + (length ints + 1))%nat with (S i) by (unfold i; lia).
          change (lo + length ints)%nat with i.
          rewrite skipn_arr_set_ge by lia. rewrite Nat.sub_diag.
          rewrite (skipn_nth_cons _ _ _ _ Hv), (skipn_nth_cons _ _ _ _ Hc).
          cbn [arr_set coefOf].
          rewrite roundedRowCoef_app. simpl. rewrite (HC j Hcont).
          destruct (Nat.eqb v j); ring. }
        rewrite R10. unfold st1. cbn [cutrhs]. rewrite roundedRowRhs_app. simpl.
        rewrite HR. ring.
Qed.

(** *** The loop over the continuous variables *)

Lemma entry_zero_contribution (scip : SCIP) (f0 : Q) (v : nat) (c : Q) (vs bt : Z) (j : nat) :
  Nat.leb (firstcontvar scip) v = true ->
  SCIPisZero (scip_set scip) (mirContCoef f0 vs c) = true ->
  entryContribution scip f0 (v, c, vs, bt) j == 0 /\ entryRhs scip f0 (v, c, vs, bt) == 0.
Proof.
  intros Hv Hz. unfold entryContribution, entryRhs, entryCutCoef, usesVarBound, entryVarBound.
  rewrite Hv, Hz.
  destruct (vs =? 1)%Z; destruct (Nat.eqb v j); destruct (0 <=? bt)%Z; simpl;
    try destruct (Nat.eqb _ j); split; ring.
Qed.

Lemma entry_standard_contribution (scip : SCIP) (f0 : Q) (v : nat) (c : Q) (vs bt : Z)
      (j : nat) :
  Nat.leb (firstcontvar scip) v = true ->
  SCIPisZero (scip_set scip) (mirContCoef f0 vs c) = false ->
  (bt <? 0)%Z = true ->
  entryContribution scip f0 (v, c, vs, bt) j
  == (if Nat.eqb v j then mirContCoef f0 vs c else 0) /\
  entryRhs scip f0 (v, c, vs, bt)
  == mirContCoef f0 vs c * usedStandardBound (getVar scip v) vs bt.
Proof.
  intros Hv Hz Hbt. unfold entryContribution, entryRhs, entryCutCoef, usesVarBound, entryVarBound.
  rewrite Hv, Hz.
  assert (E : (0 <=? bt)%Z = false) by (apply Z.ltb_lt in Hbt; apply Z.leb_gt; exact Hbt).
  rewrite E. destruct (vs =? 1)%Z; simpl; split; ring.
Qed.

Lemma entry_varbound_contribution (scip : SCIP) (f0 : Q) (v : nat) (c : Q) (vs bt : Z)
      (j : nat) :
  Nat.leb (firstcontvar scip) v = true ->
  SCIPisZero (scip_set scip) (mirContCoef f0 vs c) = false ->
  (bt <? 0)%Z = false ->
  let '(zidx, vbb, vbd) := entryVarBound scip (v, c, vs, bt) in
  entryContribution scip f0 (v, c, vs, bt) j
  == (if Nat.eqb v j then mirContCoef f0 vs c else 0)
     + (if Nat.eqb zidx j then - (mirContCoef f0 vs c * vbb) else 0) /\
  entryRhs scip f0 (v, c, vs, bt) == mirContCoef f0 vs c * vbd.
Proof.
  intros Hv Hz Hbt.
  destruct (entryVarBound scip (v, c, vs, bt)) as [[zidx vbb] vbd] eqn:Evb.
  unfold entryContribution, entryRhs, entryCutCoef, usesVarBound.
  rewrite Evb, Hv, Hz.
  assert (E : (0 <=? bt)%Z = true) by (apply Z.ltb_ge in Hbt; apply Z.leb_le; exact Hbt).
  rewrite E. simpl. split; ring.
Qed.

(** the first entry takes the place of the last one *)
Lemma region_is_rotate (st : CUTSTATE) (ndel : nat) (e0 e : ROWENTRY) (mid : list ROWENTRY) :
  region_is st ndel (e0 :: mid ++ [e]) ->
  let i := (ndel + S (length mid))%nat in
  region_is (mkCut (arr_set (cutcoefs st) i (arr_get (cutcoefs st) ndel))
                   (arr_set (cutinds st) i (ind_get (cutinds st) ndel))
                   (cutrhs st)
                   (arr_set (varsign st) i (int_get (varsign st) ndel))
                   (arr_set (boundtype st) i (int_get (boundtype st) ndel))
                   (localbdsused st))
            (S ndel) (mid ++ [e0]).
Proof.
  intros Hreg i.
  destruct e0 as [[[v0 c0] vs0] bt0].
  destruct (Hreg 0%nat v0 c0 vs0 bt0 eq_refl) as (F1 & F2 & F3 & F4).
  rewrite Nat.add_0_r in F1, F2, F3, F4.
  destruct e as [[[v c] vs] bt].
  destruct (Hreg (S (length mid)) v c vs bt) as (L1 & L2 & L3 & L4).
  { simpl. rewrite nth_error_app2 by lia. rewrite Nat.sub_diag. reflexivity. }
  fold i in L1, L2, L3, L4.
  intros q v' c' vs' bt' Hq. cbn [cutinds cutcoefs varsign boundtype].
  replace (S ndel + q)%nat with (ndel + S q)%nat by lia.
  destruct (Nat.lt_ge_cases q (length mid)) as [Hlt|Hge].
  - rewrite nth_error_app1 in Hq by exact Hlt.
    rewrite !nth_error_arr_set by (unfold i; lia).
    apply Hreg. simpl. rewrite nth_error_app1 by exact Hlt. exact Hq.
  - match type of Hq with
    | nth_error ?l q = _ =>
        assert (Hql : (q < length l)%nat)
          by (apply nth_error_Some; rewrite Hq; discriminate)
    end.
    rewrite length_app in Hql. simpl in Hql.
    assert (q = length mid) by lia. subst q.
    rewrite nth_error_app2 in Hq by lia. rewrite Nat.sub_diag in Hq. simpl in Hq.
    injection Hq as <- <- <- <-.
    change (ndel + S (length mid))%nat with i.
    rewrite !nth_error_arr_set_same
      by (apply nth_error_Some; first [rewrite L1|rewrite L2|rewrite L3|rewrite L4];
          discriminate).
    rewrite (nth_error_ind_get _ _ _ F1), (nth_error_nth_Q _ _ _ F2),
      (int_get_nth_error _ _ _ F3), (int_get_nth_error _ _ _ F4).
    repeat split; reflexivity.
Qed.

Lemma varpos_ok_arr_set (varpos : POSBUF) (inds : list nat) (m0 i x : nat) :
  (i < m0)%nat -> varpos_ok varpos inds m0 -> varpos_ok varpos (arr_set inds i x) m0.
Proof.
  intros Hi Hvp z k Hz. destruct (Hvp z k Hz) as [Hk Hzk].
  split; [exact Hk|]. rewrite nth_error_arr_set by lia. exact Hzk.
Qed.

Lemma roundMIRCont_spec (scip : SCIP) (f0 : Q) (m0 : nat) (fuel : nat) :
  forall (conts : list ROWENTRY) (st : CUTSTATE) (varpos : POSBUF) (m ndel : nat),
    length conts = fuel -> (ndel + fuel = m)%nat -> (m <= m0)%nat ->
    length (cutcoefs st) = length (cutinds st) ->
    (m0 <= length (cutinds st))%nat ->
    region_is st ndel conts ->
    Forall (fun e => entry_continuous scip e = true) conts ->
    varpos_ok varpos (cutinds st) m0 ->
    roundMIRCont_post scip f0 st conts m (roundMIRCont scip f0 fuel m ndel st varpos).
Proof.
  induction fuel as [|fuel IH];
    intros conts st varpos m ndel Hlen Hm Hm0 Hl HL Hreg Hcont Hvp.
  - destruct conts; [|discriminate]. unfold roundMIRCont_post. simpl.
    rewrite Nat.add_0_r in Hm. subst m.
    split; [exact Hl|]. split; [lia|]. split; [intros j; ring|ring].
  - destruct conts as [|e conts' _] using rev_ind; [discriminate|].
    rewrite length_app in Hlen. cbn [length] in Hlen.
    destruct e as [[[v c] vs] bt].
    destruct (region_is_last st ndel conts' v c vs bt Hreg) as (Hv & Hc & Hvs & Hbt).
    apply Forall_app in Hcont. destruct Hcont as [Hcont' He].
    inversion He as [|a l Hcv _]; subst a l. simpl in Hcv.
    assert (Ei : (m - 1 = ndel + length conts')%nat) by lia.
    cbn [roundMIRCont]. rewrite Ei.
    set (i := (ndel + length conts')%nat) in *.
    assert (Him : (S i = m)%nat) by lia.
    rewrite (nth_error_ind_get _ _ _ Hv), (int_get_nth_error _ _ _ Hvs),
      (int_get_nth_error _ _ _ Hbt), (nth_error_nth_Q _ _ _ Hc).
    destruct (SCIPisZero (scip_set scip) (mirContCoef f0 vs c)) eqn:Ez.
    + (* the coefficient is zero: the position is given to the first entry *)
      assert (Hzero : forall j, entryContribution scip f0 (v, c, vs, bt) j == 0)
        by (intros j; apply (entry_zero_contribution scip f0 v c vs bt j Hcv Ez)).
      assert (Hzrhs : entryRhs scip f0 (v, c, vs, bt) == 0)
        by (apply (entry_zero_contribution scip f0 v c vs bt 0%nat Hcv Ez)).
      destruct conts' as [|e0 mid].
      * (* it was the only entry that was left *)
        assert (Hi0 : i = ndel) by (unfold i; simpl; lia).
        rewrite Hi0, Nat.ltb_irrefl.
        specialize (IH [] st varpos m (S ndel)).
        destruct IH as (R1 & R2 & R3 & R4).
        { simpl in Hlen. simpl. lia. }
        { simpl in Hlen. lia. }
        { exact Hm0. }
        { exact Hl. }
        { exact HL. }
        { intros q v' c' vs' bt' Hq. destruct q; discriminate. }
        { constructor. }
        { exact Hvp. }
        unfold roundMIRCont_post.
        split; [exact R1|]. split; [exact R2|].
        split; [intros j; rewrite R3; cbn [app roundedRowCoef]; rewrite Hzero; ring|].
        rewrite R4. cbn [app roundedRowRhs]. rewrite Hzrhs. ring.
      * assert (Hlt : Nat.ltb ndel i = true)
          by (apply Nat.ltb_lt; unfold i; simpl; lia).
        rewrite Hlt.
        pose proof (region_is_rotate st ndel e0 (v, c, vs, bt) mid Hreg) as Hrot.
        cbv zeta in Hrot.
        replace (ndel + S (length mid))%nat with i in Hrot by (unfold i; simpl; lia).
        match goal with
        | |- roundMIRCont_post _ _ _ _ _ (roundMIRCont _ _ _ _ _ ?s _) => set (st1 := s) in *
        end.
        specialize (IH (mid ++ [e0]) st1 varpos m (S ndel)).
        destruct IH as (R1 & R2 & R3 & R4).
        { rewrite length_app. simpl in Hlen |- *. lia. }
        { lia. }
        { exact Hm0. }
        { unfold st1. simpl. rewrite !length_arr_set. exact Hl. }
        { unfold st1. simpl. rewrite length_arr_set. exact HL. }
        { exact Hrot. }
        { inversion Hcont' as [|a l He0 Hmid]; subst.
          apply Forall_app. split; [exact Hmid|constructor; [exact He0|constructor]]. }
        { unfold st1. simpl. apply varpos_ok_arr_set; [lia|exact Hvp]. }
        unfold roundMIRCont_post.
        split; [exact R1|]. split; [exact R2|].
        split.
        { intros j. rewrite R3. unfold st1. cbn [cutinds cutcoefs].
          rewrite !skipn_arr_set_lt by lia.
          cbn [app roundedRowCoef]. rewrite !roundedRowCoef_app. cbn [roundedRowCoef].
          rewrite Hzero. ring. }
        rewrite R4. unfold st1. cbn [cutrhs].
        cbn [app roundedRowRhs]. rewrite !roundedRowRhs_app. cbn [roundedRowRhs].
        rewrite Hzrhs. ring.
    + replace (S i - 1)%nat with i by lia.
      assert (Hi : (i < length (cutinds st))%nat) by lia.
      assert (Hskip : forall j,
                 coefOf (skipn i (cutinds st))
                        (skipn i (arr_set (cutcoefs st) i (mirContCoef f0 vs c))) j
                 == (if Nat.eqb v j then mirContCoef f0 vs c else 0)
                    + coefOf (skipn m (cutinds st)) (skipn m (cutcoefs st)) j).
      { intros j. rewrite skipn_arr_set_ge by lia. rewrite Nat.sub_diag.
        rewrite (skipn_nth_cons _ _ _ _ Hv), (skipn_nth_cons _ _ _ _ Hc).
        cbn [arr_set coefOf]. rewrite Him. reflexivity. }
      destruct (bt <? 0)%Z eqn:Ebt.
      * (* a standard bound *)
        match goal with
        | |- roundMIRCont_post _ _ _ _ _ (roundMIRCont _ _ _ _ _ ?s _) => set (st1 := s) in *
        end.
        specialize (IH conts' st1 varpos (m - 1)%nat ndel).
        destruct IH as (R1 & R2 & R3 & R4).
        { lia. } { lia. } { lia. }
        { unfold st1. simpl. rewrite length_arr_set. exact Hl. }
        { exact HL. }
        { apply (region_is_ext st st1); [|apply (region_is_app_l _ _ _ _ Hreg)].
          intros p Hp. unfold st1. simpl.
          rewrite nth_error_arr_set by (unfold i; lia).
          repeat split; reflexivity. }
        { exact Hcont'. }
        { exact Hvp. }
        destruct (entry_standard_contribution scip f0 v c vs bt 0%nat Hcv Ez Ebt) as [_ HR].
        unfold roundMIRCont_post.
        replace (m - 1)%nat with i in * by lia.
        split; [exact R1|]. split; [exact R2|].
        split.
        { intros j. rewrite R3. unfold st1. cbn [cutinds cutcoefs].
          rewrite Hskip. rewrite roundedRowCoef_app. cbn [roundedRowCoef].
          rewrite (proj1 (entry_standard_contribution scip f0 v c vs bt j Hcv Ez Ebt)).
          ring. }
        rewrite R4. unfold st1. cbn [cutrhs]. rewrite roundedRowRhs_app. cbn [roundedRowRhs].
        rewrite HR. ring.
      * (* a variable bound: the coefficient of the bounding variable changes *)
        pose proof (fun j => entry_varbound_contribution scip f0 v c vs bt j Hcv Ez Ebt) as HVB.
        unfold entryVarBound in HVB.
        set (vbidx := Z.to_nat bt) in *.
        set (var := getVar scip v) in *.
        assert (Hgen : forall (zidx : nat) (vbb vbd : Q),
                   (forall j,
                       entryContribution scip f0 (v, c, vs, bt) j
                       == (if Nat.eqb v j then mirContCoef f0 vs c else 0)
                          + (if Nat.eqb zidx j then - (mirContCoef f0 vs c * vbb) else 0) /\
                       entryRhs scip f0 (v, c, vs, bt) == mirContCoef f0 vs c * vbd) ->
                   roundMIRCont_post scip f0 st (conts' ++ [(v, c, vs, bt)]) m
                     (let '(coefs', inds', varpos') :=
                        addToIntCoef (arr_set (cutcoefs st) i (mirContCoef f0 vs c))
                                     (cutinds st) varpos zidx
                                     (- (mirContCoef f0 vs c * vbb)) in
                      roundMIRCont scip f0 fuel i ndel
                        (mkCut coefs' inds' (cutrhs st + mirContCoef f0 vs c * vbd)
                               (varsign st) (boundtype st) (localbdsused st)) varpos')).
        { intros zidx vbb vbd Hent. unfold addToIntCoef.
          destruct (varpos zidx) as [|k] eqn:Ek.
          - (* the bounding variable is added at the end *)
            match goal with
            | |- roundMIRCont_post _ _ _ _ _ (roundMIRCont _ _ _ _ _ ?s ?vp) =>
                set (st1 := s) in *; set (vp1 := vp) in *
            end.
            specialize (IH conts' st1 vp1 i ndel).
            destruct IH as (R1 & R2 & R3 & R4).
            { lia. } { unfold i. lia. } { lia. }
            { unfold st1. simpl. rewrite !length_app, length_arr_set. simpl. lia. }
            { unfold st1. simpl. rewrite length_app. simpl. lia. }
            { apply (region_is_ext st st1); [|apply (region_is_app_l _ _ _ _ Hreg)].
              intros p Hp. unfold st1. simpl.
              rewrite !nth_error_app1 by (rewrite ?length_arr_set; unfold i in *; lia).
              rewrite nth_error_arr_set by (unfold i; lia).
              repeat split; reflexivity. }
            { exact Hcont'. }
            { intros z k Hz. unfold vp1, upd in Hz. unfold st1. simpl.
              destruct (Nat.eqb_spec z zidx) as [->|Hne].
              - injection Hz as <-. split; [lia|].
                rewrite nth_error_app2 by lia. rewrite Nat.sub_diag. reflexivity.
              - destruct (Hvp z k Hz) as [Hk Hzk]. split; [exact Hk|].
                rewrite nth_error_app1; [exact Hzk|].
                apply nth_error_Some. rewrite Hzk. discriminate. }
            unfold roundMIRCont_post.
            split; [exact R1|]. split; [exact R2|].
            split.
            { intros j. rewrite R3. unfold st1. cbn [cutinds cutcoefs].
              rewrite !skipn_app.
              replace (i - length (cutinds st))%nat with 0%nat by lia.
              replace (i - length (arr_set (cutcoefs st) i (mirContCoef f0 vs c)))%nat
                with 0%nat by (rewrite length_arr_set; lia).
              rewrite !skipn_O.
              rewrite coefOf_app1 by (rewrite !length_skipn, length_arr_set; lia).
              rewrite Hskip. rewrite roundedRowCoef_app. cbn [roundedRowCoef].
              rewrite (proj1 (Hent j)). ring. }
            rewrite R4. unfold st1. cbn [cutrhs]. rewrite roundedRowRhs_app. cbn [roundedRowRhs].
            rewrite (proj2 (Hent 0%nat)). ring.
          - (* the bounding variable is in the row *)
            destruct (Hvp zidx k Ek) as [Hk Hzk].
            match goal with
            | |- roundMIRCont_post _ _ _ _ _ (roundMIRCont _ _ _ _ _ ?s ?vp) =>
                set (st1 := s) in *
            end.
            specialize (IH conts' st1 varpos i ndel).
            destruct IH as (R1 & R2 & R3 & R4).
            { lia. } { unfold i. lia. } { lia. }
            { unfold st1. simpl. rewrite !length_arr_set. exact Hl. }
            { exact HL. }
            { apply (region_is_ext st st1); [|apply (region_is_app_l _ _ _ _ Hreg)].
              intros p Hp. unfold st1. simpl.
              rewrite !nth_error_arr_set by (unfold i in *; lia).
              repeat split; reflexivity. }
            { exact Hcont'. }
            { exact Hvp. }
            unfold roundMIRCont_post.
            split; [exact R1|]. split; [exact R2|].
            split.
            { intros j. rewrite R3. unfold st1. cbn [cutinds cutcoefs].
              rewrite (skipn_arr_set_ge _ _ k i) by lia.
              assert (Eget : arr_get (arr_set (cutcoefs st) i (mirContCoef f0 vs c)) k
                             = arr_get (skipn i (arr_set (cutcoefs st) i
                                                          (mirContCoef f0 vs c))) (k - i)).
              { unfold arr_get. rewrite nth_skipn. f_equal. lia. }
              rewrite Eget.
              rewrite (coefOf_arr_set (skipn i (cutinds st)) _ (k - i) zidx).
              - rewrite Hskip. rewrite roundedRowCoef_app. cbn [roundedRowCoef].
                rewrite (proj1 (Hent j)). ring.
              - rewrite nth_error_skipn. replace (i + (k - i))%nat with k by lia. exact Hzk.
              - rewrite !length_skipn, length_arr_set. lia. }
            rewrite R4. unfold st1. cbn [cutrhs]. rewrite roundedRowRhs_app. cbn [roundedRowRhs].
            rewrite (proj2 (Hent 0%nat)). ring. }
        destruct (vs =? 1)%Z; apply Hgen; exact HVB.
Qed.

(** *** The whole rounding step *)

Lemma fillDeleted_coefOf (inds : list nat) (coefs : list Q) (ndel j : nat) :
  length coefs = length inds -> (ndel <= length inds)%nat ->
  length (fillDeleted coefs ndel) = length (fillDeleted inds ndel) /\
  coefOf (fillDeleted inds ndel) (fillDeleted coefs ndel) j
  == coefOf (skipn ndel inds) (skipn ndel coefs) j.
Proof.
  intros Hlen Hn. unfold fillDeleted.
  destruct ndel as [|n']; [split; [exact Hlen|reflexivity]|].
  set (ndel := S n') in *. rewrite Hlen.
  set (nnz' := (length inds - ndel)%nat).
  destruct (Nat.ltb_spec nnz' ndel) as [Hlt|Hge].
  - rewrite !firstn_all2 by (rewrite length_skipn; unfold nnz'; lia).
    split; [rewrite !length_skipn; lia|reflexivity].
  - assert (E1 : firstn ndel (skipn nnz' inds) = skipn nnz' inds)
      by (apply firstn_all2; rewrite length_skipn; unfold nnz'; lia).
    assert (E2 : firstn ndel (skipn nnz' coefs) = skipn nnz' coefs)
      by (apply firstn_all2; rewrite length_skipn; unfold nnz'; lia).
    rewrite E1, E2.
    assert (Hlf : length (firstn (nnz' - ndel) (skipn ndel coefs))
                  = length (firstn (nnz' - ndel) (skipn ndel inds)))
      by (rewrite !length_firstn, !length_skipn; lia).
    split; [rewrite !length_app, !length_skipn, Hlf; lia|].
    rewrite coefOf_app by (rewrite !length_skipn; lia).
    rewrite <- (firstn_skipn (nnz' - ndel) (skipn ndel inds)) at 2.
    rewrite <- (firstn_skipn (nnz' - ndel) (skipn ndel coefs)) at 2.
    rewrite coefOf_app by exact Hlf.
    rewrite !skipn_skipn.
    replace (nnz' - ndel + ndel)%nat with nnz' by lia.
    ring.
Qed.

Lemma region_is_entriesOf (st : CUTSTATE) : region_is st 0 (entriesOf st).
Proof.
  intros q v c vs bt Hq. unfold entriesOf in Hq. simpl.
  apply nth_error_combine in Hq. destruct Hq as [Hq Hbt].
  apply nth_error_combine in Hq. destruct Hq as [Hq Hvs].
  apply nth_error_combine in Hq. destruct Hq as [Hv Hc].
  repeat split; assumption.
Qed.

Lemma length_entriesOf (st : CUTSTATE) :
  length (cutcoefs st) = length (cutinds st) ->
  length (varsign st) = length (cutinds st) ->
  length (boundtype st) = length (cutinds st) ->
  length (entriesOf st) = length (cutinds st).
Proof.
  intros H1 H2 H3. unfold entriesOf, ROWENTRY. rewrite !length_combine. lia.
Qed.

(** the cut that [cutsRoundMIR] leaves: for every variable, the sum of what
    the entries of the transformed row add to its coefficient *)
Lemma cutsRoundMIR_spec (scip : SCIP) (st : CUTSTATE) (f0 : Q) (conts ints : list ROWENTRY) :
  length (cutcoefs st) = length (cutinds st) ->
  length (varsign st) = length (cutinds st) ->
  length (boundtype st) = length (cutinds st) ->
  entriesOf st = conts ++ ints ->
  Forall (fun e => entry_continuous scip e = true) conts ->
  Forall (fun e => entry_continuous scip e = false) ints ->
  let out := cutsRoundMIR scip st f0 in
  length (cutcoefs out) = length (cutinds out) /\
  (forall j, coefOf (cutinds out) (cutcoefs out) j
             == roundedRowCoef scip f0 (entriesOf st) j) /\
  cutrhs out == cutrhs st + roundedRowRhs scip f0 (entriesOf st).
Proof.
  intros H1 H2 H3 Hent Hconts Hints.
  pose proof (region_is_entriesOf st) as Hreg. rewrite Hent in Hreg.
  pose proof (length_entriesOf st H1 H2 H3) as Hlen. rewrite Hent, length_app in Hlen.
  set (lo := length conts) in *.
  pose proof (region_is_app_r _ _ _ _ Hreg) as HregI. simpl in HregI. fold lo in HregI.
  pose proof (region_is_app_l _ _ _ _ Hreg) as HregC.
  assert (Hstop : lo = 0%nat \/
                  exists v, nth_error (cutinds st) (lo - 1) = Some v /\
                            (firstcontvar scip <= v)%nat).
  { destruct conts as [|e conts'] using rev_ind; [left; reflexivity|right].
    clear IHconts'. destruct e as [[[v c] vs] bt].
    destruct (region_is_last st 0 conts' v c vs bt HregC) as (Hv & _).
    apply Forall_app in Hconts. destruct Hconts as [_ He].
    inversion He as [|a l Hcv _]; subst. simpl in Hcv. apply Nat.leb_le in Hcv.
    exists v. split; [|exact Hcv].
    unfold lo. rewrite length_app. simpl.
    replace (length conts' + 1 - 1)%nat with (length conts') by lia.
    exact Hv. }
  assert (Hvp0 : varpos_ok cleanbuf (cutinds st) (lo + length ints))
    by (intros z k Hz; discriminate).
  pose proof (roundMIRInt_spec scip f0 lo ints st cleanbuf H1 HregI Hints Hstop Hvp0) as HI.
  unfold cutsRoundMIR. rewrite <- Hlen.
  destruct (roundMIRInt scip f0 (lo + length ints) st cleanbuf) as [[st1 varpos1] m].
  unfold roundMIRInt_post in HI. simpl in HI.
  destruct HI as (-> & I2 & I3 & I4 & I5 & I6 & I7 & I8 & I9 & I10).
  assert (HregC1 : region_is st1 0 conts).
  { apply (region_is_ext st st1); [|exact HregC].
    intros p Hp. destruct (I4 p ltac:(unfold lo; lia)) as [E1 E2].
    rewrite I5, I6. repeat split; assumption. }
  pose proof (roundMIRCont_spec scip f0 lo lo conts st1 varpos1 lo 0
                eq_refl ltac:(lia) ltac:(lia) I2 I3 HregC1 Hconts I8) as HC.
  destruct (roundMIRCont scip f0 lo lo 0 st1 varpos1) as [[st2 varpos2] ndel].
  unfold roundMIRCont_post in HC. simpl in HC.
  destruct HC as (C1 & C2 & C3 & C4).
  simpl.
  split; [apply (fillDeleted_coefOf (cutinds st2) (cutcoefs st2) ndel 0 C1 C2)|].
  split.
  - intros j.
    rewrite (proj2 (fillDeleted_coefOf (cutinds st2) (cutcoefs st2) ndel j C1 C2)).
    rewrite C3, I9.
    rewrite !skipn_all2 by lia.
    rewrite Hent, roundedRowCoef_app. simpl. ring.
  - rewrite C4, I10, Hent, roundedRowRhs_app. ring.
Qed.

(** what a successful call of [SCIPcalcMIR] returns: the rounding of a row
    with the fractionality of its right hand side, whose right hand side is
    rounded down, followed by the substitution of the slack variables and
    the cleanup *)
Lemma SCIPcalcMIR_rounds (scip : SCIP) (sol : SCIP_SOL) (boundswitch : Q)
      (usevbds allowlocal fixintegralrhs : bool)
      (boundsfortrans : option (list Z)) (boundtypesfortrans : list SCIP_BOUNDTYPE)
      (minfrac maxfrac scale : Q) (aggrrow : SCIP_AGGRROW) :
  let cut := SCIPcalcMIR scip sol boundswitch usevbds allowlocal fixintegralrhs
                         boundsfortrans boundtypesfortrans minfrac maxfrac scale aggrrow in
  cut_success cut = true ->
  exists st : CUTSTATE,
    let downrhs := EPSFLOOR (cutrhs st) (SCIPsumepsilon (scip_set scip)) in
    let f0 := cutrhs st - downrhs in
    let rounded := cutsRoundMIR scip
                     (mkCut (cutcoefs st) (cutinds st) downrhs (varsign st)
                            (boundtype st) (localbdsused st)) f0 in
    let sub := cutsSubstituteMIR scip (rowweights aggrrow) (slacksign aggrrow)
                 (rowsinds aggrrow) scale
                 (cutcoefs rounded) (cutrhs rounded) (cutinds rounded) f0 in
    minfrac <= f0 /\ f0 <= maxfrac /\
    (cut_inds cut, cut_coefs cut, cut_rhs cut)
    = cleanupCut scip (cut_islocal cut) (snd (fst sub)) (fst (fst sub)) (snd sub).
Proof.
  unfold SCIPcalcMIR.
  destruct (if negb (Qeq_bool scale 1) then _ else _) as [cutrhs0 cutcoefs0].
  destruct (cleanupCut scip (local aggrrow) (inds aggrrow) cutcoefs0 cutrhs0)
    as [[cutinds1 cutcoefs1] cutrhs1].
  set (tr := cutsTransformMIR _ _ _ _ _ _ _ _ _ _ _ _ _ _).
  cbv zeta.
  destruct (tr_retcode tr); [|intros H; discriminate].
  destruct (tr_freevariable tr); [intros H; discriminate|].
  set (st := tr_cut tr).
  destruct (Qlt_bool _ minfrac || Qlt_bool maxfrac _) eqn:Efrac; [intros H; discriminate|].
  destruct (Qlt_bool MAXCMIRSCALE _); [intros H; discriminate|].
  intros _. exists st.
  apply orb_false_iff in Efrac. destruct Efrac as [E1 E2].
  apply Qlt_bool_false_iff in E1. apply Qlt_bool_false_iff in E2.
  split; [exact E1|]. split; [exact E2|].
  destruct (cutsSubstituteMIR _ _ _ _ _ _ _ _ _) as [[coefs2 inds2] rhs2]. simpl.
  destruct (cleanupCut _ _ inds2 coefs2 rhs2) as [[inds3 coefs3] rhs3] eqn:Ec.
  simpl. rewrite Ec. reflexivity.
Qed.

(** C2: the rounding step of the MIR pipeline.  With f0 the right hand side
    minus its floor, as [SCIPcalcMIR] computes it, the coefficient that
    [cutsRoundMIR] computes for an integral variable is, times the sign of
    the complementation, floor(a') if f <= f0 and floor(a') + (f - f0)/(1 - f0)
    otherwise, where a' is the coefficient of the complemented variable and
    f = a' - floor(a'); for a continuous variable it is 0 if a' >= 0 and
    a'/(1 - f0) otherwise.  For a transformed row with the continuous
    variables in front, the cut that [cutsRoundMIR] leaves has, for every
    variable, the sum of these coefficients over the entries of the
    variable, entries with a zero coefficient left out, and the
    coefficients that the variable bounds of continuous variables add to
    their bounding variables.  Floor and the comparison are the ones of
    the solver, with its tolerances. *)
Theorem mir_rounding_rule :
  (forall (set : SCIP_SET) (f0 : Q) (vs : Z) (ci : Q),
      mirIntCoef set f0 vs ci
      == inject_Z vs * MIR_int_rounding (SCIPfloor set) (SCIPisSumLE set) f0 (inject_Z vs * ci) /\
      mirContCoef f0 vs ci == inject_Z vs * MIR_cont_rounding f0 (inject_Z vs * ci)) /\
  (forall (scip : SCIP) (st : CUTSTATE) (f0 : Q) (conts ints : list ROWENTRY),
      length (cutcoefs st) = length (cutinds st) ->
      length (varsign st) = length (cutinds st) ->
      length (boundtype st) = length (cutinds st) ->
      entriesOf st = conts ++ ints ->
      Forall (fun e => entry_continuous scip e = true) conts ->
      Forall (fun e => entry_continuous scip e = false) ints ->
      let out := cutsRoundMIR scip st f0 in
      length (cutcoefs out) = length (cutinds out) /\
      (forall j, coefOf (cutinds out) (cutcoefs out) j
                 == roundedRowCoef scip f0 (entriesOf st) j) /\
      cutrhs out == cutrhs st + roundedRowRhs scip f0 (entriesOf st)) /\
  (forall (scip : SCIP) (sol : SCIP_SOL) (boundswitch : Q)
          (usevbds allowlocal fixintegralrhs : bool)
          (boundsfortrans : option (list Z)) (boundtypesfortrans : list SCIP_BOUNDTYPE)
          (minfrac maxfrac scale : Q) (aggrrow : SCIP_AGGRROW),
      let cut := SCIPcalcMIR scip sol boundswitch usevbds allowlocal fixintegralrhs
                             boundsfortrans boundtypesfortrans minfrac maxfrac scale
                             aggrrow in
      cut_success cut = true ->
      exists st : CUTSTATE,
        let downrhs := EPSFLOOR (cutrhs st) (SCIPsumepsilon (scip_set scip)) in
        let f0 := cutrhs st - downrhs in
        let rounded := cutsRoundMIR scip
                         (mkCut (cutcoefs st) (cutinds st) downrhs (varsign st)
                                (boundtype st) (localbdsused st)) f0 in
        let sub := cutsSubstituteMIR scip (rowweights aggrrow) (slacksign aggrrow)
                     (rowsinds aggrrow) scale
                     (cutcoefs rounded) (cutrhs rounded) (cutinds rounded) f0 in
        minfrac <= f0 /\ f0 <= maxfrac /\
        (cut_inds cut, cut_coefs cut, cut_rhs cut)
        = cleanupCut scip (cut_islocal cut) (snd (fst sub)) (fst (fst sub)) (snd sub)).
Proof.
  split; [|split].
  - intros set f0 vs ci. split; [apply mirIntCoef_rounding|apply mirContCoef_rounding].
  - intros scip st f0 conts ints. apply cutsRoundMIR_spec.
  - intros. apply SCIPcalcMIR_rounds. assumption.
Qed.

Lemma mir_rounding_rule_witness :
  let out := cutsRoundMIR example_cmir_scip example_round_state (1 # 2) in
  coefOf (cutinds out) (cutcoefs out) 0 == 3 # 2 /\
  coefOf (cutinds out) (cutcoefs out) 1 == 2 /\
  coefOf (cutinds out) (cutcoefs out) 2 == - (2).
Proof.
  destruct (proj1 (proj2 mir_rounding_rule) example_cmir_scip example_round_state (1 # 2)
              [(2%nat, - (1), 1%Z, (-1)%Z)]
              [(1%nat, 9 # 4, 1%Z, (-1)%Z); (0%nat, 7 # 4, 1%Z, (-1)%Z)]
              eq_refl eq_refl eq_refl eq_refl
              ltac:(repeat constructor) ltac:(repeat constructor)) as (_ & H & _).
  cbv zeta. rewrite !H. repeat split; vm_compute; reflexivity.
Defined.

(* ================================================================== *)
(** ** The rounding loop of the strong CG pipeline *)
(* ================================================================== *)

Lemma strongcgRowCoef_app (scip : SCIP) (f0 k : Q) (l1 l2 : list ROWENTRY) (j : nat) :
  strongcgRowCoef scip f0 k (l1 ++ l2) j
  == strongcgRowCoef scip f0 k l1 j + strongcgRowCoef scip f0 k l2 j.
Proof.
  induction l1 as [|e l1 IH]; cbn [app strongcgRowCoef]; [ring|]. rewrite IH. ring.
Qed.

Lemma strongcgRowRhs_app (scip : SCIP) (f0 k : Q) (l1 l2 : list ROWENTRY) :
  strongcgRowRhs scip f0 k (l1 ++ l2)
  == strongcgRowRhs scip f0 k l1 + strongcgRowRhs scip f0 k l2.
Proof.
  induction l1 as [|e l1 IH]; cbn [app strongcgRowRhs]; [ring|]. rewrite IH. ring.
Qed.

(** continuous entries add nothing *)
Lemma strongcgRow_continuous (scip : SCIP) (f0 k : Q) (conts : list ROWENTRY) :
  Forall (fun e => entry_continuous scip e = true) conts ->
  (forall j, strongcgRowCoef scip f0 k conts j == 0) /\
  strongcgRowRhs scip f0 k conts == 0.
Proof.
  induction 1 as [|e conts He _ [IH1 IH2]]; [split; [intros j|]; reflexivity|].
  destruct e as [[[v c] vs] bt]. cbn [entry_continuous] in He.
  split.
  - intros j. cbn [strongcgRowCoef strongcgEntryCoef]. rewrite He, IH1.
    destruct (Nat.eqb v j); ring.
  - cbn [strongcgRowRhs strongcgEntryCoef]. rewrite He, IH2. ring.
Qed.

(** what the loop over the integral entries [ints], which are at the
    positions from [lo] on, leaves *)
Lemma roundStrongCGInt_spec (scip : SCIP) (f0 k : Q) (lo : nat) (ints : list ROWENTRY) :
  forall st : CUTSTATE,
    length (cutcoefs st) = length (cutinds st) ->
    region_is st lo ints ->
    Forall (fun e => entry_continuous scip e = false) ints ->
    (lo = 0%nat \/
     exists v, nth_error (cutinds st) (lo - 1) = Some v /\ (firstcontvar scip <= v)%nat) ->
    let r := roundStrongCGInt scip f0 k (lo + length ints) st in
    snd r = lo /\
    length (cutcoefs (fst r)) = length (cutinds (fst r)) /\
    (lo <= length (cutinds (fst r)))%nat /\
    (forall j,
        coefOf (skipn lo (cutinds (fst r))) (skipn lo (cutcoefs (fst r))) j
        == coefOf (skipn (lo + length ints) (cutinds st))
                  (skipn (lo + length ints) (cutcoefs st)) j
           + strongcgRowCoef scip f0 k ints j) /\
    cutrhs (fst r) == cutrhs st + strongcgRowRhs scip f0 k ints.
Proof.
  induction ints as [|e ints IH] using rev_ind; intros st Hlen Hreg Hint Hstop.
  - (* no integral entry is left *)
    simpl length in *. rewrite Nat.add_0_r in *.
    assert (Hr : roundStrongCGInt scip f0 k lo st = (st, lo)).
    { destruct Hstop as [->|[v [Hv Hc]]]; [reflexivity|].
      destruct lo as [|lo']; [reflexivity|].
      simpl in Hv. rewrite Nat.sub_0_r in Hv. simpl.
      rewrite (nth_error_ind_get _ _ _ Hv). apply Nat.leb_le in Hc. rewrite Hc.
      reflexivity. }
    assert (Hlo : (lo <= length (cutinds st))%nat).
    { destruct Hstop as [->|[v [Hv _]]]; [lia|].
      assert (lo - 1 < length (cutinds st))%nat
        by (apply nth_error_Some; rewrite Hv; discriminate).
      lia. }
    cbv zeta. rewrite Hr. cbn [fst snd strongcgRowCoef strongcgRowRhs].
    split; [reflexivity|]. split; [exact Hlen|]. split; [exact Hlo|].
    split; [intros j; ring|ring].
  - destruct e as [[[v c] vs] bt].
    destruct (region_is_last st lo ints v c vs bt Hreg) as (Hv & Hc & Hvs & Hbt).
    apply Forall_app in Hint. destruct Hint as [Hint' He].
    inversion He as [|a l Hcont _]; subst. simpl in Hcont.
    assert (Hi : (lo + length ints < length (cutinds st))%nat)
      by (apply nth_error_Some; rewrite Hv; discriminate).
    rewrite length_app. cbn [length].
    replace (lo + (length ints + 1))%nat with (S (lo + length ints)) by lia.
    set (i := (lo + length ints)%nat) in *.
    cbn [roundStrongCGInt].
    rewrite (nth_error_ind_get _ _ _ Hv), Hcont.
    rewrite (int_get_nth_error _ _ _ Hvs), (nth_error_nth_Q _ _ _ Hc),
      (int_get_nth_error _ _ _ Hbt).
    assert (HC : forall j,
               strongcgRowCoef scip f0 k [(v, c, vs, bt)] j
               == (if Nat.eqb v j
                   then (if SCIPisZero (scip_set scip)
                               (strongcgIntCoef (scip_set scip) f0 k vs c)
                         then 0 else strongcgIntCoef (scip_set scip) f0 k vs c)
                   else 0)).
    { intros j. cbn [strongcgRowCoef strongcgEntryCoef]. rewrite Hcont. ring. }
    assert (HR : strongcgRowRhs scip f0 k [(v, c, vs, bt)]
                 == (if SCIPisZero (scip_set scip)
                           (strongcgIntCoef (scip_set scip) f0 k vs c)
                     then 0 else strongcgIntCoef (scip_set scip) f0 k vs c)
                    * usedStandardBound (getVar scip v) vs bt).
    { cbn [strongcgRowRhs strongcgEntryCoef]. rewrite Hcont. ring. }
    destruct (SCIPisZero (scip_set scip) (strongcgIntCoef (scip_set scip) f0 k vs c)) eqn:Ez.
    + (* the coefficient is zero: the entry is removed *)
      match goal with
      | |- context [roundStrongCGInt _ _ _ _ ?s] => set (st1 := s)
      end.
      assert (Hpre : forall p, (p < i)%nat ->
                 nth_error (cutinds st1) p = nth_error (cutinds st) p /\
                 nth_error (cutcoefs st1) p = nth_error (cutcoefs st) p).
      { intros p Hp. simpl. split; apply nth_error_arr_remove_lt; lia. }
      specialize (IH st1).
      destruct IH as (R1 & R2 & R3 & R9 & R10).
      * simpl. rewrite !length_arr_remove. lia.
      * apply (region_is_ext st st1); [|apply (region_is_app_l _ _ _ _ Hreg)].
        intros p Hp. destruct (Hpre p ltac:(lia)) as [E1 E2].
        repeat split; try assumption; reflexivity.
      * exact Hint'.
      * destruct Hstop as [->|[w [Hw Hwc]]]; [left; reflexivity|right].
        exists w. split; [|exact Hwc].
        destruct lo as [|lo'].
        -- change (0 - 1)%nat with 0%nat in Hw |- *.
           destruct (Nat.eq_dec i 0) as [E0|E0].
           ++ exfalso. rewrite E0 in Hv. rewrite Hv in Hw. injection Hw as ->.
              apply Nat.leb_gt in Hcont. lia.
           ++ rewrite (proj1 (Hpre 0%nat ltac:(lia))). exact Hw.
        -- rewrite (proj1 (Hpre (S lo' - 1)%nat ltac:(unfold i; lia))). exact Hw.
      * fold i in R1, R2, R3, R9, R10.
        split; [exact R1|]. split; [exact R2|]. split; [exact R3|].
        split.
        { intros j. rewrite R9. unfold st1. cbn [cutinds cutcoefs].
          rewrite coefOf_skipn_arr_remove by assumption.
          rewrite strongcgRowCoef_app. rewrite (HC j).
          destruct (Nat.eqb v j); ring. }
        rewrite R10. unfold st1. cbn [cutrhs]. rewrite strongcgRowRhs_app.
        rewrite HR. ring.
    + (* the coefficient is stored *)
      match goal with
      | |- context [roundStrongCGInt _ _ _ _ ?s] => set (st1 := s)
      end.
      assert (Hpre : forall p, (p < i)%nat ->
                 nth_error (cutinds st1) p = nth_error (cutinds st) p /\
                 nth_error (cutcoefs st1) p = nth_error (cutcoefs st) p).
      { intros p Hp. simpl. split; [reflexivity|]. apply nth_error_arr_set. lia. }
      specialize (IH st1).
      destruct IH as (R1 & R2 & R3 & R9 & R10).
      * simpl. rewrite length_arr_set. exact Hlen.
      * apply (region_is_ext st st1); [|apply (region_is_app_l _ _ _ _ Hreg)].
        intros p Hp. destruct (Hpre p ltac:(lia)) as [E1 E2].
        repeat split; try assumption; reflexivity.
      * exact Hint'.
      * destruct Hstop as [->|[w [Hw Hwc]]]; [left; reflexivity|right].
        exists w. split; [exact Hw|exact Hwc].
      * fold i in R1, R2, R3, R9, R10.
        split; [exact R1|]. split; [exact R2|]. split; [exact R3|].
        split.
        { intros j. rewrite R9. unfold st1. cbn [cutinds cutcoefs].
          rewrite skipn_arr_set_ge by lia. rewrite Nat.sub_diag.
          rewrite (skipn_nth_cons _ _ _ _ Hv), (skipn_nth_cons _ _ _ _ Hc).
          cbn [arr_set coefOf].
          rewrite strongcgRowCoef_app. rewrite (HC j).
          destruct (Nat.eqb v j); ring. }
        rewrite R10. unfold st1. cbn [cutrhs]. rewrite strongcgRowRhs_app.
        rewrite HR. ring.
Qed.

(** the cut that [cutsRoundStrongCG] leaves: for every variable, the sum of
    the rounded coefficients of its integral entries *)
Lemma cutsRoundStrongCG_spec (scip : SCIP) (st : CUTSTATE) (f0 k : Q)
      (conts ints : list ROWENTRY) :
  length (cutcoefs st) = length (cutinds st) ->
  length (varsign st) = length (cutinds st) ->
  length (boundtype st) = length (cutinds st) ->
  entriesOf st = conts ++ ints ->
  Forall (fun e => entry_continuous scip e = true) conts ->
  Forall (fun e => entry_continuous scip e = false) ints ->
  let out := cutsRoundStrongCG scip st f0 k in
  length (cutcoefs out) = length (cutinds out) /\
  (forall j, coefOf (cutinds out) (cutcoefs out) j
             == strongcgRowCoef scip f0 k (entriesOf st) j) /\
  cutrhs out == cutrhs st + strongcgRowRhs scip f0 k (entriesOf st).
Proof.
  intros H1 H2 H3 Hent Hconts Hints.
  pose proof (region_is_entriesOf st) as Hreg. rewrite Hent in Hreg.
  pose proof (length_entriesOf st H1 H2 H3) as Hlen. rewrite Hent, length_app in Hlen.
  set (lo := length conts) in *.
  pose proof (region_is_app_r _ _ _ _ Hreg) as HregI. simpl in HregI. fold lo in HregI.
  pose proof (region_is_app_l _ _ _ _ Hreg) as HregC.
  assert (Hstop : lo = 0%nat \/
                  exists v, nth_error (cutinds st) (lo - 1) = Some v /\
                            (firstcontvar scip <= v)%nat).
  { destruct conts as [|e conts'] using rev_ind; [left; reflexivity|right].
    clear IHconts'. destruct e as [[[v c] vs] bt].
    destruct (region_is_last st 0 conts' v c vs bt HregC) as (Hv & _).
    pose proof Hconts as Hconts'.
    apply Forall_app in Hconts'. destruct Hconts' as [_ He].
    inversion He as [|a l Hcv _]; subst. simpl in Hcv. apply Nat.leb_le in Hcv.
    exists v. split; [|exact Hcv].
    unfold lo. rewrite length_app. simpl.
    replace (length conts' + 1 - 1)%nat with (length conts') by lia.
    exact Hv. }
  pose proof (roundStrongCGInt_spec scip f0 k lo ints st H1 HregI Hints Hstop) as HI.
  destruct (strongcgRow_continuous scip f0 k conts Hconts) as [Z1 Z2].
  unfold cutsRoundStrongCG. rewrite <- Hlen.
  cbv zeta in HI.
  destruct (roundStrongCGInt scip f0 k (lo + length ints) st) as [st1 m].
  cbn [fst snd] in HI.
  destruct HI as (-> & I2 & I3 & I9 & I10).
  cbv zeta. cbn [cutcoefs cutinds cutrhs].
  split; [apply (fillDeleted_coefOf (cutinds st1) (cutcoefs st1) lo 0 I2 I3)|].
  split.
  - intros j.
    rewrite (proj2 (fillDeleted_coefOf (cutinds st1) (cutcoefs st1) lo j I2 I3)).
    rewrite I9.
    rewrite !skipn_all2 by lia.
    rewrite Hent, strongcgRowCoef_app, Z1. simpl. ring.
  - rewrite I10, Hent, strongcgRowRhs_app, Z2. ring.
Qed.

(** what a successful call of [SCIPcalcStrongCG] returns: the rounding of a
    row with the fractionality [f0] of its right hand side and the integer
    [k] that belongs to it, whose right hand side is rounded down, followed
    by the substitution of the slack variables and the cleanup *)
Lemma SCIPcalcStrongCG_rounds (scip : SCIP) (sol : SCIP_SOL) (boundswitch : Q)
      (usevbds allowlocal : bool) (minfrac maxfrac scale : Q) (aggrrow : SCIP_AGGRROW) :
  let cut := SCIPcalcStrongCG scip sol boundswitch usevbds allowlocal
                              minfrac maxfrac scale aggrrow in
  cut_success cut = true ->
  exists st : CUTSTATE,
    let downrhs := SCIPfloor (scip_set scip) (cutrhs st) in
    let f0 := cutrhs st - downrhs in
    let k := SCIPceil (scip_set scip) (1 / f0) - 1 in
    let rounded := cutsRoundStrongCG scip
                     (mkCut (cutcoefs st) (cutinds st) downrhs (varsign st)
                            (boundtype st) (localbdsused st)) f0 k in
    let sub := cutsSubstituteStrongCG scip (rowweights aggrrow) (slacksign aggrrow)
                 (rowsinds aggrrow) scale
                 (cutcoefs rounded) (cutrhs rounded) (cutinds rounded) f0 k in
    minfrac <= f0 /\ f0 <= maxfrac /\
    (cut_inds cut, cut_coefs cut, cut_rhs cut)
    = cleanupCut scip (cut_islocal cut) (snd (fst sub)) (fst (fst sub)) (snd sub).
Proof.
  unfold SCIPcalcStrongCG.
  destruct (if negb (Qeq_bool scale 1) then _ else _) as [cutrhs0 cutcoefs0].
  destruct (cleanupCut scip (local aggrrow) (inds aggrrow) cutcoefs0 cutrhs0)
    as [[cutinds1 cutcoefs1] cutrhs1].
  set (tr := cutsTransformStrongCG _ _ _ _ _ _ _ _).
  cbv zeta.
  destruct (tr_freevariable tr); [intros H; discriminate|].
  set (st := tr_cut tr).
  destruct (Qlt_bool _ minfrac || Qlt_bool maxfrac _) eqn:Efrac; [intros H; discriminate|].
  intros _. exists st.
  apply orb_false_iff in Efrac. destruct Efrac as [E1 E2].
  apply Qlt_bool_false_iff in E1. apply Qlt_bool_false_iff in E2.
  split; [exact E1|]. split; [exact E2|].
  unfold strongcgK.
  destruct (cutsSubstituteStrongCG _ _ _ _ _ _ _ _ _ _) as [[coefs2 inds2] rhs2]. simpl.
  destruct (cleanupCut _ _ inds2 coefs2 rhs2) as [[inds3 coefs3] rhs3] eqn:Ec.
  simpl. rewrite Ec. reflexivity.
Qed.

(** C3: the rounding step of the strong CG pipeline.  First, the parameter
    k = ceil(1/f0) - 1 is an integer that is at least 1 whenever the
    fractionality f0 = rhs - floor(rhs) of the right hand side is positive
    (f0 < 1 holds by construction), and the coefficient of an integral
    variable, in the space of the complemented variable, is floor(a') if
    f <= f0, and floor(a') + p/(k+1) otherwise, where
    p = ceil(k (f - f0) / (1 - f0)) lies in [0, k].  Second, for a
    transformed row with the continuous variables in front, the cut that
    [cutsRoundStrongCG] leaves has, for every variable, the sum of these
    coefficients over the integral entries of the variable, entries with a
    zero coefficient left out, and nothing for a continuous variable; the
    right hand side grows by the coefficients times the bounds that were
    used.  Third, a successful [SCIPcalcStrongCG] returns the cut that this
    rounding, with f0 the right hand side of the transformed row minus its
    floor and k = ceil(1/f0) - 1, then the substitution of the slacks and
    the cleanup give.  Floor, ceil and the comparison are the ones of the
    solver, with its tolerances. *)
Theorem strongcg_rounding_rule :
  (forall (set : SCIP_SET) (cutrhs : Q) (vs : Z) (ci : Q),
      0 <= num_epsilon set -> num_epsilon set < 1 -> 0 <= num_sumepsilon set ->
      let f0 := cutrhs - SCIPfloor set cutrhs in
      let k := strongcgK set f0 in
      let a' := inject_Z vs * ci in
      let f := a' - SCIPfloor set a' in
      let p := strongCG_p (SCIPfloor set) (SCIPceil set) f0 k a' in
      0 < f0 ->
      f0 < 1 /\
      k = SCIPceil set (1 / f0) - 1 /\
      1 <= k /\ (exists kz : Z, k == inject_Z kz) /\
      strongcgIntCoef set f0 k vs ci
        == inject_Z vs * strongCG_int_rounding (SCIPfloor set) (SCIPceil set)
                                               (SCIPisSumLE set) f0 k a' /\
      strongCG_int_rounding (SCIPfloor set) (SCIPceil set) (SCIPisSumLE set) f0 k a'
        = (if SCIPisSumLE set f f0 then SCIPfloor set a'
           else SCIPfloor set a' + p / (k + 1)) /\
      (SCIPisSumLE set f f0 = false -> 0 <= p /\ p <= k)) /\
  (forall (scip : SCIP) (st : CUTSTATE) (f0 k : Q) (conts ints : list ROWENTRY),
      length (cutcoefs st) = length (cutinds st) ->
      length (varsign st) = length (cutinds st) ->
      length (boundtype st) = length (cutinds st) ->
      entriesOf st = conts ++ ints ->
      Forall (fun e => entry_continuous scip e = true) conts ->
      Forall (fun e => entry_continuous scip e = false) ints ->
      let out := cutsRoundStrongCG scip st f0 k in
      length (cutcoefs out) = length (cutinds out) /\
      (forall j, coefOf (cutinds out) (cutcoefs out) j
                 == strongcgRowCoef scip f0 k (entriesOf st) j) /\
      cutrhs out == cutrhs st + strongcgRowRhs scip f0 k (entriesOf st)) /\
  (forall (scip : SCIP) (sol : SCIP_SOL) (boundswitch : Q) (usevbds allowlocal : bool)
          (minfrac maxfrac scale : Q) (aggrrow : SCIP_AGGRROW),
      let cut := SCIPcalcStrongCG scip sol boundswitch usevbds allowlocal
                                  minfrac maxfrac scale aggrrow in
      cut_success cut = true ->
      exists st : CUTSTATE,
        let downrhs := SCIPfloor (scip_set scip) (cutrhs st) in
        let f0 := cutrhs st - downrhs in
        let k := SCIPceil (scip_set scip) (1 / f0) - 1 in
        let rounded := cutsRoundStrongCG scip
                         (mkCut (cutcoefs st) (cutinds st) downrhs (varsign st)
                                (boundtype st) (localbdsused st)) f0 k in
        let sub := cutsSubstituteStrongCG scip (rowweights aggrrow) (slacksign aggrrow)
                     (rowsinds aggrrow) scale
                     (cutcoefs rounded) (cutrhs rounded) (cutinds rounded) f0 k in
        minfrac <= f0 /\ f0 <= maxfrac /\
        (cut_inds cut, cut_coefs cut, cut_rhs cut)
        = cleanupCut scip (cut_islocal cut) (snd (fst sub)) (fst (fst sub)) (snd sub)).
Proof.
  split; [|split].
  - intros set cutrhs vs ci He He1 Hs f0 k a' f p Hf0.
    destruct (SCIPfloor_frac_bounds set cutrhs) as [_ Hup]. fold f0 in Hup.
    destruct (strongcgK_ge_one set cutrhs He Hf0) as [Hk1 [kz Hkz]].
    fold f0 in Hk1, Hkz. fold k in Hk1, Hkz.
    assert (Hlt1 : f0 < 1) by lra.
    split; [exact Hlt1|].
    split; [reflexivity|].
    split; [exact Hk1|].
    split; [exists kz; exact Hkz|].
    split; [|split; [reflexivity|]].
    + unfold strongcgIntCoef, strongCG_int_rounding, strongCG_p.
      fold a'. fold f.
      destruct (SCIPisSumLE set f f0); [reflexivity|].
      apply Qmult_comp; [reflexivity|].
      apply Qplus_comp; [reflexivity|].
      assert (E : k * (f - f0) * (1 / (1 - f0)) == k * (f - f0) / (1 - f0)) by (field; lra).
      unfold SCIPceil, EPSCEIL. rewrite E. reflexivity.
    + intros Hgt.
      unfold SCIPisSumLE in Hgt. apply Qle_bool_false_iff in Hgt.
      unfold SCIPsumepsilon in Hgt.
      destruct (SCIPfloor_frac_bounds set a') as [_ Hfup]. fold f in Hfup.
      assert (Hff : f0 < f) by lra.
      assert (Hf1 : f < 1) by lra.
      pose proof (strongcg_p_bounds set f0 k f kz He He1 Hf0 Hff Hf1 Hkz) as Hp.
      assert (Hk0 : 0 <= k) by lra.
      specialize (Hp Hk0). cbv zeta in Hp.
      assert (E : k * (f - f0) * (1 / (1 - f0)) == k * (f - f0) / (1 - f0)) by (field; lra).
      unfold p, strongCG_p. fold f.
      unfold SCIPceil, EPSCEIL in *. rewrite <- E. exact Hp.
  - intros scip st f0 k conts ints. apply cutsRoundStrongCG_spec.
  - intros. apply SCIPcalcStrongCG_rounds. assumption.
Qed.

Lemma strongcg_rounding_rule_witness :
  let f0 := (5 # 2) - SCIPfloor SCIP_DEFAULT_SET (5 # 2) in
  let k := strongcgK SCIP_DEFAULT_SET f0 in
  let out := cutsRoundStrongCG example_cmir_scip example_round_state f0 k in
  0 < f0 /\ k == 1 /\
  coefOf (cutinds out) (cutcoefs out) 0 == 3 # 2 /\
  coefOf (cutinds out) (cutcoefs out) 1 == 2 /\
  coefOf (cutinds out) (cutcoefs out) 2 == 0.
Proof.
  cbv zeta.
  split; [reflexivity|]. split; [reflexivity|].
  destruct (proj1 (proj2 strongcg_rounding_rule) example_cmir_scip example_round_state
              ((5 # 2) - SCIPfloor SCIP_DEFAULT_SET (5 # 2))
              (strongcgK SCIP_DEFAULT_SET ((5 # 2) - SCIPfloor SCIP_DEFAULT_SET (5 # 2)))
              [(2%nat, - (1), 1%Z, (-1)%Z)]
              [(1%nat, 9 # 4, 1%Z, (-1)%Z); (0%nat, 7 # 4, 1%Z, (-1)%Z)]
              eq_refl eq_refl eq_refl eq_refl
              ltac:(repeat constructor) ltac:(repeat constructor)) as (_ & H & _).
  rewrite !H. repeat split; vm_compute; reflexivity.
Defined.
(* ================================================================== *)
(** ** Removal of entries from a sparse vector *)
(* ================================================================== *)

Lemma Permutation_filter (A : Type) (f : A -> bool) (l l' : list A) :
  Permutation l l' -> Permutation (filter f l) (filter f l').
Proof.
  induction 1 as [|x l l' _ IH|x y l|l l' l'' _ IH1 _ IH2]; simpl.
  - constructor.
  - destruct (f x); [constructor|]; exact IH.
  - destruct (f x), (f y); try apply Permutation_refl. apply perm_swap.
  - exact (Permutation_trans IH1 IH2).
Qed.

Lemma filter_all (A : Type) (f : A -> bool) (l : list A) :
  Forall (fun x => f x = true) l -> filter f l = l.
Proof.
  induction 1 as [|x l Hx _ IH]; simpl; [reflexivity|].
  rewrite Hx, IH. reflexivity.
Qed.

Lemma Permutation_arr_set (A : Type) (d x : A) (l : list A) : forall i : nat,
  (i < length l)%nat -> Permutation (x :: l) (nth i l d :: arr_set l i x).
Proof.
  induction l as [|h t IH]; intros i Hi; simpl in Hi; [lia|].
  destruct i as [|i]; simpl.
  - apply perm_swap.
  - apply Permutation_trans with (h :: x :: t); [apply perm_swap|].
    apply Permutation_trans with (h :: nth i t d :: arr_set t i x); [|apply perm_swap].
    apply perm_skip. apply IH. lia.
Qed.

(** the entry that [arr_remove] takes out, and what is left of the array *)
Lemma Permutation_arr_remove (A : Type) (d : A) (l : list A) (i : nat) :
  (i < length l)%nat -> Permutation l (nth i l d :: arr_remove l i).
Proof.
  destruct l as [|x l _] using rev_ind; intros Hi; [simpl in Hi; lia|].
  rewrite arr_remove_snoc. rewrite length_app in Hi. simpl in Hi.
  apply Permutation_trans with (x :: l).
  { apply Permutation_sym. apply Permutation_cons_append. }
  destruct (Nat.eq_dec i (length l)) as [->|Hne].
  - rewrite app_nth2 by lia. rewrite Nat.sub_diag. simpl.
    rewrite arr_set_beyond by lia. apply Permutation_refl.
  - rewrite app_nth1 by lia. apply Permutation_arr_set. lia.
Qed.

Lemma combine_arr_set (A B : Type) (a : list A) : forall (b : list B) (i : nat) (x : A) (y : B),
  combine (arr_set a i x) (arr_set b i y) = arr_set (combine a b) i (x, y).
Proof.
  induction a as [|h t IH]; intros b i x y; [reflexivity|].
  destruct b as [|hb tb]; [destruct i; reflexivity|].
  destruct i as [|i]; simpl; [reflexivity|]. rewrite IH. reflexivity.
Qed.

Lemma combine_snoc (A B : Type) (a : list A) (b : list B) (x : A) (y : B) :
  length a = length b -> combine (a ++ [x]) (b ++ [y]) = combine a b ++ [(x, y)].
Proof.
  revert b. induction a as [|h t IH]; intros [|hb tb] H; simpl in H; try discriminate.
  - reflexivity.
  - simpl. rewrite IH by lia. reflexivity.
Qed.

Lemma combine_arr_remove (A B : Type) (a : list A) (b : list B) (i : nat) :
  length a = length b ->
  combine (arr_remove a i) (arr_remove b i) = arr_remove (combine a b) i.
Proof.
  intros H.
  destruct a as [|x a _] using rev_ind.
  - destruct b; [reflexivity|discriminate].
  - destruct b as [|y b _] using rev_ind.
    + rewrite length_app in H. simpl in H. lia.
    + rewrite !length_app in H. simpl in H.
      rewrite combine_snoc by lia. rewrite !arr_remove_snoc.
      apply combine_arr_set.
Qed.

Lemma firstn_arr_remove (A : Type) (l : list A) (k : nat) :
  (k < length l)%nat -> firstn k (arr_remove l k) = firstn k l.
Proof.
  destruct l as [|x l _] using rev_ind; intros Hk; [simpl in Hk; lia|].
  rewrite arr_remove_snoc. rewrite length_app in Hk. simpl in Hk.
  rewrite firstn_arr_set by lia. rewrite firstn_app.
  replace (k - length l)%nat with 0%nat by lia. simpl. rewrite app_nil_r. reflexivity.
Qed.

Lemma firstn_snoc_nth (A : Type) (d : A) (l : list A) : forall k : nat,
  (k < length l)%nat -> firstn (S k) l = firstn k l ++ [nth k l d].
Proof.
  induction l as [|h t IH]; intros k Hk; simpl in Hk; [lia|].
  destruct k as [|k]; [reflexivity|].
  change (firstn (S (S k)) (h :: t)) with (h :: firstn (S k) t).
  rewrite (IH k) by lia. reflexivity.
Qed.

(** the loop that removes zeros keeps, up to their order, exactly the
    entries that are not zero *)
Lemma removeZeroEntries_perm (iszero : Q -> bool) (fuel : nat) :
  forall (k : nat) (vals : list Q) (inds : list nat),
    length vals = length inds ->
    (fuel + k = length inds)%nat ->
    Forall (fun v => iszero v = false) (firstn k vals) ->
    let r := removeZeroEntries iszero fuel k vals inds in
    length (fst r) = length (snd r) /\
    Permutation (combine (snd r) (fst r)) (keptEntries iszero inds vals).
Proof.
  induction fuel as [|fuel IH]; intros k vals inds Hlen Hfuel Hpre; simpl.
  - split; [exact Hlen|].
    unfold keptEntries. rewrite filter_all; [apply Permutation_refl|].
    rewrite firstn_all2 in Hpre by lia.
    clear Hfuel. revert vals Hlen Hpre.
    induction inds as [|j inds IHi]; intros [|v vals] Hlen Hpre; simpl in *;
      try discriminate; constructor.
    + inversion Hpre; subst. simpl. rewrite H1. reflexivity.
    + apply IHi; [lia|]. inversion Hpre; assumption.
  - destruct (iszero (arr_get vals k)) eqn:Ez.
    + assert (Hk : (k < length inds)%nat) by lia.
      destruct (IH k (arr_remove vals k) (arr_remove inds k)) as [L P].
      * rewrite !length_arr_remove. lia.
      * rewrite length_arr_remove. lia.
      * rewrite firstn_arr_remove by lia. exact Hpre.
      * split; [exact L|].
        apply (Permutation_trans P). unfold keptEntries.
        rewrite combine_arr_remove by lia.
        pose proof (Permutation_arr_remove _ (O, 0) (combine inds vals) k) as Hp.
        rewrite length_combine in Hp. rewrite Hlen, Nat.min_id in Hp.
        specialize (Hp Hk).
        apply (Permutation_filter _ (fun e => negb (iszero (snd e)))) in Hp.
        simpl in Hp. rewrite combine_nth in Hp by lia. simpl in Hp.
        unfold arr_get in Ez. rewrite Ez in Hp. simpl in Hp.
        apply Permutation_sym. exact Hp.
    + apply IH; [exact Hlen|lia|].
      rewrite (firstn_snoc_nth _ 0) by lia.
      apply Forall_app. split; [exact Hpre|].
      constructor; [exact Ez|constructor].
Qed.

(* ================================================================== *)
(** ** The aggregation row: further properties *)
(* ================================================================== *)

(** X1.  [SCIPaggrRowRemoveZeros] keeps, up to their order, exactly the
    entries of the aggregation row whose value is larger than [epsilon] in
    absolute value; everything else of the aggregation row is left as it
    is. *)
Theorem SCIPaggrRowRemoveZeros_keeps_nonzeros (aggrrow : SCIP_AGGRROW) (epsilon : Q) :
  length (vals aggrrow) = length (inds aggrrow) ->
  let r := SCIPaggrRowRemoveZeros aggrrow epsilon in
  Permutation (combine (inds r) (vals r))
              (keptEntries (fun v => EPSZ v epsilon) (inds aggrrow) (vals aggrrow)) /\
  length (vals r) = length (inds r) /\
  rhs r = rhs aggrrow /\ rowsinds r = rowsinds aggrrow /\
  slacksign r = slacksign aggrrow /\ rowweights r = rowweights aggrrow /\
  rank r = rank aggrrow /\ local r = local aggrrow.
Proof.
  intros Hlen. unfold SCIPaggrRowRemoveZeros.
  pose proof (removeZeroEntries_perm (fun v => EPSZ v epsilon) (nnz aggrrow) 0
                (vals aggrrow) (inds aggrrow) Hlen ltac:(unfold nnz; lia)
                ltac:(constructor)) as [L P].
  destruct (removeZeroEntries (fun v => EPSZ v epsilon) (nnz aggrrow) 0
              (vals aggrrow) (inds aggrrow)) as [vals' inds'].
  simpl in *. repeat split; assumption.
Qed.

Lemma SCIPaggrRowRemoveZeros_keeps_nonzeros_witness :
  let a := mkAggrRow [1; 0; 2] [0%nat; 1%nat; 2%nat] 3 [] [] [] 0%Z false in
  length (vals a) = length (inds a) /\
  Permutation (combine (inds (SCIPaggrRowRemoveZeros a (1 # 1000)))
                       (vals (SCIPaggrRowRemoveZeros a (1 # 1000))))
              (keptEntries (fun v => EPSZ v (1 # 1000)) (inds a) (vals a)).
Proof.
  intros a.
  assert (H : length (vals a) = length (inds a)) by reflexivity.
  split; [exact H|].
  exact (proj1 (SCIPaggrRowRemoveZeros_keeps_nonzeros a (1 # 1000) H)).
Defined.

Lemma hasRowLoop_In (rowind : Z) (rowsinds : list Z) :
  hasRowLoop rowsinds rowind = true <-> In rowind rowsinds.
Proof.
  induction rowsinds as [|r rs IH]; simpl.
  - split; [discriminate|intros []].
  - destruct (Z.eqb_spec r rowind) as [->|Hne].
    + split; [intros _; left; reflexivity|reflexivity].
    + rewrite IH. split; [intros H; right; exact H|intros [H|H]; [contradiction|exact H]].
Qed.

Lemma hasRowLoop_app (rowind : Z) (l1 l2 : list Z) :
  hasRowLoop (l1 ++ l2) rowind = hasRowLoop l1 rowind || hasRowLoop l2 rowind.
Proof.
  induction l1 as [|r rs IH]; simpl; [reflexivity|].
  destruct (r =? rowind)%Z; [reflexivity|exact IH].
Qed.

(** X2.  A row counts as added to an aggregation row exactly if its LP
    position is among the recorded ones: no row has been added to a cleared
    aggregation row, and after [SCIPaggrRowAddRow] the added row and every
    row with the same LP position count as added, while the answer for all
    other rows is unchanged. *)
Theorem SCIPaggrRowHasRowBeenAdded_AddRow :
  (forall (aggrrow : SCIP_AGGRROW) (row : SCIP_ROW),
      SCIPaggrRowHasRowBeenAdded aggrrow row = true <->
      In (row_lppos row) (rowsinds aggrrow)) /\
  (forall (aggrrow : SCIP_AGGRROW) (row : SCIP_ROW),
      SCIPaggrRowHasRowBeenAdded (SCIPaggrRowClear aggrrow) row = false) /\
  (forall (set : SCIP_SET) (aggrrow : SCIP_AGGRROW) (row : SCIP_ROW) (scale : Q)
          (sidetype : Z) (row' : SCIP_ROW),
      SCIPaggrRowHasRowBeenAdded (SCIPaggrRowAddRow set aggrrow row scale sidetype) row' =
      SCIPaggrRowHasRowBeenAdded aggrrow row' || (row_lppos row =? row_lppos row')%Z).
Proof.
  split; [|split].
  - intros aggrrow row. apply hasRowLoop_In.
  - reflexivity.
  - intros set aggrrow row scale sidetype row'.
    unfold SCIPaggrRowHasRowBeenAdded, SCIPaggrRowAddRow.
    destruct (varVecAddScaledRowCoefs (inds aggrrow) (vals aggrrow) row scale) as [i v].
    cbn [rowsinds]. rewrite hasRowLoop_app. simpl.
    destruct (row_lppos row =? row_lppos row')%Z; reflexivity.
Qed.

Lemma absWeightRangeLoop_spec (ws : list Q) : forall (mn mx mn' mx' : Q),
  mn <= mx ->
  absWeightRangeLoop ws mn mx = (mn', mx') ->
  mn' <= mn /\ mx <= mx' /\
  (forall w, In w ws -> mn' <= REALABS w /\ REALABS w <= mx') /\
  (mn' = mn \/ In mn' (map REALABS ws)) /\
  (mx' = mx \/ In mx' (map REALABS ws)).
Proof.
  induction ws as [|w ws IH]; intros mn mx mn' mx' Hle Hrun; simpl in Hrun.
  - injection Hrun as <- <-.
    split; [apply Qle_refl|]. split; [apply Qle_refl|]. split; [intros ? []|].
    split; left; reflexivity.
  - destruct (Qlt_bool (REALABS w) mn) eqn:E1.
    + apply Qlt_bool_iff in E1.
      destruct (IH (REALABS w) mx mn' mx' ltac:(lra) Hrun) as (A & B & C & D & E).
      split; [lra|]. split; [exact B|].
      split; [|split].
      * intros w' [<-|Hin]; [lra|apply C; exact Hin].
      * right. destruct D as [->|D]; [left; reflexivity|right; exact D].
      * destruct E as [E|E]; [left; exact E|right; right; exact E].
    + apply Qlt_bool_false_iff in E1.
      destruct (Qlt_bool mx (REALABS w)) eqn:E2.
      * apply Qlt_bool_iff in E2.
        destruct (IH mn (REALABS w) mn' mx' ltac:(lra) Hrun) as (A & B & C & D & E).
        split; [exact A|]. split; [lra|].
        split; [|split].
        -- intros w' [<-|Hin]; [lra|apply C; exact Hin].
        -- destruct D as [D|D]; [left; exact D|right; right; exact D].
        -- right. destruct E as [->|E]; [left; reflexivity|right; exact E].
      * apply Qlt_bool_false_iff in E2.
        destruct (IH _ _ _ _ Hle Hrun) as (A & B & C & D & E).
        split; [exact A|]. split; [exact B|].
        split; [|split].
        -- intros w' [<-|Hin]; [lra|apply C; exact Hin].
        -- destruct D as [D|D]; [left; exact D|right; right; exact D].
        -- destruct E as [E|E]; [left; exact E|right; right; exact E].
Qed.

(** X3.  [SCIPaggrRowGetAbsWeightRange] returns the smallest and the
    largest absolute value among the recorded row weights: every weight
    lies between the two in absolute value, and both are the absolute value
    of a recorded weight. *)
Theorem SCIPaggrRowGetAbsWeightRange_bounds (aggrrow : SCIP_AGGRROW)
        (minabsrowweight maxabsrowweight : Q) :
  SCIPaggrRowGetAbsWeightRange aggrrow = Some (minabsrowweight, maxabsrowweight) ->
  (forall w, In w (rowweights aggrrow) ->
             minabsrowweight <= REALABS w /\ REALABS w <= maxabsrowweight) /\
  In minabsrowweight (map REALABS (rowweights aggrrow)) /\
  In maxabsrowweight (map REALABS (rowweights aggrrow)).
Proof.
  unfold SCIPaggrRowGetAbsWeightRange.
  destruct (rowweights aggrrow) as [|w0 ws]; [discriminate|].
  intros H. injection H as H.
  destruct (absWeightRangeLoop_spec ws _ _ _ _ (Qle_refl _) H) as (A & B & C & D & E).
  split; [|split].
  - intros w [<-|Hin]; [split; assumption|apply C; exact Hin].
  - simpl. destruct D as [->|D]; [left; reflexivity|right; exact D].
  - simpl. destruct E as [->|E]; [left; reflexivity|right; exact E].
Qed.

Lemma SCIPaggrRowGetAbsWeightRange_bounds_witness :
  let a := mkAggrRow [] [] 0 [0%Z; 1%Z; 2%Z] [1%Z; 1%Z; 1%Z] [2; - (3); 1] 0%Z false in
  SCIPaggrRowGetAbsWeightRange a = Some (1, 3) /\
  (forall w, In w (rowweights a) -> 1 <= REALABS w /\ REALABS w <= 3).
Proof.
  intros a.
  assert (H : SCIPaggrRowGetAbsWeightRange a = Some (1, 3)) by reflexivity.
  split; [exact H|].
  exact (proj1 (SCIPaggrRowGetAbsWeightRange_bounds a 1 3 H)).
Defined.
(* ================================================================== *)
(** ** The summation of rows: what is recorded *)
(* ================================================================== *)

Lemma MIN_le_l (x y : Q) : MIN x y <= x.
Proof.
  unfold MIN. destruct (Qle_bool x y) eqn:E; [apply Qle_refl|].
  apply Qle_bool_false_iff in E. apply Qlt_le_weak. exact E.
Qed.

Lemma MIN_le_r (x y : Q) : MIN x y <= y.
Proof.
  unfold MIN. destruct (Qle_bool x y) eqn:E; [|apply Qle_refl].
  apply Qle_bool_iff in E. exact E.
Qed.

Lemma MIN_cases (x y : Q) : MIN x y = x \/ MIN x y = y.
Proof. unfold MIN. destruct (Qle_bool x y); [left|right]; reflexivity. Qed.

(** one call of [addOneRow]: the row is skipped, or it is recorded with its
    weight and a slack sign and enters the sum *)
Lemma addOneRow_cases (set : SCIP_SET) (st : SUMSTATE) (row : SCIP_ROW) (weight : Q)
      (maxweightrange minallowedweight : Q) (sidetypebasis allowlocal : bool)
      (negslack : Z) (maxaggrlen : nat) :
  sum_inv st ->
  let st' := addOneRow set st row weight maxweightrange minallowedweight
                       sidetypebasis allowlocal negslack maxaggrlen in
  let a := ss_aggrrow st in
  let a' := ss_aggrrow st' in
  ((ss_minabsweight st' = ss_minabsweight st /\
    ss_maxabsweight st' = ss_maxabsweight st) \/
   (ss_minabsweight st' = MIN (ss_minabsweight st) (REALABS weight) /\
    ss_maxabsweight st' = MAX (ss_maxabsweight st) (REALABS weight) /\
    REALABS weight <= maxweightrange * ss_minabsweight st /\
    ss_maxabsweight st <= maxweightrange * REALABS weight)) /\
  (a' = a \/
   exists s : Z,
     rowsinds a' = rowsinds a ++ [row_lppos row] /\
     slacksign a' = slacksign a ++ [s] /\
     rowweights a' = rowweights a ++ [weight] /\
     rhs a' = rhs a + row_sideval set row s * weight /\
     local a' = local a || row_local row /\
     rank a' = Z.max (rank a) (row_rank row) /\
     (forall j, coefOf (inds a') (vals a') j ==
                coefOf (inds a) (vals a) j +
                weight * coefOf (row_cols row) (row_vals row) j) /\
     row_used_ok set minallowedweight sidetypebasis allowlocal negslack row s weight /\
     ss_minabsweight st' <= REALABS weight /\
     REALABS weight <= ss_maxabsweight st').
Proof.
  intros Hinv. unfold addOneRow.
  destruct (row_modifiable row
            || (row_local row && negb allowlocal)
            || Qlt_bool (maxweightrange * ss_minabsweight st) (REALABS weight)
            || Qlt_bool (maxweightrange * REALABS weight) (ss_maxabsweight st)
            || Qlt_bool (REALABS weight) minallowedweight) eqn:Eskip.
  { simpl. split; [left; split; reflexivity|left; reflexivity]. }
  apply orb_false_iff in Eskip. destruct Eskip as [Eskip E5].
  apply orb_false_iff in Eskip. destruct Eskip as [Eskip E4].
  apply orb_false_iff in Eskip. destruct Eskip as [Eskip E3].
  apply orb_false_iff in Eskip. destruct Eskip as [E1 E2].
  apply Qlt_bool_false_iff in E3, E4, E5.
  assert (Hloc : row_local row = true -> allowlocal = true).
  { intros Hl. rewrite Hl in E2. destruct allowlocal; [reflexivity|discriminate]. }
  set (neglhs := Qlt_bool weight 0 && negb (SCIPisInfinity set (- row_lhs row))).
  set (uselhs := if sidetypebasis && negb (SCIPisEQ set (row_lhs row) (row_rhs row))
                 then match row_basisstatus row with
                      | SCIP_BASESTAT_LOWER => true
                      | SCIP_BASESTAT_UPPER => false
                      | _ => neglhs
                      end
                 else neglhs).
  set (noslack := (negslack =? 0)%Z || ((negslack =? 1)%Z && negb (row_integral row))).
  destruct (if uselhs then Qlt_bool 0 weight && noslack else Qlt_bool weight 0 && noslack)
    eqn:Eneg.
  { simpl. split; [right; repeat split; assumption|left; reflexivity]. }
  destruct Hinv as (Hnd & Hlen & Hok).
  destruct (addCoefs (row_cols row) (row_vals row) weight (vals (ss_aggrrow st))
                     (inds (ss_aggrrow st)) (ss_varpos st)) as [[vals' inds'] vp'] eqn:E.
  destruct (addCoefs_spec _ _ _ _ _ _ _ _ _ Hnd Hlen Hok E) as (_ & _ & _ & _ & Hc).
  simpl. split; [right; repeat split; assumption|].
  right. exists (if uselhs then (-1)%Z else 1%Z).
  split; [reflexivity|]. split; [reflexivity|]. split; [reflexivity|].
  split.
  { unfold row_sideval, row_sideval_lhs, row_sideval_rhs.
    destruct uselhs; reflexivity. }
  split; [reflexivity|]. split; [reflexivity|]. split; [exact Hc|].
  split.
  - unfold row_used_ok.
    split; [exact E1|]. split; [exact Hloc|]. split; [exact E5|].
    split; [destruct uselhs; [right|left]; reflexivity|].
    split.
    + fold noslack. intros Hns. rewrite Hns in Eneg.
      rewrite !andb_true_r in Eneg.
      destruct uselhs.
      * apply Qlt_bool_false_iff in Eneg.
        split; [intros _; exact Eneg|discriminate].
      * apply Qlt_bool_false_iff in Eneg.
        split; [discriminate|intros _; exact Eneg].
    + intros Hstb. unfold uselhs. rewrite Hstb. simpl.
      unfold neglhs.
      destruct (Qlt_bool weight 0) eqn:Ew; simpl.
      * apply Qlt_bool_iff in Ew.
        destruct (SCIPisInfinity set (- row_lhs row)); simpl.
        -- split; [discriminate|intros [_ H]; discriminate].
        -- split; [intros _; split; [exact Ew|reflexivity]|reflexivity].
      * apply Qlt_bool_false_iff in Ew.
        split; [discriminate|].
        intros [Hw _]. exfalso. apply (Qlt_not_le _ _ Hw Ew).
  - split; [apply MIN_le_r|apply MAX_ge_r].
Qed.

Lemma Forall_snoc (A : Type) (P : A -> Prop) (l : list A) (x : A) :
  Forall P l -> P x -> Forall P (l ++ [x]).
Proof.
  intros Hl Hx. apply Forall_app. split; [exact Hl|]. constructor; [exact Hx|constructor].
Qed.

(** the eligibility of the recorded rows, the lengths of the three arrays
    and the local flag along the summation loop *)
Lemma sumLoop_records (set : SCIP_SET) (rows : list SCIP_ROW) (weights : list Q)
      (maxweightrange minallowedweight : Q) (sidetypebasis allowlocal : bool)
      (negslack : Z) (maxaggrlen : nat) (allks : list nat) (ks : list nat) :
  forall st : SUMSTATE,
    incl ks allks ->
    sum_inv st ->
    rows_inv (ss_aggrrow st) ->
    Forall (record_eligible set rows weights allks minallowedweight
                            sidetypebasis allowlocal negslack)
           (rowRecords (ss_aggrrow st)) ->
    (local (ss_aggrrow st) = true -> allowlocal = true) ->
    let st' := sumLoop set rows weights ks st maxweightrange minallowedweight
                       sidetypebasis allowlocal negslack maxaggrlen in
    rows_inv (ss_aggrrow st') /\
    Forall (record_eligible set rows weights allks minallowedweight
                            sidetypebasis allowlocal negslack)
           (rowRecords (ss_aggrrow st')) /\
    (local (ss_aggrrow st') = true -> allowlocal = true).
Proof.
  induction ks as [|k ks IH]; intros st Hincl Hinv Hrows Hrec Hloc; simpl.
  - repeat split; try assumption; apply Hrows.
  - destruct (nth_error rows k) as [row|] eqn:Erow;
      [|repeat split; try assumption; apply Hrows].
    pose proof (addOneRow_spec set st row (arr_get weights k) maxweightrange
                  minallowedweight sidetypebasis allowlocal negslack maxaggrlen Hinv)
      as (I & _ & _ & _).
    pose proof (addOneRow_cases set st row (arr_get weights k) maxweightrange
                  minallowedweight sidetypebasis allowlocal negslack maxaggrlen Hinv)
      as (_ & Hcase).
    set (st1 := addOneRow set st row (arr_get weights k) maxweightrange
                  minallowedweight sidetypebasis allowlocal negslack maxaggrlen) in *.
    assert (H1 : rows_inv (ss_aggrrow st1) /\
                 Forall (record_eligible set rows weights allks minallowedweight
                                         sidetypebasis allowlocal negslack)
                        (rowRecords (ss_aggrrow st1)) /\
                 (local (ss_aggrrow st1) = true -> allowlocal = true)).
    { destruct Hcase as [->|[s (Ri & Ss & Rw & _ & Lo & _ & _ & Hok & _)]].
      - repeat split; try assumption; apply Hrows.
      - destruct Hrows as [L1 L2].
        split; [split; rewrite ?Ri, ?Ss, ?Rw, !length_app; simpl; lia|].
        split.
        + unfold rowRecords. rewrite Ri, Ss, Rw.
          rewrite (combine_snoc _ _ (slacksign (ss_aggrrow st))) by lia.
          rewrite combine_snoc by (rewrite length_combine; lia).
          apply Forall_snoc; [exact Hrec|].
          exists k, row. simpl.
          split; [apply Hincl; left; reflexivity|].
          split; [exact Erow|]. split; [reflexivity|]. split; [reflexivity|exact Hok].
        + rewrite Lo. intros H. apply orb_true_iff in H. destruct H as [H|H].
          * exact (Hloc H).
          * destruct Hok as (_ & Hl & _). exact (Hl H). }
    destruct H1 as (R1 & F1 & L1).
    destruct (ss_rowtoolong st1); [repeat split; try assumption; apply R1|].
    apply IH; try assumption.
    intros x Hx. apply Hincl. right. exact Hx.
Qed.

(** X4.  Every row that [SCIPaggrRowSumRows] records in the aggregation
    row is one of the LP rows it was asked to sum, with the weight given
    for it; the row is not modifiable, it is local only if local rows are
    allowed, its weight is not below [minallowedweight] in absolute value,
    its slack sign is +1 or -1 and complies with [negslack], and without
    basis information the left hand side is used exactly for a negative
    weight on a row with finite left hand side.  The three arrays of the
    recorded rows have equal length, and the aggregation is local only if
    local rows are allowed. *)
Theorem SCIPaggrRowSumRows_uses_eligible_rows (set : SCIP_SET) (aggrrow : SCIP_AGGRROW)
        (rows : list SCIP_ROW) (weights : list Q) (rowinds : option (list nat))
        (maxweightrange minallowedweight : Q) (sidetypebasis allowlocal : bool)
        (negslack : Z) (maxaggrlen : nat) :
  let a := fst (SCIPaggrRowSumRows set aggrrow rows weights rowinds maxweightrange
                  minallowedweight sidetypebasis allowlocal negslack maxaggrlen) in
  rows_inv a /\
  Forall (record_eligible set rows weights (summedRows rows rowinds) minallowedweight
                          sidetypebasis allowlocal negslack)
         (rowRecords a) /\
  (local a = true -> allowlocal = true).
Proof.
  unfold SCIPaggrRowSumRows. fold (summedRows rows rowinds).
  pose proof (sumLoop_records set rows weights maxweightrange minallowedweight
                sidetypebasis allowlocal negslack maxaggrlen
                (summedRows rows rowinds) (summedRows rows rowinds)
                (mkSumState (SCIPaggrRowClear aggrrow) (SCIPinfinity set)
                            (- SCIPinfinity set) cleanbuf false)
                (incl_refl _) (sum_inv_init set aggrrow)
                ltac:(split; reflexivity) ltac:(constructor) ltac:(discriminate))
    as (R & F & L).
  set (st := sumLoop set rows weights (summedRows rows rowinds) _ maxweightrange
               minallowedweight sidetypebasis allowlocal negslack maxaggrlen) in *.
  destruct (if ss_rowtoolong st then false else (0 <? nnz (ss_aggrrow st))%nat).
  - destruct (removeZeroEntries (SCIPisZero set) (nnz (ss_aggrrow st)) 0
                (vals (ss_aggrrow st)) (inds (ss_aggrrow st))) as [vals' inds'].
    simpl. split; [exact R|]. split; [exact F|exact L].
  - simpl. split; [exact R|]. split; [exact F|exact L].
Qed.

Lemma SCIPaggrRowGetAbsWeightRange_attained (aggrrow : SCIP_AGGRROW) (mn mx : Q) :
  SCIPaggrRowGetAbsWeightRange aggrrow = Some (mn, mx) ->
  In mn (map REALABS (rowweights aggrrow)) /\ In mx (map REALABS (rowweights aggrrow)).
Proof.
  unfold SCIPaggrRowGetAbsWeightRange.
  destruct (rowweights aggrrow) as [|w0 ws]; [discriminate|].
  intros H. injection H as H.
  destruct (absWeightRangeLoop_spec ws _ _ _ _ (Qle_refl _) H) as (_ & _ & _ & D & E).
  split; simpl.
  - destruct D as [->|D]; [left; reflexivity|right; exact D].
  - destruct E as [->|E]; [left; reflexivity|right; exact E].
Qed.

(** the weights of the recorded rows stay within the bounds that the
    summation keeps, and the bounds within the allowed range *)
Lemma sumLoop_range (set : SCIP_SET) (rows : list SCIP_ROW) (weights : list Q)
      (maxweightrange minallowedweight : Q) (sidetypebasis allowlocal : bool)
      (negslack : Z) (maxaggrlen : nat) (ks : list nat) :
  1 <= maxweightrange ->
  forall st : SUMSTATE,
    sum_inv st ->
    (forall w, In w (rowweights (ss_aggrrow st)) ->
               ss_minabsweight st <= REALABS w /\ REALABS w <= ss_maxabsweight st) ->
    ss_maxabsweight st <= maxweightrange * ss_minabsweight st ->
    let st' := sumLoop set rows weights ks st maxweightrange minallowedweight
                       sidetypebasis allowlocal negslack maxaggrlen in
    (forall w, In w (rowweights (ss_aggrrow st')) ->
               ss_minabsweight st' <= REALABS w /\ REALABS w <= ss_maxabsweight st') /\
    ss_maxabsweight st' <= maxweightrange * ss_minabsweight st'.
Proof.
  intros HR.
  induction ks as [|k ks IH]; intros st Hinv Hw Hrange; simpl.
  - split; assumption.
  - destruct (nth_error rows k) as [row|] eqn:Erow; [|split; assumption].
    pose proof (addOneRow_spec set st row (arr_get weights k) maxweightrange
                  minallowedweight sidetypebasis allowlocal negslack maxaggrlen Hinv)
      as (I & _ & _ & _).
    pose proof (addOneRow_cases set st row (arr_get weights k) maxweightrange
                  minallowedweight sidetypebasis allowlocal negslack maxaggrlen Hinv)
      as (Hmm & Hcase).
    set (st1 := addOneRow set st row (arr_get weights k) maxweightrange
                  minallowedweight sidetypebasis allowlocal negslack maxaggrlen) in *.
    set (aw := REALABS (arr_get weights k)) in *.
    assert (Haw : 0 <= aw) by apply Qabs_nonneg.
    assert (Hmono : ss_minabsweight st1 <= ss_minabsweight st /\
                    ss_maxabsweight st <= ss_maxabsweight st1).
    { destruct Hmm as [[-> ->]|(-> & -> & _)].
      - split; apply Qle_refl.
      - split; [apply MIN_le_l|apply MAX_ge_l]. }
    assert (H1 : (forall w, In w (rowweights (ss_aggrrow st1)) ->
                    ss_minabsweight st1 <= REALABS w /\
                    REALABS w <= ss_maxabsweight st1) /\
                 ss_maxabsweight st1 <= maxweightrange * ss_minabsweight st1).
    { split.
      - destruct Hcase as [->|[s (_ & _ & Rw & _ & _ & _ & _ & _ & B1 & B2)]].
        + intros w Hin. destruct (Hw w Hin). split; lra.
        + rewrite Rw. intros w Hin. apply in_app_or in Hin.
          destruct Hin as [Hin|[<-|[]]].
          * destruct (Hw w Hin). split; lra.
          * split; assumption.
      - destruct Hmm as [[-> ->]|(-> & -> & A1 & A2)]; [exact Hrange|].
        destruct (MAX_cases (ss_maxabsweight st) aw) as [->| ->];
          destruct (MIN_cases (ss_minabsweight st) aw) as [->| ->]; try assumption.
        assert (H : 0 <= (maxweightrange - 1) * aw)
          by (apply Qmult_le_0_compat; lra).
        lra. }
    destruct H1 as [W1 R1].
    destruct (ss_rowtoolong st1); [split; assumption|].
    apply IH; assumption.
Qed.

(** X5.  The weights of the rows that [SCIPaggrRowSumRows] records respect
    [maxweightrange]: the largest absolute weight is at most
    [maxweightrange] times the smallest one, as reported by
    [SCIPaggrRowGetAbsWeightRange]. *)
Theorem SCIPaggrRowSumRows_weight_range (set : SCIP_SET) (aggrrow : SCIP_AGGRROW)
        (rows : list SCIP_ROW) (weights : list Q) (rowinds : option (list nat))
        (maxweightrange minallowedweight : Q) (sidetypebasis allowlocal : bool)
        (negslack : Z) (maxaggrlen : nat) (minabsrowweight maxabsrowweight : Q) :
  1 <= maxweightrange ->
  0 <= num_infinity set ->
  SCIPaggrRowGetAbsWeightRange
    (fst (SCIPaggrRowSumRows set aggrrow rows weights rowinds maxweightrange
            minallowedweight sidetypebasis allowlocal negslack maxaggrlen))
  = Some (minabsrowweight, maxabsrowweight) ->
  maxabsrowweight <= maxweightrange * minabsrowweight.
Proof.
  intros HR Hinf Hget.
  apply SCIPaggrRowGetAbsWeightRange_attained in Hget.
  revert Hget. unfold SCIPaggrRowSumRows. fold (summedRows rows rowinds).
  pose proof (sumLoop_range set rows weights maxweightrange minallowedweight
                sidetypebasis allowlocal negslack maxaggrlen
                (summedRows rows rowinds) HR
                (mkSumState (SCIPaggrRowClear aggrrow) (SCIPinfinity set)
                            (- SCIPinfinity set) cleanbuf false)
                (sum_inv_init set aggrrow)) as H.
  cbn [ss_aggrrow ss_minabsweight ss_maxabsweight SCIPaggrRowClear rowweights] in H.
  specialize (H ltac:(intros w []) ).
  assert (H0 : - SCIPinfinity set <= maxweightrange * SCIPinfinity set).
  { unfold SCIPinfinity.
    assert (0 <= maxweightrange * num_infinity set) by (apply Qmult_le_0_compat; lra).
    lra. }
  specialize (H H0). destruct H as [W Rg].
  set (st := sumLoop set rows weights (summedRows rows rowinds) _ maxweightrange
               minallowedweight sidetypebasis allowlocal negslack maxaggrlen) in *.
  assert (Hfin : In minabsrowweight (map REALABS (rowweights (ss_aggrrow st))) /\
                 In maxabsrowweight (map REALABS (rowweights (ss_aggrrow st))) ->
                 maxabsrowweight <= maxweightrange * minabsrowweight).
  { intros [Hmn Hmx].
    apply in_map_iff in Hmn. destruct Hmn as [w1 [<- Hw1]].
    apply in_map_iff in Hmx. destruct Hmx as [w2 [<- Hw2]].
    destruct (W w1 Hw1) as [A1 _]. destruct (W w2 Hw2) as [_ B2].
    assert (H : 0 <= (maxweightrange - 0) * (REALABS w1 - ss_minabsweight st))
      by (apply Qmult_le_0_compat; lra).
    lra. }
  destruct (if ss_rowtoolong st then false else (0 <? nnz (ss_aggrrow st))%nat).
  - destruct (removeZeroEntries (SCIPisZero set) (nnz (ss_aggrrow st)) 0
                (vals (ss_aggrrow st)) (inds (ss_aggrrow st))) as [vals' inds'].
    simpl. exact Hfin.
  - simpl. exact Hfin.
Qed.

Lemma SCIPaggrRowSumRows_weight_range_witness :
  let a := fst (SCIPaggrRowSumRows SCIP_DEFAULT_SET SCIPaggrRowCreate
                  [example_ranged_row; example_two_col_row] [1; - (2)] None
                  10 0 false false 2 10) in
  1 <= 10 /\ 0 <= num_infinity SCIP_DEFAULT_SET /\
  SCIPaggrRowGetAbsWeightRange a = Some (1, 2) /\
  2 <= 10 * 1.
Proof.
  intros a.
  assert (H1 : 1 <= 10) by (unfold Qle; simpl; lia).
  assert (H2 : 0 <= num_infinity SCIP_DEFAULT_SET) by (unfold Qle; simpl; lia).
  assert (H3 : SCIPaggrRowGetAbsWeightRange a = Some (1, 2)) by reflexivity.
  split; [exact H1|]. split; [exact H2|]. split; [exact H3|].
  exact (SCIPaggrRowSumRows_weight_range SCIP_DEFAULT_SET SCIPaggrRowCreate
           [example_ranged_row; example_two_col_row] [1; - (2)] None
           10 0 false false 2 10 1 2 H1 H2 H3).
Defined.

(* ================================================================== *)
(** ** The summation of rows: the weighted sum *)
(* ================================================================== *)

Lemma weightedCoef_snoc (rows : list SCIP_ROW) (j : nat) (r : Z) (w : Q)
      (rowsinds : list Z) :
  forall rowweights : list Q,
    length rowweights = length rowsinds ->
    weightedCoef rows (rowsinds ++ [r]) (rowweights ++ [w]) j ==
    weightedCoef rows rowsinds rowweights j +
    w * coefOf (row_cols (nth (Z.to_nat r) rows default_row))
               (row_vals (nth (Z.to_nat r) rows default_row)) j.
Proof.
  induction rowsinds as [|r0 ri IH]; intros [|w0 rw] Hlen; simpl in Hlen;
    try discriminate.
  - simpl. ring.
  - cbn [app weightedCoef]. rewrite IH by lia. ring.
Qed.

Lemma weightedSide_snoc (set : SCIP_SET) (rows : list SCIP_ROW) (r s : Z) (w : Q)
      (rowsinds : list Z) :
  forall (slacksign : list Z) (rowweights : list Q),
    length slacksign = length rowsinds ->
    length rowweights = length rowsinds ->
    weightedSide set rows (rowsinds ++ [r]) (slacksign ++ [s]) (rowweights ++ [w]) ==
    weightedSide set rows rowsinds slacksign rowweights +
    row_sideval set (nth (Z.to_nat r) rows default_row) s * w.
Proof.
  induction rowsinds as [|r0 ri IH]; intros [|s0 ss] [|w0 rw] Hl1 Hl2;
    simpl in Hl1, Hl2; try discriminate.
  - simpl. ring.
  - cbn [app weightedSide]. rewrite IH by lia. ring.
Qed.

(** along the summation loop the aggregation row is the weighted sum of
    the rows it records *)
Lemma sumLoop_sums (set : SCIP_SET) (rows : list SCIP_ROW) (weights : list Q)
      (maxweightrange minallowedweight : Q) (sidetypebasis allowlocal : bool)
      (negslack : Z) (maxaggrlen : nat) (ks : list nat) :
  (forall k row, nth_error rows k = Some row -> row_lppos row = Z.of_nat k) ->
  forall st : SUMSTATE,
    sum_inv st ->
    rows_inv (ss_aggrrow st) ->
    rhs (ss_aggrrow st) ==
      weightedSide set rows (rowsinds (ss_aggrrow st)) (slacksign (ss_aggrrow st))
                   (rowweights (ss_aggrrow st)) ->
    (forall j, coefOf (inds (ss_aggrrow st)) (vals (ss_aggrrow st)) j ==
               weightedCoef rows (rowsinds (ss_aggrrow st))
                            (rowweights (ss_aggrrow st)) j) ->
    let st' := sumLoop set rows weights ks st maxweightrange minallowedweight
                       sidetypebasis allowlocal negslack maxaggrlen in
    sum_inv st' /\
    rhs (ss_aggrrow st') ==
      weightedSide set rows (rowsinds (ss_aggrrow st')) (slacksign (ss_aggrrow st'))
                   (rowweights (ss_aggrrow st')) /\
    (forall j, coefOf (inds (ss_aggrrow st')) (vals (ss_aggrrow st')) j ==
               weightedCoef rows (rowsinds (ss_aggrrow st'))
                            (rowweights (ss_aggrrow st')) j).
Proof.
  intros Hlp.
  induction ks as [|k ks IH]; intros st Hinv Hrows Hrhs Hcoef; simpl.
  - split; [exact Hinv|]. split; assumption.
  - destruct (nth_error rows k) as [row|] eqn:Erow;
      [|split; [exact Hinv|]; split; assumption].
    pose proof (addOneRow_spec set st row (arr_get weights k) maxweightrange
                  minallowedweight sidetypebasis allowlocal negslack maxaggrlen Hinv)
      as (I & _ & _ & _).
    pose proof (addOneRow_cases set st row (arr_get weights k) maxweightrange
                  minallowedweight sidetypebasis allowlocal negslack maxaggrlen Hinv)
      as (_ & Hcase).
    set (st1 := addOneRow set st row (arr_get weights k) maxweightrange
                  minallowedweight sidetypebasis allowlocal negslack maxaggrlen) in *.
    assert (Hrow : nth (Z.to_nat (row_lppos row)) rows default_row = row).
    { rewrite (Hlp k row Erow), Nat2Z.id. apply nth_error_nth. exact Erow. }
    assert (H1 : rows_inv (ss_aggrrow st1) /\
                 rhs (ss_aggrrow st1) ==
                   weightedSide set rows (rowsinds (ss_aggrrow st1))
                                (slacksign (ss_aggrrow st1))
                                (rowweights (ss_aggrrow st1)) /\
                 (forall j, coefOf (inds (ss_aggrrow st1)) (vals (ss_aggrrow st1)) j ==
                            weightedCoef rows (rowsinds (ss_aggrrow st1))
                                         (rowweights (ss_aggrrow st1)) j)).
    { destruct Hcase as [->|[s (Ri & Ss & Rw & Rh & _ & _ & Hc & _)]].
      - split; [exact Hrows|]. split; assumption.
      - destruct Hrows as [L1 L2].
        split; [split; rewrite ?Ri, ?Ss, ?Rw, !length_app; simpl; lia|].
        rewrite Ri, Ss, Rw. split.
        + rewrite Rh, weightedSide_snoc by assumption. rewrite Hrow, Hrhs. reflexivity.
        + intros j. rewrite Hc, weightedCoef_snoc by assumption.
          rewrite Hrow, Hcoef. reflexivity. }
    destruct H1 as (R1 & S1 & C1).
    destruct (ss_rowtoolong st1); [split; [exact I|]; split; assumption|].
    apply IH; assumption.
Qed.

Lemma usedCoef_snoc (used : list USEDROW) (row : SCIP_ROW) (s : Z) (w : Q) (j : nat) :
  usedCoef (used ++ [(row, (s, w))]) j
  == usedCoef used j + w * coefOf (row_cols row) (row_vals row) j.
Proof.
  induction used as [|[row0 [s0 w0]] used IH]; cbn [app usedCoef]; [ring|].
  rewrite IH. ring.
Qed.

Lemma usedSide_snoc (set : SCIP_SET) (used : list USEDROW) (row : SCIP_ROW) (s : Z)
      (w : Q) :
  usedSide set (used ++ [(row, (s, w))]) == usedSide set used + row_sideval set row s * w.
Proof.
  induction used as [|[row0 [s0 w0]] used IH]; cbn [app usedSide]; [ring|].
  rewrite IH. ring.
Qed.

(** along the summation loop the aggregation row is the weighted sum of
    the rows that were added *)
Lemma sumLoop_used (set : SCIP_SET) (rows : list SCIP_ROW) (weights : list Q)
      (maxweightrange minallowedweight : Q) (sidetypebasis allowlocal : bool)
      (negslack : Z) (maxaggrlen : nat) (all : list nat) (ks : list nat) :
  incl ks all ->
  forall st : SUMSTATE,
    sum_inv st ->
    (exists used, sums_used set rows weights all (ss_aggrrow st) used) ->
    let st' := sumLoop set rows weights ks st maxweightrange minallowedweight
                       sidetypebasis allowlocal negslack maxaggrlen in
    exists used, sums_used set rows weights all (ss_aggrrow st') used.
Proof.
  induction ks as [|k ks IH]; intros Hincl st Hinv Hused; cbn [sumLoop].
  - exact Hused.
  - destruct (nth_error rows k) as [row|] eqn:Erow; [|exact Hused].
    pose proof (addOneRow_spec set st row (arr_get weights k) maxweightrange
                  minallowedweight sidetypebasis allowlocal negslack maxaggrlen Hinv)
      as (I & _ & _ & _).
    pose proof (addOneRow_cases set st row (arr_get weights k) maxweightrange
                  minallowedweight sidetypebasis allowlocal negslack maxaggrlen Hinv)
      as (_ & Hcase).
    set (st1 := addOneRow set st row (arr_get weights k) maxweightrange
                  minallowedweight sidetypebasis allowlocal negslack maxaggrlen) in *.
    assert (H1 : exists used, sums_used set rows weights all (ss_aggrrow st1) used).
    { destruct Hcase as [->|[s (Ri & Ss & Rw & Rh & _ & _ & Hc & _)]]; [exact Hused|].
      destruct Hused as [used (U1 & U2 & U3 & U4 & U5 & U6)].
      exists (used ++ [(row, (s, arr_get weights k))]).
      unfold sums_used. rewrite Ri, Ss, Rw, !map_app. cbn [map fst snd].
      split; [rewrite U1; reflexivity|].
      split; [rewrite U2; reflexivity|].
      split; [rewrite U3; reflexivity|].
      split.
      { apply Forall_snoc; [exact U4|].
        exists k. split; [apply Hincl; left; reflexivity|].
        split; [exact Erow|reflexivity]. }
      split; [rewrite Rh, usedSide_snoc, U5; reflexivity|].
      intros j. rewrite Hc, usedCoef_snoc, U6. reflexivity. }
    destruct (ss_rowtoolong st1); [exact H1|].
    apply IH; [|exact I|exact H1].
    intros x Hx. apply Hincl. right. exact Hx.
Qed.

(** C6 (as amended).  [SCIPaggrRowSumRows] clears the aggregation row first,
    so its result does not depend on the prior content.  When it reports
    [valid = false], either the coefficient vector is empty, or the
    summation was stopped by a row that made it longer than [maxaggrlen]:
    the row then keeps the partial sum of the rows added so far.  These are
    the rows it records, each one a row that was asked for, with its
    weight; the right hand side is the sum of their weighted sides and the
    coefficient of every variable the sum of its weighted coefficients. *)
Theorem SCIPaggrRowSumRows_invalid (set : SCIP_SET) (aggrrow aggrrow' : SCIP_AGGRROW)
        (rows : list SCIP_ROW) (weights : list Q) (rowinds : option (list nat))
        (maxweightrange minallowedweight : Q) (sidetypebasis allowlocal : bool)
        (negslack : Z) (maxaggrlen : nat) :
  let r := SCIPaggrRowSumRows set aggrrow rows weights rowinds maxweightrange
             minallowedweight sidetypebasis allowlocal negslack maxaggrlen in
  r = SCIPaggrRowSumRows set aggrrow' rows weights rowinds maxweightrange
        minallowedweight sidetypebasis allowlocal negslack maxaggrlen /\
  (snd r = true \/ nnz (fst r) = 0%nat \/
   ((maxaggrlen < nnz (fst r))%nat /\
    exists used : list USEDROW,
      rowsinds (fst r) = map (fun u : USEDROW => row_lppos (fst u)) used /\
      slacksign (fst r) = map (fun u : USEDROW => fst (snd u)) used /\
      rowweights (fst r) = map (fun u : USEDROW => snd (snd u)) used /\
      Forall (fun u : USEDROW =>
                exists k, In k (summedRows rows rowinds) /\
                          nth_error rows k = Some (fst u) /\
                          snd (snd u) = arr_get weights k) used /\
      rhs (fst r) == usedSide set used /\
      (forall j, coefOf (inds (fst r)) (vals (fst r)) j == usedCoef used j))).
Proof.
  intros r. split; [reflexivity|].
  subst r. unfold SCIPaggrRowSumRows. fold (summedRows rows rowinds).
  set (st0 := mkSumState (SCIPaggrRowClear aggrrow) (SCIPinfinity set)
                         (- SCIPinfinity set) cleanbuf false).
  pose proof (sumLoop_spec set rows weights maxweightrange minallowedweight
                sidetypebasis allowlocal negslack maxaggrlen (summedRows rows rowinds)
                st0 (sum_inv_init set aggrrow) ltac:(discriminate)) as [_ T].
  pose proof (sumLoop_used set rows weights maxweightrange minallowedweight
                sidetypebasis allowlocal negslack maxaggrlen (summedRows rows rowinds)
                (summedRows rows rowinds) (incl_refl _) st0 (sum_inv_init set aggrrow)) as U.
  cbv zeta in T, U.
  set (st' := sumLoop set rows weights (summedRows rows rowinds) st0 maxweightrange
                minallowedweight sidetypebasis allowlocal negslack maxaggrlen) in *.
  destruct (ss_rowtoolong st') eqn:El.
  - right. right. cbn [fst snd]. split; [exact (T eq_refl)|].
    apply U. exists []. unfold sums_used. cbn.
    repeat split; try reflexivity. constructor.
  - destruct (0 <? nnz (ss_aggrrow st'))%nat eqn:En.
    + left.
      destruct (removeZeroEntries (SCIPisZero set) (nnz (ss_aggrrow st')) 0
                  (vals (ss_aggrrow st')) (inds (ss_aggrrow st'))) as [v i].
      reflexivity.
    + right. left. cbn [fst snd]. apply Nat.ltb_ge in En. lia.
Qed.

Lemma coefOf_combine (inds : list nat) : forall (vals : list Q) (j : nat),
  coefOf inds vals j =
  coefOf (map fst (combine inds vals)) (map snd (combine inds vals)) j.
Proof.
  induction inds as [|i inds IH]; intros [|v vals] j; simpl; try reflexivity.
  rewrite <- IH. reflexivity.
Qed.

Lemma coefOf_entries_perm (j : nat) (l l' : list (nat * Q)) :
  Permutation l l' ->
  coefOf (map fst l) (map snd l) j == coefOf (map fst l') (map snd l') j.
Proof.
  induction 1 as [|x l l' _ IH|x y l|l l' l'' _ IH1 _ IH2]; simpl.
  - reflexivity.
  - rewrite IH. reflexivity.
  - ring.
  - rewrite IH1. exact IH2.
Qed.

Lemma In_map_fst_filter (f : nat * Q -> bool) (j : nat) (l : list (nat * Q)) :
  In j (map fst (filter f l)) -> In j (map fst l).
Proof.
  intros H. apply in_map_iff in H. destruct H as [e [<- He]].
  apply filter_In in He. apply in_map. apply He.
Qed.

(** the coefficient of a variable after the zeros have been removed *)
Lemma coefOf_entries_filter (iszero : Q -> bool) (j : nat) :
  (forall x y, x == y -> iszero x = iszero y) ->
  forall l : list (nat * Q),
    NoDup (map fst l) ->
    let kept := filter (fun e => negb (iszero (snd e))) l in
    coefOf (map fst kept) (map snd kept) j ==
    if iszero (coefOf (map fst l) (map snd l) j) then 0
    else coefOf (map fst l) (map snd l) j.
Proof.
  intros Hcomp. induction l as [|[i v] l IH]; intros Hnd; simpl.
  - destruct (iszero 0); reflexivity.
  - inversion Hnd as [|? ? Hni Hnd']; subst.
    specialize (IH Hnd'). cbv zeta in IH.
    destruct (Nat.eqb_spec i j) as [->|Hne].
    + assert (Z1 : coefOf (map fst l) (map snd l) j == 0)
        by (apply coefOf_notin; exact Hni).
      assert (Z2 : coefOf (map fst (filter (fun e => negb (iszero (snd e))) l))
                          (map snd (filter (fun e => negb (iszero (snd e))) l)) j == 0).
      { apply coefOf_notin. intros Hin. apply Hni.
        apply In_map_fst_filter in Hin. exact Hin. }
      assert (Ev : iszero (v + coefOf (map fst l) (map snd l) j) = iszero v).
      { apply Hcomp. rewrite Z1. ring. }
      rewrite Ev. destruct (iszero v); simpl.
      * exact Z2.
      * rewrite Nat.eqb_refl, Z1, Z2. reflexivity.
    + assert (Ev : iszero (0 + coefOf (map fst l) (map snd l) j) =
                   iszero (coefOf (map fst l) (map snd l) j)).
      { apply Hcomp. ring. }
      rewrite Ev.
      destruct (iszero v); simpl.
      * rewrite IH. destruct (iszero (coefOf (map fst l) (map snd l) j)); ring.
      * destruct (Nat.eqb_spec i j) as [->|_]; [contradiction|].
        rewrite IH. destruct (iszero (coefOf (map fst l) (map snd l) j)); ring.
Qed.

Lemma map_fst_combine_eq (A B : Type) (a : list A) : forall b : list B,
  length b = length a -> map fst (combine a b) = a.
Proof.
  induction a as [|x a IH]; intros [|y b] H; simpl in H; try discriminate; [reflexivity|].
  simpl. rewrite IH by lia. reflexivity.
Qed.

Lemma SCIPisZero_comp (set : SCIP_SET) (x y : Q) :
  x == y -> SCIPisZero set x = SCIPisZero set y.
Proof.
  intros E. unfold SCIPisZero, EPSZ, REALABS.
  destruct (Qle_bool (Qabs y) (SCIPepsilon set)) eqn:Ey.
  - apply Qle_bool_iff. apply Qle_bool_iff in Ey. rewrite E. exact Ey.
  - apply Qle_bool_false_iff. apply Qle_bool_false_iff in Ey. rewrite E. exact Ey.
Qed.

(** X6.  [SCIPaggrRowSumRows] computes the weighted sum of the rows it
    records: the right hand side is the sum of the weighted side values of
    the recorded rows, and the coefficient of every variable is its
    coefficient in the weighted sum of the recorded rows, replaced by zero
    when the aggregation is valid and the coefficient is zero within
    epsilon.  The rows of the LP are stored at their LP position. *)
Theorem SCIPaggrRowSumRows_weighted_sum (set : SCIP_SET) (aggrrow : SCIP_AGGRROW)
        (rows : list SCIP_ROW) (weights : list Q) (rowinds : option (list nat))
        (maxweightrange minallowedweight : Q) (sidetypebasis allowlocal : bool)
        (negslack : Z) (maxaggrlen : nat) :
  (forall k row, nth_error rows k = Some row -> row_lppos row = Z.of_nat k) ->
  let r := SCIPaggrRowSumRows set aggrrow rows weights rowinds maxweightrange
             minallowedweight sidetypebasis allowlocal negslack maxaggrlen in
  rhs (fst r) ==
    weightedSide set rows (rowsinds (fst r)) (slacksign (fst r)) (rowweights (fst r)) /\
  forall j,
    coefOf (inds (fst r)) (vals (fst r)) j ==
    if snd r && SCIPisZero set (weightedCoef rows (rowsinds (fst r)) (rowweights (fst r)) j)
    then 0
    else weightedCoef rows (rowsinds (fst r)) (rowweights (fst r)) j.
Proof.
  intros Hlp. unfold SCIPaggrRowSumRows. fold (summedRows rows rowinds).
  pose proof (sumLoop_sums set rows weights maxweightrange minallowedweight
                sidetypebasis allowlocal negslack maxaggrlen
                (summedRows rows rowinds) Hlp
                (mkSumState (SCIPaggrRowClear aggrrow) (SCIPinfinity set)
                            (- SCIPinfinity set) cleanbuf false)
                (sum_inv_init set aggrrow)
                ltac:(split; reflexivity) ltac:(simpl; reflexivity)
                ltac:(intros j; simpl; reflexivity))
    as (I & S & C).
  set (st := sumLoop set rows weights (summedRows rows rowinds) _ maxweightrange
               minallowedweight sidetypebasis allowlocal negslack maxaggrlen) in *.
  destruct I as (Hnd & Hlen & _).
  destruct (if ss_rowtoolong st then false else (0 <? nnz (ss_aggrrow st))%nat).
  - pose proof (removeZeroEntries_perm (SCIPisZero set) (nnz (ss_aggrrow st)) 0
                  (vals (ss_aggrrow st)) (inds (ss_aggrrow st)) Hlen
                  ltac:(unfold nnz; lia) ltac:(constructor)) as [L P].
    destruct (removeZeroEntries (SCIPisZero set) (nnz (ss_aggrrow st)) 0
                (vals (ss_aggrrow st)) (inds (ss_aggrrow st))) as [vals' inds'].
    simpl in L, P. cbn [fst snd rhs rowsinds slacksign rowweights inds vals andb].
    split; [exact S|].
    intros j. rewrite coefOf_combine.
    rewrite (coefOf_entries_perm j _ _ P). unfold keptEntries.
    rewrite (coefOf_entries_filter (SCIPisZero set) j (SCIPisZero_comp set)).
    + rewrite <- coefOf_combine.
      rewrite (SCIPisZero_comp set _ _ (C j)).
      destruct (SCIPisZero set _); [reflexivity|apply C].
    + rewrite map_fst_combine_eq by exact Hlen. exact Hnd.
  - cbn [fst snd andb]. split; [exact S|exact C].
Qed.

Lemma SCIPaggrRowSumRows_weighted_sum_witness :
  let rows := [example_two_col_row] in
  let r := SCIPaggrRowSumRows SCIP_DEFAULT_SET SCIPaggrRowCreate rows [2] None
             10 0 false false 2 10 in
  (forall k row, nth_error rows k = Some row -> row_lppos row = Z.of_nat k) /\
  rhs (fst r) ==
    weightedSide SCIP_DEFAULT_SET rows (rowsinds (fst r)) (slacksign (fst r))
                 (rowweights (fst r)).
Proof.
  intros rows r.
  assert (H : forall k row, nth_error rows k = Some row -> row_lppos row = Z.of_nat k).
  { intros k row Hk. destruct k as [|k]; simpl in Hk.
    - injection Hk as <-. reflexivity.
    - destruct k; discriminate. }
  split; [exact H|].
  exact (proj1 (SCIPaggrRowSumRows_weighted_sum SCIP_DEFAULT_SET SCIPaggrRowCreate rows [2]
                  None 10 0 false false 2 10 H)).
Defined.
(* ================================================================== *)
(** ** Cleaning a cut: further properties *)
(* ================================================================== *)

Lemma cutActivity_combine (x : SCIP_SOL) (inds : list nat) : forall coefs : list Q,
  cutActivity x inds coefs =
  cutActivity x (map fst (combine inds coefs)) (map snd (combine inds coefs)).
Proof.
  induction inds as [|i inds IH]; intros [|c coefs]; simpl; try reflexivity.
  rewrite <- IH. reflexivity.
Qed.

Lemma cutActivity_entries_perm (x : SCIP_SOL) (l l' : list (nat * Q)) :
  Permutation l l' ->
  cutActivity x (map fst l) (map snd l) == cutActivity x (map fst l') (map snd l').
Proof.
  induction 1 as [|e l l' _ IH|e1 e2 l|l l' l'' _ IH1 _ IH2]; simpl.
  - reflexivity.
  - rewrite IH. reflexivity.
  - ring.
  - rewrite IH1. exact IH2.
Qed.

(** the activity of a cut without one of its entries *)
Lemma cutActivity_arr_remove (x : SCIP_SOL) (inds : list nat) (coefs : list Q) (i : nat) :
  length coefs = length inds -> (i < length inds)%nat ->
  cutActivity x (arr_remove inds i) (arr_remove coefs i) ==
  cutActivity x inds coefs - arr_get coefs i * x (ind_get inds i).
Proof.
  intros Hlen Hi.
  rewrite (cutActivity_combine x (arr_remove inds i)).
  rewrite combine_arr_remove by lia.
  pose proof (Permutation_arr_remove _ (O, 0) (combine inds coefs) i) as Hp.
  rewrite length_combine, Hlen, Nat.min_id in Hp. specialize (Hp Hi).
  rewrite (cutActivity_combine x inds coefs).
  rewrite (cutActivity_entries_perm x _ _ Hp).
  rewrite combine_nth by lia. simpl. unfold arr_get, ind_get. ring.
Qed.

Lemma In_arr_remove (A : Type) (l : list A) (i : nat) (y : A) :
  In y (arr_remove l i) -> In y l.
Proof.
  destruct l as [|x l _] using rev_ind; [intros []|].
  rewrite arr_remove_snoc. intros H. apply In_arr_set in H.
  apply in_or_app. destruct H as [->|H]; [right; left; reflexivity|left; exact H].
Qed.

(** the loop of [cleanupCut] keeps, up to their order, exactly the entries
    that are not negligible *)
Lemma cleanupCutLoop_perm (scip : SCIP) (cutislocal : bool) (fuel : nat) :
  forall (i : nat) (cutinds : list nat) (cutcoefs : list Q) (cutrhs : Q),
    length cutcoefs = length cutinds ->
    (fuel + i = length cutinds)%nat ->
    Forall (fun c => SCIPisSumZero (scip_set scip) c = false) (firstn i cutcoefs) ->
    let r := cleanupCutLoop scip cutislocal fuel i cutinds cutcoefs cutrhs in
    length (snd (fst r)) = length (fst (fst r)) /\
    Permutation (combine (fst (fst r)) (snd (fst r)))
                (keptEntries (SCIPisSumZero (scip_set scip)) cutinds cutcoefs).
Proof.
  induction fuel as [|fuel IH]; intros i cutinds cutcoefs cutrhs Hlen Hfuel Hpre.
  - simpl. split; [exact Hlen|].
    unfold keptEntries. rewrite filter_all; [apply Permutation_refl|].
    rewrite firstn_all2 in Hpre by lia.
    clear Hfuel. revert cutcoefs Hlen Hpre.
    induction cutinds as [|j inds IHi]; intros [|v vals] Hlen Hpre; simpl in *;
      try discriminate; constructor.
    + inversion Hpre; subst. simpl. rewrite H1. reflexivity.
    + apply IHi; [lia|]. inversion Hpre; assumption.
  - cbn [cleanupCutLoop]. cbv zeta.
    destruct (SCIPisSumZero (scip_set scip) (arr_get cutcoefs i)) eqn:Ez.
    + assert (Hi : (i < length cutinds)%nat) by lia.
      match goal with
      | |- context [cleanupCutLoop _ _ _ _ _ _ ?rhs'] =>
          destruct (IH i (arr_remove cutinds i) (arr_remove cutcoefs i) rhs') as [L P]
      end.
      * rewrite !length_arr_remove. lia.
      * rewrite length_arr_remove. lia.
      * rewrite firstn_arr_remove by lia. exact Hpre.
      * split; [exact L|].
        apply (Permutation_trans P). unfold keptEntries.
        rewrite combine_arr_remove by lia.
        pose proof (Permutation_arr_remove _ (O, 0) (combine cutinds cutcoefs) i) as Hp.
        rewrite length_combine, Hlen, Nat.min_id in Hp. specialize (Hp Hi).
        apply (Permutation_filter _ (fun e => negb (SCIPisSumZero (scip_set scip) (snd e))))
          in Hp.
        simpl in Hp. rewrite combine_nth in Hp by lia. simpl in Hp.
        unfold arr_get in Ez. rewrite Ez in Hp. simpl in Hp.
        apply Permutation_sym. exact Hp.
    + apply IH; [exact Hlen|lia|].
      rewrite (firstn_snoc_nth _ 0) by lia.
      apply Forall_app. split; [exact Hpre|].
      constructor; [exact Ez|constructor].
Qed.

(** the loop of [cleanupCut] leaves a cut without negligible entries as it
    is *)
Lemma cleanupCutLoop_clean (scip : SCIP) (cutislocal : bool) (fuel : nat) :
  forall (i : nat) (cutinds : list nat) (cutcoefs : list Q) (cutrhs : Q),
    (forall q c, nth_error cutcoefs q = Some c ->
                 SCIPisSumZero (scip_set scip) c = false) ->
    (fuel + i <= length cutcoefs)%nat ->
    cleanupCutLoop scip cutislocal fuel i cutinds cutcoefs cutrhs =
    (cutinds, cutcoefs, cutrhs).
Proof.
  induction fuel as [|fuel IH]; intros i cutinds cutcoefs cutrhs Hnz Hfuel;
    [reflexivity|].
  cbn [cleanupCutLoop]. cbv zeta.
  assert (E : SCIPisSumZero (scip_set scip) (arr_get cutcoefs i) = false).
  { destruct (nth_error cutcoefs i) as [c|] eqn:Ec.
    - rewrite (nth_error_nth_Q _ _ _ Ec). exact (Hnz i c Ec).
    - apply nth_error_None in Ec. lia. }
  rewrite E. apply IH; [exact Hnz|lia].
Qed.

(** X7.  [cleanupCut] keeps, up to their order, exactly the entries of the
    cut whose coefficient is larger than the sum epsilon in absolute value,
    and cleaning the cleaned cut once more changes nothing. *)
Theorem cleanupCut_keeps_nonnegligible (scip : SCIP) (cutislocal : bool)
        (cutinds : list nat) (cutcoefs : list Q) (cutrhs : Q) :
  length cutcoefs = length cutinds ->
  let r := cleanupCut scip cutislocal cutinds cutcoefs cutrhs in
  Permutation (combine (fst (fst r)) (snd (fst r)))
              (keptEntries (SCIPisSumZero (scip_set scip)) cutinds cutcoefs) /\
  length (snd (fst r)) = length (fst (fst r)) /\
  cleanupCut scip cutislocal (fst (fst r)) (snd (fst r)) (snd r) = r.
Proof.
  intros Hlen r.
  destruct (cleanupCutLoop_perm scip cutislocal (length cutinds) 0 cutinds cutcoefs cutrhs
              Hlen ltac:(lia) ltac:(constructor)) as [L P].
  fold (cleanupCut scip cutislocal cutinds cutcoefs cutrhs) in L, P. fold r in L, P.
  split; [exact P|]. split; [exact L|].
  unfold cleanupCut at 1.
  rewrite cleanupCutLoop_clean.
  - destruct r as [[a b] c]. reflexivity.
  - intros q c Hq.
    apply (cleanupCutLoop_nonzero scip cutislocal (length cutinds) 0 cutinds cutcoefs cutrhs
             Hlen ltac:(lia) ltac:(intros; lia) q c Hq).
  - lia.
Qed.

Lemma cleanupCut_keeps_nonnegligible_witness :
  let r := cleanupCut example_diff_scip false [0%nat; 1%nat] [1; 1 # 10000000] 2 in
  length [1; 1 # 10000000] = length [0%nat; 1%nat] /\
  Permutation (combine (fst (fst r)) (snd (fst r)))
              (keptEntries (SCIPisSumZero (scip_set example_diff_scip))
                           [0%nat; 1%nat] [1; 1 # 10000000]).
Proof.
  intros r.
  assert (H : length [1; 1 # 10000000] = length [0%nat; 1%nat]) by reflexivity.
  split; [exact H|].
  exact (proj1 (cleanupCut_keeps_nonnegligible example_diff_scip false
                  [0%nat; 1%nat] [1; 1 # 10000000] 2 H)).
Defined.

(** the loop of [cleanupCut] relaxes the right hand side by the bound of
    every entry it removes *)
Lemma cleanupCutLoop_relaxes (scip : SCIP) (cutislocal : bool) (x : SCIP_SOL)
      (fuel : nat) :
  forall (i : nat) (cutinds : list nat) (cutcoefs : list Q) (cutrhs : Q),
    length cutcoefs = length cutinds ->
    (fuel + i <= length cutinds)%nat ->
    (forall c, In c cutcoefs -> SCIPisZero (scip_set scip) c = true -> c == 0) ->
    (forall v, In v cutinds ->
               (if cutislocal then var_lblocal (getVar scip v)
                else var_lbglobal (getVar scip v)) <= x v /\
               x v <= (if cutislocal then var_ublocal (getVar scip v)
                       else var_ubglobal (getVar scip v))) ->
    SCIPisInfinity (scip_set scip) cutrhs = true \/
    cutActivity x cutinds cutcoefs <= cutrhs ->
    let r := cleanupCutLoop scip cutislocal fuel i cutinds cutcoefs cutrhs in
    SCIPisInfinity (scip_set scip) (snd r) = true \/
    cutActivity x (fst (fst r)) (snd (fst r)) <= snd r.
Proof.
  induction fuel as [|fuel IH]; intros i cutinds cutcoefs cutrhs Hlen Hfuel Hz Hb Hact.
  - simpl. exact Hact.
  - cbn [cleanupCutLoop]. cbv zeta.
    destruct (SCIPisSumZero (scip_set scip) (arr_get cutcoefs i)) eqn:Ez;
      [|apply IH; try assumption; lia].
    assert (Hi : (i < length cutinds)%nat) by lia.
    apply IH.
    + rewrite !length_arr_remove. lia.
    + rewrite length_arr_remove. lia.
    + intros c Hc. apply Hz. apply In_arr_remove in Hc. exact Hc.
    + intros v Hv. apply Hb. apply In_arr_remove in Hv. exact Hv.
    + assert (Hin : In (ind_get cutinds i) cutinds)
        by (unfold ind_get; apply nth_In; exact Hi).
      assert (Hic : In (arr_get cutcoefs i) cutcoefs)
        by (unfold arr_get; apply nth_In; lia).
      destruct (Hb _ Hin) as [Hlb Hub].
      pose proof (cutActivity_arr_remove x cutinds cutcoefs i Hlen Hi) as Ha.
      set (ci := arr_get cutcoefs i) in *.
      set (xv := x (ind_get cutinds i)) in *.
      destruct (SCIPisInfinity (scip_set scip) cutrhs) eqn:Einf; simpl.
      { left. exact Einf. }
      destruct Hact as [Hact|Hact]; [discriminate|].
      destruct (SCIPisZero (scip_set scip) ci) eqn:Ec; simpl.
      { right. rewrite Ha. rewrite (Hz ci Hic Ec). lra. }
      assert (Hinfinf : SCIPisInfinity (scip_set scip) (SCIPinfinity (scip_set scip)) = true).
      { unfold SCIPisInfinity. apply Qle_bool_iff. apply Qle_refl. }
      destruct (Qlt_bool ci 0) eqn:Eneg.
      * apply Qlt_bool_iff in Eneg.
        destruct cutislocal.
        -- destruct (SCIPisInfinity (scip_set scip)
                       (var_ublocal (getVar scip (ind_get cutinds i)))).
           ++ left. exact Hinfinf.
           ++ right. rewrite Ha.
              assert (H : 0 <= (0 - ci) *
                               (var_ublocal (getVar scip (ind_get cutinds i)) - xv))
                by (apply Qmult_le_0_compat; lra).
              lra.
        -- destruct (SCIPisInfinity (scip_set scip)
                       (var_ubglobal (getVar scip (ind_get cutinds i)))).
           ++ left. exact Hinfinf.
           ++ right. rewrite Ha.
              assert (H : 0 <= (0 - ci) *
                               (var_ubglobal (getVar scip (ind_get cutinds i)) - xv))
                by (apply Qmult_le_0_compat; lra).
              lra.
      * apply Qlt_bool_false_iff in Eneg.
        destruct cutislocal.
        -- destruct (SCIPisInfinity (scip_set scip)
                       (- var_lblocal (getVar scip (ind_get cutinds i)))).
           ++ left. exact Hinfinf.
           ++ right. rewrite Ha.
              assert (H : 0 <= ci * (xv - var_lblocal (getVar scip (ind_get cutinds i))))
                by (apply Qmult_le_0_compat; lra).
              lra.
        -- destruct (SCIPisInfinity (scip_set scip)
                       (- var_lbglobal (getVar scip (ind_get cutinds i)))).
           ++ left. exact Hinfinf.
           ++ right. rewrite Ha.
              assert (H : 0 <= ci * (xv - var_lbglobal (getVar scip (ind_get cutinds i))))
                by (apply Qmult_le_0_compat; lra).
              lra.
Qed.

(** X8.  [cleanupCut] relaxes the cut: a point within the bounds of the
    variables of the cut that satisfies the cut satisfies the cleaned cut,
    unless the right hand side has become infinite.  The statement needs
    that no coefficient is zero within epsilon without being zero, because
    such entries are removed without relaxing the right hand side. *)
Theorem cleanupCut_relaxes (scip : SCIP) (cutislocal : bool) (x : SCIP_SOL)
        (cutinds : list nat) (cutcoefs : list Q) (cutrhs : Q) :
  length cutcoefs = length cutinds ->
  (forall c, In c cutcoefs -> SCIPisZero (scip_set scip) c = true -> c == 0) ->
  (forall v, In v cutinds ->
             (if cutislocal then var_lblocal (getVar scip v)
              else var_lbglobal (getVar scip v)) <= x v /\
             x v <= (if cutislocal then var_ublocal (getVar scip v)
                     else var_ubglobal (getVar scip v))) ->
  cutActivity x cutinds cutcoefs <= cutrhs ->
  let r := cleanupCut scip cutislocal cutinds cutcoefs cutrhs in
  SCIPisInfinity (scip_set scip) (snd r) = true \/
  cutActivity x (fst (fst r)) (snd (fst r)) <= snd r.
Proof.
  intros Hlen Hz Hb Hact. unfold cleanupCut.
  apply cleanupCutLoop_relaxes; try assumption; [lia|right; exact Hact].
Qed.

Lemma cleanupCut_relaxes_witness :
  let x : SCIP_SOL := fun _ => 1 in
  let r := cleanupCut example_diff_scip false [0%nat; 1%nat] [1; 1 # 10000000] 2 in
  cutActivity x [0%nat; 1%nat] [1; 1 # 10000000] <= 2 /\
  (SCIPisInfinity (scip_set example_diff_scip) (snd r) = true \/
   cutActivity x (fst (fst r)) (snd (fst r)) <= snd r).
Proof.
  intros x r.
  assert (Hact : cutActivity x [0%nat; 1%nat] [1; 1 # 10000000] <= 2)
    by (unfold Qle; simpl; lia).
  split; [exact Hact|].
  apply (cleanupCut_relaxes example_diff_scip false x [0%nat; 1%nat] [1; 1 # 10000000] 2).
  - reflexivity.
  - intros c [<-|[<-|[]]] H; vm_compute in H; discriminate.
  - intros v [<-|[<-|[]]]; split; unfold Qle; simpl; lia.
  - exact Hact.
Defined.

(* ================================================================== *)
(** ** The efficacy of a cut *)
(* ================================================================== *)

Lemma efficacy_norm_positive (n : Q) : 0 < MAX (1 # 1000000) n.
Proof.
  apply Qlt_le_trans with (1 # 1000000); [reflexivity|apply MAX_ge_l].
Qed.

(** X9.  The efficacy of a cut is positive exactly if the solution violates
    the cut, whatever the efficacy norm of the coefficients is, and it is
    the violation divided by a norm that is at least 1e-6: the violation is
    never divided by zero. *)
Theorem calcEfficacy_positive_iff_violated (scip : SCIP) (sol : SCIP_SOL)
        (cutcoefs : list Q) (cutrhs : Q) (cutinds : list nat) :
  (0 < calcEfficacy scip sol cutcoefs cutrhs cutinds <->
   cutrhs < cutActivity sol cutinds cutcoefs) /\
  calcEfficacy scip sol cutcoefs cutrhs cutinds *
    MAX (1 # 1000000) (scip_efficacynorm scip cutcoefs) ==
  cutActivity sol cutinds cutcoefs - cutrhs.
Proof.
  unfold calcEfficacy.
  pose proof (efficacy_norm_positive (scip_efficacynorm scip cutcoefs)) as Hn.
  set (norm := MAX (1 # 1000000) (scip_efficacynorm scip cutcoefs)) in *.
  set (act := cutActivity sol cutinds cutcoefs).
  assert (E : (act - cutrhs) / norm * norm == act - cutrhs).
  { field. intros H. rewrite H in Hn. apply (Qlt_irrefl 0). exact Hn. }
  split; [|exact E].
  split; intros H.
  - assert (H2 : 0 < (act - cutrhs) / norm * norm).
    { apply Qmult_lt_0_compat; assumption. }
    rewrite E in H2. lra.
  - apply Qlt_shift_div_l; [exact Hn|]. lra.
Qed.
(* ================================================================== *)
(** ** The selection of bounds: further properties *)
(* ================================================================== *)

(** X10.  In automatic mode [determineBestBounds] reports a free variable
    exactly if the closest lower and the closest upper bound are both
    infinite, and otherwise the bound it selects for the transformation is
    finite. *)
Theorem determineBestBounds_selects_finite_bound (scip : SCIP) (v : nat) (sol : SCIP_SOL)
        (boundswitch : Q) (usevbds allowlocal fixintegralrhs ignoresol : bool)
        (boundsfortrans : option (list Z)) (boundtypesfortrans : list SCIP_BOUNDTYPE) :
  match boundsfortrans with
  | Some bft => (nth v bft (-3) <= -3)%Z
  | None => True
  end ->
  let bb := determineBestBounds scip v sol boundswitch usevbds allowlocal fixintegralrhs
                                ignoresol boundsfortrans boundtypesfortrans in
  freevariable bb =
    SCIPisInfinity (scip_set scip) (- bestlb bb) && SCIPisInfinity (scip_set scip) (bestub bb) /\
  (freevariable bb = false ->
   match selectedbound bb with
   | SCIP_BOUNDTYPE_LOWER => SCIPisInfinity (scip_set scip) (- bestlb bb) = false
   | SCIP_BOUNDTYPE_UPPER => SCIPisInfinity (scip_set scip) (bestub bb) = false
   end).
Proof.
  intros Hov. unfold determineBestBounds.
  assert (Eov : match boundsfortrans with
                | Some bft => if (-3 <? nth v bft (-3))%Z then Some (nth v bft (-3)%Z) else None
                | None => None
                end = None).
  { destruct boundsfortrans as [bft|]; [|reflexivity].
    destruct (Z.ltb_spec (-3) (nth v bft (-3)%Z)); [lia|reflexivity]. }
  rewrite Eov.
  destruct (findBestLb scip v sol usevbds allowlocal) as [lb lbt].
  destruct (findBestUb scip v sol usevbds allowlocal) as [ub ubt].
  destruct (SCIPisInfinity (scip_set scip) (- lb)) eqn:El;
    destruct (SCIPisInfinity (scip_set scip) ub) eqn:Eu;
    cbn [andb freevariable bestlb bestub selectedbound];
    rewrite ?El, ?Eu; (split; [reflexivity|]); try discriminate; intros _;
    destruct ignoresol; cbn [negb];
    repeat match goal with
           | |- context [if ?b then _ else _] =>
               match type of b with bool => destruct b end
           end; reflexivity.
Qed.

Lemma determineBestBounds_selects_finite_bound_witness :
  let bb := determineBestBounds example_diff_scip 0 example_origin (1 # 2) false false
                                false false None [] in
  freevariable bb = false /\
  SCIPisInfinity (scip_set example_diff_scip) (- bestlb bb) = false.
Proof.
  intros bb.
  assert (H : freevariable bb = false) by reflexivity.
  split; [exact H|].
  exact (proj2 (determineBestBounds_selects_finite_bound example_diff_scip 0 example_origin
                  (1 # 2) false false false false None [] I) H).
Defined.

(** X11.  The closest bound that [findBestLb] and [findBestUb] return is
    the global bound (type -1), the local bound (type -2, only if local
    bounds are allowed), or a variable bound (type >= 0); a variable bound
    is only chosen if variable bounds are to be used, the variable is
    continuous, and the bounding variable has a smaller problem index than
    the variable itself. *)
Theorem findBestLb_findBestUb_bound_types (scip : SCIP) (v : nat) (sol : SCIP_SOL)
        (usevbds allowlocal : bool) :
  let var := getVar scip v in
  let lb := findBestLb scip v sol usevbds allowlocal in
  let ub := findBestUb scip v sol usevbds allowlocal in
  ((snd lb = (-1)%Z /\ fst lb = var_lbglobal var) \/
   (snd lb = (-2)%Z /\ fst lb = var_lblocal var /\ allowlocal = true) \/
   ((0 <= snd lb)%Z /\ usevbds = true /\ is_continuous var = true /\
    (ind_get (var_vlbvars var) (Z.to_nat (snd lb)) < v)%nat)) /\
  ((snd ub = (-1)%Z /\ fst ub = var_ubglobal var) \/
   (snd ub = (-2)%Z /\ fst ub = var_ublocal var /\ allowlocal = true) \/
   ((0 <= snd ub)%Z /\ usevbds = true /\ is_continuous var = true /\
    (ind_get (var_vubvars var) (Z.to_nat (snd ub)) < v)%nat)).
Proof.
  cbv zeta. split.
  - unfold findBestLb.
    set (std := if allowlocal
                then if SCIPisGT (scip_set scip) (var_lblocal (getVar scip v))
                                 (var_lbglobal (getVar scip v))
                     then (var_lblocal (getVar scip v), (-2)%Z)
                     else (var_lbglobal (getVar scip v), (-1)%Z)
                else (var_lbglobal (getVar scip v), (-1)%Z)).
    assert (Hstd : (snd std = (-1)%Z /\ fst std = var_lbglobal (getVar scip v)) \/
                   (snd std = (-2)%Z /\ fst std = var_lblocal (getVar scip v) /\
                    allowlocal = true)).
    { unfold std. destruct allowlocal; [|left; split; reflexivity].
      destruct (SCIPisGT _ _ _); [right|left]; repeat split; reflexivity. }
    destruct std as [bestlb bestlbtype]. cbn [fst snd] in Hstd.
    assert (Hs : forall P : Prop,
               (snd (bestlb, bestlbtype) = (-1)%Z /\
                fst (bestlb, bestlbtype) = var_lbglobal (getVar scip v)) \/
               (snd (bestlb, bestlbtype) = (-2)%Z /\
                fst (bestlb, bestlbtype) = var_lblocal (getVar scip v) /\
                allowlocal = true) \/ P).
    { intros P. destruct Hstd as [H|H]; [left|right; left]; exact H. }
    destruct (usevbds && is_continuous (getVar scip v)) eqn:Evb; [|apply Hs].
    apply andb_true_iff in Evb. destruct Evb as [Eu Ec].
    destruct (SCIPgetVarClosestVlb (getVar scip v) sol) as [bestvlb bestvlbidx].
    destruct ((0 <=? bestvlbidx)%Z
              && (Qlt_bool bestlb bestvlb
                  || (bestlbtype <? 0)%Z && SCIPisGE (scip_set scip) bestvlb bestlb))
             eqn:Esel; [|apply Hs].
    apply andb_true_iff in Esel. destruct Esel as [E0 _]. apply Z.leb_le in E0.
    destruct (Nat.ltb_spec (ind_get (var_vlbvars (getVar scip v)) (Z.to_nat bestvlbidx)) v);
      [|apply Hs].
    right. right. cbn [fst snd]. repeat split; assumption.
  - unfold findBestUb.
    set (std := if allowlocal
                then if SCIPisLT (scip_set scip) (var_ublocal (getVar scip v))
                                 (var_ubglobal (getVar scip v))
                     then (var_ublocal (getVar scip v), (-2)%Z)
                     else (var_ubglobal (getVar scip v), (-1)%Z)
                else (var_ubglobal (getVar scip v), (-1)%Z)).
    assert (Hstd : (snd std = (-1)%Z /\ fst std = var_ubglobal (getVar scip v)) \/
                   (snd std = (-2)%Z /\ fst std = var_ublocal (getVar scip v) /\
                    allowlocal = true)).
    { unfold std. destruct allowlocal; [|left; split; reflexivity].
      destruct (SCIPisLT _ _ _); [right|left]; repeat split; reflexivity. }
    destruct std as [bestub bestubtype]. cbn [fst snd] in Hstd.
    assert (Hs : forall P : Prop,
               (snd (bestub, bestubtype) = (-1)%Z /\
                fst (bestub, bestubtype) = var_ubglobal (getVar scip v)) \/
               (snd (bestub, bestubtype) = (-2)%Z /\
                fst (bestub, bestubtype) = var_ublocal (getVar scip v) /\
                allowlocal = true) \/ P).
    { intros P. destruct Hstd as [H|H]; [left|right; left]; exact H. }
    destruct (usevbds && is_continuous (getVar scip v)) eqn:Evb; [|apply Hs].
    apply andb_true_iff in Evb. destruct Evb as [Eu Ec].
    destruct (SCIPgetVarClosestVub (getVar scip v) sol) as [bestvub bestvubidx].
    destruct ((0 <=? bestvubidx)%Z
              && (Qlt_bool bestvub bestub
                  || (bestubtype <? 0)%Z && SCIPisLE (scip_set scip) bestvub bestub))
             eqn:Esel; [|apply Hs].
    apply andb_true_iff in Esel. destruct Esel as [E0 _]. apply Z.leb_le in E0.
    destruct (Nat.ltb_spec (ind_get (var_vubvars (getVar scip v)) (Z.to_nat bestvubidx)) v);
      [|apply Hs].
    right. right. cbn [fst snd]. repeat split; assumption.
Qed.
(* ================================================================== *)
(** ** The c-MIR heuristic: the efficacy of the result *)
(* ================================================================== *)

Lemma tryDelta_inv (scip : SCIP) (sol : SCIP_SOL) (aggrrow : SCIP_AGGRROW)
      (minfrac maxfrac : Q) (mksetislocal : bool) (mkset : CUTSTATE)
      (best : BESTCUT) (minefficacy delta : Q) :
  bestcut_inv scip sol minefficacy best ->
  bestcut_inv scip sol minefficacy
              (tryDelta scip sol aggrrow minfrac maxfrac mksetislocal mkset best
                        minefficacy delta).
Proof.
  intros Hinv. unfold tryDelta.
  destruct (_ || _); [exact Hinv|].
  destruct (Qlt_bool MAXCMIRSCALE _); [exact Hinv|].
  destruct (cutsSubstituteMIR _ _ _ _ _ _ _ _ _) as [[coefs2 inds2] rhs2].
  destruct (cleanupCut _ _ _ _ _) as [[inds3 coefs3] rhs3].
  destruct (Qlt_bool (bestcutefficacy best) _) eqn:E; [|exact Hinv].
  apply Qlt_bool_iff in E.
  destruct (Qlt_bool minefficacy _) eqn:Em.
  - apply Qlt_bool_iff in Em. intros _. simpl. split; [exact Em|reflexivity].
  - apply Qlt_bool_false_iff in Em. intros Hs. simpl in Hs.
    destruct (Hinv Hs) as [Hgt _]. exfalso.
    apply (Qlt_irrefl minefficacy).
    eapply Qlt_le_trans; [exact Hgt|].
    eapply Qle_trans; [apply Qlt_le_weak; exact E|exact Em].
Qed.

Lemma tryDeltaCandidates_inv (scip : SCIP) (sol : SCIP_SOL) (aggrrow : SCIP_AGGRROW)
      (minfrac maxfrac : Q) (mksetislocal : bool) (mkset : CUTSTATE)
      (minefficacy : Q) (deltacands : list Q) :
  bestcut_inv scip sol minefficacy
              (tryDeltaCandidates scip sol aggrrow minfrac maxfrac mksetislocal mkset
                                  minefficacy deltacands).
Proof.
  unfold tryDeltaCandidates.
  assert (H0 : bestcut_inv scip sol minefficacy
                 (mkBestCut [] 0 [] (- SCIPinfinity (scip_set scip)) SCIP_INVALID false))
    by (intros H; discriminate).
  revert H0. generalize (mkBestCut [] 0 [] (- SCIPinfinity (scip_set scip)) SCIP_INVALID false).
  induction deltacands as [|d ds IH]; intros best Hinv; simpl; [exact Hinv|].
  apply IH. apply tryDelta_inv. exact Hinv.
Qed.

Lemma tryScaledDeltas_inv (scip : SCIP) (sol : SCIP_SOL) (aggrrow : SCIP_AGGRROW)
      (minfrac maxfrac : Q) (mksetislocal : bool) (mkset : CUTSTATE)
      (minefficacy : Q) (divisors : list Q) :
  forall best : BESTCUT,
    bestcut_inv scip sol minefficacy best ->
    bestcut_inv scip sol minefficacy
                (tryScaledDeltas scip sol aggrrow minfrac maxfrac mksetislocal mkset
                                 minefficacy divisors best).
Proof.
  induction divisors as [|i ds IH]; intros best Hinv; simpl; [exact Hinv|].
  apply IH. apply tryDelta_inv. exact Hinv.
Qed.

Lemma switchComplementation_inv (scip : SCIP) (sol : SCIP_SOL) (aggrrow : SCIP_AGGRROW)
      (allowlocal : bool) (minfrac maxfrac : Q) (mksetislocal : bool) (minefficacy : Q)
      (positions : list nat) :
  forall st : CMIRSTATE,
    bestcut_inv scip sol minefficacy (cm_best st) ->
    bestcut_inv scip sol minefficacy
                (cm_best (switchComplementation scip sol aggrrow allowlocal minfrac maxfrac
                                                mksetislocal minefficacy positions st)).
Proof.
  induction positions as [|k ps IH]; intros st Hinv; [exact Hinv|].
  cbn [switchComplementation]. cbv zeta.
  destruct (findBestLb scip _ sol false allowlocal) as [lb lbt].
  destruct (findBestUb scip _ sol false allowlocal) as [ub ubt].
  destruct (if (int_get (varsign (cm_mkset st)) k =? 1)%Z then _ else _) as [bt vs].
  apply IH.
  destruct (Qeq_bool _ _); cbn [cm_best]; apply tryDelta_inv; exact Hinv.
Qed.

(** X12.  When [SCIPcutGenerationHeuristicCMIR] succeeds, the efficacy it
    returns is the efficacy of the cut it returns and strictly greater than
    the efficacy that was passed in, and the rank of the cut is the rank of
    the aggregation plus one; when it does not succeed, the efficacy is the
    one that was passed in and the cut is local exactly if the aggregation
    is. *)
Theorem SCIPcutGenerationHeuristicCMIR_efficacy (scip : SCIP) (sol : SCIP_SOL)
        (boundswitch : Q) (usevbds allowlocal : bool)
        (boundsfortrans : option (list Z)) (boundtypesfortrans : list SCIP_BOUNDTYPE)
        (minfrac maxfrac : Q) (aggrrow : SCIP_AGGRROW) (cutefficacy : Q) :
  let cut := SCIPcutGenerationHeuristicCMIR scip sol boundswitch usevbds allowlocal
               boundsfortrans boundtypesfortrans minfrac maxfrac aggrrow cutefficacy in
  (cut_success cut = true ->
   cutefficacy < cut_efficacy cut /\
   cut_efficacy cut = calcEfficacy scip sol (cut_coefs cut) (cut_rhs cut) (cut_inds cut) /\
   cut_rank cut = (rank aggrrow + 1)%Z) /\
  (cut_success cut = false ->
   cut_efficacy cut = cutefficacy /\ cut_islocal cut = local aggrrow).
Proof.
  unfold SCIPcutGenerationHeuristicCMIR.
  destruct (cleanupCut _ _ _ _ _) as [[mksetinds mksetcoefs] mksetrhs].
  set (tr := cutsTransformMIR _ _ _ _ _ _ _ _ _ _ _ _ _ _).
  assert (Hno : forall rc,
    let cut := mkCutResult rc [] [] 0 cutefficacy 0%Z (local aggrrow) false in
    (cut_success cut = true ->
     cutefficacy < cut_efficacy cut /\
     cut_efficacy cut = calcEfficacy scip sol (cut_coefs cut) (cut_rhs cut) (cut_inds cut) /\
     cut_rank cut = (rank aggrrow + 1)%Z) /\
    (cut_success cut = false ->
     cut_efficacy cut = cutefficacy /\ cut_islocal cut = local aggrrow)).
  { intros rc. simpl. split; [discriminate|]. intros _. repeat split. }
  destruct (tr_retcode tr); [|apply Hno].
  destruct (tr_freevariable tr); [apply Hno|].
  destruct (deltaCandidates scip sol (tr_cut tr)) as [ds deltacands].
  pose proof (tryDeltaCandidates_inv scip sol aggrrow minfrac maxfrac (local aggrrow)
                (tr_cut tr) cutefficacy deltacands) as H1.
  set (best1 := tryDeltaCandidates _ _ _ _ _ _ _ _ _) in *.
  destruct (Qeq_bool (bestcutdelta best1) SCIP_INVALID); [apply Hno|].
  pose proof (tryScaledDeltas_inv scip sol aggrrow minfrac maxfrac (local aggrrow)
                (tr_cut tr) cutefficacy [2; 4; 8] best1 H1) as H2.
  set (best2 := tryScaledDeltas _ _ _ _ _ _ _ _ _ _) in *.
  destruct (SCIPsortDownRealInt (ds_bounddist ds) (ds_bounddistpos ds)) as [dist pos].
  pose proof (switchComplementation_inv scip sol aggrrow allowlocal minfrac maxfrac
                (local aggrrow) cutefficacy pos (mkCmirState (tr_cut tr) best2) H2) as H3.
  set (st3 := switchComplementation _ _ _ _ _ _ _ _ _ _) in *.
  destruct (bestsuccess (cm_best st3)) eqn:Es; simpl.
  - split; [|discriminate]. intros _.
    destruct (H3 Es) as [A B]. repeat split; assumption.
  - split; [discriminate|]. intros _. repeat split.
Qed.
(* ================================================================== *)
(** ** The cuts that are returned are clean *)
(* ================================================================== *)

(** *** The coefficient and the index array keep the same length *)

Lemma addToIntCoef_length (cutcoefs : list Q) (cutinds : list nat) (varpos : POSBUF)
      (zidx : nat) (delta : Q) :
  length cutcoefs = length cutinds ->
  length (fst (fst (addToIntCoef cutcoefs cutinds varpos zidx delta))) =
  length (snd (fst (addToIntCoef cutcoefs cutinds varpos zidx delta))).
Proof.
  intros H. unfold addToIntCoef. destruct (varpos zidx); simpl.
  - rewrite !length_app. simpl. lia.
  - rewrite length_arr_set. exact H.
Qed.

Lemma transformContBounds_length (scip : SCIP) (bbs : list BESTBOUNDS) :
  forall (i : nat) (st : CUTSTATE) (varpos : POSBUF),
    length (cutcoefs st) = length (cutinds st) ->
    length (cutcoefs (fst (transformContBounds scip bbs i st varpos))) =
    length (cutinds (fst (transformContBounds scip bbs i st varpos))).
Proof.
  induction bbs as [|bb bbs IH]; intros i st varpos H; [exact H|].
  cbn [transformContBounds]. cbv zeta.
  destruct (selectedbound bb).
  - destruct (bestlbtype bb <? 0)%Z.
    + apply IH. exact H.
    + match goal with
      | |- context [addToIntCoef ?a ?b ?c ?d ?e] =>
          pose proof (addToIntCoef_length a b c d e H) as Hl;
          destruct (addToIntCoef a b c d e) as [[coefs' inds'] vp']
      end.
      apply IH. exact Hl.
  - destruct (bestubtype bb <? 0)%Z.
    + apply IH. exact H.
    + match goal with
      | |- context [addToIntCoef ?a ?b ?c ?d ?e] =>
          pose proof (addToIntCoef_length a b c d e H) as Hl;
          destruct (addToIntCoef a b c d e) as [[coefs' inds'] vp']
      end.
      apply IH. exact Hl.
Qed.

Lemma bestBoundsInt_length (scip : SCIP) (sol : SCIP_SOL) (boundswitch : Q)
      (allowlocal fixintegralrhs ignoresol : bool)
      (boundsfortrans : option (list Z)) (boundtypesfortrans : list SCIP_BOUNDTYPE)
      (fuel : nat) :
  forall (i : nat) (coefs : list Q) (inds : list nat) (bbs : list BESTBOUNDS),
    length coefs = length inds ->
    let r := bestBoundsInt scip sol boundswitch allowlocal fixintegralrhs ignoresol
                           boundsfortrans boundtypesfortrans fuel i coefs inds bbs in
    length (fst (fst (fst r))) = length (snd (fst (fst r))).
Proof.
  induction fuel as [|fuel IH]; intros i coefs inds bbs H; [exact H|].
  cbn [bestBoundsInt].
  destruct (SCIPisZero (scip_set scip) (arr_get coefs i)).
  - apply IH. rewrite !length_arr_remove. lia.
  - destruct (freevariable _); [exact H|]. apply IH. exact H.
Qed.

Lemma transformIntBounds_arrays (bbs : list BESTBOUNDS) :
  forall (i : nat) (st : CUTSTATE),
    cutcoefs (transformIntBounds bbs i st) = cutcoefs st /\
    cutinds (transformIntBounds bbs i st) = cutinds st.
Proof.
  induction bbs as [|bb bbs IH]; intros i st; [split; reflexivity|].
  cbn [transformIntBounds]. cbv zeta.
  destruct (selectedbound bb);
    match goal with
    | |- context [transformIntBounds bbs (S i) ?st'] =>
        destruct (IH (S i) st') as [A B]; rewrite A, B
    end; split; reflexivity.
Qed.

Lemma fixIntegralRhs_arrays (scip : SCIP) (sol : SCIP_SOL) (ignoresol : bool)
      (minfrac maxfrac : Q) (st : CUTSTATE) (bbs : list BESTBOUNDS) :
  cutcoefs (snd (fixIntegralRhs scip sol ignoresol minfrac maxfrac st bbs)) = cutcoefs st /\
  cutinds (snd (fixIntegralRhs scip sol ignoresol minfrac maxfrac st bbs)) = cutinds st.
Proof.
  unfold fixIntegralRhs.
  destruct (_ || _); [|split; reflexivity].
  destruct (fixIntegralRhsSearch _ _ _ _ _ _ _ _ _ _ _ _) as [rc o].
  destruct rc, o as [besti|]; try (split; reflexivity).
  destruct (if (int_get (varsign st) besti =? 1)%Z then _ else _) as [bt vs'].
  split; reflexivity.
Qed.

Lemma cutsTransformMIR_length (scip : SCIP) (sol : SCIP_SOL) (boundswitch : Q)
      (usevbds allowlocal fixintegralrhs ignoresol : bool)
      (boundsfortrans : option (list Z)) (boundtypesfortrans : list SCIP_BOUNDTYPE)
      (minfrac maxfrac : Q) (cutcoefs0 : list Q) (cutrhs0 : Q) (cutinds0 : list nat) :
  length cutcoefs0 = length cutinds0 ->
  let tr := cutsTransformMIR scip sol boundswitch usevbds allowlocal fixintegralrhs
              ignoresol boundsfortrans boundtypesfortrans minfrac maxfrac
              cutcoefs0 cutrhs0 cutinds0 in
  length (cutcoefs (tr_cut tr)) = length (cutinds (tr_cut tr)).
Proof.
  intros Hlen. unfold cutsTransformMIR.
  destruct (SCIPsortDownIntReal_spec cutinds0 cutcoefs0 Hlen) as (L & _ & _).
  destruct (SCIPsortDownIntReal cutinds0 cutcoefs0) as [inds coefs]. simpl in L.
  destruct (bestBoundsCont _ _ _ _ _ _ _ _ _ _) as [bbscont free].
  destruct free; [exact L|].
  match goal with
  | |- context [transformContBounds scip bbscont 0 ?st ?vp] =>
      pose proof (transformContBounds_length scip bbscont 0 st vp L) as L1;
      destruct (transformContBounds scip bbscont 0 st vp) as [st1 vp1]
  end.
  simpl in L1.
  match goal with
  | |- context [bestBoundsInt ?a ?b ?c ?d ?e ?f ?g ?h ?fu ?i ?co ?in_ ?bb] =>
      pose proof (bestBoundsInt_length a b c d e f g h fu i co in_ bb L1) as L2;
      destruct (bestBoundsInt a b c d e f g h fu i co in_ bb) as [[[coefs2 inds2] bbsint] free2]
  end.
  simpl in L2.
  destruct free2; [exact L2|].
  match goal with
  | |- context [transformIntBounds bbsint ?i ?st] =>
      destruct (transformIntBounds_arrays bbsint i st) as [A B];
      set (st3 := transformIntBounds bbsint i st) in *
  end.
  simpl in A, B.
  destruct fixintegralrhs.
  - destruct (fixIntegralRhs_arrays scip sol ignoresol minfrac maxfrac st3
                (bbscont ++ bbsint)) as [A2 B2].
    destruct (fixIntegralRhs scip sol ignoresol minfrac maxfrac st3 (bbscont ++ bbsint))
      as [rc st4].
    simpl in *. rewrite A2, B2, A, B. exact L2.
  - simpl. rewrite A, B. exact L2.
Qed.

Lemma roundMIRInt_length (scip : SCIP) (f0 : Q) (n : nat) :
  forall (st : CUTSTATE) (varpos : POSBUF),
    length (cutcoefs st) = length (cutinds st) ->
    let r := roundMIRInt scip f0 n st varpos in
    length (cutcoefs (fst (fst r))) = length (cutinds (fst (fst r))).
Proof.
  induction n as [|i IH]; intros st varpos H; [exact H|].
  cbn [roundMIRInt]. cbv zeta.
  destruct (Nat.leb _ _); [exact H|].
  destruct (SCIPisZero _ _).
  - apply IH. cbn [cutcoefs cutinds]. rewrite !length_arr_remove. lia.
  - apply IH. cbn [cutcoefs cutinds]. rewrite length_arr_set. exact H.
Qed.

Lemma roundMIRCont_length (scip : SCIP) (f0 : Q) (fuel : nat) :
  forall (m ndelcontvars : nat) (st : CUTSTATE) (varpos : POSBUF),
    length (cutcoefs st) = length (cutinds st) ->
    let r := roundMIRCont scip f0 fuel m ndelcontvars st varpos in
    length (cutcoefs (fst (fst r))) = length (cutinds (fst (fst r))).
Proof.
  induction fuel as [|fuel IH]; intros m ndel st varpos H; [exact H|].
  cbn [roundMIRCont]. cbv zeta.
  destruct (SCIPisZero _ _).
  - apply IH. destruct (Nat.ltb _ _); [|exact H].
    cbn [cutcoefs cutinds]. rewrite !length_arr_set. exact H.
  - destruct (_ <? 0)%Z.
    + apply IH. cbn [cutcoefs cutinds]. rewrite length_arr_set. exact H.
    + destruct (if (_ =? 1)%Z then _ else _) as [[vbz vbb] vbd].
      match goal with
      | |- context [addToIntCoef ?a ?b ?c ?d ?e] =>
          pose proof (addToIntCoef_length a b c d e) as Hl;
          destruct (addToIntCoef a b c d e) as [[coefs' inds'] vp']
      end.
      apply IH. cbn [cutcoefs cutinds]. apply Hl.
      rewrite length_arr_set. exact H.
Qed.

Lemma fillDeleted_length (A B : Type) (a : list A) (b : list B) (ndelcontvars : nat) :
  length a = length b ->
  length (fillDeleted a ndelcontvars) = length (fillDeleted b ndelcontvars).
Proof.
  intros H. unfold fillDeleted. destruct ndelcontvars as [|n]; [exact H|].
  rewrite H. destruct (Nat.ltb _ _);
    rewrite ?length_app, !length_firstn, !length_skipn, H; reflexivity.
Qed.

Lemma cutsRoundMIR_length (scip : SCIP) (st : CUTSTATE) (f0 : Q) :
  length (cutcoefs st) = length (cutinds st) ->
  length (cutcoefs (cutsRoundMIR scip st f0)) = length (cutinds (cutsRoundMIR scip st f0)).
Proof.
  intros H. unfold cutsRoundMIR.
  pose proof (roundMIRInt_length scip f0 (length (cutinds st)) st cleanbuf H) as L1.
  destruct (roundMIRInt scip f0 (length (cutinds st)) st cleanbuf) as [[st1 vp1] m].
  simpl in L1.
  pose proof (roundMIRCont_length scip f0 m m 0 st1 vp1 L1) as L2.
  destruct (roundMIRCont scip f0 m m 0 st1 vp1) as [[st2 vp2] ndel].
  simpl in L2. cbn [cutcoefs cutinds]. apply fillDeleted_length. exact L2.
Qed.

Lemma addRemaining_length (scale : Q) (cols : list nat) :
  forall (rvals : list Q) (inds : list nat) (vals : list Q) (vp : POSBUF),
    length vals = length inds ->
    let r := addRemaining cols rvals scale inds vals vp in
    length (snd (fst r)) = length (fst (fst r)).
Proof.
  induction cols as [|c cols IH]; intros rvals inds vals vp H; [exact H|].
  destruct rvals as [|v rvals]; [exact H|].
  cbn [addRemaining]. destruct (Nat.eqb (vp c) 0).
  - apply IH. exact H.
  - apply IH. rewrite !length_app. simpl. lia.
Qed.

Lemma varVecAddScaledRowCoefs_length (inds : list nat) (vals : list Q) (row : SCIP_ROW)
      (scale : Q) :
  length (row_vals row) = length (row_cols row) ->
  length vals = length inds ->
  let r := varVecAddScaledRowCoefs inds vals row scale in
  length (snd r) = length (fst r).
Proof.
  intros Hrow H. unfold varVecAddScaledRowCoefs.
  destruct inds as [|i0 inds0] eqn:Ei.
  - simpl. destruct (Qeq_bool scale 1); [|rewrite length_map]; exact Hrow.
  - rewrite <- Ei in *.
    destruct (addCommon inds vals (row_vals row) scale
                (rememberPositions (row_cols row) 0 cleanbuf)) as [vals1 vp1] eqn:Ec.
    destruct (addCommon_spec _ _ _ _ _ _ _ H Ec) as (L1 & _).
    pose proof (addRemaining_length scale (row_cols row) (row_vals row) inds vals1 vp1 L1)
      as L2.
    destruct (addRemaining (row_cols row) (row_vals row) scale inds vals1 vp1)
      as [[inds2 vals2] vp2].
    exact L2.
Qed.

Lemma getRow_wellformed (scip : SCIP) (r : Z) :
  (forall row, In row (scip_lprows scip) ->
               length (row_vals row) = length (row_cols row)) ->
  length (row_vals (getRow scip r)) = length (row_cols (getRow scip r)).
Proof.
  intros H. unfold getRow.
  destruct (nth_in_or_default (Z.to_nat r) (scip_lprows scip) default_row) as [Hin|E].
  - apply H. exact Hin.
  - rewrite E. reflexivity.
Qed.

Lemma substituteMIRLoop_length (scip : SCIP) (scale f0 : Q) (rowinds : list Z) :
  (forall row, In row (scip_lprows scip) ->
               length (row_vals row) = length (row_cols row)) ->
  forall (slacksign : list Z) (weights : list Q)
         (cutcoefs : list Q) (cutinds : list nat) (cutrhs : Q),
    length cutcoefs = length cutinds ->
    let r := substituteMIRLoop scip weights slacksign rowinds scale f0
                               cutcoefs cutinds cutrhs in
    length (fst (fst r)) = length (snd (fst r)).
Proof.
  intros Hrows.
  induction rowinds as [|r rowinds IH]; intros slacksign weights coefs inds rhs H;
    destruct slacksign as [|s slacksign]; destruct weights as [|w weights];
    try exact H.
  cbn [substituteMIRLoop]. cbv zeta.
  destruct (mirSlackCoef _ _ _ _ _) as [cutar|]; [|apply IH; exact H].
  destruct (SCIPisZero _ cutar); [apply IH; exact H|].
  unfold substituteSlack.
  match goal with
  | |- context [varVecAddScaledRowCoefs ?a ?b ?c ?d] =>
      pose proof (varVecAddScaledRowCoefs_length a b c d
                    (getRow_wellformed scip r Hrows) H) as L;
      destruct (varVecAddScaledRowCoefs a b c d) as [inds' coefs']
  end.
  simpl in L.
  destruct (s =? 1)%Z; apply IH; exact L.
Qed.

Lemma cutsSubstituteMIR_length (scip : SCIP) (weights : list Q) (slacksign : list Z)
      (rowinds : list Z) (scale : Q) (cutcoefs : list Q) (cutrhs : Q)
      (cutinds : list nat) (f0 : Q) :
  (forall row, In row (scip_lprows scip) ->
               length (row_vals row) = length (row_cols row)) ->
  length cutcoefs = length cutinds ->
  let r := cutsSubstituteMIR scip weights slacksign rowinds scale cutcoefs cutrhs
                             cutinds f0 in
  length (fst (fst r)) = length (snd (fst r)).
Proof.
  intros Hrows H. unfold cutsSubstituteMIR.
  pose proof (substituteMIRLoop_length scip scale f0 rowinds Hrows slacksign weights
                cutcoefs cutinds cutrhs H) as L.
  destruct (substituteMIRLoop scip weights slacksign rowinds scale f0
              cutcoefs cutinds cutrhs) as [[coefs' inds'] rhs'].
  exact L.
Qed.

(** *** Clean cuts *)

Lemma cleanupCut_clean (scip : SCIP) (cutislocal : bool)
      (cutinds : list nat) (cutcoefs : list Q) (cutrhs : Q) :
  length cutcoefs = length cutinds ->
  cut_clean scip (snd (fst (cleanupCut scip cutislocal cutinds cutcoefs cutrhs)))
            (fst (fst (cleanupCut scip cutislocal cutinds cutcoefs cutrhs))).
Proof.
  intros Hlen. split.
  - apply (cleanupCutLoop_perm scip cutislocal (length cutinds) 0 cutinds cutcoefs cutrhs
             Hlen ltac:(lia) ltac:(constructor)).
  - apply Forall_forall. intros c Hc.
    apply In_nth_error in Hc. destruct Hc as [q Hq].
    apply (cleanupCutLoop_nonzero scip cutislocal (length cutinds) 0 cutinds cutcoefs cutrhs
             Hlen ltac:(lia) ltac:(intros; lia) q c Hq).
Qed.

(** the cut that the rounding, the substitution of the slacks and the
    cleaning make of a transformed row *)
Lemma round_substitute_cleanup_clean (scip : SCIP) (aggrrow : SCIP_AGGRROW)
      (st : CUTSTATE) (f0 scale : Q) (cutislocal : bool) :
  rows_wellformed scip ->
  length (cutcoefs st) = length (cutinds st) ->
  let st1 := cutsRoundMIR scip st f0 in
  let r2 := cutsSubstituteMIR scip (rowweights aggrrow) (slacksign aggrrow)
                              (rowsinds aggrrow) scale
                              (cutcoefs st1) (cutrhs st1) (cutinds st1) f0 in
  let r3 := cleanupCut scip cutislocal (snd (fst r2)) (fst (fst r2)) (snd r2) in
  cut_clean scip (snd (fst r3)) (fst (fst r3)).
Proof.
  intros Hrows Hlen st1 r2 r3.
  apply cleanupCut_clean.
  apply cutsSubstituteMIR_length; [exact Hrows|].
  apply cutsRoundMIR_length. exact Hlen.
Qed.

Lemma tryDelta_clean (scip : SCIP) (sol : SCIP_SOL) (aggrrow : SCIP_AGGRROW)
      (minfrac maxfrac : Q) (mksetislocal : bool) (mkset : CUTSTATE)
      (best : BESTCUT) (minefficacy delta : Q) :
  rows_wellformed scip ->
  length (cutcoefs mkset) = length (cutinds mkset) ->
  cut_clean scip (bestcutcoefs best) (bestcutinds best) ->
  cut_clean scip
            (bestcutcoefs (tryDelta scip sol aggrrow minfrac maxfrac mksetislocal mkset
                                    best minefficacy delta))
            (bestcutinds (tryDelta scip sol aggrrow minfrac maxfrac mksetislocal mkset
                                   best minefficacy delta)).
Proof.
  intros Hrows Hlen Hbest. unfold tryDelta.
  destruct (_ || _); [exact Hbest|].
  destruct (Qlt_bool MAXCMIRSCALE _); [exact Hbest|].
  match goal with
  | |- context [cutsRoundMIR scip ?tmp ?f0] =>
      pose proof (round_substitute_cleanup_clean scip aggrrow tmp f0 (1 / delta)
                    mksetislocal Hrows) as Hc
  end.
  cbn [cutcoefs cutinds] in Hc. rewrite length_map in Hc. specialize (Hc Hlen).
  cbv zeta in Hc.
  destruct (cutsSubstituteMIR _ _ _ _ _ _ _ _ _) as [[coefs2 inds2] rhs2].
  cbn [fst snd] in Hc.
  destruct (cleanupCut _ _ _ _ _) as [[inds3 coefs3] rhs3].
  cbn [fst snd] in Hc.
  destruct (Qlt_bool (bestcutefficacy best) _); [|exact Hbest].
  destruct (Qlt_bool minefficacy _); [exact Hc|exact Hbest].
Qed.

Lemma tryDeltaCandidates_clean (scip : SCIP) (sol : SCIP_SOL) (aggrrow : SCIP_AGGRROW)
      (minfrac maxfrac : Q) (mksetislocal : bool) (mkset : CUTSTATE)
      (minefficacy : Q) (deltacands : list Q) :
  rows_wellformed scip ->
  length (cutcoefs mkset) = length (cutinds mkset) ->
  let best := tryDeltaCandidates scip sol aggrrow minfrac maxfrac mksetislocal mkset
                                 minefficacy deltacands in
  cut_clean scip (bestcutcoefs best) (bestcutinds best).
Proof.
  intros Hrows Hlen. unfold tryDeltaCandidates.
  assert (H0 : cut_clean scip
                 (bestcutcoefs (mkBestCut [] 0 [] (- SCIPinfinity (scip_set scip))
                                          SCIP_INVALID false))
                 (bestcutinds (mkBestCut [] 0 [] (- SCIPinfinity (scip_set scip))
                                         SCIP_INVALID false)))
    by (split; [reflexivity|constructor]).
  revert H0. generalize (mkBestCut [] 0 [] (- SCIPinfinity (scip_set scip)) SCIP_INVALID false).
  induction deltacands as [|d ds IH]; intros best Hb; simpl; [exact Hb|].
  apply IH. apply tryDelta_clean; assumption.
Qed.

Lemma tryScaledDeltas_clean (scip : SCIP) (sol : SCIP_SOL) (aggrrow : SCIP_AGGRROW)
      (minfrac maxfrac : Q) (mksetislocal : bool) (mkset : CUTSTATE)
      (minefficacy : Q) (divisors : list Q) :
  rows_wellformed scip ->
  length (cutcoefs mkset) = length (cutinds mkset) ->
  forall best : BESTCUT,
    cut_clean scip (bestcutcoefs best) (bestcutinds best) ->
    let best' := tryScaledDeltas scip sol aggrrow minfrac maxfrac mksetislocal mkset
                                 minefficacy divisors best in
    cut_clean scip (bestcutcoefs best') (bestcutinds best').
Proof.
  intros Hrows Hlen.
  induction divisors as [|i ds IH]; intros best Hb; simpl; [exact Hb|].
  apply IH. apply tryDelta_clean; assumption.
Qed.

Lemma switchComplementation_clean (scip : SCIP) (sol : SCIP_SOL) (aggrrow : SCIP_AGGRROW)
      (allowlocal : bool) (minfrac maxfrac : Q) (mksetislocal : bool) (minefficacy : Q)
      (positions : list nat) :
  rows_wellformed scip ->
  forall st : CMIRSTATE,
    length (cutcoefs (cm_mkset st)) = length (cutinds (cm_mkset st)) ->
    cut_clean scip (bestcutcoefs (cm_best st)) (bestcutinds (cm_best st)) ->
    let st' := switchComplementation scip sol aggrrow allowlocal minfrac maxfrac
                                     mksetislocal minefficacy positions st in
    cut_clean scip (bestcutcoefs (cm_best st')) (bestcutinds (cm_best st')).
Proof.
  intros Hrows.
  induction positions as [|k ps IH]; intros st Hlen Hb; [exact Hb|].
  cbn [switchComplementation]. cbv zeta.
  destruct (findBestLb scip _ sol false allowlocal) as [lb lbt].
  destruct (findBestUb scip _ sol false allowlocal) as [ub ubt].
  destruct (if (int_get (varsign (cm_mkset st)) k =? 1)%Z then _ else _) as [bt vs].
  apply IH.
  - destruct (Qeq_bool _ _); cbn [cm_mkset cutcoefs cutinds]; exact Hlen.
  - destruct (Qeq_bool _ _); cbn [cm_best]; apply tryDelta_clean;
      try assumption; exact Hlen.
Qed.

(** X13.  The cuts that [SCIPcalcMIR] and [SCIPcutGenerationHeuristicCMIR]
    return are clean: the coefficient array has the length of the index
    array, and no coefficient is zero within the sum epsilon.  The
    aggregation row and the rows of the LP have as many values as
    indices. *)
Theorem mir_cuts_are_clean (scip : SCIP) (sol : SCIP_SOL) (boundswitch : Q)
        (usevbds allowlocal fixintegralrhs : bool)
        (boundsfortrans : option (list Z)) (boundtypesfortrans : list SCIP_BOUNDTYPE)
        (minfrac maxfrac scale : Q) (aggrrow : SCIP_AGGRROW) (cutefficacy : Q) :
  rows_wellformed scip ->
  length (vals aggrrow) = length (inds aggrrow) ->
  let mir := SCIPcalcMIR scip sol boundswitch usevbds allowlocal fixintegralrhs
               boundsfortrans boundtypesfortrans minfrac maxfrac scale aggrrow in
  let cmir := SCIPcutGenerationHeuristicCMIR scip sol boundswitch usevbds allowlocal
                boundsfortrans boundtypesfortrans minfrac maxfrac aggrrow cutefficacy in
  (cut_success mir = true -> cut_clean scip (cut_coefs mir) (cut_inds mir)) /\
  (cut_success cmir = true -> cut_clean scip (cut_coefs cmir) (cut_inds cmir)).
Proof.
  intros Hrows Hlen. cbv zeta. split.
  - unfold SCIPcalcMIR.
    assert (Hl0 : forall p : Q * list Q,
               p = (if negb (Qeq_bool scale 1)
                    then (scale * rhs aggrrow, map (fun v => v * scale) (vals aggrrow))
                    else (rhs aggrrow, vals aggrrow)) ->
               length (snd p) = length (inds aggrrow)).
    { intros p ->. destruct (negb _); simpl; [rewrite length_map|]; exact Hlen. }
    specialize (Hl0 _ eq_refl).
    destruct (if negb (Qeq_bool scale 1) then _ else _) as [cutrhs0 cutcoefs0].
    simpl in Hl0.
    pose proof (cleanupCut_clean scip (local aggrrow) (inds aggrrow) cutcoefs0 cutrhs0 Hl0)
      as [L1 _].
    destruct (cleanupCut scip (local aggrrow) (inds aggrrow) cutcoefs0 cutrhs0)
      as [[cutinds1 cutcoefs1] cutrhs1].
    simpl in L1.
    pose proof (cutsTransformMIR_length scip sol boundswitch usevbds allowlocal
                  fixintegralrhs false boundsfortrans boundtypesfortrans minfrac maxfrac
                  cutcoefs1 cutrhs1 cutinds1 L1) as L2.
    cbv zeta in L2.
    set (tr := cutsTransformMIR _ _ _ _ _ _ _ _ _ _ _ _ _ _) in *.
    destruct (tr_retcode tr); [|discriminate].
    destruct (tr_freevariable tr); [discriminate|].
    destruct (_ || _); [discriminate|].
    destruct (Qlt_bool MAXCMIRSCALE _); [discriminate|].
    match goal with
    | |- context [cutsRoundMIR scip ?tmp ?f0] =>
        pose proof (round_substitute_cleanup_clean scip aggrrow tmp f0 scale
                      (local aggrrow || localbdsused (tr_cut tr)) Hrows L2) as Hc
    end.
    cbv zeta in Hc.
    destruct (cutsSubstituteMIR _ _ _ _ _ _ _ _ _) as [[coefs2 inds2] rhs2].
    cbn [fst snd] in Hc.
    destruct (cleanupCut _ _ _ _ _) as [[inds3 coefs3] rhs3].
    intros _. exact Hc.
  - unfold SCIPcutGenerationHeuristicCMIR.
    pose proof (cleanupCut_clean scip (local aggrrow) (inds aggrrow) (vals aggrrow)
                  (rhs aggrrow) Hlen) as [L1 _].
    destruct (cleanupCut scip (local aggrrow) (inds aggrrow) (vals aggrrow) (rhs aggrrow))
      as [[mksetinds mksetcoefs] mksetrhs].
    simpl in L1.
    pose proof (cutsTransformMIR_length scip sol boundswitch usevbds allowlocal
                  false false boundsfortrans boundtypesfortrans minfrac maxfrac
                  mksetcoefs mksetrhs mksetinds L1) as L2.
    cbv zeta in L2.
    set (tr := cutsTransformMIR _ _ _ _ _ _ _ _ _ _ _ _ _ _) in *.
    destruct (tr_retcode tr); [|discriminate].
    destruct (tr_freevariable tr); [discriminate|].
    destruct (deltaCandidates scip sol (tr_cut tr)) as [ds deltacands].
    pose proof (tryDeltaCandidates_clean scip sol aggrrow minfrac maxfrac (local aggrrow)
                  (tr_cut tr) cutefficacy deltacands Hrows L2) as H1.
    cbv zeta in H1.
    set (best1 := tryDeltaCandidates _ _ _ _ _ _ _ _ _) in *.
    destruct (Qeq_bool (bestcutdelta best1) SCIP_INVALID); [discriminate|].
    pose proof (tryScaledDeltas_clean scip sol aggrrow minfrac maxfrac (local aggrrow)
                  (tr_cut tr) cutefficacy [2; 4; 8] Hrows L2 best1 H1) as H2.
    cbv zeta in H2.
    set (best2 := tryScaledDeltas _ _ _ _ _ _ _ _ _ _) in *.
    destruct (SCIPsortDownRealInt (ds_bounddist ds) (ds_bounddistpos ds)) as [dist pos].
    pose proof (switchComplementation_clean scip sol aggrrow allowlocal minfrac maxfrac
                  (local aggrrow) cutefficacy pos Hrows
                  (mkCmirState (tr_cut tr) best2) L2 H2) as H3.
    cbv zeta in H3.
    set (st3 := switchComplementation _ _ _ _ _ _ _ _ _ _) in *.
    destruct (bestsuccess (cm_best st3)); [|discriminate].
    intros _. exact H3.
Qed.

Lemma mir_cuts_are_clean_witness :
  let cmir := SCIPcutGenerationHeuristicCMIR example_cmir_scip example_cmir_sol (1 # 2)
                false true None [] (5 # 100) (95 # 100) example_cmir_aggrrow 0 in
  rows_wellformed example_cmir_scip /\
  length (vals example_cmir_aggrrow) = length (inds example_cmir_aggrrow) /\
  cut_success cmir = true /\
  cut_clean example_cmir_scip (cut_coefs cmir) (cut_inds cmir).
Proof.
  intros cmir.
  assert (H1 : rows_wellformed example_cmir_scip).
  { intros row [<-|[]]. reflexivity. }
  assert (H2 : length (vals example_cmir_aggrrow) = length (inds example_cmir_aggrrow))
    by reflexivity.
  assert (H3 : cut_success cmir = true) by (vm_compute; reflexivity).
  split; [exact H1|]. split; [exact H2|]. split; [exact H3|].
  exact (proj2 (mir_cuts_are_clean example_cmir_scip example_cmir_sol (1 # 2)
                  false true false None [] (5 # 100) (95 # 100) 1
                  example_cmir_aggrrow 0 H1 H2) H3).
Defined.
(* ================================================================== *)
(** ** Strong CG: further properties *)
(* ================================================================== *)

(** where the entries of an array come from after a removal *)
Lemma nth_error_arr_remove_inv (A : Type) (l : list A) (i q : nat) (a : A) :
  (i < length l)%nat ->
  nth_error (arr_remove l i) q = Some a ->
  (q = i /\ nth_error l (length l - 1) = Some a /\ (i < length l - 1)%nat) \/
  (q <> i /\ nth_error l q = Some a).
Proof.
  destruct l as [|x l _] using rev_ind; intros Hi Hq; [simpl in Hi; lia|].
  rewrite arr_remove_snoc in Hq. rewrite length_app in *. simpl in *.
  replace (length l + 1 - 1)%nat with (length l) by lia.
  destruct (Nat.eq_dec q i) as [->|Hne].
  - destruct (Nat.eq_dec i (length l)) as [->|Hil].
    + rewrite arr_set_beyond in Hq by lia.
      assert (H : nth_error l (length l) = None) by (apply nth_error_None; lia).
      congruence.
    + left. rewrite nth_error_arr_set_same in Hq by lia. injection Hq as <-.
      split; [reflexivity|]. split; [|lia].
      rewrite nth_error_app2 by lia. rewrite Nat.sub_diag. reflexivity.
  - right. split; [exact Hne|].
    rewrite nth_error_arr_set in Hq by exact Hne.
    assert (H : (q < length l)%nat) by (apply nth_error_Some; congruence).
    rewrite nth_error_app1 by exact H. exact Hq.
Qed.

Lemma In_skipn_nth_error (A : Type) (l : list A) (b : nat) (x : A) :
  In x (skipn b l) -> exists q, (b <= q)%nat /\ nth_error l q = Some x.
Proof.
  intros H. apply In_nth_error in H. destruct H as [p Hp].
  rewrite nth_error_skipn in Hp. exists (b + p)%nat. split; [lia|exact Hp].
Qed.

Lemma In_firstn (A : Type) (l : list A) (n : nat) (x : A) :
  In x (firstn n l) -> In x l.
Proof.
  intros H. rewrite <- (firstn_skipn n l). apply in_or_app. left. exact H.
Qed.

(** the entries that the move to the front keeps come from the positions
    behind the deleted ones *)
Lemma In_fillDeleted (A : Type) (l : list A) (ndel : nat) (x : A) :
  In x (fillDeleted l ndel) -> exists q, (ndel <= q)%nat /\ nth_error l q = Some x.
Proof.
  unfold fillDeleted. destruct ndel as [|n].
  - intros H. apply In_nth_error in H. destruct H as [q Hq]. exists q. split; [lia|exact Hq].
  - destruct (Nat.ltb_spec (length l - S n) (S n)) as [Hlt|Hge]; intros H.
    + apply In_firstn in H. apply In_skipn_nth_error. exact H.
    + apply in_app_or in H. destruct H as [H|H]; apply In_firstn in H;
        apply In_skipn_nth_error in H; destruct H as [q [Hq E]]; exists q;
        (split; [lia|exact E]).
Qed.

(** behind the position where the loop over the integral variables stops,
    all variables are integral *)
Lemma roundStrongCGInt_integral (scip : SCIP) (f0 k : Q) (n : nat) :
  forall st : CUTSTATE,
    (n <= length (cutinds st))%nat ->
    (forall q v, (n <= q)%nat -> nth_error (cutinds st) q = Some v ->
                 (v < firstcontvar scip)%nat) ->
    let r := roundStrongCGInt scip f0 k n st in
    forall q v, (snd r <= q)%nat -> nth_error (cutinds (fst r)) q = Some v ->
                (v < firstcontvar scip)%nat.
Proof.
  induction n as [|i IH]; intros st Hn Hinv; [exact Hinv|].
  cbn [roundStrongCGInt]. cbv zeta.
  destruct (Nat.leb_spec (firstcontvar scip) (ind_get (cutinds st) i)) as [Hc|Hc];
    [exact Hinv|].
  assert (Hi : forall q v, (i <= q)%nat -> nth_error (cutinds st) q = Some v ->
                           (v < firstcontvar scip)%nat).
  { intros q v Hq Hv. destruct (Nat.eq_dec q i) as [->|Hne].
    - rewrite <- (nth_error_ind_get _ _ _ Hv). exact Hc.
    - apply (Hinv q v); [lia|exact Hv]. }
  destruct (SCIPisZero _ _).
  - apply IH; cbn [cutinds].
    + rewrite length_arr_remove. lia.
    + intros q v Hq Hv.
      apply nth_error_arr_remove_inv in Hv; [|lia].
      destruct Hv as [(-> & Hv & Hlt)|(_ & Hv)].
      * apply (Hi (length (cutinds st) - 1)%nat v); [lia|exact Hv].
      * apply (Hi q v); assumption.
  - apply IH; cbn [cutinds]; [lia|exact Hi].
Qed.

(** X14.  A strong CG cut has no continuous variables when it leaves
    [cutsRoundStrongCG]: every index that is left in the cut is the problem
    index of an integral variable. *)
Theorem cutsRoundStrongCG_no_continuous_variable (scip : SCIP) (st : CUTSTATE) (f0 k : Q) :
  forall v, In v (cutinds (cutsRoundStrongCG scip st f0 k)) ->
            (v < firstcontvar scip)%nat.
Proof.
  intros v Hv. unfold cutsRoundStrongCG in Hv.
  pose proof (roundStrongCGInt_integral scip f0 k (length (cutinds st)) st (Nat.le_refl _))
    as H.
  destruct (roundStrongCGInt scip f0 k (length (cutinds st)) st) as [st1 m].
  cbn [cutinds fst snd] in *.
  apply In_fillDeleted in Hv. destruct Hv as [q [Hq E]].
  apply (H ltac:(intros q' v' Hq' Hv';
                 assert (Hlt : (q' < length (cutinds st))%nat)
                   by (apply nth_error_Some; congruence);
                 lia) q v Hq E).
Qed.

Lemma cutsRoundStrongCG_no_continuous_variable_witness :
  let st := mkCut [3 # 2; 1] [0%nat; 1%nat] 2 [1%Z; 1%Z] [(-1)%Z; (-1)%Z] false in
  In 0%nat (cutinds (cutsRoundStrongCG example_diff_scip st (1 # 2) 1)) /\
  (0 < firstcontvar example_diff_scip)%nat.
Proof.
  intros st.
  assert (H : In 0%nat (cutinds (cutsRoundStrongCG example_diff_scip st (1 # 2) 1)))
    by (vm_compute; left; reflexivity).
  split; [exact H|].
  exact (cutsRoundStrongCG_no_continuous_variable example_diff_scip st (1 # 2) 1 0%nat H).
Defined.

(** *** The strong CG cut is clean *)

Lemma transformContBoundsStrongCG_length (scip : SCIP) (bestbds : list Q) :
  forall (i : nat) (st : CUTSTATE) (varpos : POSBUF),
    length (cutcoefs st) = length (cutinds st) ->
    length (cutcoefs (fst (transformContBoundsStrongCG scip bestbds i st varpos))) =
    length (cutinds (fst (transformContBoundsStrongCG scip bestbds i st varpos))).
Proof.
  induction bestbds as [|bd bds IH]; intros i st varpos H; [exact H|].
  cbn [transformContBoundsStrongCG]. cbv zeta.
  destruct (_ <? 0)%Z.
  - apply IH. exact H.
  - destruct (if (_ =? 1)%Z then _ else _) as [[vbdvars vbdcoefs] vbdconsts].
    match goal with
    | |- context [addToIntCoef ?a ?b ?c ?d ?e] =>
        pose proof (addToIntCoef_length a b c d e H) as Hl;
        destruct (addToIntCoef a b c d e) as [[coefs' inds'] vp']
    end.
    apply IH. exact Hl.
Qed.

Lemma transformIntStrongCG_length (scip : SCIP) (sol : SCIP_SOL) (boundswitch : Q)
      (allowlocal : bool) (fuel : nat) :
  forall (i : nat) (st : CUTSTATE),
    length (cutcoefs st) = length (cutinds st) ->
    let r := transformIntStrongCG scip sol boundswitch allowlocal fuel i st in
    length (cutcoefs (fst r)) = length (cutinds (fst r)).
Proof.
  induction fuel as [|fuel IH]; intros i st H; [exact H|].
  cbn [transformIntStrongCG]. cbv zeta.
  destruct (SCIPisZero _ _).
  - apply IH. cbn [cutcoefs cutinds]. rewrite !length_arr_remove. lia.
  - destruct (freevariable _); [exact H|].
    destruct (match selectedbound _ with
              | SCIP_BOUNDTYPE_LOWER => _
              | SCIP_BOUNDTYPE_UPPER => _
              end) as [[bt vs] bd].
    apply IH. exact H.
Qed.

Lemma cutsTransformStrongCG_length (scip : SCIP) (sol : SCIP_SOL) (boundswitch : Q)
      (usevbds allowlocal : bool) (cutcoefs0 : list Q) (cutrhs0 : Q)
      (cutinds0 : list nat) :
  length cutcoefs0 = length cutinds0 ->
  let tr := cutsTransformStrongCG scip sol boundswitch usevbds allowlocal
              cutcoefs0 cutrhs0 cutinds0 in
  length (cutcoefs (tr_cut tr)) = length (cutinds (tr_cut tr)).
Proof.
  intros Hlen. unfold cutsTransformStrongCG.
  destruct (SCIPsortDownIntReal_spec cutinds0 cutcoefs0 Hlen) as (L & _ & _).
  destruct (SCIPsortDownIntReal cutinds0 cutcoefs0) as [inds coefs]. simpl in L.
  destruct (bestBoundsContStrongCG _ _ _ _ _ _) as [[[bestbds vss] bts] free].
  destruct free; [exact L|].
  match goal with
  | |- context [transformContBoundsStrongCG scip bestbds 0 ?st ?vp] =>
      pose proof (transformContBoundsStrongCG_length scip bestbds 0 st vp L) as L1;
      destruct (transformContBoundsStrongCG scip bestbds 0 st vp) as [st1 vp1]
  end.
  simpl in L1.
  match goal with
  | |- context [transformIntStrongCG ?a ?b ?c ?d ?fu ?i ?st] =>
      pose proof (transformIntStrongCG_length a b c d fu i st L1) as L2;
      destruct (transformIntStrongCG a b c d fu i st) as [st2 free2]
  end.
  exact L2.
Qed.

Lemma roundStrongCGInt_length (scip : SCIP) (f0 k : Q) (n : nat) :
  forall st : CUTSTATE,
    length (cutcoefs st) = length (cutinds st) ->
    let r := roundStrongCGInt scip f0 k n st in
    length (cutcoefs (fst r)) = length (cutinds (fst r)).
Proof.
  induction n as [|i IH]; intros st H; [exact H|].
  cbn [roundStrongCGInt]. cbv zeta.
  destruct (Nat.leb _ _); [exact H|].
  destruct (SCIPisZero _ _).
  - apply IH. cbn [cutcoefs cutinds]. rewrite !length_arr_remove. lia.
  - apply IH. cbn [cutcoefs cutinds]. rewrite length_arr_set. exact H.
Qed.

Lemma cutsRoundStrongCG_length (scip : SCIP) (st : CUTSTATE) (f0 k : Q) :
  length (cutcoefs st) = length (cutinds st) ->
  length (cutcoefs (cutsRoundStrongCG scip st f0 k)) =
  length (cutinds (cutsRoundStrongCG scip st f0 k)).
Proof.
  intros H. unfold cutsRoundStrongCG.
  pose proof (roundStrongCGInt_length scip f0 k (length (cutinds st)) st H) as L1.
  destruct (roundStrongCGInt scip f0 k (length (cutinds st)) st) as [st1 m].
  simpl in L1. cbn [cutcoefs cutinds]. apply fillDeleted_length. exact L1.
Qed.

Lemma substituteStrongCGLoop_length (scip : SCIP) (scale f0 k : Q) (rowinds : list Z) :
  rows_wellformed scip ->
  forall (slacksign : list Z) (weights : list Q)
         (cutcoefs : list Q) (cutinds : list nat) (cutrhs : Q),
    length cutcoefs = length cutinds ->
    let r := substituteStrongCGLoop scip weights slacksign rowinds scale f0 k
                                    cutcoefs cutinds cutrhs in
    length (fst (fst r)) = length (snd (fst r)).
Proof.
  intros Hrows.
  induction rowinds as [|r rowinds IH]; intros slacksign weights coefs inds rhs H;
    destruct slacksign as [|s slacksign]; destruct weights as [|w weights];
    try exact H.
  cbn [substituteStrongCGLoop]. cbv zeta.
  destruct (strongcgSlackCoef _ _ _ _ _) as [cutar|]; [|apply IH; exact H].
  destruct (SCIPisZero _ cutar); [apply IH; exact H|].
  unfold substituteSlack.
  match goal with
  | |- context [varVecAddScaledRowCoefs ?a ?b ?c ?d] =>
      pose proof (varVecAddScaledRowCoefs_length a b c d
                    (getRow_wellformed scip r Hrows) H) as L;
      destruct (varVecAddScaledRowCoefs a b c d) as [inds' coefs']
  end.
  simpl in L.
  destruct (s =? 1)%Z; apply IH; exact L.
Qed.

(** X15.  When [SCIPcalcStrongCG] succeeds, the cut is clean (the
    coefficient array has the length of the index array and no coefficient
    is zero within the sum epsilon), its efficacy is the one of the cut that
    is returned, and its rank is the rank of the aggregation plus one.  The
    aggregation row and the rows of the LP have as many values as indices. *)
Theorem SCIPcalcStrongCG_returns_clean_cut (scip : SCIP) (sol : SCIP_SOL)
        (boundswitch : Q) (usevbds allowlocal : bool) (minfrac maxfrac scale : Q)
        (aggrrow : SCIP_AGGRROW) :
  rows_wellformed scip ->
  length (vals aggrrow) = length (inds aggrrow) ->
  let cut := SCIPcalcStrongCG scip sol boundswitch usevbds allowlocal minfrac maxfrac
               scale aggrrow in
  cut_success cut = true ->
  cut_clean scip (cut_coefs cut) (cut_inds cut) /\
  cut_efficacy cut = calcEfficacy scip sol (cut_coefs cut) (cut_rhs cut) (cut_inds cut) /\
  cut_rank cut = (rank aggrrow + 1)%Z.
Proof.
  intros Hrows Hlen. cbv zeta. unfold SCIPcalcStrongCG.
  assert (Hl0 : forall p : Q * list Q,
             p = (if negb (Qeq_bool scale 1)
                  then (scale * rhs aggrrow, map (fun v => v * scale) (vals aggrrow))
                  else (rhs aggrrow, vals aggrrow)) ->
             length (snd p) = length (inds aggrrow)).
  { intros p ->. destruct (negb _); simpl; [rewrite length_map|]; exact Hlen. }
  specialize (Hl0 _ eq_refl).
  destruct (if negb (Qeq_bool scale 1) then _ else _) as [cutrhs0 cutcoefs0].
  simpl in Hl0.
  pose proof (cleanupCut_clean scip (local aggrrow) (inds aggrrow) cutcoefs0 cutrhs0 Hl0)
    as [L1 _].
  destruct (cleanupCut scip (local aggrrow) (inds aggrrow) cutcoefs0 cutrhs0)
    as [[cutinds1 cutcoefs1] cutrhs1].
  simpl in L1.
  pose proof (cutsTransformStrongCG_length scip sol boundswitch usevbds allowlocal
                cutcoefs1 cutrhs1 cutinds1 L1) as L2.
  cbv zeta in L2.
  set (tr := cutsTransformStrongCG _ _ _ _ _ _ _ _) in *.
  destruct (tr_freevariable tr); [discriminate|].
  destruct (_ || _); [discriminate|].
  match goal with
  | |- context [cutsRoundStrongCG scip ?tmp ?f0 ?k] =>
      pose proof (cutsRoundStrongCG_length scip tmp f0 k L2) as L3;
      set (st1 := cutsRoundStrongCG scip tmp f0 k) in *
  end.
  unfold cutsSubstituteStrongCG.
  match goal with
  | |- context [substituteStrongCGLoop scip ?w ?s ?r ?sc ?f0 ?k ?c ?i ?rh] =>
      pose proof (substituteStrongCGLoop_length scip sc f0 k r Hrows s w c i rh L3) as L4;
      destruct (substituteStrongCGLoop scip w s r sc f0 k c i rh) as [[coefs2 inds2] rhs2]
  end.
  simpl in L4.
  match goal with
  | |- context [cleanupCut scip ?loc inds2 coefs2 ?rh] =>
      pose proof (cleanupCut_clean scip loc inds2 coefs2 rh L4) as Hc;
      destruct (cleanupCut scip loc inds2 coefs2 rh) as [[inds3 coefs3] rhs3]
  end.
  intros _. simpl. split; [exact Hc|]. split; reflexivity.
Qed.

Lemma SCIPcalcStrongCG_returns_clean_cut_witness :
  let cut := SCIPcalcStrongCG example_diff_scip example_origin (1 # 2) false false
               (5 # 100) (95 # 100) 1 example_diff_aggrrow in
  rows_wellformed example_diff_scip /\
  length (vals example_diff_aggrrow) = length (inds example_diff_aggrrow) /\
  cut_success cut = true /\
  cut_clean example_diff_scip (cut_coefs cut) (cut_inds cut).
Proof.
  intros cut.
  assert (H1 : rows_wellformed example_diff_scip).
  { intros row [<-|[]]. reflexivity. }
  assert (H2 : length (vals example_diff_aggrrow) = length (inds example_diff_aggrrow))
    by reflexivity.
  assert (H3 : cut_success cut = true) by (vm_compute; reflexivity).
  split; [exact H1|]. split; [exact H2|]. split; [exact H3|].
  exact (proj1 (SCIPcalcStrongCG_returns_clean_cut example_diff_scip example_origin (1 # 2)
                  false false (5 # 100) (95 # 100) 1 example_diff_aggrrow H1 H2 H3)).
Defined.
(* ================================================================== *)
(** ** Flow cover: the structure of the cover *)
(* ================================================================== *)

Lemma int_get_arr_set_same (l : list Z) (k : nat) (x : Z) :
  (k < length l)%nat -> int_get (arr_set l k x) k = x.
Proof.
  intros H. unfold int_get. apply nth_error_nth.
  apply nth_error_arr_set_same. exact H.
Qed.

Lemma int_get_arr_set_other (l : list Z) (k j : nat) (x : Z) :
  j <> k -> int_get (arr_set l k x) j = int_get l j.
Proof.
  intros H. unfold int_get.
  destruct (nth_error l j) as [a|] eqn:E.
  - rewrite (nth_error_nth l j 0%Z E).
    apply nth_error_nth. rewrite nth_error_arr_set by exact H. exact E.
  - assert (E' : nth_error (arr_set l k x) j = None)
      by (rewrite nth_error_arr_set by exact H; exact E).
    apply nth_error_None in E, E'.
    rewrite !nth_overflow by assumption. reflexivity.
Qed.

Lemma sumWhere_ext (P1 P2 : nat -> bool) (u : nat -> Q) (l : list nat) :
  (forall j, In j l -> P1 j = P2 j) -> sumWhere P1 u l == sumWhere P2 u l.
Proof.
  induction l as [|j l IH]; intros H; simpl; [reflexivity|].
  rewrite (H j (or_introl eq_refl)), IH; [reflexivity|].
  intros j' Hj'. apply H. right. exact Hj'.
Qed.

Lemma sumWhere_none (P : nat -> bool) (u : nat -> Q) (l : list nat) :
  (forall j, In j l -> P j = false) -> sumWhere P u l == 0.
Proof.
  induction l as [|j l IH]; intros H; simpl; [reflexivity|].
  rewrite (H j (or_introl eq_refl)), IH; [ring|].
  intros j' Hj'. apply H. right. exact Hj'.
Qed.

Lemma sumWhere_filter_split (g P : nat -> bool) (u : nat -> Q) (l : list nat) :
  sumWhere P u l ==
  sumWhere P u (filter g l) + sumWhere P u (filter (fun j => negb (g j)) l).
Proof.
  induction l as [|j l IH]; simpl; [ring|].
  rewrite IH. destruct (g j); simpl; ring.
Qed.

Lemma filter_ext_length (P1 P2 : nat -> bool) (l : list nat) :
  (forall j, In j l -> P1 j = P2 j) -> length (filter P1 l) = length (filter P2 l).
Proof.
  intros H. rewrite (filter_ext_in P1 P2 l H). reflexivity.
Qed.

Lemma filter_none_length (P : nat -> bool) (l : list nat) :
  (forall j, In j l -> P j = false) -> length (filter P l) = 0%nat.
Proof.
  induction l as [|j l IH]; intros H; simpl; [reflexivity|].
  rewrite (H j (or_introl eq_refl)). apply IH.
  intros j' Hj'. apply H. right. exact Hj'.
Qed.

Lemma filter_split_length (g P : nat -> bool) (l : list nat) :
  length (filter P l) =
  (length (filter P (filter g l)) + length (filter P (filter (fun j => negb (g j)) l)))%nat.
Proof.
  induction l as [|j l IH]; simpl; [reflexivity|].
  destruct (g j); simpl; destruct (P j); simpl; lia.
Qed.

Section FlowCoverStructure.
Variable SCIPselectWeightedDownRealRealInt : list KPITEM -> Q -> list KPITEM.
Variable SCIPsolveKnapsackExactly : list Z -> list Q -> Z -> list nat -> bool * KPSOLUTION.
Variable SCIPcalcIntegralScalar : list Q -> Q -> Q -> Z -> Q -> Q * bool.
Variable set : SCIP_SET.
Variable snf : SNF_RELAXATION.

(** *** The fixing loop *)

(** a variable that is fixed: its status is set, and it is counted *)
Lemma fixing_inv_fix (done : list nat) (fx : FIXING) (j : nat) (s : Z) (fc' : FLOWCOVER) :
  fixing_inv set snf done fx ->
  ~ In j done ->
  (j < length (flowcoverstatus (fx_cover fx)))%nat ->
  isItem set snf j = false ->
  s = 1%Z \/ s = (-1)%Z ->
  flowcoverstatus fc' = arr_set (flowcoverstatus (fx_cover fx)) j s ->
  nflowcovervars fc' =
    (nflowcovervars (fx_cover fx) + if (s =? 1)%Z then 1 else 0)%nat ->
  nnonflowcovervars fc' =
    (nnonflowcovervars (fx_cover fx) + if (s =? 1)%Z then 0 else 1)%nat ->
  flowcoverweight fc' ==
    flowcoverweight (fx_cover fx) + (if (s =? 1)%Z then flowcap snf j else 0) ->
  fixing_inv set snf (done ++ [j])
             (mkFixing fc' (fx_items fx) (fx_nn1items fx) (fx_n1itemsweight fx)
                       (fx_n2itemsminweight fx)).
Proof.
  intros (I1 & I2 & I3 & I4 & I5 & I6) Hj Hlt Hitem Hs Est En Enn Ew.
  unfold fixing_inv. cbn [fx_cover fx_items]. rewrite Est.
  set (st := flowcoverstatus (fx_cover fx)) in *.
  assert (Hsame : int_get (arr_set st j s) j = s) by (apply int_get_arr_set_same; exact Hlt).
  assert (Hother : forall j', In j' done -> int_get (arr_set st j s) j' = int_get st j').
  { intros j' Hj'. apply int_get_arr_set_other. intros ->. exact (Hj Hj'). }
  assert (Ein : inCover (arr_set st j s) j = (s =? 1)%Z)
    by (unfold inCover; rewrite Hsame; reflexivity).
  assert (Enot : notInCover (arr_set st j s) j = (s =? -1)%Z)
    by (unfold notInCover; rewrite Hsame; reflexivity).
  split; [|split; [|split; [|split; [|split]]]].
  - rewrite filter_app. cbn [filter]. rewrite Hitem, app_nil_r. exact I1.
  - intros j' Hin Hi. apply in_app_or in Hin. destruct Hin as [Hin|[<-|[]]].
    + rewrite Hother by exact Hin. apply I2; assumption.
    + rewrite Hsame. exact Hs.
  - intros j' Hj'.
    assert (Hne : j' <> j).
    { intros ->. destruct Hj' as [Hn|Hi]; [|congruence].
      apply Hn. apply in_or_app. right. left. reflexivity. }
    rewrite int_get_arr_set_other by exact Hne. apply I3.
    destruct Hj' as [Hn|Hi]; [left|right; exact Hi].
    intros Hin. apply Hn. apply in_or_app. left. exact Hin.
  - rewrite En, I4, filter_app, length_app.
    rewrite (filter_ext_length (inCover (arr_set st j s)) (inCover st) done)
      by (intros j' Hj'; unfold inCover; rewrite Hother by exact Hj'; reflexivity).
    cbn [filter]. rewrite Ein. destruct (s =? 1)%Z; reflexivity.
  - rewrite Enn, I5, filter_app, length_app.
    rewrite (filter_ext_length (notInCover (arr_set st j s)) (notInCover st) done)
      by (intros j' Hj'; unfold notInCover; rewrite Hother by exact Hj'; reflexivity).
    cbn [filter]. rewrite Enot. destruct Hs as [-> | ->]; reflexivity.
  - rewrite Ew, I6, sumWhere_app.
    rewrite (sumWhere_ext (inCover (arr_set st j s)) (inCover st) (flowcap snf) done)
      by (intros j' Hj'; unfold inCover; rewrite Hother by exact Hj'; reflexivity).
    cbn [sumWhere]. rewrite Ein. destruct (s =? 1)%Z; ring.
Qed.

(** a variable that is left to the knapsack problem *)
Lemma fixing_inv_item (done : list nat) (fx : FIXING) (j : nat) (nn1 : nat) (w : Q)
      (mw : option Q) :
  fixing_inv set snf done fx ->
  ~ In j done ->
  isItem set snf j = true ->
  fixing_inv set snf (done ++ [j]) (mkFixing (fx_cover fx) (fx_items fx ++ [j]) nn1 w mw).
Proof.
  intros (I1 & I2 & I3 & I4 & I5 & I6) Hj Hitem.
  unfold fixing_inv. cbn [fx_cover fx_items].
  set (st := flowcoverstatus (fx_cover fx)) in *.
  assert (H0 : int_get st j = 0%Z) by (apply I3; left; exact Hj).
  assert (Ein : inCover st j = false) by (unfold inCover; rewrite H0; reflexivity).
  assert (Enot : notInCover st j = false) by (unfold notInCover; rewrite H0; reflexivity).
  split; [|split; [|split; [|split; [|split]]]].
  - rewrite filter_app. cbn [filter]. rewrite Hitem, I1. reflexivity.
  - intros j' Hin Hi. apply in_app_or in Hin. destruct Hin as [Hin|[<-|[]]].
    + apply I2; assumption.
    + congruence.
  - intros j' Hj'. apply I3. destruct Hj' as [Hn|Hi]; [left|right; exact Hi].
    intros Hin. apply Hn. apply in_or_app. left. exact Hin.
  - rewrite I4, filter_app, length_app. cbn [filter]. rewrite Ein. simpl. lia.
  - rewrite I5, filter_app, length_app. cbn [filter]. rewrite Enot. simpl. lia.
  - rewrite I6, sumWhere_app. cbn [sumWhere]. rewrite Ein. ring.
Qed.

Lemma length_status_fixInAdvance (js : list nat) : forall fx : FIXING,
  length (flowcoverstatus (fx_cover (fixInAdvance set snf js fx))) =
  length (flowcoverstatus (fx_cover fx)).
Proof.
  induction js as [|j js IH]; intros fx; [reflexivity|].
  cbn [fixInAdvance]. cbv zeta. rewrite IH.
  repeat match goal with
         | |- context [if ?b then _ else _] =>
             match type of b with bool => destruct b end
         end; cbn [fx_cover flowcoverstatus]; rewrite ?length_arr_set; reflexivity.
Qed.

Lemma fixInAdvance_inv (js : list nat) : forall (done : list nat) (fx : FIXING),
  NoDup (done ++ js) ->
  (forall j, In j js -> (j < length (flowcoverstatus (fx_cover fx)))%nat) ->
  fixing_inv set snf done fx ->
  fixing_inv set snf (done ++ js) (fixInAdvance set snf js fx).
Proof.
  induction js as [|j js IH]; intros done fx Hnd Hlen Hinv.
  - rewrite app_nil_r. exact Hinv.
  - cbn [fixInAdvance]. cbv zeta.
    assert (Hj : ~ In j done).
    { apply NoDup_remove_2 in Hnd. intros Hin. apply Hnd. apply in_or_app.
      left. exact Hin. }
    assert (Hjl : (j < length (flowcoverstatus (fx_cover fx)))%nat)
      by (apply Hlen; left; reflexivity).
    replace (done ++ j :: js) with ((done ++ [j]) ++ js)
      by (rewrite <- app_assoc; reflexivity).
    assert (Hnd' : NoDup ((done ++ [j]) ++ js))
      by (rewrite <- app_assoc; exact Hnd).
    assert (Hfix : forall s fc',
      isItem set snf j = false ->
      s = 1%Z \/ s = (-1)%Z ->
      flowcoverstatus fc' = arr_set (flowcoverstatus (fx_cover fx)) j s ->
      nflowcovervars fc' =
        (nflowcovervars (fx_cover fx) + if (s =? 1)%Z then 1 else 0)%nat ->
      nnonflowcovervars fc' =
        (nnonflowcovervars (fx_cover fx) + if (s =? 1)%Z then 0 else 1)%nat ->
      flowcoverweight fc' ==
        flowcoverweight (fx_cover fx) + (if (s =? 1)%Z then flowcap snf j else 0) ->
      fixing_inv set snf ((done ++ [j]) ++ js)
        (fixInAdvance set snf js
           (mkFixing fc' (fx_items fx) (fx_nn1items fx) (fx_n1itemsweight fx)
                     (fx_n2itemsminweight fx)))).
    { intros s fc' Hi Hs Est En Enn Ew.
      apply IH; [exact Hnd'| |].
      - intros j' Hj'. cbn [fx_cover]. rewrite Est, length_arr_set.
        apply Hlen. right. exact Hj'.
      - apply (fixing_inv_fix done fx j s fc'); assumption. }
    unfold isItem in Hfix.
    destruct (SCIPisFeasZero set (arr_get (transvarvubcoefs snf) j)) eqn:Ez.
    { apply (Hfix (-1)%Z); cbn [flowcoverstatus nflowcovervars nnonflowcovervars
                                 flowcoverweight Z.eqb Pos.eqb];
        try reflexivity; try lia; ring. }
    destruct (SCIPisFeasIntegral set (arr_get (transbinvarsolvals snf) j)) eqn:Ei;
      cbn [negb].
    2:{ assert (Hit : isItem set snf j = true) by (unfold isItem; rewrite Ez, Ei; reflexivity).
        destruct (int_get (transvarcoefs snf) j =? 1)%Z.
        - apply IH; [exact Hnd'| |].
          + intros j' Hj'. cbn [fx_cover]. apply Hlen. right. exact Hj'.
          + apply fixing_inv_item; assumption.
        - apply IH; [exact Hnd'| |].
          + intros j' Hj'. cbn [fx_cover]. apply Hlen. right. exact Hj'.
          + apply fixing_inv_item; assumption. }
    cbn [negb andb] in Hfix.
    destruct ((int_get (transvarcoefs snf) j =? 1)%Z
              && Qlt_bool (arr_get (transbinvarsolvals snf) j) (1 # 2)).
    { apply (Hfix (-1)%Z); cbn [flowcoverstatus nflowcovervars nnonflowcovervars
                                 flowcoverweight Z.eqb Pos.eqb];
        try reflexivity; try lia; ring. }
    destruct ((int_get (transvarcoefs snf) j =? 1)%Z
              && Qlt_bool (1 # 2) (arr_get (transbinvarsolvals snf) j)) eqn:E1.
    { apply andb_true_iff in E1. destruct E1 as [E1 _].
      apply (Hfix 1%Z); cbn [flowcoverstatus nflowcovervars nnonflowcovervars
                              flowcoverweight Z.eqb Pos.eqb];
        try reflexivity; try lia.
      unfold flowcap, inN1, vubcoef. rewrite E1. reflexivity. }
    destruct ((int_get (transvarcoefs snf) j =? -1)%Z
              && Qlt_bool (1 # 2) (arr_get (transbinvarsolvals snf) j)) eqn:E2.
    { apply andb_true_iff in E2. destruct E2 as [E2 _].
      apply (Hfix 1%Z); cbn [flowcoverstatus nflowcovervars nnonflowcovervars
                              flowcoverweight Z.eqb Pos.eqb];
        try reflexivity; try lia.
      unfold flowcap, inN1, vubcoef.
      apply Z.eqb_eq in E2. rewrite E2. reflexivity. }
    apply (Hfix (-1)%Z); cbn [flowcoverstatus nflowcovervars nnonflowcovervars
                               flowcoverweight Z.eqb Pos.eqb];
      try reflexivity; try lia; ring.
Qed.

Lemma int_get_repeat_zero (n j : nat) : int_get (repeat 0%Z n) j = 0%Z.
Proof.
  unfold int_get. revert j. induction n as [|n IH]; intros [|j]; simpl; auto.
Qed.

Lemma fixedInAdvance_inv :
  fixing_inv set snf (seq 0 (ntransvars snf)) (fixedInAdvance set snf) /\
  length (flowcoverstatus (fx_cover (fixedInAdvance set snf))) = ntransvars snf.
Proof.
  unfold fixedInAdvance. split.
  - apply (fixInAdvance_inv (seq 0 (ntransvars snf)) []).
    + simpl. apply seq_NoDup.
    + intros j Hj. cbn [fx_cover flowcoverstatus]. rewrite repeat_length.
      apply in_seq in Hj. lia.
    + unfold fixing_inv. cbn [fx_cover fx_items flowcoverstatus nflowcovervars
                               nnonflowcovervars flowcoverweight filter length sumWhere].
      split; [reflexivity|]. split; [intros j []|].
      split; [intros j _; apply int_get_repeat_zero|].
      split; [reflexivity|]. split; reflexivity.
  - rewrite length_status_fixInAdvance. cbn [fx_cover flowcoverstatus].
    apply repeat_length.
Qed.

(** X16.  After the fixing loop of [getFlowCover] every variable is fixed
    or an item of the knapsack problem: the items are, in increasing order,
    the variables with a capacity that is not zero and a fractional binary
    variable, their status is still 0, every other variable has status +1
    or -1, and the number of variables in the cover, of variables not in
    the cover and of items add up to the number of variables (the
    assertion of the source). *)
Theorem getFlowCover_fixing_partitions_variables :
  let fx := fixedInAdvance set snf in
  let status := flowcoverstatus (fx_cover fx) in
  let n := ntransvars snf in
  fx_items fx = filter (isItem set snf) (seq 0 n) /\
  length status = n /\
  (forall j, (j < n)%nat ->
             if isItem set snf j then int_get status j = 0%Z
             else int_get status j = 1%Z \/ int_get status j = (-1)%Z) /\
  (nflowcovervars (fx_cover fx) + nnonflowcovervars (fx_cover fx)
   + length (fx_items fx) = n)%nat.
Proof.
  cbv zeta.
  destruct fixedInAdvance_inv as [(I1 & I2 & I3 & I4 & I5 & I6) L].
  split; [exact I1|]. split; [exact L|]. split.
  - intros j Hj. destruct (isItem set snf j) eqn:E.
    + apply I3. right. exact E.
    + apply I2; [apply in_seq; lia|exact E].
  - rewrite I4, I5, I1.
    set (st := flowcoverstatus (fx_cover (fixedInAdvance set snf))) in *.
    assert (H : forall l : list nat,
               (forall j, In j l -> if isItem set snf j then int_get st j = 0%Z
                                    else int_get st j = 1%Z \/ int_get st j = (-1)%Z) ->
               (length (filter (inCover st) l) + length (filter (notInCover st) l)
                + length (filter (isItem set snf) l) = length l)%nat).
    { induction l as [|j l IH]; intros Hl; [reflexivity|].
      assert (IHl := IH (fun j' Hj' => Hl j' (or_intror Hj'))).
      pose proof (Hl j (or_introl eq_refl)) as Hj.
      simpl. unfold inCover at 1, notInCover at 1.
      destruct (isItem set snf j).
      - rewrite Hj. simpl. lia.
      - destruct Hj as [-> | ->]; simpl; lia. }
    rewrite H; [apply length_seq|].
    intros j Hj. apply in_seq in Hj. destruct (isItem set snf j) eqn:E.
    + apply I3. right. exact E.
    + apply I2; [apply in_seq; lia|exact E].
Qed.

End FlowCoverStructure.

(* ================================================================== *)
(** ** Flow cover: the cover that is built *)
(* ================================================================== *)

Lemma cover_extends_nil (snf : SNF_RELAXATION) (fc : FLOWCOVER) :
  cover_extends snf [] fc fc.
Proof.
  unfold cover_extends. simpl.
  split; [reflexivity|]. split; [reflexivity|]. split; [intros j []|].
  split; [lia|]. split; [lia|ring].
Qed.

Lemma cover_extends_one (snf : SNF_RELAXATION) (fc fc' : FLOWCOVER) (j : nat) (s : Z) :
  (j < length (flowcoverstatus fc))%nat ->
  s = 1%Z \/ s = (-1)%Z ->
  flowcoverstatus fc' = arr_set (flowcoverstatus fc) j s ->
  nflowcovervars fc' = (nflowcovervars fc + if (s =? 1)%Z then 1 else 0)%nat ->
  nnonflowcovervars fc' = (nnonflowcovervars fc + if (s =? 1)%Z then 0 else 1)%nat ->
  flowcoverweight fc' == flowcoverweight fc + (if (s =? 1)%Z then flowcap snf j else 0) ->
  cover_extends snf [j] fc fc'.
Proof.
  intros Hlt Hs Est En Enn Ew. unfold cover_extends. rewrite Est.
  set (st := flowcoverstatus fc) in *.
  assert (Hsame : int_get (arr_set st j s) j = s) by (apply int_get_arr_set_same; exact Hlt).
  assert (Ein : inCover (arr_set st j s) j = (s =? 1)%Z)
    by (unfold inCover; rewrite Hsame; reflexivity).
  assert (Enot : notInCover (arr_set st j s) j = (s =? -1)%Z)
    by (unfold notInCover; rewrite Hsame; reflexivity).
  split; [apply length_arr_set|].
  split.
  { intros j' Hj'. apply int_get_arr_set_other. intros ->. apply Hj'. left. reflexivity. }
  split.
  { intros j' [<-|[]]. rewrite Hsame. exact Hs. }
  cbn [filter sumWhere]. rewrite Ein, Enot.
  split; [rewrite En; destruct (s =? 1)%Z; reflexivity|].
  split; [rewrite Enn; destruct Hs as [-> | ->]; reflexivity|].
  rewrite Ew. destruct (s =? 1)%Z; ring.
Qed.

Lemma cover_extends_app (snf : SNF_RELAXATION) (l1 l2 : list nat) (fc fc1 fc2 : FLOWCOVER) :
  NoDup (l1 ++ l2) ->
  cover_extends snf l1 fc fc1 -> cover_extends snf l2 fc1 fc2 ->
  cover_extends snf (l1 ++ l2) fc fc2.
Proof.
  intros Hnd (A1 & A2 & A3 & A4 & A5 & A6) (B1 & B2 & B3 & B4 & B5 & B6).
  unfold cover_extends.
  assert (Hdisj : forall j, In j l1 -> ~ In j l2).
  { intros j H1 H2. revert Hnd H1 H2. clear. induction l1 as [|a l1 IH]; intros Hnd H1 H2.
    - destruct H1.
    - simpl in Hnd. inversion Hnd as [|? ? Hn Hnd']; subst.
      destruct H1 as [<-|H1].
      + apply Hn. apply in_or_app. right. exact H2.
      + exact (IH Hnd' H1 H2). }
  assert (Hkeep : forall j, In j l1 ->
                    int_get (flowcoverstatus fc2) j = int_get (flowcoverstatus fc1) j).
  { intros j Hj. apply B2. apply Hdisj. exact Hj. }
  split; [congruence|].
  split.
  { intros j Hj. rewrite B2, A2; [reflexivity| |];
      intros Hin; apply Hj; apply in_or_app; [left|right]; exact Hin. }
  split.
  { intros j Hj. apply in_app_or in Hj. destruct Hj as [Hj|Hj].
    - rewrite Hkeep by exact Hj. apply A3. exact Hj.
    - apply B3. exact Hj. }
  rewrite !filter_app, !length_app, sumWhere_app.
  rewrite (filter_ext_length (inCover (flowcoverstatus fc2)) (inCover (flowcoverstatus fc1)) l1)
    by (intros j Hj; unfold inCover; rewrite Hkeep by exact Hj; reflexivity).
  rewrite (filter_ext_length (notInCover (flowcoverstatus fc2))
                             (notInCover (flowcoverstatus fc1)) l1)
    by (intros j Hj; unfold notInCover; rewrite Hkeep by exact Hj; reflexivity).
  rewrite (sumWhere_ext (inCover (flowcoverstatus fc2)) (inCover (flowcoverstatus fc1))
                        (flowcap snf) l1)
    by (intros j Hj; unfold inCover; rewrite Hkeep by exact Hj; reflexivity).
  split; [lia|]. split; [lia|]. rewrite B6, A6. ring.
Qed.

Lemma cover_extends_perm (snf : SNF_RELAXATION) (l l' : list nat) (fc fc' : FLOWCOVER) :
  Permutation l l' -> cover_extends snf l fc fc' -> cover_extends snf l' fc fc'.
Proof.
  intros Hp (A1 & A2 & A3 & A4 & A5 & A6). unfold cover_extends.
  split; [exact A1|].
  split.
  { intros j Hj. apply A2. intros Hin. apply Hj. apply (Permutation_in _ Hp). exact Hin. }
  split.
  { intros j Hj. apply A3. apply (Permutation_in _ (Permutation_sym Hp)). exact Hj. }
  rewrite <- (Permutation_length (Permutation_filter _ (inCover (flowcoverstatus fc')) _ _ Hp)).
  rewrite <- (Permutation_length
                (Permutation_filter _ (notInCover (flowcoverstatus fc')) _ _ Hp)).
  rewrite <- (sumWhere_perm _ _ _ _ Hp).
  split; [exact A4|]. split; [exact A5|exact A6].
Qed.

Lemma NoDup_cons_app (j : nat) (l : list nat) : NoDup (j :: l) -> NoDup ([j] ++ l).
Proof. intros H. exact H. Qed.

Lemma buildFromSolItems_extends (snf : SNF_RELAXATION) (sol : list nat) :
  forall fc : FLOWCOVER,
    NoDup sol ->
    (forall j, In j sol -> (j < length (flowcoverstatus fc))%nat) ->
    cover_extends snf sol fc
      (buildFromSolItems (transvarcoefs snf) (transvarvubcoefs snf) sol fc).
Proof.
  induction sol as [|j sol IH]; intros fc Hnd Hlt; [apply cover_extends_nil|].
  cbn [buildFromSolItems]. cbv zeta.
  inversion Hnd as [|? ? Hn Hnd']; subst.
  assert (Hj : (j < length (flowcoverstatus fc))%nat) by (apply Hlt; left; reflexivity).
  change (j :: sol) with ([j] ++ sol).
  destruct (int_get (transvarcoefs snf) j =? 1)%Z eqn:E.
  - eapply cover_extends_app; [exact Hnd| |apply IH].
    + apply (cover_extends_one snf fc _ j (-1)%Z Hj);
        cbn [flowcoverstatus nflowcovervars nnonflowcovervars flowcoverweight
             Z.eqb Pos.eqb];
        try reflexivity; try lia; ring.
    + exact Hnd'.
    + intros j' Hj'. cbn [flowcoverstatus]. rewrite length_arr_set. apply Hlt.
      right. exact Hj'.
  - eapply cover_extends_app; [exact Hnd| |apply IH].
    + apply (cover_extends_one snf fc _ j 1%Z Hj);
        cbn [flowcoverstatus nflowcovervars nnonflowcovervars flowcoverweight
             Z.eqb Pos.eqb];
        try reflexivity; try lia.
      unfold flowcap, inN1, vubcoef. rewrite E. ring.
    + exact Hnd'.
    + intros j' Hj'. cbn [flowcoverstatus]. rewrite length_arr_set. apply Hlt.
      right. exact Hj'.
Qed.

Lemma buildFromNonSolItems_extends (snf : SNF_RELAXATION) (nonsol : list nat) :
  forall fc : FLOWCOVER,
    NoDup nonsol ->
    (forall j, In j nonsol -> (j < length (flowcoverstatus fc))%nat) ->
    cover_extends snf nonsol fc
      (buildFromNonSolItems (transvarcoefs snf) (transvarvubcoefs snf) nonsol fc).
Proof.
  induction nonsol as [|j sol IH]; intros fc Hnd Hlt; [apply cover_extends_nil|].
  cbn [buildFromNonSolItems]. cbv zeta.
  inversion Hnd as [|? ? Hn Hnd']; subst.
  assert (Hj : (j < length (flowcoverstatus fc))%nat) by (apply Hlt; left; reflexivity).
  change (j :: sol) with ([j] ++ sol).
  destruct (int_get (transvarcoefs snf) j =? 1)%Z eqn:E.
  - eapply cover_extends_app; [exact Hnd| |apply IH].
    + apply (cover_extends_one snf fc _ j 1%Z Hj);
        cbn [flowcoverstatus nflowcovervars nnonflowcovervars flowcoverweight
             Z.eqb Pos.eqb];
        try reflexivity; try lia.
      unfold flowcap, inN1, vubcoef. rewrite E. ring.
    + exact Hnd'.
    + intros j' Hj'. cbn [flowcoverstatus]. rewrite length_arr_set. apply Hlt.
      right. exact Hj'.
  - eapply cover_extends_app; [exact Hnd| |apply IH].
    + apply (cover_extends_one snf fc _ j (-1)%Z Hj);
        cbn [flowcoverstatus nflowcovervars nnonflowcovervars flowcoverweight
             Z.eqb Pos.eqb];
        try reflexivity; try lia; ring.
    + exact Hnd'.
    + intros j' Hj'. cbn [flowcoverstatus]. rewrite length_arr_set. apply Hlt.
      right. exact Hj'.
Qed.

(** [buildFlowCover] decides on the items of the knapsack solution *)
Lemma buildFlowCover_extends (snf : SNF_RELAXATION) (kp : KPSOLUTION) (fc : FLOWCOVER)
      (items : list nat) :
  Permutation (solitems kp ++ nonsolitems kp) items ->
  NoDup items ->
  (forall j, In j items -> (j < length (flowcoverstatus fc))%nat) ->
  let r := buildFlowCover (transvarcoefs snf) (transvarvubcoefs snf) (transrhs snf) kp fc in
  cover_extends snf items fc (fst r) /\
  snd r == flowcoverweight (fst r) - transrhs snf.
Proof.
  intros Hp Hnd Hlt. unfold buildFlowCover. cbn [fst snd]. split; [|reflexivity].
  assert (Hnd' : NoDup (solitems kp ++ nonsolitems kp))
    by (apply (Permutation_NoDup (Permutation_sym Hp)); exact Hnd).
  assert (Hin : forall j, In j (solitems kp ++ nonsolitems kp) ->
                          (j < length (flowcoverstatus fc))%nat).
  { intros j Hj. apply Hlt. apply (Permutation_in _ Hp). exact Hj. }
  apply (cover_extends_perm snf _ _ _ _ Hp).
  pose proof (buildFromSolItems_extends snf (solitems kp) fc
                (NoDup_app_remove_r _ _ Hnd')
                (fun j Hj => Hin j (in_or_app _ _ _ (or_introl Hj)))) as H1.
  eapply cover_extends_app; [exact Hnd'|exact H1|].
  apply buildFromNonSolItems_extends.
  - apply (NoDup_app_remove_l _ _ Hnd').
  - intros j Hj. destruct H1 as (L & _). rewrite L. apply Hin.
    apply in_or_app. right. exact Hj.
Qed.

(** a decision on the items makes the cover of the fixing loop complete *)
Lemma cover_complete_intro (set : SCIP_SET) (snf : SNF_RELAXATION)
      (fc0 fc' : FLOWCOVER) :
  let fx := fixedInAdvance set snf in
  length (flowcoverstatus fc0) = ntransvars snf ->
  (forall j, isItem set snf j = false ->
             int_get (flowcoverstatus fc0) j = int_get (flowcoverstatus (fx_cover fx)) j) ->
  nflowcovervars fc0 = nflowcovervars (fx_cover fx) ->
  nnonflowcovervars fc0 = nnonflowcovervars (fx_cover fx) ->
  flowcoverweight fc0 == flowcoverweight (fx_cover fx) ->
  cover_extends snf (fx_items fx) fc0 fc' ->
  cover_complete snf fc' (flowcoverweight fc').
Proof.
  intros fx L0 Hst0 Hn0 Hnn0 Hw0 (A1 & A2 & A3 & A4 & A5 & A6).
  destruct (fixedInAdvance_inv set snf) as [(I1 & I2 & I3 & I4 & I5 & I6) L].
  fold fx in I1, I2, I3, I4, I5, I6, L.
  set (n := ntransvars snf) in *.
  set (st := flowcoverstatus (fx_cover fx)) in *.
  set (st' := flowcoverstatus fc') in *.
  set (g := isItem set snf) in *.
  assert (Hitems : forall j, In j (fx_items fx) <-> (j < n)%nat /\ g j = true).
  { intros j. rewrite I1, filter_In, in_seq. split; intros [H1 H2]; split; try assumption; lia. }
  assert (Hnon : forall j, In j (filter (fun j => negb (g j)) (seq 0 n)) ->
                           int_get st' j = int_get st j).
  { intros j Hj. apply filter_In in Hj. destruct Hj as [_ Hg].
    apply negb_true_iff in Hg.
    rewrite A2; [apply Hst0; exact Hg|].
    intros Hin. apply Hitems in Hin. destruct Hin as [_ Hin]. unfold g in *. congruence. }
  assert (Hzero : forall j, In j (filter g (seq 0 n)) -> int_get st j = 0%Z).
  { intros j Hj. apply filter_In in Hj. apply I3. right. apply Hj. }
  unfold cover_complete. fold n. fold st'.
  split; [rewrite A1; exact L0|].
  split.
  { intros j Hj. destruct (g j) eqn:Eg.
    - apply A3. apply Hitems. split; assumption.
    - rewrite A2.
      + rewrite Hst0 by exact Eg. apply I2; [apply in_seq; lia|exact Eg].
      + intros Hin. apply Hitems in Hin. destruct Hin as [_ Hin]. congruence. }
  split; [|split].
  - rewrite A4, Hn0, I4, I1.
    rewrite (filter_split_length g (inCover st') (seq 0 n)).
    rewrite (filter_split_length g (inCover st) (seq 0 n)).
    rewrite (filter_none_length (inCover st) (filter g (seq 0 n)))
      by (intros j Hj; unfold inCover; rewrite (Hzero j Hj); reflexivity).
    rewrite (filter_ext_length (inCover st') (inCover st)
                               (filter (fun j => negb (g j)) (seq 0 n)))
      by (intros j Hj; unfold inCover; rewrite (Hnon j Hj); reflexivity).
    lia.
  - rewrite A5, Hnn0, I5, I1.
    rewrite (filter_split_length g (notInCover st') (seq 0 n)).
    rewrite (filter_split_length g (notInCover st) (seq 0 n)).
    rewrite (filter_none_length (notInCover st) (filter g (seq 0 n)))
      by (intros j Hj; unfold notInCover; rewrite (Hzero j Hj); reflexivity).
    rewrite (filter_ext_length (notInCover st') (notInCover st)
                               (filter (fun j => negb (g j)) (seq 0 n)))
      by (intros j Hj; unfold notInCover; rewrite (Hnon j Hj); reflexivity).
    lia.
  - rewrite A6, Hw0, I6, I1.
    rewrite (sumWhere_filter_split g (inCover st') (flowcap snf) (seq 0 n)).
    rewrite (sumWhere_filter_split g (inCover st) (flowcap snf) (seq 0 n)).
    rewrite (sumWhere_none (inCover st) (flowcap snf) (filter g (seq 0 n)))
      by (intros j Hj; unfold inCover; rewrite (Hzero j Hj); reflexivity).
    rewrite (sumWhere_ext (inCover st') (inCover st) (flowcap snf)
                          (filter (fun j => negb (g j)) (seq 0 n)))
      by (intros j Hj; unfold inCover; rewrite (Hnon j Hj); reflexivity).
    ring.
Qed.

Section FlowCoverComplete.
Variable SCIPselectWeightedDownRealRealInt : list KPITEM -> Q -> list KPITEM.
Variable SCIPsolveKnapsackExactly : list Z -> list Q -> Z -> list nat -> bool * KPSOLUTION.
Variable SCIPcalcIntegralScalar : list Q -> Q -> Q -> Z -> Q -> Q * bool.
Variable set : SCIP_SET.
Variable snf : SNF_RELAXATION.

Hypothesis Hfeastol : 0 <= num_feastol set.
Hypothesis Hselect :
  forall entries cap, Permutation (SCIPselectWeightedDownRealRealInt entries cap) entries.
Hypothesis Hexact :
  forall weights profits capacity items,
    fst (SCIPsolveKnapsackExactly weights profits capacity items) = true ->
    Permutation (solitems (snd (SCIPsolveKnapsackExactly weights profits capacity items))
                 ++ nonsolitems (snd (SCIPsolveKnapsackExactly weights profits capacity
                                                               items)))
                items.

Lemma knapsackEntries_items :
  let fx := fixedInAdvance set snf in
  let entries := knapsackEntries (transweightsreal snf (fx_items fx))
                                 (transprofitsreal snf (fx_items fx)) (fx_items fx) in
  Forall (fun it => kp_weight it = vubcoef snf (kp_item it)) entries /\
  map kp_item entries = fx_items fx.
Proof.
  intros fx entries.
  exact (knapsackEntries_spec snf
           (fun j => if (int_get (transvarcoefs snf) j =? 1)%Z
                     then 1 - arr_get (transbinvarsolvals snf) j
                     else arr_get (transbinvarsolvals snf) j) (fx_items fx)).
Qed.

(** whichever solver is used, its solution partitions the items *)
Lemma solveKnapsackSNF_partition :
  let fx := fixedInAdvance set snf in
  let r := solveKnapsackSNF SCIPselectWeightedDownRealRealInt SCIPsolveKnapsackExactly
                            SCIPcalcIntegralScalar set snf fx in
  Permutation (solitems (fst (fst (fst r))) ++ nonsolitems (fst (fst (fst r))))
              (fx_items fx).
Proof.
  intros fx r. unfold r, solveKnapsackSNF.
  destruct knapsackEntries_items as [HW Hitems]. fold fx in HW, Hitems.
  set (entries := knapsackEntries _ _ _) in *.
  destruct (SCIPsolveKnapsackApproximatelyLT_spec SCIPselectWeightedDownRealRealInt set snf
              Hselect entries (transcapacityreal snf fx) HW)
    as ((s' & _ & _ & Hp) & _ & _).
  rewrite Hitems in Hp.
  set (approx := SCIPsolveKnapsackApproximatelyLT _ set entries _) in *.
  destruct (if forallb _ _ then _ else _) as [scalar scalesuccess].
  destruct scalesuccess; [|exact Hp].
  destruct (_ && _); [|exact Hp].
  match goal with
  | |- context [SCIPsolveKnapsackExactly ?w ?p ?c ?i] =>
      pose proof (Hexact w p c i) as He;
      destruct (SCIPsolveKnapsackExactly w p c i) as [success kpsol]
  end.
  destruct success; [|exact Hp].
  cbn [fst snd] in *. apply He. reflexivity.
Qed.

Lemma cover_complete_weight (fc fc' : FLOWCOVER) (w w' : Q) :
  flowcoverstatus fc' = flowcoverstatus fc ->
  nflowcovervars fc' = nflowcovervars fc ->
  nnonflowcovervars fc' = nnonflowcovervars fc ->
  w' == w ->
  cover_complete snf fc w -> cover_complete snf fc' w'.
Proof.
  intros Es En Enn Ew (A1 & A2 & A3 & A4 & A5). unfold cover_complete.
  rewrite Es, En, Enn, Ew. repeat split; assumption.
Qed.

Lemma getFlowCover_found_complete :
  let r := getFlowCover SCIPselectWeightedDownRealRealInt SCIPsolveKnapsackExactly
                        SCIPcalcIntegralScalar set snf in
  fcr_found r = true ->
  cover_complete snf (fcr_cover r) (fcr_lambda r + transrhs snf).
Proof.
  intros r. unfold r, getFlowCover.
  set (fx := fixedInAdvance set snf).
  destruct (fixedInAdvance_inv set snf) as [(I1 & _) L]. fold fx in I1, L.
  assert (Hnd : NoDup (fx_items fx)) by (rewrite I1; apply NoDup_filter, seq_NoDup).
  assert (Hlt : forall j, In j (fx_items fx) ->
                          (j < length (flowcoverstatus (fx_cover fx)))%nat).
  { intros j Hj. rewrite I1 in Hj. apply filter_In in Hj. destruct Hj as [Hj _].
    apply in_seq in Hj. rewrite L. lia. }
  assert (Hnon : forall j, isItem set snf j = false -> ~ In j (fx_items fx)).
  { intros j Hj Hin. rewrite I1 in Hin. apply filter_In in Hin. destruct Hin. congruence. }
  destruct (SCIPisFeasLE set (transcapacityreal snf fx / (10 # 1)) 0) eqn:Ecap;
    [intros H; discriminate|].
  destruct (Nat.eqb_spec (length (fx_items fx)) 0) as [E0|E0].
  - intros _. cbn [fcr_cover fcr_lambda].
    apply (cover_complete_weight (fx_cover fx) _ (flowcoverweight (fx_cover fx)));
      try reflexivity; [ring|].
    apply (cover_complete_intro set snf (fx_cover fx) (fx_cover fx));
      try reflexivity; [exact L|].
    fold fx. destruct (fx_items fx); [apply cover_extends_nil|discriminate].
  - intros _.
    pose proof (solveKnapsackSNF_cases SCIPselectWeightedDownRealRealInt
                  SCIPsolveKnapsackExactly SCIPcalcIntegralScalar set snf) as Hcases.
    pose proof solveKnapsackSNF_partition as Hpart.
    cbv zeta in Hcases, Hpart. fold fx in Hcases, Hpart.
    destruct knapsackEntries_items as [HW Hitems]. fold fx in HW, Hitems.
    set (entries := knapsackEntries _ _ _) in *.
    destruct (solveKnapsackSNF _ _ _ set snf fx) as [[[kp entries'] afterfix] kpexact].
    cbn [fst snd] in Hcases, Hpart.
    pose proof (buildFlowCover_extends snf kp (fx_cover fx) (fx_items fx) Hpart Hnd Hlt)
      as [E1 Elam1].
    destruct (buildFlowCover _ _ _ kp (fx_cover fx)) as [fc1 lambda1] eqn:Eb1.
    cbn [fst snd] in E1, Elam1.
    destruct (SCIPisFeasLE set lambda1 0) eqn:El1.
    + destruct Hcases as [(_ & -> & ->) | (_ & -> & _)].
      * destruct (SCIPsolveKnapsackApproximatelyLT_spec SCIPselectWeightedDownRealRealInt
                    set snf Hselect entries (transcapacityreal snf fx) HW)
          as ((s' & _ & _ & Hp2) & _ & _).
        rewrite Hitems in Hp2.
        set (kp2 := fst (SCIPsolveKnapsackApproximatelyLT _ set entries _)) in *.
        set (fc0 := mkFlowCover (flowcoverstatus fc1) (nflowcovervars (fx_cover fx))
                                (nnonflowcovervars (fx_cover fx))
                                (flowcoverweight (fx_cover fx))).
        assert (Hlt0 : forall j, In j (fx_items fx) ->
                                 (j < length (flowcoverstatus fc0))%nat).
        { intros j Hj. cbn [fc0 flowcoverstatus]. destruct E1 as (A1 & _).
          rewrite A1. apply Hlt. exact Hj. }
        pose proof (buildFlowCover_extends snf kp2 fc0 (fx_items fx) Hp2 Hnd Hlt0)
          as [E2 Elam2].
        destruct (buildFlowCover _ _ _ kp2 fc0) as [fc2 lambda2].
        cbn [fst snd fcr_cover fcr_lambda] in *.
        apply (cover_complete_weight fc2 fc2 (flowcoverweight fc2));
          try reflexivity; [rewrite Elam2; ring|].
        apply (cover_complete_intro set snf fc0 fc2); try reflexivity.
        -- cbn [fc0 flowcoverstatus]. destruct E1 as (A1 & _). rewrite A1. exact L.
        -- intros j Hj. cbn [fc0 flowcoverstatus]. destruct E1 as (_ & A2 & _).
           apply A2. apply Hnon. exact Hj.
        -- exact E2.
      * (* the first solution was an approximate one: its lambda is positive *)
        pose proof (approximate_lambda_positive SCIPselectWeightedDownRealRealInt set snf
                      Hfeastol Hselect entries (fx_cover fx)
                      Ecap HW ltac:(rewrite Hitems; apply Permutation_refl) eq_refl) as H.
        fold fx in H. rewrite Eb1 in H. simpl in H.
        unfold SCIPisFeasGT in H. unfold SCIPisFeasLE in El1.
        unfold Qlt_bool in H. rewrite El1 in H. discriminate.
    + cbn [fcr_cover fcr_lambda].
      apply (cover_complete_weight fc1 fc1 (flowcoverweight fc1));
        try reflexivity; [rewrite Elam1; ring|].
      apply (cover_complete_intro set snf (fx_cover fx) fc1); try reflexivity;
        [exact L|exact E1].
Qed.

End FlowCoverComplete.

(** X17.  A flow cover that [getFlowCover] reports is complete: every
    variable of the relaxation has status +1 (in the cover) or -1 (not in
    the cover), the two counters count the variables of either status, and
    lambda is the sum of the capacities of the cover variables in N1 minus
    those in N2 minus the right hand side.  The selection around the
    weighted median permutes the items, the dynamic program answers with a
    partition of the items when it succeeds, and the feasibility tolerance
    is not negative. *)
Theorem getFlowCover_cover_is_complete
        (SCIPselectWeightedDownRealRealInt : list KPITEM -> Q -> list KPITEM)
        (SCIPsolveKnapsackExactly : list Z -> list Q -> Z -> list nat -> bool * KPSOLUTION)
        (SCIPcalcIntegralScalar : list Q -> Q -> Q -> Z -> Q -> Q * bool)
        (set : SCIP_SET) (snf : SNF_RELAXATION) :
  0 <= num_feastol set ->
  (forall entries cap, Permutation (SCIPselectWeightedDownRealRealInt entries cap) entries) ->
  (forall weights profits capacity items,
      fst (SCIPsolveKnapsackExactly weights profits capacity items) = true ->
      Permutation (solitems (snd (SCIPsolveKnapsackExactly weights profits capacity items))
                   ++ nonsolitems (snd (SCIPsolveKnapsackExactly weights profits capacity
                                                                 items)))
                  items) ->
  let r := getFlowCover SCIPselectWeightedDownRealRealInt SCIPsolveKnapsackExactly
                        SCIPcalcIntegralScalar set snf in
  fcr_found r = true ->
  let status := flowcoverstatus (fcr_cover r) in
  let n := ntransvars snf in
  length status = n /\
  (forall j, (j < n)%nat -> int_get status j = 1%Z \/ int_get status j = (-1)%Z) /\
  nflowcovervars (fcr_cover r) = length (filter (inCover status) (seq 0 n)) /\
  nnonflowcovervars (fcr_cover r) = length (filter (notInCover status) (seq 0 n)) /\
  fcr_lambda r == sumWhere (inCover status) (flowcap snf) (seq 0 n) - transrhs snf.
Proof.
  intros Hf Hsel Hex r Hfound.
  destruct (getFlowCover_found_complete SCIPselectWeightedDownRealRealInt
              SCIPsolveKnapsackExactly SCIPcalcIntegralScalar set snf Hf Hsel Hex Hfound)
    as (A1 & A2 & A3 & A4 & A5).
  cbv zeta. fold r in A1, A2, A3, A4, A5 |- *.
  split; [exact A1|]. split; [exact A2|]. split; [exact A3|]. split; [exact A4|].
  rewrite <- A5. ring.
Qed.

Lemma getFlowCover_cover_is_complete_witness :
  let r := getFlowCover example_select example_knapsack_all example_scalar
                        SCIP_DEFAULT_SET example_snf in
  fcr_found r = true /\
  fcr_lambda r ==
    sumWhere (inCover (flowcoverstatus (fcr_cover r))) (flowcap example_snf)
             (seq 0 (ntransvars example_snf)) - transrhs example_snf.
Proof.
  assert (Hf : 0 <= num_feastol SCIP_DEFAULT_SET) by (simpl; lra).
  assert (Hsel : forall entries cap, Permutation (example_select entries cap) entries)
    by (intros entries cap; apply Permutation_refl).
  assert (Hex : forall weights profits capacity items,
             fst (example_knapsack_all weights profits capacity items) = true ->
             Permutation (solitems (snd (example_knapsack_all weights profits capacity items))
                          ++ nonsolitems (snd (example_knapsack_all weights profits capacity
                                                                    items)))
                         items).
  { intros weights profits capacity items _. simpl. rewrite app_nil_r.
    apply Permutation_refl. }
  assert (Hfound : fcr_found (getFlowCover example_select example_knapsack_all example_scalar
                                           SCIP_DEFAULT_SET example_snf) = true)
    by reflexivity.
  cbv zeta. split; [exact Hfound|].
  exact (proj2 (proj2 (proj2 (proj2
           (getFlowCover_cover_is_complete example_select example_knapsack_all
              example_scalar SCIP_DEFAULT_SET example_snf Hf Hsel Hex Hfound))))).
Defined.
(* ================================================================== *)
(** ** Flow cover: the lifting function *)
(* ================================================================== *)

Lemma natQ_nonneg (i : nat) : 0 <= natQ i.
Proof.
  unfold natQ. change 0 with (inject_Z 0). rewrite <- Zle_Qle. lia.
Qed.

Lemma natQ_S (i : nat) : natQ (S i) == natQ i + 1.
Proof.
  unfold natQ. rewrite Nat2Z.inj_succ. unfold Z.succ. rewrite inject_Z_plus. reflexivity.
Qed.

(** where the search for the interval stops: at the start, or behind an
    entry of [M] that the value exceeds *)
Lemma liftingIndex_spec (set : SCIP_SET) (M : list Q) (r : nat) (v : Q) (fuel : nat) :
  forall i0 : nat,
    (i0 <= r)%nat ->
    let i := liftingIndex set M r v fuel i0 in
    (i0 <= i)%nat /\ (i <= r)%nat /\
    (i = i0 \/ ((0 < i)%nat /\ SCIPisGT set v (arr_get M i) = true)).
Proof.
  induction fuel as [|fuel IH]; intros i0 Hi0; simpl.
  - split; [lia|]. split; [exact Hi0|left; reflexivity].
  - destruct (Nat.ltb_spec i0 r) as [Hlt|Hge]; simpl.
    + destruct (SCIPisGT set v (arr_get M (S i0))) eqn:E.
      * destruct (IH (S i0) ltac:(lia)) as (A & B & C).
        split; [lia|]. split; [exact B|]. right.
        destruct C as [-> |C]; [split; [lia|exact E]|exact C].
      * split; [lia|]. split; [exact Hi0|left; reflexivity].
    + split; [lia|]. split; [exact Hi0|left; reflexivity].
Qed.

(** X18.  The lifting function is not negative on arguments that are not
    negative, for any lifting data with [M[0] = 0], a lambda that is not
    negative and a non-negative epsilon. *)
Theorem evaluateLiftingFunction_nonnegative (set : SCIP_SET) (liftingdata : LIFTINGDATA)
        (x : Q) :
  0 <= num_epsilon set ->
  0 <= ld_lambda liftingdata ->
  arr_get (ld_M liftingdata) 0 == 0 ->
  0 <= x ->
  0 <= evaluateLiftingFunction set liftingdata x.
Proof.
  intros Heps Hlam HM0 Hx. unfold evaluateLiftingFunction.
  destruct (liftingIndex_spec set (ld_M liftingdata) (ld_r liftingdata)
              (x + ld_lambda liftingdata) (ld_r liftingdata) 0 ltac:(lia))
    as (_ & Hir & Hi).
  set (i := liftingIndex set (ld_M liftingdata) (ld_r liftingdata)
                         (x + ld_lambda liftingdata) (ld_r liftingdata) 0) in *.
  clearbody i.
  assert (H1 : 0 <= natQ i * ld_lambda liftingdata).
  { apply Qmult_le_0_compat; [apply natQ_nonneg|exact Hlam]. }
  assert (H2 : 0 <= natQ i * ld_lambda liftingdata + x + - arr_get (ld_M liftingdata) i).
  { destruct Hi as [E|[Hpos Hgt]].
    - subst i. change (natQ 0) with 0. lra.
    - unfold SCIPisGT, SCIPepsilon in Hgt. apply Qlt_bool_iff in Hgt.
      destruct i as [|i']; [lia|].
      rewrite natQ_S.
      assert (H : 0 <= natQ i' * ld_lambda liftingdata)
        by (apply Qmult_le_0_compat; [apply natQ_nonneg|exact Hlam]).
      lra. }
  destruct (Nat.ltb i (ld_t liftingdata)).
  - destruct (SCIPisLE _ _ _); assumption.
  - destruct (Nat.ltb_spec i (ld_r liftingdata)) as [Hlt|Hge].
    + cbv zeta. destruct (SCIPisLT _ _ _); assumption.
    + assert (E : i = ld_r liftingdata) by lia.
      rewrite <- E. exact H2.
Qed.

Lemma evaluateLiftingFunction_nonnegative_witness :
  let ld := mkLiftingData [0; 5; 8] [5; 3] 2 1 0 0 2 3 1 in
  0 <= num_epsilon SCIP_DEFAULT_SET /\
  0 <= evaluateLiftingFunction SCIP_DEFAULT_SET ld 4.
Proof.
  intros ld.
  assert (He : 0 <= num_epsilon SCIP_DEFAULT_SET) by (unfold Qle; simpl; lia).
  split; [exact He|].
  apply (evaluateLiftingFunction_nonnegative SCIP_DEFAULT_SET ld 4 He).
  - unfold Qle; simpl; lia.
  - reflexivity.
  - unfold Qle; simpl; lia.
Defined.

(** *** The lifting data that is computed *)

Lemma liftingScan_inv (set : SCIP_SET) (snf : SNF_RELAXATION) (status : list Z)
      (lambda : Q) (js : list nat) :
  forall ls : LIFTSCAN,
    Forall (fun u => SCIPisGT set u lambda = true) (ls_m ls) ->
    ls_mp ls = SCIPinfinity set \/ In (ls_mp ls) (ls_m ls) ->
    let ls' := liftingScan set snf status lambda js ls in
    Forall (fun u => SCIPisGT set u lambda = true) (ls_m ls') /\
    (ls_mp ls' = SCIPinfinity set \/ In (ls_mp ls') (ls_m ls')).
Proof.
  induction js as [|i js IH]; intros ls Hm Hmp; [split; assumption|].
  cbn [liftingScan]. cbv zeta.
  apply IH.
  - destruct (_ =? 0)%Z.
    { destruct (SCIPisGT set _ lambda) eqn:E; cbn [ls_m]; [|exact Hm].
      apply Forall_snoc; assumption. }
    destruct (_ =? 1)%Z; [exact Hm|].
    destruct (_ =? 3)%Z; [|exact Hm].
    destruct (SCIPisGT set _ lambda) eqn:E; cbn [ls_m]; [|exact Hm].
    apply Forall_snoc; assumption.
  - destruct (_ =? 0)%Z.
    { destruct (SCIPisGT set _ lambda); cbn [ls_m ls_mp]; [|exact Hmp].
      destruct Hmp as [H|H]; [left; exact H|right; apply in_or_app; left; exact H]. }
    destruct (_ =? 1)%Z; [exact Hmp|].
    destruct (_ =? 3)%Z; [|exact Hmp].
    destruct (SCIPisGT set _ lambda); cbn [ls_m ls_mp]; [|exact Hmp].
    destruct (MIN_cases (ls_mp ls) (arr_get (transvarvubcoefs snf) i)) as [-> | ->].
    + destruct Hmp as [H|H]; [left; exact H|right; apply in_or_app; left; exact H].
    + right. apply in_or_app. right. left. reflexivity.
Qed.

Lemma insertDownReal_perm (k : Q) (keys : list Q) :
  Permutation (insertDownReal k keys) (k :: keys).
Proof.
  induction keys as [|k' keys IH]; simpl; [apply Permutation_refl|].
  destruct (Qle_bool k k'); [|apply Permutation_refl].
  apply Permutation_trans with (k' :: k :: keys); [apply perm_skip; exact IH|apply perm_swap].
Qed.

Lemma SCIPsortDownReal_perm (keys : list Q) : Permutation (SCIPsortDownReal keys) keys.
Proof.
  induction keys as [|k keys IH]; simpl; [apply Permutation_refl|].
  apply Permutation_trans with (k :: SCIPsortDownReal keys);
    [apply insertDownReal_perm|apply perm_skip; exact IH].
Qed.

Lemma prefixSums_length (m : list Q) : forall tmp : Q,
  length (prefixSums tmp m) = S (length m).
Proof.
  induction m as [|x m IH]; intros tmp; simpl; [reflexivity|]. rewrite IH. reflexivity.
Qed.

Lemma prefixSums_head (m : list Q) (tmp : Q) : arr_get (prefixSums tmp m) 0 = tmp.
Proof. destruct m; reflexivity. Qed.

Lemma prefixSums_step (m : list Q) : forall (tmp : Q) (i : nat),
  (i < length m)%nat ->
  arr_get (prefixSums tmp m) (S i) = arr_get (prefixSums tmp m) i + arr_get m i.
Proof.
  induction m as [|x m IH]; intros tmp i Hi; simpl in Hi; [lia|].
  destruct i as [|i].
  - cbn [prefixSums]. unfold arr_get at 1 2 3. cbn [nth].
    fold (arr_get (prefixSums (tmp + x) m) 0). rewrite prefixSums_head. reflexivity.
  - cbn [prefixSums]. unfold arr_get at 1 2 3. cbn [nth].
    fold (arr_get (prefixSums (tmp + x) m) (S i)).
    fold (arr_get (prefixSums (tmp + x) m) i). fold (arr_get m i).
    apply IH. lia.
Qed.

Lemma SCIPsortedvecFindDownReal_found (val : Q) (m : list Q) : forall pos : nat,
  In val m -> (SCIPsortedvecFindDownReal m val pos < pos + length m)%nat.
Proof.
  induction m as [|x m IH]; intros pos Hin; [destruct Hin|].
  simpl. destruct (Qle_bool x val) eqn:E; [lia|].
  destruct Hin as [->|Hin].
  - assert (H : Qle_bool val val = true) by (apply Qle_bool_iff; apply Qle_refl).
    congruence.
  - specialize (IH (S pos) Hin). lia.
Qed.

Lemma lastEqual_bounds (m : list Q) (mp : Q) (r fuel : nat) : forall t : nat,
  (t <= r)%nat ->
  (t <= lastEqual m mp r fuel t)%nat /\ (lastEqual m mp r fuel t <= r)%nat.
Proof.
  induction fuel as [|fuel IH]; intros t Ht; simpl; [lia|].
  destruct (Nat.ltb_spec t r) as [Hlt|Hge]; simpl; [|lia].
  destruct (Qeq_bool (arr_get m t) mp); [|lia].
  destruct (IH (S t) ltac:(lia)). lia.
Qed.

(** the lifting data that [computeLiftingData] declares valid fits
    together *)
Lemma computeLiftingData_ok (set : SCIP_SET) (snf : SNF_RELAXATION) (status : list Z)
      (lambda : Q) (liftingdata : LIFTINGDATA) :
  computeLiftingData set snf status lambda = Some liftingdata ->
  liftingdata_ok set liftingdata /\ ld_lambda liftingdata = lambda.
Proof.
  unfold computeLiftingData.
  destruct (liftingScan_inv set snf status lambda (seq 0 (ntransvars snf))
              (mkLiftScan [] 0 0 0 0 (SCIPinfinity set)) ltac:(constructor)
              ltac:(left; reflexivity)) as [Hm Hmp].
  set (ls := liftingScan set snf status lambda _ _) in *.
  destruct (SCIPisInfinity set (ls_mp ls)) eqn:Einf; [discriminate|].
  intros H. injection H as <-.
  split; [|reflexivity].
  pose proof (SCIPsortDownReal_perm (ls_m ls)) as Hperm.
  assert (Hin : In (ls_mp ls) (SCIPsortDownReal (ls_m ls))).
  { destruct Hmp as [E|Hin].
    - rewrite E in Einf. unfold SCIPisInfinity in Einf.
      apply Qle_bool_false_iff in Einf. exfalso. apply (Qlt_irrefl _ Einf).
    - apply (Permutation_in _ (Permutation_sym Hperm)). exact Hin. }
  assert (Hlen : length (SCIPsortDownReal (ls_m ls)) = length (ls_m ls))
    by (apply Permutation_length; exact Hperm).
  unfold liftingdata_ok.
  cbn [ld_M ld_m ld_r ld_t ld_lambda ld_mp ld_ml].
  split; [exact Hlen|].
  split; [rewrite prefixSums_length, Hlen; reflexivity|].
  split; [apply prefixSums_head|].
  split; [intros i Hi; apply prefixSums_step; lia|].
  split; [apply (Permutation_Forall (Permutation_sym Hperm)); exact Hm|].
  pose proof (SCIPsortedvecFindDownReal_found (ls_mp ls) _ 0%nat Hin) as Hfind.
  rewrite Hlen in Hfind.
  destruct (lastEqual_bounds (SCIPsortDownReal (ls_m ls)) (ls_mp ls) (length (ls_m ls))
              (length (ls_m ls))
              (S (SCIPsortedvecFindDownReal (SCIPsortDownReal (ls_m ls)) (ls_mp ls) 0))
              ltac:(lia)) as [B1 B2].
  split; [lia|]. split; [exact B2|]. split; [exact Hin|apply MIN_le_l].
Qed.

(** X19.  The lifting data that [computeLiftingData] declares valid fits
    together: [m] has [r] entries, all of them greater than lambda, and
    contains [mp]; [M] has [r + 1] entries, starts with zero and holds the
    partial sums of [m]; [t] lies between 1 and [r]; [ml] is at most
    lambda, which is stored unchanged.  In particular there is at least one
    entry, so that [M[1]] exists. *)
Theorem computeLiftingData_valid_data_fits (set : SCIP_SET) (snf : SNF_RELAXATION)
        (transvarflowcoverstatus : list Z) (lambda : Q) (liftingdata : LIFTINGDATA) :
  computeLiftingData set snf transvarflowcoverstatus lambda = Some liftingdata ->
  liftingdata_ok set liftingdata /\
  ld_lambda liftingdata = lambda /\
  (1 <= ld_r liftingdata)%nat.
Proof.
  intros H. destruct (computeLiftingData_ok set snf _ lambda liftingdata H) as [Hok Hl].
  split; [exact Hok|]. split; [exact Hl|].
  destruct Hok as (_ & _ & _ & _ & _ & H1 & H2 & _). lia.
Qed.

Lemma computeLiftingData_valid_data_fits_witness :
  exists liftingdata : LIFTINGDATA,
    computeLiftingData SCIP_DEFAULT_SET example_snf [1%Z; 1%Z] 2 = Some liftingdata /\
    liftingdata_ok SCIP_DEFAULT_SET liftingdata /\
    ld_lambda liftingdata = 2 /\ (1 <= ld_r liftingdata)%nat.
Proof.
  eexists. split; [vm_compute; reflexivity|].
  apply (computeLiftingData_valid_data_fits SCIP_DEFAULT_SET example_snf [1%Z; 1%Z] 2).
  vm_compute. reflexivity.
Defined.

(** the partial sums of [m] grow faster than the multiples of lambda *)
Lemma liftingdata_M_above (set : SCIP_SET) (liftingdata : LIFTINGDATA) :
  0 <= num_epsilon set ->
  liftingdata_ok set liftingdata ->
  forall i : nat,
    (i <= ld_r liftingdata)%nat ->
    natQ i * ld_lambda liftingdata <= arr_get (ld_M liftingdata) i /\
    ((0 < i)%nat -> natQ i * ld_lambda liftingdata < arr_get (ld_M liftingdata) i).
Proof.
  intros Heps (Hlm & _ & HM0 & Hstep & Hgt & _) i.
  induction i as [|i IH]; intros Hi.
  - rewrite HM0. change (natQ 0) with 0. split; [lra|lia].
  - destruct (IH ltac:(lia)) as [IH1 _].
    assert (Hm : ld_lambda liftingdata < arr_get (ld_m liftingdata) i).
    { rewrite Forall_forall in Hgt.
      assert (Hin : In (arr_get (ld_m liftingdata) i) (ld_m liftingdata))
        by (unfold arr_get; apply nth_In; lia).
      specialize (Hgt _ Hin). unfold SCIPisGT, SCIPepsilon in Hgt.
      apply Qlt_bool_iff in Hgt. lra. }
    rewrite (Hstep i ltac:(lia)). rewrite natQ_S.
    split; [|intros _]; lra.
Qed.

(** X20.  For the lifting data that [computeLiftingData] declares valid, the
    lifting function vanishes at zero (with a non-negative epsilon). *)
Theorem evaluateLiftingFunction_zero (set : SCIP_SET) (snf : SNF_RELAXATION)
        (transvarflowcoverstatus : list Z) (lambda : Q) (liftingdata : LIFTINGDATA) :
  0 <= num_epsilon set ->
  computeLiftingData set snf transvarflowcoverstatus lambda = Some liftingdata ->
  evaluateLiftingFunction set liftingdata 0 == 0.
Proof.
  intros Heps H.
  destruct (computeLiftingData_ok set snf _ lambda liftingdata H) as [Hok _].
  pose proof (liftingdata_M_above set liftingdata Heps Hok) as Habove.
  destruct Hok as (Hlm & _ & HM0 & Hstep & Hgt & Ht1 & Htr & _).
  unfold evaluateLiftingFunction.
  assert (E : liftingIndex set (ld_M liftingdata) (ld_r liftingdata)
                           (0 + ld_lambda liftingdata) (ld_r liftingdata) 0 = 0%nat).
  { destruct (ld_r liftingdata) as [|r] eqn:Er; [reflexivity|].
    cbn [liftingIndex]. cbn [Nat.ltb Nat.leb andb].
    destruct (SCIPisGT set (0 + ld_lambda liftingdata) (arr_get (ld_M liftingdata) 1)) eqn:Eg;
      [|reflexivity].
    exfalso. unfold SCIPisGT, SCIPepsilon in Eg. apply Qlt_bool_iff in Eg.
    destruct (Habove 1%nat ltac:(lia)) as [_ H1]. specialize (H1 ltac:(lia)).
    change (natQ 1) with 1 in H1. lra. }
  rewrite E.
  destruct (Nat.ltb_spec 0 (ld_t liftingdata)) as [_|Hge]; [|lia].
  rewrite HM0.
  assert (Hle : SCIPisLE set 0 0 = true).
  { unfold SCIPisLE, SCIPepsilon. apply Qle_bool_iff. lra. }
  rewrite Hle. change (natQ 0) with 0. lra.
Qed.

Lemma evaluateLiftingFunction_zero_witness :
  exists liftingdata : LIFTINGDATA,
    computeLiftingData SCIP_DEFAULT_SET example_snf [1%Z; 1%Z] 2 = Some liftingdata /\
    evaluateLiftingFunction SCIP_DEFAULT_SET liftingdata 0 == 0.
Proof.
  eexists. split; [vm_compute; reflexivity|].
  apply (evaluateLiftingFunction_zero SCIP_DEFAULT_SET example_snf [1%Z; 1%Z] 2).
  - unfold Qle; simpl; lia.
  - vm_compute. reflexivity.
Defined.

(** X21.  For the lifting data that [computeLiftingData] declares valid and a
    variable upper bound coefficient that is not negative,
    [getAlphaAndBeta] answers either alpha = 0 with beta = 0, or alpha = 1
    with a positive beta (with a non-negative epsilon). *)
Theorem getAlphaAndBeta_beta_positive (set : SCIP_SET) (snf : SNF_RELAXATION)
        (transvarflowcoverstatus : list Z) (lambda : Q) (liftingdata : LIFTINGDATA)
        (vubcoef : Q) :
  0 <= num_epsilon set ->
  computeLiftingData set snf transvarflowcoverstatus lambda = Some liftingdata ->
  0 <= vubcoef ->
  let ab := getAlphaAndBeta set liftingdata vubcoef in
  (fst ab = 0%Z /\ snd ab = 0) \/ (fst ab = 1%Z /\ 0 < snd ab).
Proof.
  intros Heps H Hv.
  destruct (computeLiftingData_ok set snf _ lambda liftingdata H) as [Hok _].
  pose proof (liftingdata_M_above set liftingdata Heps Hok) as Habove.
  destruct Hok as (_ & _ & HM0 & _).
  cbv zeta. unfold getAlphaAndBeta.
  destruct (liftingIndex_spec set (ld_M liftingdata) (ld_r liftingdata)
              (vubcoef + ld_lambda liftingdata) (ld_r liftingdata) 0 ltac:(lia))
    as (_ & Hir & _).
  set (i := liftingIndex set (ld_M liftingdata) (ld_r liftingdata)
                         (vubcoef + ld_lambda liftingdata) (ld_r liftingdata) 0) in *.
  clearbody i.
  destruct (SCIPisLT set vubcoef (arr_get (ld_M liftingdata) i)) eqn:Elt;
    [right|left; split; reflexivity].
  cbn [fst snd]. split; [reflexivity|].
  unfold SCIPisLT, SCIPepsilon in Elt. apply Qlt_bool_iff in Elt.
  destruct i as [|i].
  - rewrite HM0 in Elt. lra.
  - destruct (Habove (S i) Hir) as [_ Hs]. specialize (Hs ltac:(lia)). lra.
Qed.

Lemma getAlphaAndBeta_beta_positive_witness :
  exists liftingdata : LIFTINGDATA,
    computeLiftingData SCIP_DEFAULT_SET example_snf [1%Z; 1%Z] 2 = Some liftingdata /\
    let ab := getAlphaAndBeta SCIP_DEFAULT_SET liftingdata 3 in
    (fst ab = 0%Z /\ snd ab = 0) \/ (fst ab = 1%Z /\ 0 < snd ab).
Proof.
  eexists. split; [vm_compute; reflexivity|].
  apply (getAlphaAndBeta_beta_positive SCIP_DEFAULT_SET example_snf [1%Z; 1%Z] 2).
  - unfold Qle; simpl; lia.
  - vm_compute. reflexivity.
  - unfold Qle; simpl; lia.
Defined.
(* ================================================================== *)
(** ** Flow cover: integral values and the approximate knapsack solver *)
(* ================================================================== *)

Lemma relDiff_nonpos (a b : Q) : a <= b -> SCIPrelDiff a b <= 0.
Proof.
  intros H. destruct (relDiff_quot a b) as (E & Hq & _). rewrite E.
  apply Qle_shift_div_r; lra.
Qed.

Lemma relDiff_nonneg (a b : Q) : b <= a -> 0 <= SCIPrelDiff a b.
Proof.
  intros H. destruct (relDiff_quot a b) as (E & Hq & _). rewrite E.
  apply Qle_shift_div_l; lra.
Qed.

Lemma relDiff_same (a b : Q) : a == b -> SCIPrelDiff a b == 0.
Proof.
  intros H. apply Qle_antisym; [apply relDiff_nonpos|apply relDiff_nonneg]; lra.
Qed.

Lemma longint_of_real_in_range (z : Z) :
  (SCIP_LONGINT_MIN <= z <= SCIP_LONGINT_MAX)%Z -> longint_of_real z = z.
Proof.
  intros [H1 H2]. unfold longint_of_real.
  apply Z.leb_le in H1. apply Z.leb_le in H2. rewrite H1, H2. reflexivity.
Qed.

Lemma Qfloor_Qceiling_in_range (x : Q) :
  inject_Z SCIP_LONGINT_MIN <= x -> x <= inject_Z SCIP_LONGINT_MAX ->
  (SCIP_LONGINT_MIN <= Qfloor x <= SCIP_LONGINT_MAX)%Z /\
  (SCIP_LONGINT_MIN <= Qceiling x <= SCIP_LONGINT_MAX)%Z.
Proof.
  intros Hlo Hhi.
  pose proof (Qfloor_le x) as F1. pose proof (Qle_ceiling x) as C1.
  assert (F2 : (SCIP_LONGINT_MIN <= Qfloor x)%Z).
  { rewrite <- (Qfloor_Z SCIP_LONGINT_MIN). apply Qfloor_resp_le. exact Hlo. }
  assert (C2 : (Qceiling x <= SCIP_LONGINT_MAX)%Z).
  { rewrite <- (Qceiling_Z SCIP_LONGINT_MAX). apply Qceiling_resp_le. exact Hhi. }
  pose proof (Qfloor_le x) as F3. pose proof (Qle_ceiling x) as C3.
  assert (F4 : (Qfloor x <= SCIP_LONGINT_MAX)%Z).
  { rewrite Zle_Qle. apply (Qle_trans _ x); assumption. }
  assert (C4 : (SCIP_LONGINT_MIN <= Qceiling x)%Z).
  { rewrite Zle_Qle. apply (Qle_trans _ x); assumption. }
  split; split; assumption.
Qed.

(** X22.  With tolerances [mindelta <= 0 <= maxdelta] and a scaled value
    within the range of [SCIP_Longint]: when [isIntegralScalar] accepts a
    value and a scalar, the relative difference between the scaled value
    and the integer that [getIntegralVal] returns lies in
    [mindelta, maxdelta]; and a scaled value that is an integer is accepted
    and returned as it is. *)
Theorem getIntegralVal_within_tolerances (val scalar mindelta maxdelta : Q) :
  mindelta <= 0 ->
  0 <= maxdelta ->
  inject_Z SCIP_LONGINT_MIN <= val * scalar ->
  val * scalar <= inject_Z SCIP_LONGINT_MAX ->
  (isIntegralScalar val scalar mindelta maxdelta = true ->
   mindelta <= SCIPrelDiff (val * scalar)
                           (inject_Z (getIntegralVal val scalar mindelta maxdelta)) /\
   SCIPrelDiff (val * scalar)
               (inject_Z (getIntegralVal val scalar mindelta maxdelta)) <= maxdelta) /\
  (forall z : Z,
      val * scalar == inject_Z z ->
      isIntegralScalar val scalar mindelta maxdelta = true /\
      getIntegralVal val scalar mindelta maxdelta = z).
Proof.
  intros Hmin Hmax Hlo Hhi.
  destruct (Qfloor_Qceiling_in_range (val * scalar) Hlo Hhi) as [HF HC].
  split.
  - unfold isIntegralScalar, getIntegralVal. cbv zeta. intros H.
    rewrite (longint_of_real_in_range _ HF), (longint_of_real_in_range _ HC).
    destruct (Qle_bool mindelta (SCIPrelDiff (val * scalar)
                                             (inject_Z (Qceiling (val * scalar))))) eqn:Eup.
    + apply Qle_bool_iff in Eup. split; [exact Eup|].
      pose proof (relDiff_nonpos _ _ (Qle_ceiling (val * scalar))). lra.
    + rewrite orb_false_r in H. apply Qle_bool_iff in H. split; [|exact H].
      pose proof (relDiff_nonneg _ _ (Qfloor_le (val * scalar))). lra.
  - intros z Hz.
    assert (Ec : Qceiling (val * scalar) = z).
    { rewrite (Qceiling_comp _ _ Hz). apply Qceiling_Z. }
    assert (Eup : Qle_bool mindelta (SCIPrelDiff (val * scalar)
                                                 (inject_Z (Qceiling (val * scalar)))) = true).
    { apply Qle_bool_iff. rewrite Ec. pose proof (relDiff_same _ _ Hz). lra. }
    unfold isIntegralScalar, getIntegralVal. cbv zeta. rewrite Eup.
    split; [apply orb_true_r|].
    rewrite (longint_of_real_in_range _ HC). exact Ec.
Qed.

Lemma getIntegralVal_within_tolerances_witness :
  (- (1 # 10)) <= 0 /\ 0 <= 1 # 10 /\
  inject_Z SCIP_LONGINT_MIN <= (21 # 20) * 2 /\
  (21 # 20) * 2 <= inject_Z SCIP_LONGINT_MAX /\
  isIntegralScalar (21 # 20) 2 (- (1 # 10)) (1 # 10) = true /\
  - (1 # 10) <= SCIPrelDiff ((21 # 20) * 2)
                            (inject_Z (getIntegralVal (21 # 20) 2 (- (1 # 10)) (1 # 10))) /\
  SCIPrelDiff ((21 # 20) * 2)
              (inject_Z (getIntegralVal (21 # 20) 2 (- (1 # 10)) (1 # 10))) <= 1 # 10.
Proof.
  assert (H1 : (- (1 # 10)) <= 0) by (unfold Qle; simpl; lia).
  assert (H2 : 0 <= 1 # 10) by (unfold Qle; simpl; lia).
  assert (H3 : inject_Z SCIP_LONGINT_MIN <= (21 # 20) * 2) by (vm_compute; discriminate).
  assert (H4 : (21 # 20) * 2 <= inject_Z SCIP_LONGINT_MAX) by (vm_compute; discriminate).
  assert (H5 : isIntegralScalar (21 # 20) 2 (- (1 # 10)) (1 # 10) = true) by reflexivity.
  split; [exact H1|]. split; [exact H2|]. split; [exact H3|]. split; [exact H4|].
  split; [exact H5|].
  exact (proj1 (getIntegralVal_within_tolerances (21 # 20) 2 (- (1 # 10)) (1 # 10)
                  H1 H2 H3 H4) H5).
Defined.

(** *** The approximate knapsack solver *)

Section ApproximateKnapsack.
Variable SCIPselectWeightedDownRealRealInt : list KPITEM -> Q -> list KPITEM.
Variable set : SCIP_SET.
(** the weight of an item, by its number *)
Variable w : nat -> Q.

(** the selection around the weighted median rearranges the items *)
Hypothesis Hselect : forall (entries : list KPITEM) (capacity : Q),
  Permutation (SCIPselectWeightedDownRealRealInt entries capacity) entries.

Lemma itemsWeight_snoc (sol : list nat) (j : nat) :
  itemsWeight w (sol ++ [j]) = itemsWeight w sol + w j.
Proof. unfold itemsWeight. rewrite fold_left_app. reflexivity. Qed.

Lemma selectWhileFit_fits (capacity : Q) (items : list KPITEM) :
  forall (s : Q) (sol : list nat),
    Forall (fun it => kp_weight it = w (kp_item it)) items ->
    s = itemsWeight w sol ->
    sol = [] \/ SCIPisFeasLT set s capacity = true ->
    let r := selectWhileFit set capacity items s sol in
    Forall (fun it => kp_weight it = w (kp_item it)) (fst (fst r)) /\
    snd (fst r) = itemsWeight w (snd r) /\
    (snd r = [] \/ SCIPisFeasLT set (snd (fst r)) capacity = true) /\
    snd r ++ map kp_item (fst (fst r)) = sol ++ map kp_item items.
Proof.
  induction items as [|it items IH]; intros s sol HW Hsum Hs; cbn [selectWhileFit].
  - cbn [fst snd]. repeat split; assumption.
  - inversion HW as [|a l Hit HW']; subst a l.
    destruct (SCIPisFeasLT set (s + kp_weight it) capacity) eqn:E.
    + destruct (IH (s + kp_weight it) (sol ++ [kp_item it]) HW') as (R1 & R2 & R3 & R4).
      * rewrite itemsWeight_snoc, Hsum, Hit. reflexivity.
      * right. exact E.
      * repeat split; try assumption.
        rewrite R4. rewrite <- app_assoc. reflexivity.
    + cbn [fst snd]. repeat split; assumption.
Qed.

Lemma selectIfFit_fits (capacity : Q) (items : list KPITEM) :
  forall (s : Q) (sol nonsol : list nat),
    Forall (fun it => kp_weight it = w (kp_item it)) items ->
    s = itemsWeight w sol ->
    sol = [] \/ SCIPisFeasLT set s capacity = true ->
    let kp := selectIfFit set capacity items s sol nonsol in
    (solitems kp = [] \/
     SCIPisFeasLT set (itemsWeight w (solitems kp)) capacity = true) /\
    Permutation (solitems kp ++ nonsolitems kp) (sol ++ nonsol ++ map kp_item items).
Proof.
  induction items as [|it items IH]; intros s sol nonsol HW Hsum Hs; cbn [selectIfFit].
  - cbn [solitems nonsolitems map]. rewrite app_nil_r. split; [|apply Permutation_refl].
    rewrite <- Hsum. exact Hs.
  - inversion HW as [|a l Hit HW']; subst a l.
    destruct (SCIPisFeasLT set (s + kp_weight it) capacity) eqn:E.
    + destruct (IH (s + kp_weight it) (sol ++ [kp_item it]) nonsol HW') as (R1 & R2).
      * rewrite itemsWeight_snoc, Hsum, Hit. reflexivity.
      * right. exact E.
      * split; [exact R1|].
        rewrite R2. rewrite <- app_assoc. cbn [map app].
        apply Permutation_app_head. apply Permutation_middle.
    + destruct (IH s sol (nonsol ++ [kp_item it]) HW' Hsum Hs) as (R1 & R2).
      split; [exact R1|].
      rewrite R2. rewrite <- app_assoc. apply Permutation_refl.
Qed.

(** X23.  The greedy knapsack solver sorts every item into the solution or
    into the rest, and a solution that is not empty weighs feasibly less
    than the capacity.  The weights are the ones of the items, summed in the
    order of the solution; of the selection around the weighted median only
    a rearrangement of the items is assumed. *)
Theorem SCIPsolveKnapsackApproximatelyLT_partition_fits (entries : list KPITEM)
        (capacity : Q) :
  Forall (fun it => kp_weight it = w (kp_item it)) entries ->
  let kp := fst (SCIPsolveKnapsackApproximatelyLT SCIPselectWeightedDownRealRealInt set
                   entries capacity) in
  Permutation (solitems kp ++ nonsolitems kp) (map kp_item entries) /\
  (solitems kp = [] \/
   SCIPisFeasLT set (itemsWeight w (solitems kp)) capacity = true).
Proof.
  intros HW. unfold SCIPsolveKnapsackApproximatelyLT.
  set (entries1 := map _ entries).
  set (sorted := SCIPselectWeightedDownRealRealInt entries1 _).
  assert (HW1 : Forall (fun it => kp_weight it = w (kp_item it)) entries1).
  { unfold entries1. apply Forall_map. cbn [kp_weight kp_item]. exact HW. }
  assert (Hitems1 : map kp_item entries1 = map kp_item entries).
  { unfold entries1. rewrite map_map. reflexivity. }
  assert (Hperm : Permutation sorted entries1) by apply Hselect.
  assert (HWs : Forall (fun it => kp_weight it = w (kp_item it)) sorted).
  { apply (Permutation_Forall (Permutation_sym Hperm)). exact HW1. }
  assert (Hpitems : Permutation (map kp_item sorted) (map kp_item entries)).
  { rewrite <- Hitems1. apply Permutation_map. exact Hperm. }
  destruct (selectWhileFit_fits capacity sorted 0 [] HWs ltac:(reflexivity)
              (or_introl eq_refl)) as (R1 & R2 & R3 & R4).
  destruct (selectWhileFit set capacity sorted 0 []) as [[rest s1] sol1].
  cbn [fst snd] in R1, R2, R3, R4. cbv zeta. cbn [fst].
  destruct (selectIfFit_fits capacity rest s1 sol1 [] R1 R2 R3) as (S1 & S2).
  split; [|exact S1].
  rewrite S2. cbn [app]. rewrite R4. exact Hpitems.
Qed.

End ApproximateKnapsack.

Lemma SCIPsolveKnapsackApproximatelyLT_partition_fits_witness :
  let entries := [mkItem 0 1 0 3; mkItem 0 1 1 4; mkItem 0 1 2 2] in
  let w := fun j : nat => nth j [3; 4; 2] 0 in
  let kp := fst (SCIPsolveKnapsackApproximatelyLT example_select SCIP_DEFAULT_SET
                   entries 6) in
  Permutation (solitems kp ++ nonsolitems kp) (map kp_item entries) /\
  (solitems kp = [] \/
   SCIPisFeasLT SCIP_DEFAULT_SET (itemsWeight w (solitems kp)) 6 = true).
Proof.
  intros entries w.
  apply (SCIPsolveKnapsackApproximatelyLT_partition_fits example_select SCIP_DEFAULT_SET w
           (fun e _ => Permutation_refl e) entries 6).
  repeat constructor.
Defined.
